(** * NPS Visitor Analytics API: the aggregate query layer

    A shallow embedding of [backend/main.py] (the FastAPI handlers Q1-Q11 and
    the park-details lookup) over the tables of [backend/models.py], and the
    properties of the query layer stated in the specification.

    - Python [int] is [Z]; Python [float] is the kernel's binary64 [float].
    - Python [str] is [string]; identifiers and names are taken to be ASCII,
      so [str.upper]/[str.lower] are the ASCII case maps.
    - A table is the list of its rows; a statement run by [session.exec] is a
      function of the store, written with joins, filters, grouping, ordering
      and limits on lists.  The engine is SQLite ([backend/database.py]):
      NULL sorts lowest, [SUM] of no non-NULL value is NULL, [AVG] is a
      binary64 quotient, a negative [LIMIT] is no limit.  SQLite integers are
      not bounded here (they are [Z]).
    - A handler runs in a small monad that threads the read-only store,
      counts the statements executed, and either returns or raises. *)

From Stdlib Require Import ZArith Lia.
From Stdlib Require Import Floats.PrimFloat Floats.SpecFloat Floats.FloatOps Floats.FloatAxioms.
From Stdlib Require Import Strings.Ascii.
From stdpp Require Import base option list strings gmap sorting.

Open Scope Z_scope.

(** ** Python values *)

(** Exceptions a handler can end with.  [HTTPException] is the one the
    handlers raise themselves; the others are raised by the interpreter
    and reach the client as a 500 response. *)
Inductive exn :=
| HTTPException (status_code : Z) (detail : string)
| TypeError
| OverflowError
| ZeroDivisionError
| ValueError.

Inductive outcome (A : Type) :=
| Return (a : A)
| Raise (e : exn).
Arguments Return {A} a.
Arguments Raise {A} e.

#[global] Instance outcome_ret : MRet outcome := λ A a, Return a.
#[global] Instance outcome_bind : MBind outcome := λ A B f m,
  match m with Return a => f a | Raise e => Raise e end.
Arguments outcome_ret _ _ /.
Arguments outcome_bind _ _ _ !_ /.

Module Py.

(** [str.upper()] and [str.lower()] on ASCII text. *)
Definition ascii_upper (c : Ascii.ascii) : Ascii.ascii :=
  let n := Ascii.N_of_ascii c in
  if ((97 <=? n) && (n <=? 122))%N then Ascii.ascii_of_N (n - 32) else c.

Definition ascii_lower (c : Ascii.ascii) : Ascii.ascii :=
  let n := Ascii.N_of_ascii c in
  if ((65 <=? n) && (n <=? 90))%N then Ascii.ascii_of_N (n + 32) else c.

Fixpoint upper (s : string) : string :=
  match s with
  | EmptyString => EmptyString
  | String c s' => String (ascii_upper c) (upper s')
  end.

Fixpoint lower (s : string) : string :=
  match s with
  | EmptyString => EmptyString
  | String c s' => String (ascii_lower c) (lower s')
  end.

(** [s in t] on strings: [s] occurs in [t] as a contiguous substring. *)
Fixpoint contains (s t : string) : bool :=
  String.prefix s t ||
  match t with
  | EmptyString => false
  | String _ t' => contains s t'
  end.

(** [x or 0] for an optional integer. *)
Definition or_0 (x : option Z) : Z := default 0 x.

(** [l[:n]]: the first [n] elements; a negative [n] counts from the end. *)
Definition slice_to {A} (n : Z) (l : list A) : list A :=
  if n <? 0 then take (length l - Z.to_nat (- n)) l else take (Z.to_nat n) l.

(** [sum(l)] over a list that may hold [None]: [0 + None] is a TypeError. *)
Definition sum (l : list (option Z)) : outcome Z :=
  foldl (λ acc x, a ← acc; match x with Some v => Return (a + v) | None => Raise TypeError end)
        (Return 0) l.

(** *** Floats *)

(** The binary64 value nearest to an integer (ties to even); infinite
    when the integer is out of range. *)
Definition float_of_Z (z : Z) : float :=
  SF2Prim (binary_normalize prec emax z 0 false).

(** [float(z)], also the implicit conversion of an [int] operand of a
    mixed [int]/[float] operation. *)
Definition float_of_int (z : Z) : outcome float :=
  let f := float_of_Z z in
  if is_infinity f then Raise OverflowError else Return f.

(** [a / b] on two [int]s: the correctly rounded quotient.  The quotient
    is computed to at least 56 bits with a sticky bit, then rounded once. *)
Definition int_truediv (a b : Z) : outcome float :=
  if b =? 0 then Raise ZeroDivisionError else
  let neg := xorb (a <? 0) (b <? 0) in
  let a' := Z.abs a in
  let b' := Z.abs b in
  let s := Z.max 0 (56 + Z.log2 b' - Z.log2 a') in
  let q := (a' * 2 ^ s) / b' in
  let r := (a' * 2 ^ s) mod b' in
  let m := 2 * q + (if r =? 0 then 0 else 1) in
  let f := SF2Prim (binary_normalize prec emax (if neg then - m else m) (- s - 1) false) in
  if is_infinity f then Raise OverflowError else Return f.

(** [x / y] on floats. *)
Definition float_truediv (x y : float) : outcome float :=
  if (y =? 0)%float then Raise ZeroDivisionError else Return (x / y)%float.

(** [max(x, 0.0)]: the first argument unless the second is greater. *)
Definition max_0 (x : float) : float :=
  if (x <? 0)%float then 0%float else x.

(** [math.sqrt]. *)
Definition sqrt (x : float) : outcome float :=
  if (x <? 0)%float then Raise ValueError else Return (PrimFloat.sqrt x).

(** [n / d] rounded to the nearest integer, ties to the even one ([0 < d]). *)
Definition round_half_even (n d : Z) : Z :=
  let q := n / d in
  let r := n mod d in
  if 2 * r <? d then q
  else if d <? 2 * r then q + 1
  else if Z.even q then q else q + 1.

(** [round(x)] on a float: an [int], exact, ties to even. *)
Definition round (x : float) : outcome Z :=
  match Prim2SF x with
  | S754_zero _ => Return 0
  | S754_finite s m e =>
      let v := if 0 <=? e then Z.pos m * 2 ^ e
               else round_half_even (Z.pos m) (2 ^ (- e)) in
      Return (if s then - v else v)
  | S754_infinity _ => Raise OverflowError
  | S754_nan => Raise ValueError
  end.

End Py.


(** ** The tables ([backend/models.py]) *)

Module Region.
Record t := mk {
  region_id : string;
  region_name : string;
  description : option string;
}.
End Region.

Module Park.
Record t := mk {
  park_code : string;
  park_name : string;
  state : string;
  designation : string;
  region_id : option string;
  latitude : option float;
  longitude : option float;
  description : option string;
  website : option string;
  boundary : option string;
}.
End Park.

Module MonthlyVisit.
Record t := mk {
  park_code : string;
  year : Z;
  month : Z;
  recreation_visits : option Z;
  non_recreation_visits : option Z;
  total_visits : option Z;
  concessioner_lodging : option Z;
  concessioner_camping : option Z;
  tent_campers : option Z;
  rv_campers : option Z;
  backcountry : option Z;
  nonrecreation_overnight_stays : option Z;
  miscellaneous_overnight_stays : option Z;
}.
End MonthlyVisit.

(** The database: one list of rows per table. *)
Record Store := {
  regions : list Region.t;
  parks : list Park.t;
  monthly_visits : list MonthlyVisit.t;
}.

(** The schema's constraints, each stated on its own so that a theorem
    assumes only the ones it needs. *)
Definition region_pk (st : Store) : Prop :=
  NoDup (Region.region_id <$> regions st).

Definition park_pk (st : Store) : Prop :=
  NoDup (Park.park_code <$> parks st).

Definition monthly_visit_pk (st : Store) : Prop :=
  NoDup ((λ m, (MonthlyVisit.park_code m, MonthlyVisit.year m, MonthlyVisit.month m))
           <$> monthly_visits st).

(** [park.region_id] references [region.region_id]. *)
Definition park_region_fk (st : Store) : Prop :=
  ∀ p rid, p ∈ parks st → Park.region_id p = Some rid →
    rid ∈ Region.region_id <$> regions st.

(** ** The SQL the statements are built from *)

Module SQL.

(** Equality of binary64 values, for grouping keys that hold coordinates. *)
#[global] Instance float_eq_dec : EqDecision float.
Proof.
  intros x y. destruct (Leibniz.eqb x y) eqn:E.
  - left. by apply FloatAxioms.Leibniz.eqb_spec.
  - right. intros H%FloatAxioms.Leibniz.eqb_spec. congruence.
Defined.

(** [l JOIN r ON on]: the pairs of the product that satisfy [on], in
    nested-loop order. *)
Definition join {A B} (on : A * B → Prop) `{∀ x, Decision (on x)}
    (l : list A) (r : list B) : list (A * B) :=
  filter on (a ← l; b ← r; [(a, b)]).

(** [l LEFT OUTER JOIN r ON on]: a left row with no partner is kept, paired
    with NULLs. *)
Definition outer_join {A B} (on : A * B → Prop) `{∀ x, Decision (on x)}
    (l : list A) (r : list B) : list (A * option B) :=
  a ← l;
  match filter (λ b, on (a, b)) r with
  | [] => [(a, None)]
  | bs => (λ b, (a, Some b)) <$> bs
  end.

(** [GROUP BY key]: one group per distinct key, holding the rows with that
    key.  The order of the groups is the engine's choice. *)
Definition group_by {K} `{EqDecision K} {A} (key : A → K) (l : list A)
    : list (K * list A) :=
  (λ k, (k, filter (λ a, key a = k) l)) <$> remove_dups (key <$> l).

(** [SUM]: NULLs are skipped; NULL when nothing is left. *)
Definition sum (l : list (option Z)) : option Z :=
  match omap id l with
  | [] => None
  | vs => Some (foldr Z.add 0 vs)
  end.

(** [COUNT(col)]: the rows where the column is not NULL. *)
Definition count {A} (l : list (option A)) : Z :=
  Z.of_nat (length (omap id l)).

(** [AVG] of an integer column: the sum over the count, as binary64. *)
Definition avg (l : list (option Z)) : option float :=
  match omap id l with
  | [] => None
  | vs => Some (PrimFloat.div (Py.float_of_Z (foldr Z.add 0 vs))
                              (Py.float_of_Z (Z.of_nat (length vs))))
  end.

(** [COALESCE(x, d)]. *)
Definition coalesce (x : option Z) (d : Z) : Z := default d x.

(** Comparisons against a parameter: NULL compares as unknown, which a
    WHERE or HAVING clause treats as false. *)
Definition ge (x : option Z) (y : Z) : Prop :=
  match x with Some v => y ≤ v | None => False end.

Definition gt (x : option Z) (y : Z) : Prop :=
  match x with Some v => y < v | None => False end.

#[global] Instance ge_dec x y : Decision (ge x y).
Proof. destruct x; simpl; apply _. Defined.

#[global] Instance gt_dec x y : Decision (gt x y).
Proof. destruct x; simpl; apply _. Defined.

(** A REAL against an INTEGER, compared exactly. *)
Definition real_ge (x : option float) (y : Z) : bool :=
  match x with
  | None => false
  | Some f =>
      match Prim2SF f with
      | S754_zero _ => y <=? 0
      | S754_finite s m e =>
          let n := if s then Z.neg m else Z.pos m in
          if 0 <=? e then y <=? n * 2 ^ e else y * 2 ^ (- e) <=? n
      | S754_infinity s => negb s
      | S754_nan => false
      end
  end.

(** The sort order of column values: NULL first, then by value. *)
Definition le_int (x y : option Z) : bool :=
  match x, y with
  | None, _ => true
  | Some _, None => false
  | Some a, Some b => a <=? b
  end.

Definition le_real (x y : option float) : bool :=
  match x, y with
  | None, _ => true
  | Some _, None => false
  | Some a, Some b => (a <=? b)%float
  end.

(** [LIMIT n]: a negative limit is no limit. *)
Definition limit {A} (n : Z) (l : list A) : list A :=
  if n <? 0 then l else take (Z.to_nat n) l.

(** [s LIKE pat]: [%] matches any run of characters, [_] any one. *)
Fixpoint like (pat s : string) {struct pat} : bool :=
  match pat with
  | EmptyString => match s with EmptyString => true | _ => false end
  | String c pat' =>
      if Ascii.eqb c "%"%char then
        (fix any (s : string) : bool :=
           like pat' s || match s with EmptyString => false | String _ s' => any s' end) s
      else
        match s with
        | EmptyString => false
        | String d s' => (Ascii.eqb c "_"%char || Ascii.eqb c d) && like pat' s'
        end
  end.

(** [col.ilike(pat)]: LIKE on the lower-cased operands.  SQLite folds the
    letters A to Z only, as [Py.lower] does. *)
Definition ilike (s pat : string) : bool := like (Py.lower pat) (Py.lower s).

End SQL.

(** ** Sorting

    A stable insertion sort: [list.sort] is stable, and so is the model of
    [ORDER BY].  [le a b] says that [a] may come before [b]. *)

Section sorting.
Context {A : Type} (le : A → A → bool).

Fixpoint insert_by (a : A) (l : list A) : list A :=
  match l with
  | [] => [a]
  | b :: l' => if le a b then a :: l else b :: insert_by a l'
  end.

Definition sort_by (l : list A) : list A := foldr insert_by [] l.

End sorting.

(** [ORDER BY key] and [ORDER BY key DESC] on a column whose order is [le];
    [list.sort(key=..., reverse=True)] is the second on integers. *)
Definition order_by {A B} (le : B → B → bool) (key : A → B) : list A → list A :=
  sort_by (λ a b, le (key a) (key b)).

Definition order_by_desc {A B} (le : B → B → bool) (key : A → B) : list A → list A :=
  sort_by (λ a b, le (key b) (key a)).

(** ** Handlers

    A handler reads the store through [exec], which runs one statement and
    counts it; it ends with a value or with an exception. *)

Definition Handler (A : Type) : Type := Store → outcome A * nat.

#[global] Instance handler_ret : MRet Handler := λ A a st, (Return a, 0%nat).

#[global] Instance handler_bind : MBind Handler := λ A B f m st,
  match m st with
  | (Return a, n) => let r := f a st in (r.1, (n + r.2)%nat)
  | (Raise e, n) => (Raise e, n)
  end.

(** [session.exec(stmt).all()] *)
Definition exec {A} (stmt : Store → A) : Handler A := λ st, (Return (stmt st), 1%nat).

(** [raise HTTPException(status_code=..., detail=...)] *)
Definition raise {A} (e : exn) : Handler A := λ st, (Raise e, 0%nat).

(** A computation that does not touch the session. *)
Definition pure {A} (o : outcome A) : Handler A := λ st, (o, 0%nat).

(** What the client receives, and how many statements ran to produce it. *)
Definition response {A} (h : Handler A) (st : Store) : outcome A := (h st).1.

Definition statements_executed {A} (h : Handler A) (st : Store) : nat := (h st).2.

(** An optional filter: no constraint when the parameter is absent. *)
Definition when {A} (v : option A) (P : A → Prop) : Prop :=
  match v with Some a => P a | None => True end.

#[global] Instance when_dec {A} (v : option A) (P : A → Prop) `{∀ a, Decision (P a)} :
  Decision (when v P).
Proof. destruct v; simpl; apply _. Defined.

(** ** Response models *)

Module MonthlyThresholdOut.
Record t := mk {
  month : Z;
  total_visits : Z;
  above_threshold : bool;
}.
End MonthlyThresholdOut.

Module TopParkOut.
Record t := mk {
  rank : Z;
  park_code : string;
  park_name : string;
  year : Z;
  annual_total_visits : Z;
}.
End TopParkOut.

Module AnnualParkVisitsOut.
Record t := mk {
  park_code : string;
  park_name : string;
  region_id : option string;
  region_name : option string;
  year : Z;
  annual_total_visits : Z;
  state : option string;
  latitude : option float;
  longitude : option float;
}.
End AnnualParkVisitsOut.

Module ParkAboveAverageOut.
Record t := mk {
  park_code : string;
  park_name : string;
  region_id : option string;
  region_name : option string;
  year : Z;
  annual_total_visits : Z;
  system_average_visits : Z;
  difference_from_average : Z;
  percent_above_average : Z;
}.
End ParkAboveAverageOut.

Module RegionAnnualVisitsOut.
Record t := mk {
  region_id : string;
  region_name : string;
  year : Z;
  annual_total_visits : Z;
  rank : Z;
}.
End RegionAnnualVisitsOut.

Module AvgMonthlyVisitsOut.
Record t := mk {
  park_code : string;
  park_name : string;
  region_id : option string;
  region_name : option string;
  start_year : Z;
  end_year : Z;
  avg_monthly_visits : Z;
}.
End AvgMonthlyVisitsOut.

Module MonthToMonthChangeOut.
Record t := mk {
  month : Z;
  total_visits : Z;
  change_from_previous : option Z;
}.
End MonthToMonthChangeOut.

Module GrowthOut.
Record t := mk {
  park_code : string;
  park_name : string;
  region_id : string;
  region_name : string;
  start_year : Z;
  end_year : Z;
  start_total : Z;
  end_total : Z;
  growth_percent : Z;
}.
End GrowthOut.

Module VariabilityOut.
Record t := mk {
  park_code : string;
  park_name : string;
  region_id : option string;
  region_name : option string;
  year : Z;
  avg_monthly_visits : Z;
  std_dev_monthly_visits : Z;
  months_with_data : Z;
}.
End VariabilityOut.

Module MetricParkOut.
Record t := mk {
  park_code : string;
  park_name : string;
  region_id : option string;
  region_name : option string;
  year : Z;
  metric_total : Z;
}.
End MetricParkOut.

Module ParkDetailOut.
Record t := mk {
  park_code : string;
  park_name : string;
  state : string;
  designation : string;
  region_id : option string;
  region_name : option string;
  latitude : option float;
  longitude : option float;
  description : option string;
  website : option string;
  boundary : option string;
}.
End ParkDetailOut.

(** ** Shared pieces of the statements *)

(** [FROM park JOIN monthly_visit ON monthly_visit.park_code = park.park_code] *)
Definition park_visits (st : Store) : list (Park.t * MonthlyVisit.t) :=
  SQL.join (λ x, MonthlyVisit.park_code x.2 = Park.park_code x.1)
           (parks st) (monthly_visits st).

(** [... LEFT OUTER JOIN region ON region.region_id = park.region_id] *)
Definition park_visits_region (st : Store)
    : list (Park.t * MonthlyVisit.t * option Region.t) :=
  SQL.outer_join (λ x, Some (Region.region_id x.2) = Park.region_id x.1.1)
                 (park_visits st) (regions st).

(** [FROM monthly_visit JOIN park ON park.park_code = monthly_visit.park_code] *)
Definition visits_park (st : Store) : list (MonthlyVisit.t * Park.t) :=
  SQL.join (λ x, Park.park_code x.2 = MonthlyVisit.park_code x.1)
           (monthly_visits st) (parks st).

(** [WHERE Region.region_id == region_id], when the parameter is given, on a
    row whose region columns come from the outer join. *)
Definition region_is (region_id : option string) (r : option Region.t) : Prop :=
  when region_id (λ rid, Region.region_id <$> r = Some rid).

#[global] Instance region_is_dec region_id r : Decision (region_is region_id r).
Proof. unfold region_is. apply _. Defined.

(** The exact park code if given, else the partial name if given:
    [if park_code is not None: ... elif query is not None: ...]. *)
Definition park_filter (park_code query : option string) (p : Park.t) : Prop :=
  match park_code with
  | Some c => Park.park_code p = c
  | None =>
      match query with
      | Some q => SQL.ilike (Park.park_name p) ("%" +:+ q +:+ "%")
      | None => True
      end
  end.

#[global] Instance park_filter_dec park_code query p :
  Decision (park_filter park_code query p).
Proof. unfold park_filter. destruct park_code; [apply _|]. destruct query; apply _. Defined.

(** The totals of a group of joined rows. *)
Definition total_visits_of {A} (visit : A → MonthlyVisit.t) (g : list A) : list (option Z) :=
  (MonthlyVisit.total_visits ∘ visit) <$> g.

(** ** The handlers of [backend/main.py]

    Each statement a handler builds is given first, as a function of its
    parameters and the store, with its SQL; the handler follows. *)

(** SELECT park.*, region.* FROM park LEFT OUTER JOIN region
      ON region.region_id = park.region_id
    WHERE park.park_code = :park_code  -- [.first()] *)
Definition details_stmt (park_code : string) (st : Store)
    : option (Park.t * option Region.t) :=
  head (filter (λ x, Park.park_code x.1 = park_code)
          (SQL.outer_join (λ x, Some (Region.region_id x.2) = Park.region_id x.1)
                          (parks st) (regions st))).

(** [GET /parks/{park_code}/details] *)
Definition get_park_details (park_code : string) : Handler ParkDetailOut.t :=
  let park_code := Py.upper park_code in
  result ← exec (details_stmt park_code);
  match result with
  | None => raise (HTTPException 404 ("Park " +:+ park_code +:+ " not found"))
  | Some (park, region) =>
      mret (ParkDetailOut.mk
              (Park.park_code park)
              (Park.park_name park)
              (Park.state park)
              (Park.designation park)
              (Region.region_id <$> region)
              (Region.region_name <$> region)
              (Park.latitude park)
              (Park.longitude park)
              (Park.description park)
              (Park.website park)
              (Park.boundary park))
  end.

(** SELECT month, total_visits FROM monthly_visit
    WHERE park_code = :park_code AND year = :year ORDER BY month *)
Definition monthly_visits_stmt (park_code : string) (year : Z) (st : Store)
    : list (Z * option Z) :=
  (λ m, (MonthlyVisit.month m, MonthlyVisit.total_visits m)) <$>
    order_by Z.leb MonthlyVisit.month
      (filter (λ m, MonthlyVisit.park_code m = park_code ∧ MonthlyVisit.year m = year)
              (monthly_visits st)).

(** Q1: [GET /parks/{park_code}/monthly-visits] *)
Definition park_monthly_visits_with_threshold (park_code : string) (year threshold : Z)
    : Handler (list MonthlyThresholdOut.t) :=
  let park_code := Py.upper park_code in
  rows ← exec (monthly_visits_stmt park_code year);
  match rows with
  | [] => raise (HTTPException 404 "No visits for that park/year")
  | _ =>
      mret ((λ '(month, total),
               let total_int := Py.or_0 total in
               MonthlyThresholdOut.mk month total_int (bool_decide (threshold ≤ total_int)))
              <$> rows)
  end.

(** SELECT park_code, park_name, state, latitude, longitude, region_id,
           region_name, year, SUM(total_visits)
    FROM park JOIN monthly_visit ... LEFT OUTER JOIN region ...
    WHERE year = :year [AND region.region_id = :region_id]
          [AND park.park_code = :park_code | AND park_name ILIKE :query]
    GROUP BY ... [HAVING SUM(total_visits) >= :min_total]
    ORDER BY SUM(total_visits) DESC LIMIT :limit *)
Definition annual_visits_stmt (year : Z) (region_id park_code query : option string)
    (min_total : option Z) (limit : Z) (st : Store)
    : list (string * string * string * option float * option float
            * option string * option string * Z * option Z) :=
  let selected :=
    filter (λ x, MonthlyVisit.year x.1.2 = year
                 ∧ region_is region_id x.2
                 ∧ park_filter park_code query x.1.1)
           (park_visits_region st) in
  let groups :=
    SQL.group_by (λ x, (Park.park_code x.1.1, Park.park_name x.1.1, Park.state x.1.1,
                        Park.latitude x.1.1, Park.longitude x.1.1,
                        Region.region_id <$> x.2, Region.region_name <$> x.2,
                        MonthlyVisit.year x.1.2))
                 selected in
  let totals := (λ g, (g.1, SQL.sum (total_visits_of (λ x, x.1.2) g.2))) <$> groups in
  let kept := filter (λ row, when min_total (SQL.ge row.2)) totals in
  SQL.limit limit (order_by_desc SQL.le_int snd kept).

(** Q2: [GET /annual-visits/parks] *)
Definition annual_visits_by_park (year : Z) (region_id park_code query : option string)
    (min_total : option Z) (limit : Z) : Handler (list AnnualParkVisitsOut.t) :=
  let region_id := Py.upper <$> region_id in
  let park_code := Py.upper <$> park_code in
  rows ← exec (annual_visits_stmt year region_id park_code query min_total limit);
  mret ((λ '(park_code, park_name, state, latitude, longitude, reg_id, reg_name, y,
             annual_total),
           AnnualParkVisitsOut.mk park_code park_name reg_id reg_name y
             (Py.or_0 annual_total) (Some state) latitude longitude)
          <$> rows).

(** [int(round(avg_monthly or 0))]: a NULL or zero average is the integer 0. *)
Definition round_or_0 (avg_monthly : option float) : outcome Z :=
  match avg_monthly with
  | None => Return 0
  | Some f => if is_zero f then Return 0 else Py.round f
  end.

(** SELECT park_code, park_name, region_id, region_name, AVG(total_visits)
    FROM park JOIN monthly_visit ... LEFT OUTER JOIN region ...
    WHERE year BETWEEN :start_year AND :end_year [AND ...]
    GROUP BY ... ORDER BY AVG(total_visits) DESC LIMIT :limit *)
Definition average_monthly_stmt (start_year end_year : Z)
    (region_id park_code query : option string) (limit : Z) (st : Store)
    : list (string * string * option string * option string * option float) :=
  let selected :=
    filter (λ x, (start_year ≤ MonthlyVisit.year x.1.2 ∧ MonthlyVisit.year x.1.2 ≤ end_year)
                 ∧ region_is region_id x.2
                 ∧ park_filter park_code query x.1.1)
           (park_visits_region st) in
  let groups :=
    SQL.group_by (λ x, (Park.park_code x.1.1, Park.park_name x.1.1,
                        Region.region_id <$> x.2, Region.region_name <$> x.2))
                 selected in
  let averages := (λ g, (g.1, SQL.avg (total_visits_of (λ x, x.1.2) g.2))) <$> groups in
  SQL.limit limit (order_by_desc SQL.le_real snd averages).

(** Q3: [GET /visits/parks/average-monthly] *)
Definition average_monthly_visits_by_park (start_year end_year : Z)
    (region_id park_code query : option string) (limit : Z)
    : Handler (list AvgMonthlyVisitsOut.t) :=
  if start_year >? end_year then
    raise (HTTPException 400 "start_year must be <= end_year")
  else
  let region_id := Py.upper <$> region_id in
  let park_code := Py.upper <$> park_code in
  rows ← exec (average_monthly_stmt start_year end_year region_id park_code query limit);
  pure (mapM (λ '(park_code, park_name, reg_id, reg_name, avg_monthly),
                avg_int ← round_or_0 avg_monthly;
                mret (AvgMonthlyVisitsOut.mk park_code park_name reg_id reg_name
                        start_year end_year avg_int))
             rows).

(** ... WHERE year = :year AND month IN (6, 7, 8) [AND region.region_id = :region_id]
    GROUP BY ... HAVING AVG(total_visits) >= :threshold
    ORDER BY AVG(total_visits) DESC *)
Definition peak_season_stmt (year threshold : Z) (region_id : option string) (st : Store)
    : list (string * string * option string * option string * option float) :=
  let selected :=
    filter (λ x, MonthlyVisit.year x.1.2 = year
                 ∧ MonthlyVisit.month x.1.2 ∈ [6; 7; 8]
                 ∧ region_is region_id x.2)
           (park_visits_region st) in
  let groups :=
    SQL.group_by (λ x, (Park.park_code x.1.1, Park.park_name x.1.1,
                        Region.region_id <$> x.2, Region.region_name <$> x.2))
                 selected in
  let averages := (λ g, (g.1, SQL.avg (total_visits_of (λ x, x.1.2) g.2))) <$> groups in
  let kept := filter (λ row, SQL.real_ge row.2 threshold) averages in
  order_by_desc SQL.le_real snd kept.

(** Q4: [GET /visits/peak-season/above-threshold] *)
Definition peak_season_above_threshold (year threshold : Z) (region_id : option string)
    : Handler (list AvgMonthlyVisitsOut.t) :=
  let region_id := Py.upper <$> region_id in
  rows ← exec (peak_season_stmt year threshold region_id);
  pure (mapM (λ '(park_code, park_name, reg_id, reg_name, avg_monthly),
                avg_int ← round_or_0 avg_monthly;
                mret (AvgMonthlyVisitsOut.mk park_code park_name reg_id reg_name
                        year year avg_int))
             rows).

(** [int(round((annual_total_int - overall_avg) / overall_avg * 100))
     if overall_avg > 0 else 0] *)
Definition percent_above (annual_total_int overall_avg : Z) : outcome Z :=
  if overall_avg >? 0 then
    f ← Py.int_truediv (annual_total_int - overall_avg) overall_avg;
    Py.round (f * 100)%float
  else Return 0.

(** [int(round(sum(annual_totals) / len(annual_totals)))] *)
Definition rounded_mean (annual_totals : list (option Z)) : outcome Z :=
  s ← Py.sum annual_totals;
  f ← Py.int_truediv s (Z.of_nat (length annual_totals));
  Py.round f.

(** SELECT SUM(total_visits) FROM monthly_visit JOIN park ...
    WHERE year = :year [AND park.region_id = :region_id]
    GROUP BY monthly_visit.park_code *)
Definition annual_totals_stmt (year : Z) (region_id : option string) (st : Store)
    : list (option Z) :=
  let selected :=
    filter (λ x, MonthlyVisit.year x.1 = year
                 ∧ when region_id (λ rid, Park.region_id x.2 = Some rid))
           (visits_park st) in
  (λ g, SQL.sum (total_visits_of fst g.2))
    <$> SQL.group_by (λ x, MonthlyVisit.park_code x.1) selected.

(** SELECT park_code, park_name, region_id, region_name, year, SUM(total_visits)
    FROM park JOIN monthly_visit ... LEFT OUTER JOIN region ...
    WHERE year = :year [AND region.region_id = :region_id]
          [AND park.park_code = :park_code | AND park_name ILIKE :query]
    GROUP BY ... HAVING SUM(total_visits) > :overall_avg
    ORDER BY SUM(total_visits) DESC *)
Definition above_average_stmt (year overall_avg : Z)
    (region_id park_code query : option string) (st : Store)
    : list (string * string * option string * option string * Z * option Z) :=
  let selected :=
    filter (λ x, MonthlyVisit.year x.1.2 = year
                 ∧ region_is region_id x.2
                 ∧ park_filter park_code query x.1.1)
           (park_visits_region st) in
  let groups :=
    SQL.group_by (λ x, (Park.park_code x.1.1, Park.park_name x.1.1,
                        Region.region_id <$> x.2, Region.region_name <$> x.2,
                        MonthlyVisit.year x.1.2))
                 selected in
  let totals := (λ g, (g.1, SQL.sum (total_visits_of (λ x, x.1.2) g.2))) <$> groups in
  let kept := filter (λ row, SQL.gt row.2 overall_avg) totals in
  order_by_desc SQL.le_int snd kept.

(** Q5: [GET /visits/parks/above-system-average] *)
Definition parks_above_system_average (year : Z) (region_id park_code query : option string)
    : Handler (list ParkAboveAverageOut.t) :=
  let region_id := Py.upper <$> region_id in
  annual_totals ← exec (annual_totals_stmt year region_id);
  match annual_totals with
  | [] => raise (HTTPException 404 "No data for that year/filters")
  | _ =>
      overall_avg ← pure (rounded_mean annual_totals);
      rows ← exec (above_average_stmt year overall_avg region_id
                     (Py.upper <$> park_code) query);
      pure (mapM (λ '(park_code, park_name, reg_id, reg_name, y, annual_total),
                    let annual_total_int := Py.or_0 annual_total in
                    let diff := annual_total_int - overall_avg in
                    pct_above ← percent_above annual_total_int overall_avg;
                    mret (ParkAboveAverageOut.mk park_code park_name reg_id reg_name y
                            annual_total_int overall_avg diff pct_above))
                 rows)
  end.

(** The statement [rank_stmt] of Q6, built before the name filter is looked at:
    SELECT park_code, park_name, year, SUM(total_visits)
    FROM park JOIN monthly_visit ...
    WHERE year = :year [AND park.region_id = :region_id]
    GROUP BY park_code, park_name, year ORDER BY SUM(total_visits) DESC *)
Definition rank_stmt (year : Z) (region_id : option string) (st : Store)
    : list (string * string * Z * option Z) :=
  let selected :=
    filter (λ x, MonthlyVisit.year x.2 = year
                 ∧ when region_id (λ rid, Park.region_id x.1 = Some rid))
           (park_visits st) in
  let groups :=
    SQL.group_by (λ x, (Park.park_code x.1, Park.park_name x.1, MonthlyVisit.year x.2))
                 selected in
  let totals := (λ g, (g.1, SQL.sum (total_visits_of snd g.2))) <$> groups in
  order_by_desc SQL.le_int snd totals.

(** [next((idx + 1 for idx, row in enumerate(all_ranked) if row[0] == park_code), 0)] *)
Definition rank_in (all_ranked : list (string * string * Z * option Z)) (park_code : string)
    : Z :=
  match list_find (λ row, row.1.1.1 = park_code) all_ranked with
  | Some (idx, _) => Z.of_nat idx + 1
  | None => 0
  end.

(** Q6: [GET /annual-visits/top] *)
Definition top_parks_by_year (year limit : Z) (region_id query : option string)
    : Handler (list TopParkOut.t) :=
  let region_id := Py.upper <$> region_id in
  all_ranked ← exec (rank_stmt year region_id);
  let filtered_rows :=
    match query with
    | Some q => filter (λ row, Py.contains (Py.lower q) (Py.lower row.1.1.2)) all_ranked
    | None => all_ranked
    end in
  let filtered_rows := Py.slice_to limit filtered_rows in
  mret ((λ '(park_code, park_name, y, annual_total),
           TopParkOut.mk (rank_in all_ranked park_code) park_code park_name y
             (Py.or_0 annual_total))
          <$> filtered_rows).

(** The metric whitelist of Q11: the [allowed] dict. *)
Definition allowed : gmap string (MonthlyVisit.t → option Z) :=
  list_to_map [
    ("concessioner_lodging", MonthlyVisit.concessioner_lodging);
    ("concessioner_camping", MonthlyVisit.concessioner_camping);
    ("tent_campers", MonthlyVisit.tent_campers);
    ("rv_campers", MonthlyVisit.rv_campers);
    ("backcountry", MonthlyVisit.backcountry);
    ("nonrecreation_overnight_stays", MonthlyVisit.nonrecreation_overnight_stays);
    ("miscellaneous_overnight_stays", MonthlyVisit.miscellaneous_overnight_stays)
  ].

(** SELECT park_code, park_name, region_id, region_name, year, SUM(metric)
    FROM park JOIN monthly_visit ... LEFT OUTER JOIN region ...
    WHERE year = :year [AND region.region_id = :region_id]
    GROUP BY ... ORDER BY SUM(metric) DESC LIMIT :limit *)
Definition metric_stmt (metric_col : MonthlyVisit.t → option Z) (year : Z)
    (region_id : option string) (limit : Z) (st : Store)
    : list (string * string * option string * option string * Z * option Z) :=
  let selected :=
    filter (λ x, MonthlyVisit.year x.1.2 = year ∧ region_is region_id x.2)
           (park_visits_region st) in
  let groups :=
    SQL.group_by (λ x, (Park.park_code x.1.1, Park.park_name x.1.1,
                        Region.region_id <$> x.2, Region.region_name <$> x.2,
                        MonthlyVisit.year x.1.2))
                 selected in
  let totals := (λ g, (g.1, SQL.sum ((λ x, metric_col x.1.2) <$> g.2))) <$> groups in
  SQL.limit limit (order_by_desc SQL.le_int snd totals).

(** Q11: [GET /annual-visits/parks/metrics] *)
Definition parks_by_metric (year : Z) (metric : string) (region_id : option string)
    (limit : Z) : Handler (list MetricParkOut.t) :=
  match allowed !! metric with
  | None => raise (HTTPException 400 ("Unsupported metric: " +:+ metric))
  | Some metric_col =>
      let region_id := Py.upper <$> region_id in
      rows ← exec (metric_stmt metric_col year region_id limit);
      mret ((λ '(park_code, park_name, reg_id, reg_name, y, metric_total),
               MetricParkOut.mk park_code park_name reg_id reg_name y (Py.or_0 metric_total))
              <$> rows)
  end.

(** SELECT region_id, region_name, year, SUM(total_visits)
    FROM region JOIN park ON park.region_id = region.region_id
                JOIN monthly_visit ON monthly_visit.park_code = park.park_code
    WHERE year = :year [AND region.region_id = :region_id]
    GROUP BY region_id, region_name, year ORDER BY SUM(total_visits) DESC *)
Definition region_totals_stmt (year : Z) (region_id : option string) (st : Store)
    : list (string * string * Z * option Z) :=
  let joined :=
    SQL.join (λ x, MonthlyVisit.park_code x.2 = Park.park_code x.1.2)
      (SQL.join (λ x, Park.region_id x.2 = Some (Region.region_id x.1))
                (regions st) (parks st))
      (monthly_visits st) in
  let selected :=
    filter (λ x, MonthlyVisit.year x.2 = year
                 ∧ when region_id (λ rid, Region.region_id x.1.1 = rid))
           joined in
  let groups :=
    SQL.group_by (λ x, (Region.region_id x.1.1, Region.region_name x.1.1,
                        MonthlyVisit.year x.2))
                 selected in
  let totals := (λ g, (g.1, SQL.sum (total_visits_of snd g.2))) <$> groups in
  order_by_desc SQL.le_int snd totals.

(** Q7: [GET /annual-visits/regions] *)
Definition annual_visits_by_region (year : Z) (region_id : option string)
    : Handler (list RegionAnnualVisitsOut.t) :=
  let region_id := Py.upper <$> region_id in
  rows ← exec (region_totals_stmt year region_id);
  (* for idx, (...) in enumerate(rows, start=1) *)
  mret (imap (λ i '(reg_id, reg_name, y, annual_total),
                RegionAnnualVisitsOut.mk reg_id reg_name y (Py.or_0 annual_total)
                  (Z.of_nat i + 1))
             rows).

(** SELECT m1.month, m1.total_visits,
           m1.total_visits - COALESCE(m2.total_visits, 0)
    FROM monthly_visit AS m1 LEFT OUTER JOIN monthly_visit AS m2
      ON m1.park_code = m2.park_code AND m1.year = m2.year
         AND m1.month = m2.month + 1
    WHERE m1.park_code = :park_code AND m1.year = :year ORDER BY m1.month *)
Definition month_change_stmt (park_code : string) (year : Z) (st : Store)
    : list (Z * option Z * option Z) :=
  let joined :=
    SQL.outer_join (λ x, MonthlyVisit.park_code x.1 = MonthlyVisit.park_code x.2
                         ∧ MonthlyVisit.year x.1 = MonthlyVisit.year x.2
                         ∧ MonthlyVisit.month x.1 = MonthlyVisit.month x.2 + 1)
                   (monthly_visits st) (monthly_visits st) in
  let selected :=
    filter (λ x, MonthlyVisit.park_code x.1 = park_code ∧ MonthlyVisit.year x.1 = year)
           joined in
  (λ x, (MonthlyVisit.month x.1,
         MonthlyVisit.total_visits x.1,
         (λ t, t - SQL.coalesce (x.2 ≫= MonthlyVisit.total_visits) 0)
           <$> MonthlyVisit.total_visits x.1))
    <$> order_by Z.leb (λ x, MonthlyVisit.month x.1) selected.

(** Q8: [GET /parks/{park_code}/month-to-month-change] *)
Definition month_to_month_change (park_code : string) (year : Z)
    : Handler (list MonthToMonthChangeOut.t) :=
  let park_code := Py.upper park_code in
  rows ← exec (month_change_stmt park_code year);
  match rows with
  | [] => raise (HTTPException 404 "No visits for that park/year")
  | _ =>
      mret ((λ '(month, total, change),
               MonthToMonthChangeOut.mk month (Py.or_0 total) change)
              <$> rows)
  end.

(** [int(round((et - st) * 100.0 / st))], guarded by [st == 0]. *)
Definition growth_pct (st et : Z) : outcome Z :=
  if st =? 0 then Return 0
  else
    d ← Py.float_of_int (et - st);
    s ← Py.float_of_int st;
    q ← Py.float_truediv (d * 100)%float s;
    Py.round q.

(** The subquery [annual_stmt] of Q9:
    SELECT park_code, year, SUM(total_visits) FROM monthly_visit JOIN park ...
    WHERE park.region_id = :region_id AND year IN (:start_year, :end_year)
    GROUP BY park_code, year *)
Definition annual_stmt (region_id : string) (start_year end_year : Z) (st : Store)
    : list (string * Z * option Z) :=
  (λ g, (g.1, SQL.sum (total_visits_of fst g.2)))
    <$> SQL.group_by (λ x, (MonthlyVisit.park_code x.1, MonthlyVisit.year x.1))
          (filter (λ x, Park.region_id x.2 = Some region_id
                        ∧ MonthlyVisit.year x.1 ∈ [start_year; end_year])
                  (visits_park st)).

(** SELECT park_code, park_name, region_id, region_name,
           start.annual_total, end.annual_total
    FROM park JOIN region ON region.region_id = park.region_id
              JOIN annual_stmt AS start ON start.park_code = park.park_code
                                        AND start.year = :start_year
              JOIN annual_stmt AS end ON end.park_code = park.park_code
                                      AND end.year = :end_year
    WHERE region.region_id = :region_id *)
Definition growth_stmt (region_id : string) (start_year end_year : Z) (st : Store)
    : list (string * string * string * string * option Z * option Z) :=
  let annual := annual_stmt region_id start_year end_year st in
  let park_region :=
    SQL.join (λ x, Some (Region.region_id x.2) = Park.region_id x.1)
             (parks st) (regions st) in
  let with_start :=
    SQL.join (λ x, x.2.1.1 = Park.park_code x.1.1 ∧ x.2.1.2 = start_year)
             park_region annual in
  let with_end :=
    SQL.join (λ x, x.2.1.1 = Park.park_code x.1.1.1 ∧ x.2.1.2 = end_year)
             with_start annual in
  let selected := filter (λ x, Region.region_id x.1.1.2 = region_id) with_end in
  (λ x, (Park.park_code x.1.1.1, Park.park_name x.1.1.1,
         Region.region_id x.1.1.2, Region.region_name x.1.1.2,
         x.1.2.2, x.2.2))
    <$> selected.

(** Q9: [GET /regions/{region_id}/growth] *)
Definition growth_by_region_over_time (region_id : string) (start_year end_year : Z)
    : Handler (list GrowthOut.t) :=
  if start_year >=? end_year then
    raise (HTTPException 400 "start_year must be < end_year")
  else
  let region_id := Py.upper region_id in
  rows ← exec (growth_stmt region_id start_year end_year);
  match rows with
  | [] => raise (HTTPException 404 "No data for that region/years")
  | _ =>
      out ← pure (mapM (λ '(park_code, park_name, reg_id, reg_name, start_total, end_total),
                          let st := Py.or_0 start_total in
                          let et := Py.or_0 end_total in
                          growth_pct ← growth_pct st et;
                          mret (GrowthOut.mk park_code park_name reg_id reg_name
                                  start_year end_year st et growth_pct))
                       rows);
      (* out.sort(key=lambda x: x.growth_percent, reverse=True) *)
      mret (order_by_desc Z.leb GrowthOut.growth_percent out)
  end.

(** [float(x or 0.0)] *)
Definition float_or_0 (x : option Z) : outcome float :=
  match x with
  | None => Return 0%float
  | Some v => if v =? 0 then Return 0%float else Py.float_of_int v
  end.

(** The statistics of one row of Q10, from [n_months], [sum_v] and [sum_v2]:
      mean = sum_v / n;  variance = max(sum_v2 / n - mean * mean, 0.0);
      std_dev = sqrt(variance)
    returned as [(int(round(mean)), int(round(std_dev)))]. *)
Definition variability_stats (n_months : Z) (sum_v sum_v2 : option Z) : outcome (Z * Z) :=
  let n := n_months in
  sum_v ← float_or_0 sum_v;
  sum_v2 ← float_or_0 sum_v2;
  nf ← Py.float_of_int n;
  mean ← Py.float_truediv sum_v nf;
  q ← Py.float_truediv sum_v2 nf;
  let variance := Py.max_0 (q - mean * mean)%float in
  std_dev ← Py.sqrt variance;
  avg_monthly_visits ← Py.round mean;
  std_dev_monthly_visits ← Py.round std_dev;
  mret (avg_monthly_visits, std_dev_monthly_visits).

(** SELECT park_code, park_name, region_id, region_name, year, COUNT(month),
           SUM(total_visits), SUM(total_visits * total_visits)
    FROM park JOIN monthly_visit ... LEFT OUTER JOIN region ...
    WHERE year = :year [AND region.region_id = :region_id]
          [AND park.park_code = :park_code | AND park_name ILIKE :query]
    GROUP BY ... *)
Definition variability_stmt (year : Z) (region_id park_code query : option string)
    (st : Store)
    : list (string * string * option string * option string * Z
            * Z * option Z * option Z) :=
  let selected :=
    filter (λ x, MonthlyVisit.year x.1.2 = year
                 ∧ region_is region_id x.2
                 ∧ park_filter park_code query x.1.1)
           (park_visits_region st) in
  let groups :=
    SQL.group_by (λ x, (Park.park_code x.1.1, Park.park_name x.1.1,
                        Region.region_id <$> x.2, Region.region_name <$> x.2,
                        MonthlyVisit.year x.1.2))
                 selected in
  (λ g, (g.1,
         SQL.count ((λ x, Some (MonthlyVisit.month x.1.2)) <$> g.2),
         SQL.sum (total_visits_of (λ x, x.1.2) g.2),
         SQL.sum ((λ x, v ← MonthlyVisit.total_visits x.1.2; Some (v * v)) <$> g.2)))
    <$> groups.

(** Q10: [GET /visits/parks/variability] *)
Definition park_visit_variability (year : Z) (region_id park_code query : option string)
    (limit : Z) : Handler (list VariabilityOut.t) :=
  let region_id := Py.upper <$> region_id in
  let park_code := Py.upper <$> park_code in
  rows ← exec (variability_stmt year region_id park_code query);
  match rows with
  | [] => raise (HTTPException 404 "No data for that year/filters")
  | _ =>
      results ← pure (mapM (λ '(park_code, park_name, reg_id, reg_name, y,
                                n_months, sum_v, sum_v2),
                              stats ← variability_stats n_months sum_v sum_v2;
                              mret (VariabilityOut.mk park_code park_name reg_id reg_name y
                                      stats.1 stats.2 n_months))
                           rows);
      (* results.sort(key=lambda x: x.std_dev_monthly_visits, reverse=True) *)
      let results := order_by_desc Z.leb VariabilityOut.std_dev_monthly_visits results in
      mret (if limit >? 0 then Py.slice_to limit results else results)
  end.

(** The statements are unfolded on request only. *)
Arguments details_stmt : simpl never.
Arguments monthly_visits_stmt : simpl never.
Arguments annual_visits_stmt : simpl never.
Arguments average_monthly_stmt : simpl never.
Arguments peak_season_stmt : simpl never.
Arguments annual_totals_stmt : simpl never.
Arguments above_average_stmt : simpl never.
Arguments rank_stmt : simpl never.
Arguments metric_stmt : simpl never.
Arguments region_totals_stmt : simpl never.
Arguments month_change_stmt : simpl never.
Arguments annual_stmt : simpl never.
Arguments growth_stmt : simpl never.
Arguments variability_stmt : simpl never.

(** ** The scope of a request, stated on the tables

    The rows of one park in one year, and the park's annual total: what the
    aggregates of the statements are compared with. *)

Definition visits_in (st : Store) (park_code : string) (year : Z) : list MonthlyVisit.t :=
  filter (λ m, MonthlyVisit.park_code m = park_code ∧ MonthlyVisit.year m = year)
         (monthly_visits st).

Definition annual_total (st : Store) (park_code : string) (year : Z) : option Z :=
  SQL.sum (MonthlyVisit.total_visits <$> visits_in st park_code year).

(** The scope of the above-average operation: the parks (of the region,
    when one is given) that have rows in the year. *)
Definition in_scope (st : Store) (year : Z) (region_id : option string) (c : string)
    : Prop :=
  ∃ p, p ∈ parks st ∧ Park.park_code p = c
       ∧ when region_id (λ rid, Park.region_id p = Some rid)
       ∧ visits_in st c year ≠ [].

(** The region row a park references, if there is one. *)
Definition region_of (st : Store) (p : Park.t) : option Region.t :=
  head (filter (λ r, Some (Region.region_id r) = Park.region_id p) (regions st)).

(** A handler family is insensitive to the letter case of an identifier
    when two spellings with the same upper-case form give the same result
    (response and statements executed) on every store. *)
Definition case_insensitive {A} (h : string → Handler A) : Prop :=
  ∀ c c' st, Py.upper c = Py.upper c' → h c st = h c' st.

Definition case_insensitive_opt {A} (h : option string → Handler A) : Prop :=
  ∀ r r' st, Py.upper <$> r = Py.upper <$> r' → h r st = h r' st.

(** ** Sample data *)

Definition sample_region (region_id region_name : string) : Region.t :=
  Region.mk region_id region_name None.

Definition sample_park (park_code park_name : string) (region_id : option string) : Park.t :=
  Park.mk park_code park_name "AZ" "National Park" region_id None None None None None.

(** A monthly row as the loader writes it: every counter present. *)
Definition sample_visit (park_code : string) (year month total : Z) : MonthlyVisit.t :=
  MonthlyVisit.mk park_code year month (Some total) (Some 0) (Some total)
    (Some 0) (Some 0) (Some 0) (Some 0) (Some 0) (Some 0) (Some 0).

(** Three parks in two regions; in 2020 Grand Canyon has the monthly totals
    100, 200, 300, and the annual totals of the three parks are 600, 200
    and 100. *)
Definition sample_store : Store := {|
  regions := [sample_region "IMR" "Intermountain"; sample_region "PWR" "Pacific West"];
  parks := [sample_park "GRCA" "Grand Canyon National Park" (Some "IMR");
            sample_park "YOSE" "Yosemite National Park" (Some "PWR");
            sample_park "ZION" "Zion National Park" (Some "IMR")];
  monthly_visits := [sample_visit "GRCA" 2020 3 300;
                     sample_visit "GRCA" 2020 1 100;
                     sample_visit "GRCA" 2020 2 200;
                     sample_visit "YOSE" 2020 1 150;
                     sample_visit "YOSE" 2020 7 50;
                     sample_visit "ZION" 2020 6 100;
                     sample_visit "ZION" 2021 6 0;
                     sample_visit "GRCA" 2021 1 500;
                     sample_visit "ZION" 2022 6 500]
|}.

(** Three parks whose annual totals for 2020 are 100, 200 and 300. *)
Definition three_parks_store : Store := {|
  regions := [sample_region "IMR" "Intermountain"];
  parks := [sample_park "ARCH" "Arches National Park" (Some "IMR");
            sample_park "BRCA" "Bryce Canyon National Park" (Some "IMR");
            sample_park "CANY" "Canyonlands National Park" (Some "IMR")];
  monthly_visits := [sample_visit "ARCH" 2020 1 40; sample_visit "ARCH" 2020 2 60;
                     sample_visit "BRCA" 2020 1 200;
                     sample_visit "CANY" 2020 1 150; sample_visit "CANY" 2020 2 150]
|}.

(** Two parks whose annual totals for 2020 are 1 and 2: the mean is 1.5. *)
Definition two_parks_store : Store := {|
  regions := [sample_region "IMR" "Intermountain"];
  parks := [sample_park "ARCH" "Arches National Park" (Some "IMR");
            sample_park "BRCA" "Bryce Canyon National Park" (Some "IMR")];
  monthly_visits := [sample_visit "ARCH" 2020 1 1; sample_visit "BRCA" 2020 1 2]
|}.

(** ** The metadata and listing handlers *)

(** [MIN(col)] and [MAX(col)] of a column without NULLs: NULL on no row. *)
Definition agg_min (l : list Z) : option Z :=
  foldr (λ x acc, Some (from_option (Z.min x) x acc)) None l.

Definition agg_max (l : list Z) : option Z :=
  foldr (λ x acc, Some (from_option (Z.max x) x acc)) None l.

(** SELECT MIN(year), MAX(year) FROM monthly_visit  -- [.first()]: the one
    row an aggregate without GROUP BY yields. *)
Definition years_stmt (st : Store) : option Z * option Z :=
  let years := MonthlyVisit.year <$> monthly_visits st in
  (agg_min years, agg_max years).

(** [GET /metadata/years]: the response is the dict
    [{"min_year": int(min_year), "max_year": int(max_year)}]. *)
Definition get_available_years : Handler (gmap string Z) :=
  row ← exec years_stmt;
  match row with
  | (None, _) => raise (HTTPException 404 "No year data available")
  | (Some min_year, max_year) =>
      match max_year with
      | Some max_year =>
          mret (<["max_year" := max_year]> (<["min_year" := min_year]> ∅))
      | None => pure (Raise TypeError)
      end
  end.

(** SELECT * FROM region ORDER BY region_id  -- text compares byte by byte *)
Definition regions_stmt (st : Store) : list Region.t :=
  order_by String.leb Region.region_id (regions st).

(** [GET /regions/] *)
Definition list_regions : Handler (list Region.t) :=
  exec regions_stmt.

Arguments years_stmt : simpl never.
Arguments regions_stmt : simpl never.

(** The details of a stored park: its own columns, and the id and name of
    the region row it references, when there is one. *)
Definition park_detail (st : Store) (p : Park.t) : ParkDetailOut.t :=
  ParkDetailOut.mk (Park.park_code p) (Park.park_name p) (Park.state p)
    (Park.designation p)
    (Region.region_id <$> region_of st p) (Region.region_name <$> region_of st p)
    (Park.latitude p) (Park.longitude p) (Park.description p) (Park.website p)
    (Park.boundary p).

(** ** What the aggregate handlers return, stated on the tables *)

(** The parks Q2 lists for a year: those with a row in the year that pass
    the region filter, the park filter and the minimum total. *)
Definition annual_scope (st : Store) (year : Z) (region_id park_code query : option string)
    (min_total : option Z) (p : Park.t) : Prop :=
  p ∈ parks st
  ∧ visits_in st (Park.park_code p) year ≠ []
  ∧ region_is region_id (region_of st p)
  ∧ park_filter park_code query p
  ∧ when min_total (SQL.ge (annual_total st (Park.park_code p) year)).

(** The record of Q2 for a stored park. *)
Definition annual_record (st : Store) (year : Z) (p : Park.t) : AnnualParkVisitsOut.t :=
  AnnualParkVisitsOut.mk (Park.park_code p) (Park.park_name p)
    (Region.region_id <$> region_of st p) (Region.region_name <$> region_of st p)
    year (Py.or_0 (annual_total st (Park.park_code p) year))
    (Some (Park.state p)) (Park.latitude p) (Park.longitude p).

(** The rows of one park in a range of years (Q3), and in the summer months
    of one year (Q4). *)
Definition visits_between (st : Store) (park_code : string) (start_year end_year : Z)
    : list MonthlyVisit.t :=
  filter (λ m, MonthlyVisit.park_code m = park_code
               ∧ (start_year ≤ MonthlyVisit.year m ∧ MonthlyVisit.year m ≤ end_year))
         (monthly_visits st).

Definition summer_visits (st : Store) (park_code : string) (year : Z) : list MonthlyVisit.t :=
  filter (λ m, MonthlyVisit.park_code m = park_code
               ∧ (MonthlyVisit.year m = year ∧ MonthlyVisit.month m ∈ [6; 7; 8]))
         (monthly_visits st).

(** The sum of one column over the rows of a park in a year (Q11). *)
Definition metric_total (st : Store) (metric_col : MonthlyVisit.t → option Z)
    (park_code : string) (year : Z) : option Z :=
  SQL.sum (metric_col <$> visits_in st park_code year).

(** The parks of a region, their monthly rows of a year, and the sum of
    the totals of those rows (Q7). *)
Definition region_parks (st : Store) (region_id : string) : list Park.t :=
  filter (λ p, Park.region_id p = Some region_id) (parks st).

Definition region_visits (st : Store) (region_id : string) (year : Z)
    : list MonthlyVisit.t :=
  p ← region_parks st region_id; visits_in st (Park.park_code p) year.

Definition region_total (st : Store) (region_id : string) (year : Z) : option Z :=
  SQL.sum (MonthlyVisit.total_visits <$> region_visits st region_id year).

(** The stored row of the month before [m], for the same park and year, and
    the record of Q8 for a stored row. *)
Definition previous_month (st : Store) (m : MonthlyVisit.t) : option MonthlyVisit.t :=
  head (filter (λ m2, MonthlyVisit.park_code m = MonthlyVisit.park_code m2
                      ∧ MonthlyVisit.year m = MonthlyVisit.year m2
                      ∧ MonthlyVisit.month m = MonthlyVisit.month m2 + 1)
               (monthly_visits st)).

Definition change_record (st : Store) (m : MonthlyVisit.t) : MonthToMonthChangeOut.t :=
  MonthToMonthChangeOut.mk (MonthlyVisit.month m) (Py.or_0 (MonthlyVisit.total_visits m))
    ((λ t, t - Py.or_0 (previous_month st m ≫= MonthlyVisit.total_visits))
       <$> MonthlyVisit.total_visits m).

(** Whether a search text holds one of the LIKE wildcards, [%] or [_]. *)
Fixpoint has_wildcard (q : string) : bool :=
  match q with
  | EmptyString => false
  | String c q' => Ascii.eqb c "%"%char || Ascii.eqb c "_"%char || has_wildcard q'
  end.

(** A store as the ORM allows it and the loader never writes it: the one
    row of Arches has a NULL total. *)
Definition null_total_store : Store := {|
  regions := [sample_region "IMR" "Intermountain"];
  parks := [sample_park "ARCH" "Arches National Park" (Some "IMR");
            sample_park "BRCA" "Bryce Canyon National Park" (Some "IMR")];
  monthly_visits := [MonthlyVisit.mk "ARCH" 2020 1 None None None None None None None None
                       None None;
                     sample_visit "BRCA" 2020 1 2]
|}.

(** ** The loader ([backend/load_csv.py]) and the repair script
       ([backend/fix_park_regions.py])

    Both read the CSV files into one pandas frame and write to the same
    database.  The frame is modelled from where [pd.read_csv] leaves it: a
    list of rows, a text cell being a string or NaN (an empty field), a numeric
    cell a whole number or NaN.  The tables keep the primary keys that
    [backend/models.py] declares; [INSERT OR REPLACE] and [INSERT OR IGNORE]
    are resolved against them. *)

Module PyStr.

(** The ASCII characters [str.split()] splits on. *)
Definition isspace (c : Ascii.ascii) : bool :=
  let n := Ascii.N_of_ascii c in
  ((9 <=? n) && (n <=? 13) || (28 <=? n) && (n <=? 32))%N.

(** [s.split()]: the maximal runs of characters that are not whitespace.
    [word] is the run read so far. *)
Fixpoint split_from (word s : string) : list string :=
  match s with
  | EmptyString => match word with EmptyString => [] | _ => [word] end
  | String c s' =>
      if isspace c then
        match word with EmptyString => [] | _ => [word] end ++ split_from EmptyString s'
      else split_from (word +:+ String c EmptyString) s'
  end.

Definition split (s : string) : list string := split_from EmptyString s.

(** [sep.join(words)] *)
Fixpoint join (sep : string) (words : list string) : string :=
  match words with
  | [] => EmptyString
  | w :: ws => match ws with [] => w | _ => w +:+ sep +:+ join sep ws end
  end.

End PyStr.

(** A cell of a text column: a string, or NaN for an empty field. *)
Inductive cell :=
| NaN
| Str (s : string).

(** [str(x)] and [Series.astype(str)] on such a cell. *)
Definition str (x : cell) : string :=
  match x with NaN => "nan" | Str s => s end.

(** A row of the frame, with the columns the loader requires. *)
Module CsvRow.
Record t := mk {
  Region : cell;
  UnitCode : cell;
  Year : option Z;
  Month : option Z;
  RecreationVisits : option Z;
  NonRecreationVisits : option Z;
  ConcessionerLodging : option Z;
  ConcessionerCamping : option Z;
  TentCampers : option Z;
  RVCampers : option Z;
  Backcountry : option Z;
  NonRecreationOvernightStays : option Z;
  MiscellaneousOvernightStays : option Z;
}.
End CsvRow.

(** [DataFrame.drop_duplicates()]: the first occurrence of each row, in order. *)
Definition drop_duplicates {A} `{EqDecision A} (l : list A) : list A :=
  foldl (λ acc x, if decide (x ∈ acc) then acc else acc ++ [x]) [] l.

(** [x.fillna(0).astype(int)] on a numeric cell. *)
Definition fillna_0 (x : option Z) : Z := default 0 x.

(** [UPDATE park SET region_id = :region_id WHERE park_code = :park_code] *)
Definition set_region_id (region_id : string) (p : Park.t) : Park.t :=
  Park.mk (Park.park_code p) (Park.park_name p) (Park.state p) (Park.designation p)
    (Some region_id) (Park.latitude p) (Park.longitude p) (Park.description p)
    (Park.website p) (Park.boundary p).

Definition update_park_region (table : list Park.t) (row : string * string)
    : list Park.t :=
  (λ p, if decide (Park.park_code p = row.1) then set_region_id row.2 p else p) <$> table.

(** [INSERT OR REPLACE INTO monthly_visit]: a stored row with the same
    primary key is deleted, then the row is inserted. *)
Definition monthly_visit_key (m : MonthlyVisit.t) : string * Z * Z :=
  (MonthlyVisit.park_code m, MonthlyVisit.year m, MonthlyVisit.month m).

Definition insert_or_replace (table : list MonthlyVisit.t) (row : MonthlyVisit.t)
    : list MonthlyVisit.t :=
  filter (λ m, monthly_visit_key m ≠ monthly_visit_key row) table ++ [row].

(** [INSERT OR IGNORE INTO region]: nothing happens when the id is stored. *)
Definition insert_or_ignore (table : list Region.t) (row : Region.t) : list Region.t :=
  if decide (Region.region_id row ∈ Region.region_id <$> table) then table
  else table ++ [row].

Module load_csv.

(** The dict [REGION_ID_MAP], in insertion order. *)
Definition REGION_ID_MAP : list (string * string) :=
  [("Alaska", "AKR"); ("Intermountain", "IMR"); ("Midwest", "MWR");
   ("National Capital", "NCR"); ("Northeast", "NER"); ("Pacific West", "PWR");
   ("Southeast", "SER")].

(** [clean_region_name(raw)]: [raw] is [None], or a cell of the column. *)
Definition clean_region_name (raw : option cell) : string :=
  match raw with
  | None => ""
  | Some raw => PyStr.join " " (PyStr.split (str raw))
  end.

(** [df["UnitCode"].astype(str).str.upper()] *)
Definition unit_code (r : CsvRow.t) : string := Py.upper (str (CsvRow.UnitCode r)).

(** [df["Region"].apply(clean_region_name).map(REGION_ID_MAP)]: NaN, here
    [None], when the cleaned name is not a key. *)
Definition region_id (r : CsvRow.t) : option string :=
  (list_to_map REGION_ID_MAP : gmap string string)
    !! clean_region_name (Some (CsvRow.Region r)).

(** The tuple appended to [monthly_rows] for a row of [mv_df]. *)
Definition monthly_row (r : CsvRow.t) : MonthlyVisit.t :=
  let recreation := fillna_0 (CsvRow.RecreationVisits r) in
  let non_recreation := fillna_0 (CsvRow.NonRecreationVisits r) in
  MonthlyVisit.mk (unit_code r)
    (fillna_0 (CsvRow.Year r)) (fillna_0 (CsvRow.Month r))
    (Some recreation) (Some non_recreation) (Some (recreation + non_recreation))
    (Some (fillna_0 (CsvRow.ConcessionerLodging r)))
    (Some (fillna_0 (CsvRow.ConcessionerCamping r)))
    (Some (fillna_0 (CsvRow.TentCampers r)))
    (Some (fillna_0 (CsvRow.RVCampers r)))
    (Some (fillna_0 (CsvRow.Backcountry r)))
    (Some (fillna_0 (CsvRow.NonRecreationOvernightStays r)))
    (Some (fillna_0 (CsvRow.MiscellaneousOvernightStays r))).

(** [region_rows]: one [(region_id, region_name, None)] per item of the dict. *)
Definition region_rows : list Region.t :=
  (λ item, Region.mk item.2 item.1 None) <$> REGION_ID_MAP.

(** [park_region_df]: the distinct [(UnitCode, region_id)] pairs with a
    region id, in order of first appearance. *)
Definition park_region_df (df : list CsvRow.t) : list (string * string) :=
  drop_duplicates (omap (λ r, rid ← region_id r; Some (unit_code r, rid)) df).

(** [load_csv()], from the frame [df] on: the region table is emptied and
    refilled, the parks named by the frame get their region, the monthly
    table is emptied and refilled. *)
Definition load_csv (df : list CsvRow.t) (st : Store) : Store := {|
  regions := region_rows;
  parks := foldl update_park_region (parks st) (park_region_df df);
  monthly_visits := foldl insert_or_replace [] (monthly_row <$> df)
|}.

End load_csv.

Module fix_park_regions.

Definition REGION_ID_MAP : list (string * string) :=
  [("Alaska", "AKR"); ("Intermountain", "IMR"); ("Midwest", "MWR");
   ("National Capital", "NCR"); ("Northeast", "NER"); ("Pacific West", "PWR");
   ("Southeast", "SER")].

Definition clean_region_name (raw : option cell) : string :=
  match raw with
  | None => ""
  | Some raw => PyStr.join " " (PyStr.split (str raw))
  end.

Definition unit_code (r : CsvRow.t) : string := Py.upper (str (CsvRow.UnitCode r)).

Definition region_id (r : CsvRow.t) : option string :=
  (list_to_map REGION_ID_MAP : gmap string string)
    !! clean_region_name (Some (CsvRow.Region r)).

Definition park_region_df (df : list CsvRow.t) : list (string * string) :=
  drop_duplicates (omap (λ r, rid ← region_id r; Some (unit_code r, rid)) df).

(** [main()], from the frame [df] on: the missing regions are inserted, the
    parks named by the frame get their region. *)
Definition main (df : list CsvRow.t) (st : Store) : Store := {|
  regions := foldl insert_or_ignore (regions st)
               ((λ item, Region.mk item.2 item.1 None) <$> REGION_ID_MAP);
  parks := foldl update_park_region (parks st) (park_region_df df);
  monthly_visits := monthly_visits st
|}.

End fix_park_regions.

(** A word: a non-empty string without whitespace. *)
Fixpoint no_space (s : string) : bool :=
  match s with
  | EmptyString => true
  | String c s' => negb (PyStr.isspace c) && no_space s'
  end.

Definition is_word (w : string) : Prop := w ≠ "" ∧ no_space w = true.

(** The region a run of park updates leaves a park code with: that of the
    last pair for the code, if there is one. *)
Definition assigned_region (pairs : list (string * string)) (park_code : string)
    : option string :=
  snd <$> last (filter (λ row, row.1 = park_code) pairs).

(** A park after the updates: only its region may have changed. *)
Definition with_assigned_region (pairs : list (string * string)) (p : Park.t) : Park.t :=
  match assigned_region pairs (Park.park_code p) with
  | Some rid => set_region_id rid p
  | None => p
  end.

(** A frame of four rows: Grand Canyon twice for January 2023 (the second
    row counts), Zion under a padded region name in lower case, and a row
    whose region name is unknown. *)
Definition sample_row (region unit_code : string) (year month : Z)
    (recreation non_recreation : option Z) : CsvRow.t :=
  CsvRow.mk (Str region) (Str unit_code) (Some year) (Some month) recreation non_recreation
    None None None None None None None.

Definition sample_frame : list CsvRow.t :=
  [sample_row "Intermountain " "grca" 2023 1 (Some 10) (Some 1);
   sample_row "Intermountain" "GRCA" 2023 1 (Some 20) None;
   sample_row "  Pacific   West" "zion" 2023 2 (Some 5) (Some 5);
   sample_row "Atlantis" "YOSE" 2023 3 None None].

(** ** The dashboard's fetchers ([frontend/app.py])

    A request to the API is the handler run on the store: a [Return] is the
    JSON body, and any exception ends as a status of 400 or above, on which
    [raise_for_status] raises and the fetcher's [except] takes over.  The
    fetchers are modelled for a call that [st.cache_data] does not answer
    from its cache. *)

(** [fetch_years()] *)
Definition fetch_years (st : Store) : gmap string Z :=
  match response get_available_years st with
  | Return years => years
  | Raise _ => <["max_year" := 2024]> (<["min_year" := 2015]> ∅)
  end.

(** The bounds of the year slider:
    [years.get("min_year", 2015)], [years.get("max_year", 2024)]. *)
Definition year_slider (st : Store) : Z * Z :=
  let years := fetch_years st in
  (default 2015 (years !! "min_year"), default 2024 (years !! "max_year")).

(** [fetch_parks_by_query(query, year, limit)] *)
Definition fetch_parks_by_query (query : string) (year limit : Z) (st : Store)
    : list (string * string) :=
  if decide (query = "") then []
  else
    match response (annual_visits_by_park year None None (Some query) None limit) st with
    | Return data =>
        (λ p, (AnnualParkVisitsOut.park_code p, AnnualParkVisitsOut.park_name p)) <$> data
    | Raise _ => []
    end.

(** [d[k] = v] on a dict kept as the list of its items in insertion order:
    a stored key keeps its place and takes the new value. *)
Definition dict_set {K V} `{EqDecision K} (d : list (K * V)) (k : K) (v : V)
    : list (K * V) :=
  if decide (k ∈ d.*1) then (λ item, if decide (item.1 = k) then (k, v) else item) <$> d
  else d ++ [(k, v)].

(** [fetch_parks_by_region(region_id, year)]:
    [list({p["park_code"]: p["park_name"] for p in data}.items())] *)
Definition fetch_parks_by_region (region_id : string) (year : Z) (st : Store)
    : list (string * string) :=
  match response (annual_visits_by_park year (Some region_id) None None None 500) st with
  | Return data =>
      foldl (λ d p, dict_set d (AnnualParkVisitsOut.park_code p)
                      (AnnualParkVisitsOut.park_name p))
            [] data
  | Raise _ => []
  end.

(** The store with the monthly rows that satisfy [V] only. *)
Definition restrict (st : Store) (V : MonthlyVisit.t → Prop) `{∀ m, Decision (V m)}
    : Store := {|
  regions := regions st;
  parks := parks st;
  monthly_visits := filter V (monthly_visits st)
|}.

(** The integers the driver binds as an SQLite INTEGER.  A Python [int]
    outside the signed 64-bit range is refused with an OverflowError when it
    is bound as a parameter of a statement, which the handlers here do not
    model: what is stated of the response to a request is stated for
    parameters in this range. *)
Definition sqlite_integer (z : Z) : Prop := - 2 ^ 63 ≤ z < 2 ^ 63.

(** [str.isascii()]: every character is below 128.  On such text Python's
    [str.lower] and SQLite's [lower]/[LIKE] fold the same letters, A to Z;
    on other text Python also folds the letters beyond ASCII, which SQLite
    leaves alone. *)
Fixpoint isascii (s : string) : bool :=
  match s with
  | EmptyString => true
  | String c s' => (Ascii.N_of_ascii c <? 128)%N && isascii s'
  end.

(** Three parks whose tent campers of 2020 add up to 30, 50 and 5. *)
Definition campers_store : Store := {|
  regions := [sample_region "IMR" "Intermountain"];
  parks := [sample_park "ARCH" "Arches National Park" (Some "IMR");
            sample_park "BRCA" "Bryce Canyon National Park" (Some "IMR");
            sample_park "CANY" "Canyonlands National Park" (Some "IMR")];
  monthly_visits :=
    [MonthlyVisit.mk "ARCH" 2020 6 (Some 100) (Some 0) (Some 100)
       (Some 0) (Some 0) (Some 10) (Some 0) (Some 0) (Some 0) (Some 0);
     MonthlyVisit.mk "ARCH" 2020 7 (Some 100) (Some 0) (Some 100)
       (Some 0) (Some 0) (Some 20) (Some 0) (Some 0) (Some 0) (Some 0);
     MonthlyVisit.mk "BRCA" 2020 6 (Some 100) (Some 0) (Some 100)
       (Some 0) (Some 0) (Some 50) (Some 0) (Some 0) (Some 0) (Some 0);
     MonthlyVisit.mk "CANY" 2020 6 (Some 100) (Some 0) (Some 100)
       (Some 0) (Some 0) (Some 5) (Some 0) (Some 0) (Some 0) (Some 0)]
|}.

(** One park whose monthly totals of 2020 are 1000000000, 1000000000 and
    1000000001: in binary64, [sum_v2 / n - mean * mean] is [-128.0]. *)
Definition near_constant_store : Store := {|
  regions := [sample_region "IMR" "Intermountain"];
  parks := [sample_park "ARCH" "Arches National Park" (Some "IMR")];
  monthly_visits := [sample_visit "ARCH" 2020 1 1000000000;
                     sample_visit "ARCH" 2020 2 1000000000;
                     sample_visit "ARCH" 2020 3 1000000001]
|}.

(** * Properties *)

(** Unfolding a handler applied to a store. *)
Ltac run_handler :=
  unfold response, statements_executed; cbv zeta;
  unfold mbind, mret, handler_bind, handler_ret, exec, raise, pure;
  cbn [fst snd outcome_bind outcome_ret].


(** ** The primitives on small inputs *)

Example round_ties_to_even :
  Py.round 0.5 = Return 0 ∧ Py.round 1.5 = Return 2 ∧ Py.round 2.5 = Return 2
  ∧ Py.round (-2.5) = Return (-2) ∧ Py.round 81.75 = Return 82
  ∧ Py.round infinity = Raise OverflowError ∧ Py.round nan = Raise ValueError.
Proof. repeat split; vm_compute; reflexivity. Qed.

Example int_truediv_values :
  Py.int_truediv 7 2 = Return 3.5%float
  ∧ Py.int_truediv (-7) 2 = Return (-3.5)%float
  ∧ Py.int_truediv 600 3 = Return 200%float
  ∧ Py.int_truediv 1 3 = Return (1 / 3)%float
  ∧ Py.int_truediv (2 ^ 60 + 1) (2 ^ 60 - 1) = Return 1%float
  ∧ Py.int_truediv 1 0 = Raise ZeroDivisionError
  ∧ Py.int_truediv (2 ^ 2000) 1 = Raise OverflowError.
Proof. repeat split; vm_compute; reflexivity. Qed.

Example float_of_int_values :
  Py.float_of_int 3 = Return 3%float
  ∧ Py.float_of_int (2 ^ 53 + 1) = Return 9007199254740992%float
  ∧ Py.float_of_int (2 ^ 1024) = Raise OverflowError.
Proof. repeat split; vm_compute; reflexivity. Qed.

Example slices_and_limits :
  Py.slice_to 2 [1; 2; 3] = [1; 2] ∧ Py.slice_to (-1) [1; 2; 3] = [1; 2]
  ∧ Py.slice_to 0 [1; 2; 3] = [] ∧ Py.slice_to (-5) [1; 2; 3] = []
  ∧ SQL.limit 2 [1; 2; 3] = [1; 2] ∧ SQL.limit (-1) [1; 2; 3] = [1; 2; 3].
Proof. repeat split; reflexivity. Qed.

Example sums :
  SQL.sum [Some 1; None; Some 2] = Some 3 ∧ SQL.sum [None; None] = None
  ∧ SQL.sum [] = None
  ∧ Py.sum [Some 1; Some 2] = Return 3 ∧ Py.sum [Some 1; None] = Raise TypeError
  ∧ Py.sum [] = Return 0.
Proof. repeat split; reflexivity. Qed.

Example patterns :
  SQL.ilike "Grand Canyon National Park" "%canyon%" = true
  ∧ SQL.ilike "Grand Canyon National Park" "%c_nyon%" = true
  ∧ SQL.ilike "Zion National Park" "%canyon%" = false
  ∧ Py.contains (Py.lower "CANYON") (Py.lower "Grand Canyon") = true
  ∧ Py.contains "c_nyon" "grand canyon" = false
  ∧ Py.upper "grca" = "GRCA" ∧ Py.upper "GrCa-1" = "GRCA-1".
Proof. repeat split; vm_compute; reflexivity. Qed.

(** Equal keys keep their order, ascending and descending; NULL sorts lowest. *)
Example sorting_is_stable :
  order_by Z.leb fst [(2, "a"); (1, "b"); (2, "c"); (1, "d")]
  = [(1, "b"); (1, "d"); (2, "a"); (2, "c")]
  ∧ order_by_desc Z.leb fst [(2, "a"); (1, "b"); (2, "c"); (1, "d")]
    = [(2, "a"); (2, "c"); (1, "b"); (1, "d")]
  ∧ order_by_desc SQL.le_int id [Some 1; None; Some 3] = [Some 3; Some 1; None].
Proof. repeat split; vm_compute; reflexivity. Qed.

Example grouping :
  SQL.group_by fst [("a", 1); ("b", 2); ("a", 3)]
  = [("b", [("b", 2)]); ("a", [("a", 1); ("a", 3)])].
Proof. vm_compute. reflexivity. Qed.

(** ** Case maps *)

Lemma ascii_upper_idemp c : Py.ascii_upper (Py.ascii_upper c) = Py.ascii_upper c.
Proof. destruct c as [[] [] [] [] [] [] [] []]; reflexivity. Qed.

Lemma ascii_upper_lower c : Py.ascii_upper (Py.ascii_lower c) = Py.ascii_upper c.
Proof. destruct c as [[] [] [] [] [] [] [] []]; reflexivity. Qed.

Lemma upper_idemp s : Py.upper (Py.upper s) = Py.upper s.
Proof. induction s as [|c s IH]; simpl; [done|]. by rewrite ascii_upper_idemp, IH. Qed.

Lemma upper_lower s : Py.upper (Py.lower s) = Py.upper s.
Proof. induction s as [|c s IH]; simpl; [done|]. by rewrite ascii_upper_lower, IH. Qed.

Lemma upper_idemp_opt (o : option string) : Py.upper <$> (Py.upper <$> o) = Py.upper <$> o.
Proof. destruct o; simpl; [|done]. by rewrite upper_idemp. Qed.

(** ** Sorting *)

Section sorting_facts.
Context {A : Type} (le : A → A → bool).

Lemma insert_by_Permutation a l : insert_by le a l ≡ₚ a :: l.
Proof.
  induction l as [|b l IH]; simpl; [done|].
  destruct (le a b); [done|]. rewrite IH. apply Permutation_swap.
Qed.

Lemma sort_by_Permutation l : sort_by le l ≡ₚ l.
Proof.
  induction l as [|a l IH]; simpl; [done|].
  rewrite insert_by_Permutation. by rewrite IH.
Qed.

Lemma elem_of_sort_by x l : x ∈ sort_by le l ↔ x ∈ l.
Proof. by rewrite sort_by_Permutation. Qed.

Lemma length_sort_by l : length (sort_by le l) = length l.
Proof. by rewrite sort_by_Permutation. Qed.

Lemma sort_by_nil_inv l : sort_by le l = [] → l = [].
Proof.
  intros H. apply (f_equal length) in H. rewrite length_sort_by in H.
  by destruct l.
Qed.

Hypothesis le_total : ∀ a b, le a b = true ∨ le b a = true.
Hypothesis le_trans : ∀ a b c, le a b = true → le b c = true → le a c = true.

Lemma insert_by_sorted a l :
  StronglySorted (λ x y, le x y = true) l →
  StronglySorted (λ x y, le x y = true) (insert_by le a l).
Proof.
  induction 1 as [|b l Hs IH Hb]; simpl.
  - repeat constructor.
  - destruct (le a b) eqn:E.
    + constructor; [by constructor|].
      constructor; [done|].
      eapply Forall_impl; [exact Hb|]. intros c Hc. by eapply le_trans.
    + constructor; [done|].
      rewrite insert_by_Permutation. constructor; [|done].
      destruct (le_total a b); congruence.
Qed.

Lemma sort_by_sorted l : StronglySorted (λ x y, le x y = true) (sort_by le l).
Proof.
  induction l as [|a l IH]; simpl; [constructor|]. by apply insert_by_sorted.
Qed.

End sorting_facts.

Lemma le_int_total x y : SQL.le_int x y = true ∨ SQL.le_int y x = true.
Proof. destruct x, y; simpl; auto. lia. Qed.

Lemma le_int_trans x y z :
  SQL.le_int x y = true → SQL.le_int y z = true → SQL.le_int x z = true.
Proof. destruct x, y, z; simpl; auto; try discriminate. lia. Qed.

Lemma order_by_desc_int_sorted {A} (key : A → option Z) l :
  StronglySorted (λ a b, SQL.le_int (key b) (key a) = true)
                 (order_by_desc SQL.le_int key l).
Proof.
  apply (sort_by_sorted (λ a b, SQL.le_int (key b) (key a))).
  - intros a b. apply le_int_total.
  - intros a b c ??. by eapply le_int_trans.
Qed.

Lemma StronglySorted_weaken {A} (R S : relation A) l :
  (∀ a b, R a b → S a b) → StronglySorted R l → StronglySorted S l.
Proof.
  intros HRS. induction 1 as [|a l Hs IH Ha]; constructor; [done|].
  eapply Forall_impl; [exact Ha|]. auto.
Qed.

Lemma order_by_desc_Z_sorted {A} (key : A → Z) l :
  StronglySorted (λ a b, key b ≤ key a) (order_by_desc Z.leb key l).
Proof.
  eapply StronglySorted_weaken; [|apply (sort_by_sorted (λ a b, key b <=? key a))].
  - intros a b. simpl. lia.
  - intros a b. lia.
  - intros a b c. lia.
Qed.

Lemma order_by_Z_sorted {A} (key : A → Z) l :
  StronglySorted (λ a b, key a ≤ key b) (order_by Z.leb key l).
Proof.
  eapply StronglySorted_weaken; [|apply (sort_by_sorted (λ a b, key a <=? key b))].
  - intros a b. simpl. lia.
  - intros a b. lia.
  - intros a b c. lia.
Qed.

(** ** Joins and groups *)

Section sql_facts.
Context {A B : Type}.

Lemma join_cons (on : A * B → Prop) `{∀ x, Decision (on x)} a (l : list A) (r : list B) :
  SQL.join on (a :: l) r
  = ((λ b, (a, b)) <$> filter (λ b, on (a, b)) r) ++ SQL.join on l r.
Proof.
  unfold SQL.join. csimpl. rewrite filter_app. f_equal.
  induction r as [|b r IH]; csimpl; [done|].
  rewrite !filter_cons, IH. by destruct (decide (on (a, b))).
Qed.

Lemma elem_of_join (on : A * B → Prop) `{∀ x, Decision (on x)} x (l : list A) (r : list B) :
  x ∈ SQL.join on l r ↔ x.1 ∈ l ∧ x.2 ∈ r ∧ on x.
Proof.
  unfold SQL.join. rewrite list_elem_of_filter, list_elem_of_bind. split.
  - intros (Hon & a & Hx & Ha). apply list_elem_of_bind in Hx as (b & Hx & Hb).
    apply list_elem_of_singleton in Hx as ->. done.
  - intros (Ha & Hb & Hon). split; [done|]. exists x.1. split; [|done].
    apply list_elem_of_bind. exists x.2. split; [|done].
    destruct x. simpl. apply list_elem_of_singleton. done.
Qed.

Lemma elem_of_outer_join (on : A * B → Prop) `{∀ x, Decision (on x)} x
    (l : list A) (r : list B) :
  x ∈ SQL.outer_join on l r ↔
    x.1 ∈ l ∧ match x.2 with
              | Some b => b ∈ r ∧ on (x.1, b)
              | None => ∀ b, b ∈ r → ¬ on (x.1, b)
              end.
Proof.
  unfold SQL.outer_join. rewrite list_elem_of_bind. split.
  - intros (a & Hx & Ha).
    destruct (filter (λ b, on (a, b)) r) as [|b0 bs] eqn:E.
    + apply list_elem_of_singleton in Hx as ->. simpl. split; [done|].
      intros b Hb Hon. assert (b ∈ filter (λ b, on (a, b)) r) as Hin
        by (by apply list_elem_of_filter).
      rewrite E in Hin. by apply not_elem_of_nil in Hin.
    + apply list_elem_of_fmap in Hx as (b & -> & Hb). simpl. split; [done|].
      rewrite <- E in Hb. apply list_elem_of_filter in Hb. tauto.
  - destruct x as [a ob]. simpl. intros (Ha & Hob). exists a. split; [|done].
    destruct ob as [b|].
    + destruct Hob as (Hb & Hon).
      assert (b ∈ filter (λ b, on (a, b)) r) as Hin by (by apply list_elem_of_filter).
      destruct (filter (λ b, on (a, b)) r) as [|b0 bs] eqn:E.
      * by apply not_elem_of_nil in Hin.
      * exact (list_elem_of_fmap_2 (λ b, (a, Some b)) _ _ Hin).
    + destruct (filter (λ b, on (a, b)) r) as [|b0 bs] eqn:E.
      * apply list_elem_of_singleton. done.
      * exfalso. assert (b0 ∈ filter (λ b, on (a, b)) r) as Hin
          by (rewrite E; apply list_elem_of_here).
        apply list_elem_of_filter in Hin as (Hon & Hb0). by eapply Hob.
Qed.

End sql_facts.

Section group_facts.
Context {K : Type} `{EqDecision K} {A : Type} (key : A → K).

Lemma elem_of_group_by g (l : list A) :
  g ∈ SQL.group_by key l ↔
    (∃ a, a ∈ l ∧ key a = g.1) ∧ g.2 = filter (λ a, key a = g.1) l.
Proof.
  unfold SQL.group_by. rewrite list_elem_of_fmap. split.
  - intros (k & -> & Hk). simpl. split; [|done].
    apply elem_of_remove_dups, list_elem_of_fmap in Hk as (a & -> & Ha). eauto.
  - intros ((a & Ha & Hk) & Hg). exists g.1. split.
    + destruct g. simpl in *. by subst.
    + apply elem_of_remove_dups, list_elem_of_fmap. eauto.
Qed.

Lemma group_by_keys_NoDup (l : list A) : NoDup ((SQL.group_by key l).*1).
Proof.
  unfold SQL.group_by. rewrite <- list_fmap_compose.
  assert (∀ ks : list K, (fst ∘ (λ k, (k, filter (λ a, key a = k) l))) <$> ks = ks) as ->.
  { induction ks as [|k ks IH]; [done|]. by rewrite fmap_cons, IH. }
  apply NoDup_remove_dups.
Qed.

End group_facts.

(** ** Reading a response back to the rows it was built from *)

(** From a row of a grouped statement back to a selected row of its FROM
    clause: [H : row ∈ f <$> SQL.group_by key (filter P from)]. *)
Ltac group_origin H x :=
  let g := fresh "g" in
  let Hg := fresh "Hgroup" in
  let Hk := fresh "Hkey" in
  let HP := fresh "Hsel" in
  let Hx := fresh "Hfrom" in
  apply list_elem_of_fmap in H as (g & -> & H);
  apply elem_of_group_by in H as ((x & Hx & Hk) & Hg);
  apply list_elem_of_filter in Hx as (HP & Hx).

Lemma elem_of_limit {A} n (l : list A) x : x ∈ SQL.limit n l → x ∈ l.
Proof. unfold SQL.limit. destruct (n <? 0); [done|]. apply subseteq_take. Qed.

Lemma elem_of_slice_to {A} n (l : list A) x : x ∈ Py.slice_to n l → x ∈ l.
Proof. unfold Py.slice_to. destruct (n <? 0); apply subseteq_take. Qed.

Lemma elem_of_order_by_desc {A B} (le : B → B → bool) (key : A → B) l x :
  x ∈ order_by_desc le key l ↔ x ∈ l.
Proof. apply elem_of_sort_by. Qed.

Lemma elem_of_order_by {A B} (le : B → B → bool) (key : A → B) l x :
  x ∈ order_by le key l ↔ x ∈ l.
Proof. apply elem_of_sort_by. Qed.

Lemma mapM_Return {A B} (f : A → outcome B) l k :
  mapM f l = Return k → Forall2 (λ a b, f a = Return b) l k.
Proof.
  revert k. induction l as [|a l IH]; intros k; simpl.
  - intros [= <-]. constructor.
  - destruct (f a) as [b|] eqn:Ea; simpl; [|done].
    destruct (mapM f l) as [k'|] eqn:Ek; simpl; [|done].
    intros [= <-]. constructor; auto.
Qed.

Lemma mapM_Return_elem_of {A B} (f : A → outcome B) l k b :
  mapM f l = Return k → b ∈ k → ∃ a, a ∈ l ∧ f a = Return b.
Proof.
  intros H%mapM_Return Hb.
  induction H as [|a b' l k Hab H IH]; [by apply not_elem_of_nil in Hb|].
  apply elem_of_cons in Hb as [->|Hb].
  - exists a. split; [left|done].
  - destruct (IH Hb) as (a' & ? & ?). exists a'. split; [by right|done].
Qed.

Lemma mapM_Return_elem_of_l {A B} (f : A → outcome B) l k a :
  mapM f l = Return k → a ∈ l → ∃ b, b ∈ k ∧ f a = Return b.
Proof.
  intros H%mapM_Return Ha.
  induction H as [|a' b l k Hab H IH]; [by apply not_elem_of_nil in Ha|].
  apply elem_of_cons in Ha as [->|Ha].
  - exists b. split; [left|done].
  - destruct (IH Ha) as (b' & ? & ?). exists b'. split; [by right|done].
Qed.

Lemma mapM_Return_length {A B} (f : A → outcome B) l k :
  mapM f l = Return k → length k = length l.
Proof. intros H%mapM_Return. symmetry. by eapply Forall2_length. Qed.

Lemma park_visits_region_elem st x :
  x ∈ park_visits_region st →
  x.1.1 ∈ parks st ∧ x.1.2 ∈ monthly_visits st
  ∧ MonthlyVisit.park_code x.1.2 = Park.park_code x.1.1
  ∧ match x.2 with
    | Some r => r ∈ regions st ∧ Some (Region.region_id r) = Park.region_id x.1.1
    | None => ∀ r, r ∈ regions st → Some (Region.region_id r) ≠ Park.region_id x.1.1
    end.
Proof.
  unfold park_visits_region, park_visits.
  intros (Hpm & Hr)%elem_of_outer_join.
  apply elem_of_join in Hpm as (Hp & Hm & Hon). repeat split; try done.
Qed.

(** ** Responses carry the canonical identifiers

    A record returned under an identifier filter carries the upper-cased
    identifier. *)

Lemma annual_visits_by_park_echo st year r c query min_total limit out rec :
  response (annual_visits_by_park year r c query min_total limit) st = Return out →
  rec ∈ out →
  when r (λ rid, AnnualParkVisitsOut.region_id rec = Some (Py.upper rid))
  ∧ when c (λ code, AnnualParkVisitsOut.park_code rec = Py.upper code).
Proof.
  unfold annual_visits_by_park. run_handler. intros [= <-].
  intros (row & -> & Hrow)%list_elem_of_fmap.
  apply elem_of_limit, elem_of_order_by_desc, list_elem_of_filter in Hrow as (_ & Hrow).
  group_origin Hrow x. destruct Hsel as (_ & Hr & Hc).
  destruct g as [[[[[[[[]]]]]]]]. simpl in *. simplify_eq.
  split.
  - destruct r; simpl in *; done.
  - destruct c; simpl in *; done.
Qed.

Lemma get_park_details_echo st c rec :
  response (get_park_details c) st = Return rec →
  ParkDetailOut.park_code rec = Py.upper c.
Proof.
  unfold get_park_details. run_handler.
  destruct (details_stmt _ _) as [[park region]|] eqn:E; run_handler; [|discriminate].
  intros [= <-]. simpl.
  apply head_Some_elem_of, list_elem_of_filter in E as (E & _). done.
Qed.

Lemma average_monthly_visits_echo st sy ey r c query limit out rec :
  response (average_monthly_visits_by_park sy ey r c query limit) st = Return out →
  rec ∈ out →
  when r (λ rid, AvgMonthlyVisitsOut.region_id rec = Some (Py.upper rid))
  ∧ when c (λ code, AvgMonthlyVisitsOut.park_code rec = Py.upper code).
Proof.
  unfold average_monthly_visits_by_park. destruct (sy >? ey); run_handler; [discriminate|].
  destruct (mapM _ _) as [out'|] eqn:E; run_handler; [|discriminate]. intros [= <-] Hrec.
  eapply mapM_Return_elem_of in E as (row & Hrow & Hf); [|done].
  apply elem_of_limit, elem_of_order_by_desc in Hrow.
  group_origin Hrow x. destruct Hsel as (_ & Hr & Hc).
  destruct g as [[[[]]]]. simpl in *. simplify_eq.
  destruct (round_or_0 _); simpl in Hf; simplify_eq. simpl.
  split.
  - destruct r; simpl in *; done.
  - destruct c; simpl in *; done.
Qed.

Lemma peak_season_echo st year threshold r out rec :
  response (peak_season_above_threshold year threshold r) st = Return out →
  rec ∈ out →
  when r (λ rid, AvgMonthlyVisitsOut.region_id rec = Some (Py.upper rid)).
Proof.
  unfold peak_season_above_threshold. run_handler.
  destruct (mapM _ _) as [out'|] eqn:E; run_handler; [|discriminate]. intros [= <-] Hrec.
  eapply mapM_Return_elem_of in E as (row & Hrow & Hf); [|done].
  apply elem_of_order_by_desc, list_elem_of_filter in Hrow as (_ & Hrow).
  group_origin Hrow x. destruct Hsel as (_ & _ & Hr).
  destruct g as [[[[]]]]. simpl in *. simplify_eq.
  destruct (round_or_0 _); simpl in Hf; simplify_eq. simpl.
  destruct r; simpl in *; done.
Qed.

Lemma parks_above_system_average_echo st year r c query out rec :
  response (parks_above_system_average year r c query) st = Return out →
  rec ∈ out →
  when r (λ rid, ParkAboveAverageOut.region_id rec = Some (Py.upper rid))
  ∧ when c (λ code, ParkAboveAverageOut.park_code rec = Py.upper code).
Proof.
  unfold parks_above_system_average. run_handler.
  destruct (annual_totals_stmt _ _ _) as [|t ts]; run_handler; [discriminate|].
  destruct (rounded_mean _) as [avg|]; run_handler; [|discriminate].
  destruct (mapM _ _) as [out'|] eqn:E; run_handler; [|discriminate]. intros [= <-] Hrec.
  eapply mapM_Return_elem_of in E as (row & Hrow & Hf); [|done].
  apply elem_of_order_by_desc, list_elem_of_filter in Hrow as (_ & Hrow).
  group_origin Hrow x. destruct Hsel as (_ & Hr & Hc).
  destruct g as [[[[[]]]]]. simpl in *. simplify_eq.
  destruct (percent_above _ _); simpl in Hf; simplify_eq. simpl.
  split.
  - destruct r; simpl in *; done.
  - destruct c; simpl in *; done.
Qed.

Lemma parks_by_metric_echo st year metric r limit out rec :
  response (parks_by_metric year metric r limit) st = Return out →
  rec ∈ out →
  when r (λ rid, MetricParkOut.region_id rec = Some (Py.upper rid)).
Proof.
  unfold parks_by_metric. destruct (allowed !! metric) as [col|]; run_handler; [|discriminate].
  intros [= <-] (row & -> & Hrow)%list_elem_of_fmap.
  apply elem_of_limit, elem_of_order_by_desc in Hrow.
  group_origin Hrow x. destruct Hsel as (_ & Hr).
  destruct g as [[[[[]]]]]. simpl in *. simplify_eq.
  destruct r; simpl in *; done.
Qed.

Lemma annual_visits_by_region_echo st year r out rec :
  response (annual_visits_by_region year r) st = Return out →
  rec ∈ out →
  when r (λ rid, RegionAnnualVisitsOut.region_id rec = Py.upper rid).
Proof.
  unfold annual_visits_by_region. run_handler.
  intros [= <-] Hrec. apply elem_of_lookup_imap in Hrec as (i & row & -> & Hrow).
  apply list_elem_of_lookup_2, elem_of_order_by_desc in Hrow.
  group_origin Hrow x. destruct Hsel as (_ & Hr).
  destruct g as [[[]]]. simpl in *. simplify_eq.
  destruct r; simpl in *; done.
Qed.

Lemma growth_by_region_echo st r sy ey out rec :
  response (growth_by_region_over_time r sy ey) st = Return out →
  rec ∈ out →
  GrowthOut.region_id rec = Py.upper r.
Proof.
  unfold growth_by_region_over_time. destruct (sy >=? ey); run_handler; [discriminate|].
  destruct (growth_stmt _ _ _ _) as [|t ts] eqn:Erows; run_handler; [discriminate|].
  destruct (mapM _ _) as [out'|] eqn:E; run_handler; [|discriminate]. intros [= <-] Hrec.
  apply elem_of_order_by_desc in Hrec.
  eapply mapM_Return_elem_of in E as (row & Hrow & Hf); [|done].
  rewrite <- Erows in Hrow.
  apply list_elem_of_fmap in Hrow as (x & -> & Hx).
  apply list_elem_of_filter in Hx as (Hr & _).
  simpl in Hf. destruct (growth_pct _ _); simpl in Hf; simplify_eq. done.
Qed.

Lemma park_visit_variability_echo st year r c query limit out rec :
  response (park_visit_variability year r c query limit) st = Return out →
  rec ∈ out →
  when r (λ rid, VariabilityOut.region_id rec = Some (Py.upper rid))
  ∧ when c (λ code, VariabilityOut.park_code rec = Py.upper code).
Proof.
  unfold park_visit_variability. run_handler.
  destruct (variability_stmt _ _ _ _ _) as [|t ts] eqn:Erows; run_handler; [discriminate|].
  destruct (mapM _ _) as [out'|] eqn:E; run_handler; [|discriminate]. intros [= <-] Hrec.
  assert (rec ∈ out') as Hrec'.
  { destruct (limit >? 0); [apply elem_of_slice_to in Hrec|];
      by apply elem_of_order_by_desc in Hrec. }
  eapply mapM_Return_elem_of in E as (row & Hrow & Hf); [|done].
  rewrite <- Erows in Hrow.
  group_origin Hrow x. destruct Hsel as (_ & Hr & Hc).
  destruct g as [[[[[]]]]]. simpl in *. simplify_eq.
  destruct (variability_stats _ _ _); simpl in Hf; simplify_eq. simpl.
  split.
  - destruct r; simpl in *; done.
  - destruct c; simpl in *; done.
Qed.

(** ** Contradictory and redundant parameters *)

(** C7: on the average-monthly and growth operations, a call with
    [start_year > end_year] ends with a 400 response (BadRequest) and has
    executed no statement, whatever the other parameters and the store. *)
Theorem inverted_year_range_is_bad_request (st : Store) (start_year end_year : Z)
    (region_id park_code query : option string) (limit : Z) (region : string) :
  start_year > end_year →
  (∃ detail,
     response (average_monthly_visits_by_park start_year end_year region_id park_code
                 query limit) st
     = Raise (HTTPException 400 detail))
  ∧ statements_executed
      (average_monthly_visits_by_park start_year end_year region_id park_code query limit)
      st = 0%nat
  ∧ (∃ detail,
       response (growth_by_region_over_time region start_year end_year) st
       = Raise (HTTPException 400 detail))
  ∧ statements_executed (growth_by_region_over_time region start_year end_year) st = 0%nat.
Proof.
  intros Hgt.
  unfold average_monthly_visits_by_park, growth_by_region_over_time.
  replace (start_year >? end_year) with true by lia.
  replace (start_year >=? end_year) with true by lia.
  run_handler. repeat split; eauto.
Qed.

Lemma inverted_year_range_witness :
  2024 > 2022
  ∧ statements_executed (growth_by_region_over_time "imr" 2024 2022) sample_store = 0%nat.
Proof.
  split; [lia|].
  apply (inverted_year_range_is_bad_request sample_store 2024 2022 None None None 100 "imr").
  lia.
Defined.

(** C10: on the four operations that take both an exact park code and a
    partial-name query, the query is ignored once a park code is given: the
    call returns what it returns with the query left out. *)
Theorem query_ignored_when_park_code_given (st : Store) (year start_year end_year : Z)
    (region_id : option string) (park_code q : string) (min_total : option Z) (limit : Z) :
  annual_visits_by_park year region_id (Some park_code) (Some q) min_total limit st
  = annual_visits_by_park year region_id (Some park_code) None min_total limit st
  ∧ average_monthly_visits_by_park start_year end_year region_id (Some park_code)
      (Some q) limit st
    = average_monthly_visits_by_park start_year end_year region_id (Some park_code)
        None limit st
  ∧ parks_above_system_average year region_id (Some park_code) (Some q) st
    = parks_above_system_average year region_id (Some park_code) None st
  ∧ park_visit_variability year region_id (Some park_code) (Some q) limit st
    = park_visit_variability year region_id (Some park_code) None limit st.
Proof. repeat split; reflexivity. Qed.

(** ** Identifier filters are case-insensitive *)

Lemma case_insensitive_intro {A} (h : string → Handler A) :
  (∀ c st, h c st = h (Py.upper c) st) → case_insensitive h.
Proof. intros H c c' st E. by rewrite (H c), (H c'), E. Qed.

Lemma case_insensitive_opt_intro {A} (h : option string → Handler A) :
  (∀ r st, h r st = h (Py.upper <$> r) st) → case_insensitive_opt h.
Proof. intros H r r' st E. by rewrite (H r), (H r'), E. Qed.

(** C9: every operation that takes a park code or a region code gives the
    same result for all spellings of the code that agree up to letter case
    (in particular for the lower-case, a mixed-case and the upper-case
    spelling), and the records returned under such a filter carry the
    upper-case code. *)
Theorem identifier_filters_are_case_insensitive :
  (* the result does not depend on the letter case of the identifier *)
  (case_insensitive get_park_details
   ∧ (∀ year threshold,
        case_insensitive (λ c, park_monthly_visits_with_threshold c year threshold))
   ∧ (∀ year c query min_total limit,
        case_insensitive_opt (λ r, annual_visits_by_park year r c query min_total limit))
   ∧ (∀ year r query min_total limit,
        case_insensitive_opt (λ c, annual_visits_by_park year r c query min_total limit))
   ∧ (∀ sy ey c query limit,
        case_insensitive_opt (λ r, average_monthly_visits_by_park sy ey r c query limit))
   ∧ (∀ sy ey r query limit,
        case_insensitive_opt (λ c, average_monthly_visits_by_park sy ey r c query limit))
   ∧ (∀ year threshold,
        case_insensitive_opt (λ r, peak_season_above_threshold year threshold r))
   ∧ (∀ year c query,
        case_insensitive_opt (λ r, parks_above_system_average year r c query))
   ∧ (∀ year r query,
        case_insensitive_opt (λ c, parks_above_system_average year r c query))
   ∧ (∀ year limit query,
        case_insensitive_opt (λ r, top_parks_by_year year limit r query))
   ∧ (∀ year metric limit,
        case_insensitive_opt (λ r, parks_by_metric year metric r limit))
   ∧ (∀ year, case_insensitive_opt (λ r, annual_visits_by_region year r))
   ∧ (∀ year, case_insensitive (λ c, month_to_month_change c year))
   ∧ (∀ sy ey, case_insensitive (λ r, growth_by_region_over_time r sy ey))
   ∧ (∀ year c query limit,
        case_insensitive_opt (λ r, park_visit_variability year r c query limit))
   ∧ (∀ year r query limit,
        case_insensitive_opt (λ c, park_visit_variability year r c query limit)))
  (* a spelling in lower case is one of them *)
  ∧ (∀ c, Py.upper (Py.lower c) = Py.upper c)
  (* the records carry the upper-case identifiers *)
  ∧ (∀ st c rec,
       response (get_park_details c) st = Return rec →
       ParkDetailOut.park_code rec = Py.upper c)
  ∧ (∀ st year r c query min_total limit out rec,
       response (annual_visits_by_park year r c query min_total limit) st = Return out →
       rec ∈ out →
       when r (λ rid, AnnualParkVisitsOut.region_id rec = Some (Py.upper rid))
       ∧ when c (λ code, AnnualParkVisitsOut.park_code rec = Py.upper code))
  ∧ (∀ st sy ey r c query limit out rec,
       response (average_monthly_visits_by_park sy ey r c query limit) st = Return out →
       rec ∈ out →
       when r (λ rid, AvgMonthlyVisitsOut.region_id rec = Some (Py.upper rid))
       ∧ when c (λ code, AvgMonthlyVisitsOut.park_code rec = Py.upper code))
  ∧ (∀ st year threshold r out rec,
       response (peak_season_above_threshold year threshold r) st = Return out →
       rec ∈ out →
       when r (λ rid, AvgMonthlyVisitsOut.region_id rec = Some (Py.upper rid)))
  ∧ (∀ st year r c query out rec,
       response (parks_above_system_average year r c query) st = Return out →
       rec ∈ out →
       when r (λ rid, ParkAboveAverageOut.region_id rec = Some (Py.upper rid))
       ∧ when c (λ code, ParkAboveAverageOut.park_code rec = Py.upper code))
  ∧ (∀ st year metric r limit out rec,
       response (parks_by_metric year metric r limit) st = Return out →
       rec ∈ out →
       when r (λ rid, MetricParkOut.region_id rec = Some (Py.upper rid)))
  ∧ (∀ st year r out rec,
       response (annual_visits_by_region year r) st = Return out →
       rec ∈ out →
       when r (λ rid, RegionAnnualVisitsOut.region_id rec = Py.upper rid))
  ∧ (∀ st r sy ey out rec,
       response (growth_by_region_over_time r sy ey) st = Return out →
       rec ∈ out →
       GrowthOut.region_id rec = Py.upper r)
  ∧ (∀ st year r c query limit out rec,
       response (park_visit_variability year r c query limit) st = Return out →
       rec ∈ out →
       when r (λ rid, VariabilityOut.region_id rec = Some (Py.upper rid))
       ∧ when c (λ code, VariabilityOut.park_code rec = Py.upper code)).
Proof.
  split; [|split].
  - repeat split; intros;
      first [apply case_insensitive_intro | apply case_insensitive_opt_intro];
      intros x st;
      unfold get_park_details, park_monthly_visits_with_threshold, annual_visits_by_park,
        average_monthly_visits_by_park, peak_season_above_threshold,
        parks_above_system_average, top_parks_by_year, parks_by_metric,
        annual_visits_by_region, month_to_month_change, growth_by_region_over_time,
        park_visit_variability;
      by rewrite ?upper_idemp, ?upper_idemp_opt.
  - apply upper_lower.
  - repeat apply conj.
    + apply get_park_details_echo.
    + apply annual_visits_by_park_echo.
    + apply average_monthly_visits_echo.
    + apply peak_season_echo.
    + apply parks_above_system_average_echo.
    + apply parks_by_metric_echo.
    + apply annual_visits_by_region_echo.
    + apply growth_by_region_echo.
    + apply park_visit_variability_echo.
Qed.

Lemma identifier_filters_witness :
  Py.upper "grca" = Py.upper "GrCa"
  ∧ park_monthly_visits_with_threshold "grca" 2020 200 sample_store
    = park_monthly_visits_with_threshold "GrCa" 2020 200 sample_store.
Proof.
  split; [reflexivity|].
  apply (proj1 (proj2 (proj1 identifier_filters_are_case_insensitive)) 2020 200).
  reflexivity.
Defined.

(** ** Keys *)

Lemma NoDup_fmap_elem_inj {A B} (f : A → B) (l : list A) x y :
  NoDup (f <$> l) → x ∈ l → y ∈ l → f x = f y → x = y.
Proof.
  intros Hnd (i & Hi)%list_elem_of_lookup (j & Hj)%list_elem_of_lookup Hf.
  assert (i = j) as ->.
  { eapply NoDup_lookup; [exact Hnd| |].
    - rewrite list_lookup_fmap, Hi. reflexivity.
    - rewrite list_lookup_fmap, Hj. simpl. by rewrite Hf. }
  congruence.
Qed.

Lemma NoDup_fmap_filter {A B C} (f : A → B) (g : A → C) (P : A → Prop)
    `{∀ a, Decision (P a)} (l : list A) :
  NoDup (f <$> l) →
  (∀ x y, P x → P y → g x = g y → f x = f y) →
  NoDup (g <$> filter P l).
Proof.
  intros Hnd Hinj. apply NoDup_fmap_2_strong.
  - intros x y (HPx & Hx)%list_elem_of_filter (HPy & Hy)%list_elem_of_filter Hg.
    eapply NoDup_fmap_elem_inj; eauto.
  - apply NoDup_filter. by eapply NoDup_fmap_1.
Qed.

Lemma StronglySorted_le_lt (l : list Z) :
  NoDup l → StronglySorted Z.le l → StronglySorted Z.lt l.
Proof.
  intros Hnd. induction 1 as [|a l Hs IH Ha]; constructor.
  - apply IH. by apply NoDup_cons in Hnd as (_ & ?).
  - apply NoDup_cons in Hnd as (Hnotin & _).
    apply Forall_forall. intros b Hb.
    assert (a ≤ b) by (eapply Forall_forall in Ha; eauto).
    assert (a ≠ b) by (intros ->; done). lia.
Qed.

(** ** Q1: the monthly series *)

(** C8: for a park and year with at least one stored row, the monthly
    series is returned, not a 404; its (month, total) pairs are exactly
    those of the stored rows of that park and year, with a NULL total read
    as 0 (no month is added, none is dropped); the months are strictly
    ascending; and a record is flagged iff its total reaches the threshold. *)
Theorem monthly_series_exact_sorted_flagged (st : Store) (park_code : string)
    (year threshold : Z) :
  monthly_visit_pk st →
  (∃ m, m ∈ monthly_visits st
        ∧ MonthlyVisit.park_code m = Py.upper park_code ∧ MonthlyVisit.year m = year) →
  ∃ out,
    response (park_monthly_visits_with_threshold park_code year threshold) st = Return out
    ∧ (λ r, (MonthlyThresholdOut.month r, MonthlyThresholdOut.total_visits r)) <$> out
      ≡ₚ (λ m, (MonthlyVisit.month m, Py.or_0 (MonthlyVisit.total_visits m)))
           <$> visits_in st (Py.upper park_code) year
    ∧ StronglySorted Z.lt (MonthlyThresholdOut.month <$> out)
    ∧ ∀ r, r ∈ out →
        (MonthlyThresholdOut.above_threshold r = true
         ↔ MonthlyThresholdOut.total_visits r >= threshold).
Proof.
  intros Hpk (m0 & Hm0 & Hc0 & Hy0).
  unfold park_monthly_visits_with_threshold. run_handler.
  unfold monthly_visits_stmt. fold (visits_in st (Py.upper park_code) year).
  set (sorted := order_by Z.leb MonthlyVisit.month (visits_in st (Py.upper park_code) year)).
  assert (sorted ≡ₚ visits_in st (Py.upper park_code) year) as Hperm
    by apply sort_by_Permutation.
  assert (m0 ∈ sorted) as Hin.
  { rewrite Hperm. apply list_elem_of_filter. done. }
  set (F := λ '(month, total),
         MonthlyThresholdOut.mk month (Py.or_0 total)
           (bool_decide (threshold ≤ Py.or_0 total))).
  exists (F <$> ((λ m, (MonthlyVisit.month m, MonthlyVisit.total_visits m)) <$> sorted)).
  split; [|split; [|split]].
  - destruct sorted as [|m1 ms]; [by apply not_elem_of_nil in Hin|]. reflexivity.
  - rewrite <- !list_fmap_compose. rewrite <- Hperm. reflexivity.
  - rewrite <- !list_fmap_compose.
    change (StronglySorted Z.lt (MonthlyVisit.month <$> sorted)).
    apply StronglySorted_le_lt.
    + rewrite Hperm. unfold visits_in.
      eapply (NoDup_fmap_filter _ MonthlyVisit.month); [exact Hpk|].
      intros x y (-> & ->) (-> & ->) ->. reflexivity.
    + eapply StronglySorted_fmap; [|apply order_by_Z_sorted]. done.
  - intros r (row & -> & Hrow)%list_elem_of_fmap. destruct row as [month total].
    simpl. rewrite bool_decide_eq_true. lia.
Qed.

Lemma monthly_series_witness :
  monthly_visit_pk sample_store
  ∧ ∃ out,
      response (park_monthly_visits_with_threshold "grca" 2020 200) sample_store
      = Return out
      ∧ StronglySorted Z.lt (MonthlyThresholdOut.month <$> out).
Proof.
  assert (monthly_visit_pk sample_store) as Hpk.
  { unfold monthly_visit_pk. apply (bool_decide_unpack _). vm_compute. exact I. }
  split; [exact Hpk|].
  destruct (monthly_series_exact_sorted_flagged sample_store "grca" 2020 200 Hpk)
    as (out & Hout & _ & Hsorted & _).
  - exists (sample_visit "GRCA" 2020 3 300).
    split; [apply list_elem_of_here|split; reflexivity].
  - exists out. split; assumption.
Defined.

(** ** One park, one group

    Under the primary keys, the rows a statement groups under one park are
    that park's monthly rows, each joined with the one park row and the one
    region row (or NULLs). *)

Lemma filter_fmap {A B} (f : A → B) (P : B → Prop) `{∀ b, Decision (P b)} (l : list A) :
  filter P (f <$> l) = f <$> filter (λ a, P (f a)) l.
Proof.
  induction l as [|a l IH]; [done|].
  rewrite fmap_cons, !filter_cons, IH. by destruct (decide (P (f a))).
Qed.

Lemma filter_nil_iff {A} (P : A → Prop) `{∀ a, Decision (P a)} (l : list A) :
  (∀ a, a ∈ l → ¬ P a) → filter P l = [].
Proof.
  intros Hnone. induction l as [|a l IH]; [done|].
  rewrite filter_cons_False; [|apply Hnone; left].
  apply IH. intros b Hb. apply Hnone. by right.
Qed.

(** Filtering on a key that identifies at most one element. *)
Lemma filter_unique_key {A K} (f : A → K) (R : A → Prop) `{EqDecision K}
    `{∀ a, Decision (R a)} (l : list A) (a0 : A) :
  NoDup (f <$> l) → a0 ∈ l →
  filter (λ a, f a = f a0 ∧ R a) l = if decide (R a0) then [a0] else [].
Proof.
  induction l as [|a l IH]; intros Hnd Hin; [by apply not_elem_of_nil in Hin|].
  rewrite fmap_cons in Hnd. apply NoDup_cons in Hnd as (Hnotin & Hnd).
  rewrite filter_cons. apply elem_of_cons in Hin as [<-|Hin].
  - rewrite (filter_nil_iff _ l).
    + destruct (decide (R a0)); [rewrite decide_True by done|rewrite decide_False by tauto];
        done.
    + intros b Hb (Hf & _). apply Hnotin. rewrite <- Hf. by apply list_elem_of_fmap_2.
  - rewrite decide_False; [by apply IH|].
    intros (Hf & _). apply Hnotin. rewrite Hf. by apply list_elem_of_fmap_2.
Qed.

Lemma filter_join {A B} (on Q : A * B → Prop) `{∀ x, Decision (on x)}
    `{∀ x, Decision (Q x)} (l : list A) (r : list B) :
  filter Q (SQL.join on l r)
  = l ≫= (λ a, (λ b, (a, b)) <$> filter (λ b, Q (a, b) ∧ on (a, b)) r).
Proof.
  induction l as [|a l IH]; [done|].
  rewrite join_cons, filter_app, bind_cons, IH. f_equal.
  by rewrite filter_fmap, list_filter_filter.
Qed.

(** A bind that is empty off one key. *)
Lemma bind_unique_key {A B K} (f : A → K) (G : A → list B) (l : list A) (a0 : A) :
  NoDup (f <$> l) → a0 ∈ l →
  (∀ a, a ∈ l → f a ≠ f a0 → G a = []) →
  l ≫= G = G a0.
Proof.
  induction l as [|a l IH]; intros Hnd Hin Hoff; [by apply not_elem_of_nil in Hin|].
  rewrite fmap_cons in Hnd. apply NoDup_cons in Hnd as (Hnotin & Hnd).
  rewrite bind_cons. apply elem_of_cons in Hin as [<-|Hin].
  - assert (l ≫= G = []) as ->; [|by rewrite app_nil_r].
    clear IH. induction l as [|b l IH]; [done|].
    rewrite bind_cons, IH.
    + rewrite Hoff; [done|by right; left|].
      intros Hf. apply Hnotin. rewrite <- Hf. rewrite fmap_cons. left.
    + intros Hin'. apply Hnotin. rewrite fmap_cons. by right.
    + rewrite fmap_cons in Hnd. by apply NoDup_cons in Hnd as (_ & ?).
    + intros a Ha. apply Hoff. apply elem_of_cons in Ha as [->|Ha]; [left|].
      right. by right.
  - rewrite Hoff; [|left|].
    + simpl. apply IH; [done..|]. intros b Hb. apply Hoff. by right.
    + intros Hf. apply Hnotin. rewrite Hf. by apply list_elem_of_fmap_2.
Qed.

(** The rows of [park JOIN monthly_visit] selected by a condition that fixes
    the park. *)
Lemma park_visits_of_park (st : Store) (p0 : Park.t)
    (Q : Park.t * MonthlyVisit.t → Prop) `{∀ x, Decision (Q x)} :
  park_pk st → p0 ∈ parks st →
  (∀ x, Q x → Park.park_code x.1 = Park.park_code p0) →
  filter Q (park_visits st)
  = (λ m, (p0, m))
      <$> filter (λ m, Q (p0, m) ∧ MonthlyVisit.park_code m = Park.park_code p0)
            (monthly_visits st).
Proof.
  intros Hpk Hp0 HQ. unfold park_visits. rewrite filter_join.
  rewrite (bind_unique_key Park.park_code _ _ p0 Hpk Hp0); [done|].
  intros p Hp Hne. rewrite filter_nil_iff; [done|].
  intros m _ (Hq & _). apply Hne. by apply HQ in Hq.
Qed.

(** The same for [monthly_visit JOIN park]. *)
Lemma visits_park_of_park (st : Store) (p0 : Park.t)
    (Q : MonthlyVisit.t * Park.t → Prop) `{∀ x, Decision (Q x)} :
  park_pk st → p0 ∈ parks st →
  (∀ x, Q x → MonthlyVisit.park_code x.1 = Park.park_code p0) →
  filter Q (visits_park st)
  = (λ m, (m, p0))
      <$> filter (λ m, Q (m, p0) ∧ MonthlyVisit.park_code m = Park.park_code p0)
            (monthly_visits st).
Proof.
  intros Hpk Hp0 HQ. unfold visits_park. rewrite filter_join.
  induction (monthly_visits st) as [|m ms IH]; [done|].
  rewrite bind_cons, IH, filter_cons. clear IH.
  destruct (decide (Q (m, p0) ∧ MonthlyVisit.park_code m = Park.park_code p0))
    as [(Hq & Hc)|Hno].
  - rewrite fmap_cons. simpl. f_equal.
    rewrite (list_filter_iff _ (λ p, Park.park_code p = Park.park_code p0 ∧ Q (m, p))).
    + rewrite (filter_unique_key Park.park_code _ _ p0 Hpk Hp0).
      by rewrite decide_True.
    + intros p. simpl. split.
      * intros (Hq' & Hon). split; [congruence|done].
      * intros (Hc' & Hq'). split; [done|congruence].
  - rewrite filter_nil_iff; [done|].
    intros p Hp (Hq & Hon). simpl in Hon. apply Hno.
    assert (Park.park_code p = Park.park_code p0) as Hc.
    { apply HQ in Hq. simpl in Hq. congruence. }
    assert (p = p0) as -> by (eapply NoDup_fmap_elem_inj; eauto).
    split; [done|by apply HQ in Hq].
Qed.

(** ** Q6: ranks are positions in the full scope *)

Lemma rank_stmt_row st year region_id row :
  row ∈ rank_stmt year region_id st →
  ∃ p, p ∈ parks st
       ∧ row.1 = (Park.park_code p, Park.park_name p, year)
       ∧ when region_id (λ rid, Park.region_id p = Some rid).
Proof.
  unfold rank_stmt. intros Hrow%elem_of_order_by_desc.
  group_origin Hrow x. destruct Hsel as (Hy & Hr).
  apply elem_of_join in Hfrom as (Hp & _ & _).
  exists x.1. simpl. rewrite <- Hkey, Hy. done.
Qed.

Lemma rank_stmt_codes_NoDup st year region_id :
  park_pk st → NoDup ((λ row, row.1.1.1) <$> rank_stmt year region_id st).
Proof.
  intros Hpk. apply NoDup_fmap_2_strong.
  - intros [k t] [k' t'] Hrow Hrow' Hc. simpl in Hc.
    pose proof Hrow as (p & Hp & Hk & _)%rank_stmt_row.
    pose proof Hrow' as (p' & Hp' & Hk' & _)%rank_stmt_row.
    simpl in Hk, Hk'. subst k k'. simpl in Hc.
    assert (p = p') as <- by (eapply NoDup_fmap_elem_inj; eauto).
    f_equal.
    (* the totals agree because the keys do and the keys are distinct *)
    unfold rank_stmt in Hrow, Hrow'.
    apply elem_of_order_by_desc, list_elem_of_fmap in Hrow as (g & Eg & Hg).
    apply elem_of_order_by_desc, list_elem_of_fmap in Hrow' as (g' & Eg' & Hg').
    apply elem_of_group_by in Hg as (_ & Hg), Hg' as (_ & Hg').
    injection Eg as Ek ->. injection Eg' as Ek' ->.
    rewrite Hg, Hg', <- Ek, <- Ek'. reflexivity.
  - unfold rank_stmt. unfold order_by_desc. rewrite sort_by_Permutation.
    apply NoDup_fmap_2_strong.
    + intros g g' Hg Hg' E. injection E as E _.
      apply elem_of_group_by in Hg as (_ & Hg), Hg' as (_ & Hg').
      destruct g, g'. simpl in *. by subst.
    + eapply NoDup_fmap_1. apply group_by_keys_NoDup.
Qed.

Lemma rank_in_lookup st year region_id i row :
  park_pk st →
  rank_stmt year region_id st !! i = Some row →
  rank_in (rank_stmt year region_id st) row.1.1.1 = Z.of_nat i + 1.
Proof.
  intros Hpk Hi. unfold rank_in.
  assert (list_find (λ row', row'.1.1.1 = row.1.1.1) (rank_stmt year region_id st)
          = Some (i, row)) as ->; [|done].
  apply list_find_Some. split; [done|]. split; [done|].
  intros j y Hj Hlt Hc.
  assert (j = i); [|lia].
  eapply NoDup_lookup; [by apply (rank_stmt_codes_NoDup st year region_id)| |].
  - rewrite list_lookup_fmap, Hj. simpl. by rewrite Hc.
  - rewrite list_lookup_fmap, Hi. done.
Qed.
Lemma rank_stmt_total st year region_id row :
  park_pk st →
  row ∈ rank_stmt year region_id st →
  row.2 = annual_total st row.1.1.1 year
  ∧ visits_in st row.1.1.1 year ≠ [].
Proof.
  intros Hpk. unfold rank_stmt. intros Hrow%elem_of_order_by_desc.
  group_origin Hrow x. destruct Hsel as (Hy & Hr). simpl.
  pose proof Hfrom as (Hp & Hm & Hon)%elem_of_join. simpl in Hon.
  rewrite Hgroup, list_filter_filter.
  rewrite (park_visits_of_park st x.1); [|done..|].
  - assert (filter
              (λ m, ((Park.park_code (x.1, m).1, Park.park_name (x.1, m).1,
                      MonthlyVisit.year (x.1, m).2) = g.1
                     ∧ MonthlyVisit.year (x.1, m).2 = year
                       ∧ when region_id (λ rid, Park.region_id (x.1, m).1 = Some rid))
                    ∧ MonthlyVisit.park_code m = Park.park_code x.1)
              (monthly_visits st)
            = visits_in st g.1.1.1 year) as ->.
    { unfold visits_in. apply list_filter_iff. intros m. simpl.
      rewrite <- Hkey. simpl. rewrite Hy. split.
      - intros ((_ & ? & _) & ?). done.
      - intros (? & ->). done. }
    split.
    + unfold annual_total, total_visits_of. by rewrite <- list_fmap_compose.
    + intros Hnil. assert (x.2 ∈ visits_in st g.1.1.1 year) as Hin.
      { apply list_elem_of_filter. rewrite <- Hkey. simpl. done. }
      rewrite Hnil in Hin. by apply not_elem_of_nil in Hin.
  - intros x' (Hk & _). rewrite <- Hkey in Hk. by injection Hk.
Qed.

Lemma elem_of_order_by_desc_iff {A B} (le : B → B → bool) (key : A → B) l x :
  x ∈ order_by_desc le key l ↔ x ∈ l.
Proof. apply elem_of_sort_by. Qed.

Lemma rank_stmt_complete (st : Store) (year : Z) (region_id : option string) (p : Park.t) :
  park_pk st → p ∈ parks st → visits_in st (Park.park_code p) year ≠ [] →
  when region_id (λ rid, Park.region_id p = Some rid) →
  (Park.park_code p, Park.park_name p, year, annual_total st (Park.park_code p) year)
  ∈ rank_stmt year region_id st.
Proof.
  intros Hpk Hp Hne Hr.
  destruct (visits_in st (Park.park_code p) year) as [|m ms] eqn:E; [done|].
  assert (m ∈ visits_in st (Park.park_code p) year)
    as ((Hcm & Hy) & Hm)%list_elem_of_filter by (rewrite E; left).
  clear E ms Hne.
  assert (∃ total, (Park.park_code p, Park.park_name p, year, total)
                   ∈ rank_stmt year region_id st) as (total & Hrow).
  { eexists. unfold rank_stmt. apply elem_of_order_by_desc_iff, list_elem_of_fmap.
    eexists (_, _). split; [reflexivity|]. apply elem_of_group_by. simpl. split; [|done].
    exists (p, m). split; [|simpl; by rewrite Hy].
    apply list_elem_of_filter. split; [done|]. apply elem_of_join. done. }
  pose proof (rank_stmt_total st year region_id _ Hpk Hrow) as (Htot & _).
  simpl in Htot. by rewrite <- Htot.
Qed.

Lemma slice_to_fmap {A B} (f : A → B) n (l : list A) :
  Py.slice_to n (f <$> l) = f <$> Py.slice_to n l.
Proof. unfold Py.slice_to. rewrite length_fmap. destruct (n <? 0); by rewrite fmap_take. Qed.

Lemma slice_to_all {A} n (l : list A) : Z.of_nat (length l) ≤ n → Py.slice_to n l = l.
Proof.
  intros Hn. unfold Py.slice_to. replace (n <? 0) with false by lia.
  apply take_ge. lia.
Qed.

Lemma filter_all {A} (P : A → Prop) `{∀ a, Decision (P a)} (l : list A) :
  (∀ a, a ∈ l → P a) → filter P l = l.
Proof.
  intros HP. induction l as [|a l IH]; [done|].
  rewrite filter_cons_True by (apply HP; left). f_equal. apply IH.
  intros b Hb. apply HP. by right.
Qed.

Lemma NoDup_fmap_length_le {A B} (g : B → string) (h : A → string)
    (l : list B) (l' : list A) :
  NoDup (g <$> l) → (∀ b, b ∈ l → ∃ a, a ∈ l' ∧ h a = g b) →
  (length l ≤ length l')%nat.
Proof.
  intros Hnd Hsub.
  rewrite <- (length_fmap g l), <- (length_fmap h l').
  apply submseteq_length, NoDup_submseteq; [done|].
  intros s (b & -> & Hb)%list_elem_of_fmap.
  destruct (Hsub b Hb) as (a & Ha & <-). by apply list_elem_of_fmap_2.
Qed.




(** Zion is second of the two Intermountain parks of 2020, and stays second
    when the name filter leaves it alone in the response. *)
Example top_n_filtered_rank :
  response (top_parks_by_year 2020 10 (Some "imr") (Some "zion")) sample_store
  = Return [TopParkOut.mk 2 "ZION" "Zion National Park" 2020 100].
Proof. vm_compute. reflexivity. Qed.

(** ** Q8: month-to-month change *)

(** A month whose predecessor month has no stored row is reported with its
    own total as change: the outer join yields NULL for the predecessor and
    [COALESCE(m2.total_visits, 0)] turns it into 0. *)
Lemma month_without_predecessor_change (st : Store) (park_code : string) (year : Z)
    (m0 : MonthlyVisit.t) (t : Z) :
  m0 ∈ monthly_visits st →
  MonthlyVisit.park_code m0 = Py.upper park_code →
  MonthlyVisit.year m0 = year →
  MonthlyVisit.total_visits m0 = Some t →
  (∀ m, m ∈ monthly_visits st →
        ¬ (MonthlyVisit.park_code m = Py.upper park_code ∧ MonthlyVisit.year m = year
           ∧ MonthlyVisit.month m = MonthlyVisit.month m0 - 1)) →
  ∃ out,
    response (month_to_month_change park_code year) st = Return out
    ∧ MonthToMonthChangeOut.mk (MonthlyVisit.month m0) t (Some t) ∈ out.
Proof.
  intros Hm0 Hc Hy Ht Hnone.
  unfold month_to_month_change. run_handler.
  assert ((MonthlyVisit.month m0, Some t, Some t)
          ∈ month_change_stmt (Py.upper park_code) year st) as Hrow.
  { unfold month_change_stmt. apply list_elem_of_fmap. exists (m0, None). split.
    - simpl. rewrite Ht. simpl. f_equal. f_equal. unfold SQL.coalesce. simpl. lia.
    - apply elem_of_order_by, list_elem_of_filter. split; [done|].
      apply elem_of_outer_join. simpl. split; [done|].
      intros m Hm (Hc' & Hy' & Hmo). apply (Hnone m Hm). repeat split; [congruence..|lia]. }
  destruct (month_change_stmt (Py.upper park_code) year st) as [|row rows] eqn:E;
    [by apply not_elem_of_nil in Hrow|].
  eexists. split; [reflexivity|].
  rewrite <- E. apply list_elem_of_fmap. exists (MonthlyVisit.month m0, Some t, Some t).
  split; [done|]. by rewrite E.
Qed.

(** A month whose predecessor month is stored is reported with the
    difference of the two totals. *)
Lemma month_with_predecessor_change (st : Store) (park_code : string) (year : Z)
    (m0 m1 : MonthlyVisit.t) (t0 t1 : Z) :
  m0 ∈ monthly_visits st → m1 ∈ monthly_visits st →
  MonthlyVisit.park_code m0 = Py.upper park_code →
  MonthlyVisit.park_code m1 = Py.upper park_code →
  MonthlyVisit.year m0 = year → MonthlyVisit.year m1 = year →
  MonthlyVisit.month m0 = MonthlyVisit.month m1 + 1 →
  MonthlyVisit.total_visits m0 = Some t0 →
  MonthlyVisit.total_visits m1 = Some t1 →
  ∃ out,
    response (month_to_month_change park_code year) st = Return out
    ∧ MonthToMonthChangeOut.mk (MonthlyVisit.month m0) t0 (Some (t0 - t1)) ∈ out.
Proof.
  intros Hm0 Hm1 Hc0 Hc1 Hy0 Hy1 Hmo Ht0 Ht1.
  unfold month_to_month_change. run_handler.
  assert ((MonthlyVisit.month m0, Some t0, Some (t0 - t1))
          ∈ month_change_stmt (Py.upper park_code) year st) as Hrow.
  { unfold month_change_stmt. apply list_elem_of_fmap. exists (m0, Some m1). split.
    - simpl. rewrite Ht0, Ht1. reflexivity.
    - apply elem_of_order_by, list_elem_of_filter. split; [done|].
      apply elem_of_outer_join. simpl. repeat split; [done..|congruence|congruence|done]. }
  destruct (month_change_stmt (Py.upper park_code) year st) as [|row rows] eqn:E;
    [by apply not_elem_of_nil in Hrow|].
  eexists. split; [reflexivity|].
  rewrite <- E. apply list_elem_of_fmap.
  exists (MonthlyVisit.month m0, Some t0, Some (t0 - t1)).
  split; [done|]. by rewrite E.
Qed.

(** C5 (the code departs from the claim): Zion has one row in 2020, for
    June, with 100 visits; its change from the previous month is reported as
    100, not as null. *)
Theorem month_to_month_first_month_is_not_null :
  response (month_to_month_change "zion" 2020) sample_store
  = Return [MonthToMonthChangeOut.mk 6 100 (Some 100)].
Proof. vm_compute. reflexivity. Qed.

(** ** Empty results *)

Lemma limit_nil {A} n : SQL.limit n (@nil A) = [].
Proof. unfold SQL.limit. destruct (n <? 0); [done|apply take_nil]. Qed.

Lemma slice_to_nil {A} n : Py.slice_to n (@nil A) = [].
Proof. unfold Py.slice_to. destruct (n <? 0); apply take_nil. Qed.

Section no_rows.
Context (st : Store) (year : Z).
Hypothesis Hnone : ∀ m, m ∈ monthly_visits st → MonthlyVisit.year m ≠ year.

Lemma monthly_visits_stmt_empty c : monthly_visits_stmt c year st = [].
Proof.
  unfold monthly_visits_stmt. rewrite filter_nil_iff; [done|].
  intros m Hm (_ & Hy). by apply (Hnone m).
Qed.

Lemma month_change_stmt_empty c : month_change_stmt c year st = [].
Proof.
  unfold month_change_stmt. rewrite filter_nil_iff; [done|].
  intros x (Hx & _)%elem_of_outer_join (_ & Hy). by apply (Hnone x.1).
Qed.

Lemma selected_region_rows_empty (P : Park.t * MonthlyVisit.t * option Region.t → Prop)
    `{∀ x, Decision (P x)} :
  (∀ x, P x → MonthlyVisit.year x.1.2 = year) →
  filter P (park_visits_region st) = [].
Proof.
  intros HP. apply filter_nil_iff.
  intros x (_ & Hm & _)%park_visits_region_elem HPx. by apply (Hnone x.1.2), HP.
Qed.

Lemma annual_visits_stmt_empty r c q mt lim : annual_visits_stmt year r c q mt lim st = [].
Proof.
  unfold annual_visits_stmt. rewrite selected_region_rows_empty; [|by intros x (? & _)].
  apply limit_nil.
Qed.

Lemma average_monthly_stmt_empty r c q lim :
  average_monthly_stmt year year r c q lim st = [].
Proof.
  unfold average_monthly_stmt. rewrite selected_region_rows_empty.
  - apply limit_nil.
  - intros x ((? & ?) & _). lia.
Qed.

Lemma peak_season_stmt_empty thr r : peak_season_stmt year thr r st = [].
Proof.
  unfold peak_season_stmt. rewrite selected_region_rows_empty; [done|by intros x (? & _)].
Qed.

Lemma metric_stmt_empty col r lim : metric_stmt col year r lim st = [].
Proof.
  unfold metric_stmt. rewrite selected_region_rows_empty; [|by intros x (? & _)].
  apply limit_nil.
Qed.

Lemma variability_stmt_empty r c q : variability_stmt year r c q st = [].
Proof.
  unfold variability_stmt. rewrite selected_region_rows_empty; [done|by intros x (? & _)].
Qed.

Lemma annual_totals_stmt_empty r : annual_totals_stmt year r st = [].
Proof.
  unfold annual_totals_stmt. rewrite filter_nil_iff; [done|].
  intros x (Hm & _)%elem_of_join (Hy & _). by apply (Hnone x.1).
Qed.

Lemma rank_stmt_empty r : rank_stmt year r st = [].
Proof.
  unfold rank_stmt. rewrite filter_nil_iff; [done|].
  intros x (_ & Hm & _)%elem_of_join (Hy & _). by apply (Hnone x.2).
Qed.

Lemma region_totals_stmt_empty r : region_totals_stmt year r st = [].
Proof.
  unfold region_totals_stmt. rewrite filter_nil_iff; [done|].
  intros x (_ & Hm & _)%elem_of_join (Hy & _). by apply (Hnone x.2).
Qed.

Lemma annual_stmt_year_stored r sy ey row :
  row ∈ annual_stmt r sy ey st →
  ∃ m, m ∈ monthly_visits st ∧ MonthlyVisit.year m = row.1.2.
Proof.
  unfold annual_stmt. intros Hrow.
  group_origin Hrow v. rewrite <- Hkey. simpl.
  apply elem_of_join in Hfrom as (Hm & _). by exists v.1.
Qed.

Lemma growth_stmt_empty r ey : growth_stmt r year ey st = [].
Proof.
  unfold growth_stmt.
  assert (SQL.join (λ x, x.2.1.1 = Park.park_code x.1.1 ∧ x.2.1.2 = year)
            (SQL.join (λ x, Some (Region.region_id x.2) = Park.region_id x.1)
                      (parks st) (regions st))
            (annual_stmt r year ey st) = []) as ->; [|done].
  unfold SQL.join at 1. apply filter_nil_iff.
  intros x (a & Hx & Ha)%list_elem_of_bind (_ & Hy).
  apply list_elem_of_bind in Hx as (row & ->%list_elem_of_singleton & Hrow).
  simpl in Hy.
  apply annual_stmt_year_stored in Hrow as (m & Hm & Hmy).
  apply (Hnone m Hm). congruence.
Qed.

Lemma growth_stmt_empty_end r sy : growth_stmt r sy year st = [].
Proof.
  unfold growth_stmt.
  match goal with |- _ <$> filter _ ?j = _ => assert (j = []) as ->; [|done] end.
  unfold SQL.join at 1. apply filter_nil_iff.
  intros x (a & Hx & Ha)%list_elem_of_bind (_ & Hy).
  apply list_elem_of_bind in Hx as (row & ->%list_elem_of_singleton & Hrow).
  simpl in Hy.
  apply annual_stmt_year_stored in Hrow as (m & Hm & Hmy).
  apply (Hnone m Hm). congruence.
Qed.

End no_rows.

Lemma mapM_Raise {A B} (f : A → outcome B) l e :
  mapM f l = Raise e → ∃ a, a ∈ l ∧ f a = Raise e.
Proof.
  induction l as [|a l IH]; simpl; [done|].
  destruct (f a) as [b|e'] eqn:Ea; simpl.
  - destruct (mapM f l) as [k|e'] eqn:Ek; simpl; [done|].
    intros [= <-]. destruct IH as (a' & ? & ?); [done|].
    exists a'. split; [by right|done].
  - intros [= <-]. exists a. split; [left|done].
Qed.

Lemma round_raises x e : Py.round x = Raise e → e = OverflowError ∨ e = ValueError.
Proof. unfold Py.round. destruct (Prim2SF x); intros [= <-]; auto. Qed.

Lemma round_or_0_raises x e : round_or_0 x = Raise e → e = OverflowError ∨ e = ValueError.
Proof.
  unfold round_or_0. destruct x as [f|]; [|done].
  destruct (is_zero f); [done|]. apply round_raises.
Qed.

(** C6 fails as stated: no park has a row for 2019, and the annual totals
    by park are an empty array, not a 404.  What each operation does with an
    empty result is stated at the end of the development. *)
Lemma annual_visits_empty_array_not_404 :
  response (annual_visits_by_park 2019 None None None None 100) sample_store = Return []
  ∧ annual_visits_stmt 2019 None None None None 100 sample_store = [].
Proof. split; vm_compute; reflexivity. Qed.

(** ** Q9: growth over a window *)

Lemma annual_stmt_row (st : Store) (region_id : string) (sy ey : Z) row :
  park_pk st →
  row ∈ annual_stmt region_id sy ey st →
  row.1.2 ∈ [sy; ey]
  ∧ (∃ p, p ∈ parks st ∧ Park.park_code p = row.1.1
          ∧ Park.region_id p = Some region_id)
  ∧ row.2 = annual_total st row.1.1 row.1.2
  ∧ visits_in st row.1.1 row.1.2 ≠ [].
Proof.
  intros Hpk. unfold annual_stmt. intros Hrow.
  group_origin Hrow x. destruct Hsel as (Hr & Hy). simpl.
  pose proof Hfrom as (Hm & Hp & Hon)%elem_of_join. simpl in Hon.
  split; [by rewrite <- Hkey|]. split.
  { exists x.2. rewrite <- Hkey. done. }
  rewrite Hgroup, list_filter_filter.
  rewrite (visits_park_of_park st x.2); [|done..|].
  - assert (filter
              (λ m, ((MonthlyVisit.park_code (m, x.2).1, MonthlyVisit.year (m, x.2).1) = g.1
                     ∧ Park.region_id (m, x.2).2 = Some region_id
                       ∧ MonthlyVisit.year (m, x.2).1 ∈ [sy; ey])
                    ∧ MonthlyVisit.park_code m = Park.park_code x.2)
              (monthly_visits st)
            = visits_in st g.1.1 g.1.2) as ->.
    { unfold visits_in. apply list_filter_iff. intros m. simpl.
      rewrite <- Hkey. simpl. split.
      - intros (([= ? ?] & _) & _). done.
      - intros (Hc & Hy'). rewrite Hc, Hy', Hon. done. }
    split.
    + unfold annual_total, total_visits_of. by rewrite <- list_fmap_compose.
    + intros Hnil. assert (x.1 ∈ visits_in st g.1.1 g.1.2) as Hin.
      { apply list_elem_of_filter. rewrite <- Hkey. done. }
      rewrite Hnil in Hin. by apply not_elem_of_nil in Hin.
  - intros x' (Hk & _). rewrite <- Hkey in Hk. injection Hk as Hk _. congruence.
Qed.

Lemma growth_stmt_row (st : Store) (region_id : string) (sy ey : Z) row :
  park_pk st →
  row ∈ growth_stmt region_id sy ey st →
  let '(park_code, park_name, reg_id, reg_name, start_total, end_total) := row in
  (∃ p, p ∈ parks st ∧ Park.park_code p = park_code ∧ Park.park_name p = park_name
        ∧ Park.region_id p = Some region_id)
  ∧ reg_id = region_id
  ∧ start_total = annual_total st park_code sy
  ∧ end_total = annual_total st park_code ey
  ∧ visits_in st park_code sy ≠ []
  ∧ visits_in st park_code ey ≠ [].
Proof.
  intros Hpk. unfold growth_stmt.
  intros (x & -> & Hx)%list_elem_of_fmap.
  apply list_elem_of_filter in Hx as (Hreg & Hx).
  apply elem_of_join in Hx as (Hs & He & Hce & Hye).
  apply elem_of_join in Hs as (Hpr & Hs & Hcs & Hys).
  apply elem_of_join in Hpr as (Hp & Hr & Hon).
  destruct x as [[[p rg] srow] erow]. simpl in *.
  apply annual_stmt_row in Hs as (_ & _ & Hst & Hsn); [|done].
  apply annual_stmt_row in He as (_ & _ & Het & Hen); [|done].
  rewrite Hcs, Hys in Hst, Hsn. rewrite Hce, Hye in Het, Hen.
  repeat split; try done.
  exists p. repeat split; try done. congruence.
Qed.

Lemma annual_stmt_complete (st : Store) (region_id : string) (sy ey : Z)
    (p : Park.t) (y : Z) :
  park_pk st → p ∈ parks st → Park.region_id p = Some region_id →
  y ∈ [sy; ey] → visits_in st (Park.park_code p) y ≠ [] →
  (Park.park_code p, y, annual_total st (Park.park_code p) y)
  ∈ annual_stmt region_id sy ey st.
Proof.
  intros Hpk Hp Hr Hy Hne.
  destruct (visits_in st (Park.park_code p) y) as [|m ms] eqn:E; [done|].
  assert (m ∈ visits_in st (Park.park_code p) y)
    as ((Hcm & Hym) & Hm)%list_elem_of_filter by (rewrite E; left).
  clear E Hne.
  set (selected := filter (λ x, Park.region_id x.2 = Some region_id
                                ∧ MonthlyVisit.year x.1 ∈ [sy; ey])
                     (visits_park st)).
  set (key := λ x : MonthlyVisit.t * Park.t,
         (MonthlyVisit.park_code x.1, MonthlyVisit.year x.1)).
  assert ((Park.park_code p, y,
           SQL.sum (total_visits_of fst
                      (filter (λ a, key a = (Park.park_code p, y)) selected)))
          ∈ annual_stmt region_id sy ey st) as Hrow.
  { unfold annual_stmt. apply list_elem_of_fmap.
    exists ((Park.park_code p, y), filter (λ a, key a = (Park.park_code p, y)) selected).
    split; [done|]. apply elem_of_group_by. split; [|done].
    exists (m, p). split; [|by unfold key; simpl; rewrite Hcm, Hym].
    apply list_elem_of_filter. split; [by simpl; rewrite Hym|].
    apply elem_of_join. done. }
  pose proof (annual_stmt_row st region_id sy ey _ Hpk Hrow) as (_ & _ & Htot & _).
  simpl in Htot. by rewrite Htot in Hrow.
Qed.

Lemma growth_stmt_complete (st : Store) (region_id : string) (sy ey : Z)
    (p : Park.t) (rg : Region.t) :
  park_pk st → p ∈ parks st → rg ∈ regions st →
  Some (Region.region_id rg) = Park.region_id p →
  Region.region_id rg = region_id →
  visits_in st (Park.park_code p) sy ≠ [] →
  visits_in st (Park.park_code p) ey ≠ [] →
  (Park.park_code p, Park.park_name p, Region.region_id rg, Region.region_name rg,
   annual_total st (Park.park_code p) sy, annual_total st (Park.park_code p) ey)
  ∈ growth_stmt region_id sy ey st.
Proof.
  intros Hpk Hp Hrg Hon Hid Hs He.
  assert (Park.region_id p = Some region_id) as Hr by congruence.
  unfold growth_stmt. apply list_elem_of_fmap.
  exists (p, rg, (Park.park_code p, sy, annual_total st (Park.park_code p) sy),
          (Park.park_code p, ey, annual_total st (Park.park_code p) ey)).
  split; [done|].
  apply list_elem_of_filter. split; [done|].
  apply elem_of_join. simpl. split; [|split; [|done]].
  - apply elem_of_join. simpl. split; [|split; [|done]].
    + apply elem_of_join. done.
    + apply annual_stmt_complete; try done. left.
  - apply annual_stmt_complete; try done. right. left.
Qed.

(** The computation of [growth_pct] for a start total other than 0. *)
Lemma growth_pct_steps (st et g : Z) :
  st ≠ 0 →
  (growth_pct st et = Return g ↔
   ∃ d s q : float,
     Py.float_of_int (et - st) = Return d
     ∧ Py.float_of_int st = Return s
     ∧ Py.float_truediv (d * 100)%float s = Return q
     ∧ Py.round q = Return g).
Proof.
  intros Hst. unfold growth_pct. replace (st =? 0) with false by lia. split.
  - destruct (Py.float_of_int (et - st)) as [d|] eqn:E1; simpl; [|done].
    destruct (Py.float_of_int st) as [s|] eqn:E2; simpl; [|done].
    destruct (Py.float_truediv _ s) as [q|] eqn:E3; simpl; [|done].
    intros Hq. exists d, s, q. done.
  - intros (d & s & q & -> & -> & H3 & H4). simpl. rewrite H3. done.
Qed.

(** C4: every record of the growth operation carries the annual totals of
    its park in the two boundary years and
    [growth_percent = round((end_total - start_total) * 100.0 / start_total)],
    computed in binary64 as the handler does, or 0 when [start_total] is 0 (a
    value, not an exception); the parks returned are those of the region
    that have rows in both boundary years, and no other; and the records are
    in descending order of growth percent.  For [start_total = 0] and
    [end_total = 500] the growth percent is 0. *)
Theorem growth_percent_guarded_joined_sorted :
  (∀ (st : Store) (region_id : string) (start_year end_year : Z) out,
     park_pk st →
     response (growth_by_region_over_time region_id start_year end_year) st = Return out →
     (* what a record carries *)
     (∀ r, r ∈ out →
        (GrowthOut.start_total r = 0 → GrowthOut.growth_percent r = 0)
        ∧ (GrowthOut.start_total r ≠ 0 →
           ∃ d s q : float,
             Py.float_of_int (GrowthOut.end_total r - GrowthOut.start_total r) = Return d
             ∧ Py.float_of_int (GrowthOut.start_total r) = Return s
             ∧ Py.float_truediv (d * 100)%float s = Return q
             ∧ Py.round q = Return (GrowthOut.growth_percent r))
        ∧ GrowthOut.start_total r
          = Py.or_0 (annual_total st (GrowthOut.park_code r) start_year)
        ∧ GrowthOut.end_total r
          = Py.or_0 (annual_total st (GrowthOut.park_code r) end_year)
        (* only parks of the region with rows in both years *)
        ∧ visits_in st (GrowthOut.park_code r) start_year ≠ []
        ∧ visits_in st (GrowthOut.park_code r) end_year ≠ []
        ∧ ∃ p, p ∈ parks st ∧ Park.park_code p = GrowthOut.park_code r
               ∧ Park.region_id p = Some (Py.upper region_id))
     (* all of them *)
     ∧ (∀ p rg,
          p ∈ parks st → rg ∈ regions st →
          Some (Region.region_id rg) = Park.region_id p →
          Region.region_id rg = Py.upper region_id →
          visits_in st (Park.park_code p) start_year ≠ [] →
          visits_in st (Park.park_code p) end_year ≠ [] →
          ∃ r, r ∈ out ∧ GrowthOut.park_code r = Park.park_code p)
     (* in descending order *)
     ∧ StronglySorted (λ a b, GrowthOut.growth_percent b ≤ GrowthOut.growth_percent a) out)
  ∧ (∀ end_total, growth_pct 0 end_total = Return 0)
  ∧ growth_pct 0 500 = Return 0
  ∧ response (growth_by_region_over_time "imr" 2021 2022) sample_store
    = Return [GrowthOut.mk "ZION" "Zion National Park" "IMR" "Intermountain"
                2021 2022 0 500 0].
Proof.
  split; [|split; [|split]]; [|done|done|vm_compute; reflexivity].
  intros st region_id sy ey out Hpk.
  unfold growth_by_region_over_time.
  destruct (sy >=? ey); run_handler; [discriminate|].
  destruct (growth_stmt _ _ _ _) as [|t ts] eqn:E; run_handler; [discriminate|].
  destruct (mapM _ _) as [out'|] eqn:Em; run_handler; [|discriminate].
  intros [= <-]. split; [|split; [|apply order_by_desc_Z_sorted]].
  - intros r Hr%elem_of_order_by_desc.
    eapply mapM_Return_elem_of in Em as (row & Hrow & Hf); [|done].
    rewrite <- E in Hrow. apply growth_stmt_row in Hrow; [|done].
    destruct row as [[[[[code name] rid] rname] stot] etot].
    destruct Hrow as ((p & Hp & Hc & Hn & Hreg) & -> & -> & -> & Hsn & Hen).
    simpl in Hf.
    destruct (growth_pct _ _) as [g|] eqn:Eg; simpl in Hf; [|done].
    injection Hf as <-. simpl.
    split; [|split; [|repeat split; try done]].
    + intros H0. rewrite H0 in Eg. by injection Eg.
    + intros Hne. by apply growth_pct_steps.
    + exists p. done.
  - intros p rg Hp Hrg Hon Hid Hs He.
    pose proof (growth_stmt_complete st _ sy ey p rg Hpk Hp Hrg Hon Hid Hs He) as Hrow.
    rewrite E in Hrow.
    destruct (mapM_Return_elem_of_l _ _ _ _ Em Hrow) as (r & Hr & Hf).
    exists r. split; [by apply elem_of_order_by_desc|].
    simpl in Hf. destruct (growth_pct _ _); simpl in Hf; [|done]. by injection Hf as <-.
Qed.

Lemma growth_percent_witness :
  park_pk sample_store
  ∧ ∃ out,
      response (growth_by_region_over_time "imr" 2020 2021) sample_store = Return out
      ∧ StronglySorted (λ a b, GrowthOut.growth_percent b ≤ GrowthOut.growth_percent a) out.
Proof.
  assert (park_pk sample_store) as Hpk.
  { unfold park_pk. apply (bool_decide_unpack _). vm_compute. exact I. }
  split; [exact Hpk|].
  eexists. split; [vm_compute; reflexivity|].
  eapply (proj1 growth_percent_guarded_joined_sorted sample_store "imr" 2020 2021);
    [exact Hpk|].
  vm_compute. reflexivity.
Defined.

(** ** The region columns of a joined row *)

Lemma bind_singleton_fmap {A B} (f : A → B) (G : A → list B) (l : list A) :
  (∀ a, a ∈ l → G a = [f a]) → l ≫= G = f <$> l.
Proof.
  induction l as [|a l IH]; intros HG; [done|].
  rewrite bind_cons, fmap_cons, HG by left. simpl. f_equal.
  apply IH. intros b Hb. apply HG. by right.
Qed.

Lemma park_visits_region_fmap (st : Store) :
  region_pk st →
  park_visits_region st = (λ a, (a, region_of st a.1)) <$> park_visits st.
Proof.
  intros Hpk. unfold park_visits_region, SQL.outer_join.
  apply bind_singleton_fmap. intros a _. unfold region_of. simpl.
  destruct (filter _ (regions st)) as [|b [|b' bs]] eqn:E; [done..|].
  exfalso.
  assert (NoDup (b :: b' :: bs)) as Hnd.
  { rewrite <- E. apply NoDup_filter. by eapply NoDup_fmap_1. }
  assert (b ∈ filter (λ r, Some (Region.region_id r) = Park.region_id a.1) (regions st))
    as (Hb & Hbin)%list_elem_of_filter by (rewrite E; left).
  assert (b' ∈ filter (λ r, Some (Region.region_id r) = Park.region_id a.1) (regions st))
    as (Hb' & Hbin')%list_elem_of_filter by (rewrite E; right; left).
  assert (b = b') as ->.
  { eapply NoDup_fmap_elem_inj; [exact Hpk|done..|congruence]. }
  apply NoDup_cons in Hnd as (Hnotin & _). apply Hnotin. left.
Qed.

(** The rows of [park JOIN monthly_visit LEFT OUTER JOIN region] selected
    by a condition that fixes the park. *)
Lemma region_rows_of_park (st : Store) (p0 : Park.t)
    (Q : Park.t * MonthlyVisit.t * option Region.t → Prop) `{∀ x, Decision (Q x)} :
  park_pk st → region_pk st → p0 ∈ parks st →
  (∀ x, Q x → Park.park_code x.1.1 = Park.park_code p0) →
  filter Q (park_visits_region st)
  = (λ m, (p0, m, region_of st p0))
      <$> filter (λ m, Q (p0, m, region_of st p0)
                       ∧ MonthlyVisit.park_code m = Park.park_code p0)
            (monthly_visits st).
Proof.
  intros Hpk Hrk Hp0 HQ.
  rewrite park_visits_region_fmap, filter_fmap by done.
  rewrite (park_visits_of_park st p0); [|done..|].
  - by rewrite <- list_fmap_compose.
  - intros x Hx. by apply HQ in Hx.
Qed.

Lemma region_of_spec (st : Store) (p : Park.t) :
  match region_of st p with
  | Some r => r ∈ regions st ∧ Some (Region.region_id r) = Park.region_id p
  | None => ∀ r, r ∈ regions st → Some (Region.region_id r) ≠ Park.region_id p
  end.
Proof.
  unfold region_of.
  destruct (filter _ (regions st)) as [|b bs] eqn:E; simpl.
  - intros r Hr Heq. exact (filter_nil_not_elem_of _ _ r E Heq Hr).
  - assert (b ∈ filter (λ r, Some (Region.region_id r) = Park.region_id p) (regions st))
      as (? & ?)%list_elem_of_filter by (rewrite E; left). done.
Qed.

(** A joined row carries the region of its park. *)
Lemma park_visits_region_region (st : Store) x :
  region_pk st → x ∈ park_visits_region st → x.2 = region_of st x.1.1.
Proof.
  intros Hrk. rewrite park_visits_region_fmap by done.
  by intros (a & -> & _)%list_elem_of_fmap.
Qed.

(** ** Q10: variability *)

Lemma count_Some {A B} (f : A → B) (l : list A) :
  SQL.count ((λ x, Some (f x)) <$> l) = Z.of_nat (length l).
Proof.
  unfold SQL.count. f_equal.
  assert (omap id ((λ x, Some (f x)) <$> l) = f <$> l) as ->; [|apply length_fmap].
  induction l as [|a l IH]; csimpl; [done|]. by rewrite IH.
Qed.

Lemma variability_stmt_row (st : Store) (year : Z) (r c q : option string) row :
  park_pk st → region_pk st →
  row ∈ variability_stmt year r c q st →
  let '(park_code, park_name, reg_id, reg_name, y, n_months, sum_v, sum_v2) := row in
  let rows := visits_in st park_code year in
  rows ≠ []
  ∧ y = year
  ∧ n_months = Z.of_nat (length rows)
  ∧ sum_v = SQL.sum (MonthlyVisit.total_visits <$> rows)
  ∧ sum_v2 = SQL.sum ((λ m, v ← MonthlyVisit.total_visits m; Some (v * v)) <$> rows).
Proof.
  intros Hpk Hrk. unfold variability_stmt. intros Hrow.
  group_origin Hrow x. destruct Hsel as (Hy & Hr & Hc).
  destruct g as [[[[[code name] rid] rname] y] grp]. simpl in *.
  pose proof Hfrom as (Hp & Hm & Hon & _)%park_visits_region_elem.
  pose proof (park_visits_region_region st x Hrk Hfrom) as Hreg.
  injection Hkey as <- <- <- <- <-.
  assert (grp = (λ m, (x.1.1, m, region_of st x.1.1))
                  <$> visits_in st (Park.park_code x.1.1) year) as ->.
  { rewrite Hgroup, list_filter_filter.
    rewrite (region_rows_of_park st x.1.1); [|done..|].
    - f_equal. unfold visits_in. apply list_filter_iff. intros m. simpl.
      rewrite <- Hreg, Hy. split.
      + intros (([= ?] & ? & _) & ?). done.
      + intros (? & ->). done.
    - intros x' ([= ? _] & _). done. }
  repeat split.
  - intros Hnil. assert (x.1.2 ∈ visits_in st (Park.park_code x.1.1) year) as Hin.
    { apply list_elem_of_filter. done. }
    rewrite Hnil in Hin. by apply not_elem_of_nil in Hin.
  - done.
  - rewrite <- list_fmap_compose.
    apply (count_Some (λ m, MonthlyVisit.month m)).
  - unfold total_visits_of. by rewrite <- list_fmap_compose.
  - by rewrite <- list_fmap_compose.
Qed.
(** [round] is rounding to a nearest integer: twice the distance between the
    result and the exact quotient is at most one, in units of [1/d]. *)
Lemma round_half_even_nearest (n d : Z) :
  0 < d → Z.abs (2 * (Py.round_half_even n d * d - n)) ≤ d.
Proof.
  intros Hd. unfold Py.round_half_even.
  pose proof (Z.div_mod n d ltac:(lia)) as Hdm.
  pose proof (Z.mod_pos_bound n d Hd) as Hr.
  destruct (2 * (n mod d) <? d) eqn:E1; [nia|].
  destruct (d <? 2 * (n mod d)) eqn:E2; [nia|].
  destruct (Z.even (n / d)); nia.
Qed.

Lemma round_nearest (x : float) (z : Z) :
  Py.round x = Return z →
  match Prim2SF x with
  | S754_zero _ => z = 0
  | S754_finite s m e =>
      let v := if s then Z.neg m else Z.pos m in
      if 0 <=? e then z = v * 2 ^ e
      else Z.abs (2 * (z * 2 ^ (- e) - v)) ≤ 2 ^ (- e)
  | _ => False
  end.
Proof.
  unfold Py.round. destruct (Prim2SF x) as [s|s| |s m e]; try discriminate.
  - by intros [= <-].
  - intros [= <-]. destruct (0 <=? e) eqn:Ee.
    + destruct s; lia.
    + assert (0 < 2 ^ (- e)) as Hd by (apply Z.pow_pos_nonneg; lia).
      pose proof (round_half_even_nearest (Z.pos m) (2 ^ (- e)) Hd) as Hn.
      destruct s; lia.
Qed.

(** The computation of [variability_stats], step by step. *)
Lemma variability_stats_steps (n : Z) (sum_v sum_v2 : option Z) (avg std : Z) :
  variability_stats n sum_v sum_v2 = Return (avg, std) ↔
  ∃ fsum_v fsum_v2 fn mean mean_sq std_dev : float,
    float_or_0 sum_v = Return fsum_v
    ∧ float_or_0 sum_v2 = Return fsum_v2
    ∧ Py.float_of_int n = Return fn
    ∧ Py.float_truediv fsum_v fn = Return mean
    ∧ Py.float_truediv fsum_v2 fn = Return mean_sq
    ∧ Py.sqrt (Py.max_0 (mean_sq - mean * mean)%float) = Return std_dev
    ∧ Py.round mean = Return avg
    ∧ Py.round std_dev = Return std.
Proof.
  unfold variability_stats. split.
  - destruct (float_or_0 sum_v) as [fsv|] eqn:E1; simpl; [|done].
    destruct (float_or_0 sum_v2) as [fsv2|] eqn:E2; simpl; [|done].
    destruct (Py.float_of_int n) as [fn|] eqn:E3; simpl; [|done].
    destruct (Py.float_truediv fsv fn) as [mean|] eqn:E4; simpl; [|done].
    destruct (Py.float_truediv fsv2 fn) as [msq|] eqn:E5; simpl; [|done].
    destruct (Py.sqrt _) as [sd|] eqn:Es; simpl; [|done].
    destruct (Py.round mean) as [a|] eqn:Ea; simpl; [|done].
    destruct (Py.round sd) as [s|] eqn:Esd; simpl; [|done].
    intros [= <- <-]. exists fsv, fsv2, fn, mean, msq, sd. done.
  - intros (fsv & fsv2 & fn & mean & msq & sd & -> & -> & -> & H1 & H2 & H3 & H4 & H5).
    simpl. rewrite H1. simpl. rewrite H2. simpl. rewrite H3. simpl.
    rewrite H4. simpl. rewrite H5. done.
Qed.

(** C2: every record of the variability operation is computed from the
    monthly rows of its park in the year: [months_with_data] is their number
    [n], and with [sum_v] the sum of their totals and [sum_v2] the sum of the
    squared totals (as binary64 values), [mean = sum_v / n],
    [variance = max(sum_v2 / n - mean * mean, 0.0)], [std_dev = sqrt(variance)]
    (the divisor is [n]: population standard deviation), the record carries
    [round(mean)] and [round(std_dev)], [round] being to a nearest integer.
    The guard [max(., 0.0)] replaces a negative difference by zero and leaves
    any other alone: a record whose difference is negative has the standard
    deviation 0, where the square root of the difference itself would fail,
    and the square root of the guarded variance never fails.  The monthly
    totals 1000000000, 1000000000, 1000000001 are such a case: the difference
    is negative in binary64 and the record has the standard deviation 0.
    For the monthly totals 100, 200, 300 the record has 3 months, mean 200
    and standard deviation 82. *)
Theorem variability_is_population_std_dev :
  (∀ (st : Store) (year : Z) (region_id park_code query : option string) (limit : Z)
     out rec,
     park_pk st → region_pk st →
     response (park_visit_variability year region_id park_code query limit) st
     = Return out →
     rec ∈ out →
     let rows := visits_in st (VariabilityOut.park_code rec) year in
     let sum_v := SQL.sum (MonthlyVisit.total_visits <$> rows) in
     let sum_v2 :=
       SQL.sum ((λ m, v ← MonthlyVisit.total_visits m; Some (v * v)) <$> rows) in
     rows ≠ []
     ∧ VariabilityOut.months_with_data rec = Z.of_nat (length rows)
     ∧ ∃ fsum_v fsum_v2 fn mean mean_sq std_dev : float,
         float_or_0 sum_v = Return fsum_v
         ∧ float_or_0 sum_v2 = Return fsum_v2
         ∧ Py.float_of_int (Z.of_nat (length rows)) = Return fn
         ∧ Py.float_truediv fsum_v fn = Return mean
         ∧ Py.float_truediv fsum_v2 fn = Return mean_sq
         ∧ Py.sqrt (Py.max_0 (mean_sq - mean * mean)%float) = Return std_dev
         ∧ Py.round mean = Return (VariabilityOut.avg_monthly_visits rec)
         ∧ Py.round std_dev = Return (VariabilityOut.std_dev_monthly_visits rec)
         (* the guard at work: a negative difference is reported as 0 *)
         ∧ ((mean_sq - mean * mean <? 0)%float = true →
            VariabilityOut.std_dev_monthly_visits rec = 0)
         ∧ ((mean_sq - mean * mean <? 0)%float = false →
            std_dev = PrimFloat.sqrt (mean_sq - mean * mean)))
  (* round is to a nearest integer *)
  ∧ (∀ n d, 0 < d → Z.abs (2 * (Py.round_half_even n d * d - n)) ≤ d)
  (* the max-with-zero guard *)
  ∧ (∀ x : float,
       ((x <? 0)%float = true →
        Py.max_0 x = 0%float
        ∧ Py.sqrt (Py.max_0 x) = Return 0%float
        ∧ Py.sqrt x = Raise ValueError)
       ∧ ((x <? 0)%float = false → Py.max_0 x = x)
       ∧ (Py.max_0 x <? 0)%float = false
       ∧ Py.sqrt (Py.max_0 x) = Return (PrimFloat.sqrt (Py.max_0 x)))
  (* the monthly totals 1000000000, 1000000000, 1000000001 *)
  ∧ (let mean := (Py.float_of_Z 3000000001 / Py.float_of_Z 3)%float in
     let mean_sq := (Py.float_of_Z 3000000002000000001 / Py.float_of_Z 3)%float in
     (mean_sq - mean * mean <? 0)%float = true)
  ∧ variability_stats 3 (Some (1000000000 + 1000000000 + 1000000001))
      (Some (1000000000 * 1000000000 + 1000000000 * 1000000000
             + 1000000001 * 1000000001))
    = Return (1000000000, 0)
  ∧ response (park_visit_variability 2020 None None None 10) near_constant_store
    = Return [VariabilityOut.mk "ARCH" "Arches National Park" (Some "IMR")
                (Some "Intermountain") 2020 1000000000 0 3]
  (* the monthly totals 100, 200, 300 *)
  ∧ variability_stats 3 (Some (100 + 200 + 300))
      (Some (100 * 100 + 200 * 200 + 300 * 300)) = Return (200, 82)
  ∧ response (park_visit_variability 2020 None (Some "grca") None 10) sample_store
    = Return [VariabilityOut.mk "GRCA" "Grand Canyon National Park" (Some "IMR")
                (Some "Intermountain") 2020 200 82 3].
Proof.
  split; [|split; [apply round_half_even_nearest|split]].
  - intros st year r c q limit out rec Hpk Hrk.
    unfold park_visit_variability. run_handler.
    destruct (variability_stmt _ _ _ _ _) as [|t ts] eqn:E; run_handler; [discriminate|].
    destruct (mapM _ _) as [out'|] eqn:Em; run_handler; [|discriminate].
    intros [= <-] Hrec.
    assert (rec ∈ out') as Hrec'.
    { destruct (limit >? 0); [apply elem_of_slice_to in Hrec|];
        by apply elem_of_order_by_desc in Hrec. }
    eapply mapM_Return_elem_of in Em as (row & Hrow & Hf); [|done].
    rewrite <- E in Hrow. apply variability_stmt_row in Hrow; [|done..].
    destruct row as [[[[[[[code name] rid] rname] y] n] sv] sv2].
    destruct Hrow as (Hne & -> & -> & -> & ->). simpl in Hf.
    destruct (variability_stats _ _ _) as [[avg std]|] eqn:Es; simpl in Hf; [|done].
    injection Hf as <-. simpl.
    split; [done|]. split; [done|].
    apply variability_stats_steps in Es
      as (fsv & fsv2 & fn & mean & msq & sd & H1 & H2 & H3 & H4 & H5 & H6 & H7 & H8).
    exists fsv, fsv2, fn, mean, msq, sd. repeat (split; [assumption|]).
    unfold Py.max_0, Py.sqrt in H6. split.
    + intros Hneg. rewrite Hneg in H6.
      change (0 <? 0)%float with false in H6. injection H6 as <-.
      vm_compute in H8. by injection H8.
    + intros Hpos. rewrite Hpos, Hpos in H6. by injection H6.
  - intros x. unfold Py.max_0, Py.sqrt.
    destruct (x <? 0)%float eqn:Ex.
    + change (0 <? 0)%float with false. repeat split; done.
    + rewrite Ex. repeat split; done.
  - repeat split; vm_compute; reflexivity.
Qed.

Lemma variability_witness :
  park_pk sample_store ∧ region_pk sample_store
  ∧ (∃ rec,
       response (park_visit_variability 2020 None (Some "grca") None 10) sample_store
       = Return [rec]
       ∧ VariabilityOut.months_with_data rec
         = Z.of_nat (length (visits_in sample_store (VariabilityOut.park_code rec) 2020)))
  ∧ park_pk near_constant_store ∧ region_pk near_constant_store
  ∧ ∃ rec,
      response (park_visit_variability 2020 None None None 10) near_constant_store
      = Return [rec]
      ∧ VariabilityOut.months_with_data rec = 3
      ∧ VariabilityOut.std_dev_monthly_visits rec = 0.
Proof.
  assert (park_pk sample_store) as Hpk.
  { unfold park_pk. apply (bool_decide_unpack _). vm_compute. exact I. }
  assert (region_pk sample_store) as Hrk.
  { unfold region_pk. apply (bool_decide_unpack _). vm_compute. exact I. }
  assert (park_pk near_constant_store) as Hpk'.
  { unfold park_pk. apply (bool_decide_unpack _). vm_compute. exact I. }
  assert (region_pk near_constant_store) as Hrk'.
  { unfold region_pk. apply (bool_decide_unpack _). vm_compute. exact I. }
  split; [exact Hpk|]. split; [exact Hrk|]. split.
  { eexists. split; [vm_compute; reflexivity|].
    eapply (proj1 variability_is_population_std_dev sample_store 2020 None (Some "grca")
              None 10 _ _ Hpk Hrk); [vm_compute; reflexivity|left]. }
  split; [exact Hpk'|]. split; [exact Hrk'|].
  set (rec := VariabilityOut.mk "ARCH" "Arches National Park" (Some "IMR")
                (Some "Intermountain") 2020 1000000000 0 3).
  assert (response (park_visit_variability 2020 None None None 10) near_constant_store
          = Return [rec]) as Hresp by (vm_compute; reflexivity).
  exists rec. split; [exact Hresp|].
  destruct (proj1 variability_is_population_std_dev near_constant_store 2020 None None
              None 10 [rec] rec Hpk' Hrk' Hresp ltac:(left))
    as (_ & Hn & fsv & fsv2 & fn & mean & msq & sd & H1 & H2 & H3 & H4 & H5 & _ & _ & _
        & Hneg & _).
  split; [exact Hn|].
  apply Hneg.
  vm_compute in H1, H2, H3. injection H1 as <-. injection H2 as <-. injection H3 as <-.
  vm_compute in H4, H5. injection H4 as <-. injection H5 as <-.
  vm_compute. reflexivity.
Defined.

(** ** Q5: parks above the average *)

Lemma fmap_group_by {K} `{EqDecision K} {A B} (key : A → K) (F : K * list A → B)
    (l : list A) :
  F <$> SQL.group_by key l
  = (λ k, F (k, filter (λ a, key a = k) l)) <$> remove_dups (key <$> l).
Proof. unfold SQL.group_by. by rewrite <- list_fmap_compose. Qed.

Lemma fmap_ext_elem_of {A B} (f g : A → B) (l : list A) :
  (∀ a, a ∈ l → f a = g a) → f <$> l = g <$> l.
Proof.
  intros H. apply list_fmap_ext. intros i a Hi. apply H. by eapply list_elem_of_lookup_2.
Qed.

(** Pass 1: one annual total per park of the scope with rows in the year. *)
Lemma annual_totals_stmt_scope (st : Store) (year : Z) (region_id : option string) :
  park_pk st →
  ∃ codes,
    NoDup codes
    ∧ (∀ c, c ∈ codes ↔ in_scope st year region_id c)
    ∧ annual_totals_stmt year region_id st = (λ c, annual_total st c year) <$> codes.
Proof.
  intros Hpk. unfold annual_totals_stmt.
  set (selected := filter _ (visits_park st)).
  exists (remove_dups ((λ x, MonthlyVisit.park_code x.1) <$> selected)).
  split; [apply NoDup_remove_dups|]. split.
  - intros c. rewrite elem_of_remove_dups, list_elem_of_fmap. unfold in_scope. split.
    + intros (x & -> & (Hsel & Hx)%list_elem_of_filter).
      destruct Hsel as (Hy & Hr).
      apply elem_of_join in Hx as (Hm & Hp & Hon). simpl in Hon.
      exists x.2. repeat split; try done.
      intros Hnil.
      assert (x.1 ∈ visits_in st (MonthlyVisit.park_code x.1) year) as Hin
        by (by apply list_elem_of_filter).
      rewrite Hnil in Hin. by apply not_elem_of_nil in Hin.
    + intros (p & Hp & <- & Hr & Hne).
      destruct (visits_in st (Park.park_code p) year) as [|m ms] eqn:E; [done|].
      assert (m ∈ visits_in st (Park.park_code p) year)
        as ((Hc & Hy) & Hm)%list_elem_of_filter by (rewrite E; left).
      exists (m, p). split; [done|].
      apply list_elem_of_filter. split; [done|].
      apply elem_of_join. done.
  - rewrite fmap_group_by. apply fmap_ext_elem_of.
    intros c (x & -> & (Hsel & Hx)%list_elem_of_filter)%elem_of_remove_dups%list_elem_of_fmap.
    destruct Hsel as (Hy & Hr).
    pose proof Hx as (Hm & Hp & Hon)%elem_of_join. simpl in Hon. simpl.
    unfold selected. rewrite list_filter_filter.
    rewrite (visits_park_of_park st x.2); [|done..|].
    + unfold annual_total, total_visits_of, visits_in.
      rewrite <- list_fmap_compose. simpl. f_equal. f_equal.
      apply list_filter_iff. intros m. simpl. split.
      * intros ((? & ? & _) & _). done.
      * intros (Hc & ->). rewrite Hc, Hon. done.
    + intros x' (Hc & _). simpl in Hc. congruence.
Qed.
(** The rows grouped under one park by pass 2. *)
Lemma above_average_group (st : Store) (year : Z) (r c q : option string)
    (x : Park.t * MonthlyVisit.t * option Region.t) :
  park_pk st → region_pk st →
  x ∈ park_visits_region st →
  MonthlyVisit.year x.1.2 = year → region_is r x.2 → park_filter c q x.1.1 →
  SQL.sum
    (total_visits_of (λ x, x.1.2)
       (filter (λ a, (Park.park_code a.1.1, Park.park_name a.1.1,
                      Region.region_id <$> a.2, Region.region_name <$> a.2,
                      MonthlyVisit.year a.1.2)
                     = (Park.park_code x.1.1, Park.park_name x.1.1,
                        Region.region_id <$> x.2, Region.region_name <$> x.2,
                        MonthlyVisit.year x.1.2))
          (filter (λ x, MonthlyVisit.year x.1.2 = year
                        ∧ region_is r x.2 ∧ park_filter c q x.1.1)
             (park_visits_region st))))
  = annual_total st (Park.park_code x.1.1) year.
Proof.
  intros Hpk Hrk Hfrom Hy Hr Hc.
  pose proof Hfrom as (Hp & Hm & Hon & _)%park_visits_region_elem.
  pose proof (park_visits_region_region st x Hrk Hfrom) as Hreg.
  rewrite list_filter_filter.
  rewrite (region_rows_of_park st x.1.1); [|done..|].
  - unfold annual_total, total_visits_of, visits_in.
    rewrite <- list_fmap_compose. simpl. f_equal. f_equal.
    apply list_filter_iff. intros m. simpl. rewrite <- Hreg, Hy. split.
    + intros (([= ?] & ? & _) & ?). done.
    + intros (? & ->). done.
  - intros x' ([= ? _] & _). done.
Qed.

(** Pass 2, read back: a row is a park of the scope that passes the filters,
    with its annual total, and the total exceeds the average. *)
Lemma above_average_stmt_row (st : Store) (year avg : Z) (r c q : option string) row :
  park_pk st → region_pk st →
  row ∈ above_average_stmt year avg r c q st →
  let '(park_code, park_name, reg_id, reg_name, y, annual_total_) := row in
  y = year
  ∧ annual_total_ = annual_total st park_code year
  ∧ SQL.gt annual_total_ avg
  ∧ visits_in st park_code year ≠ []
  ∧ ∃ p, p ∈ parks st ∧ Park.park_code p = park_code
         ∧ region_is r (region_of st p) ∧ park_filter c q p.
Proof.
  intros Hpk Hrk. unfold above_average_stmt.
  intros (Hgt & Hrow)%elem_of_order_by_desc%list_elem_of_filter.
  group_origin Hrow x. destruct Hsel as (Hy & Hr & Hc).
  destruct g as [[[[[code name] rid] rname] y] grp]. simpl in *.
  pose proof Hfrom as (Hp & Hm & Hon & _)%park_visits_region_elem.
  pose proof (park_visits_region_region st x Hrk Hfrom) as Hreg.
  assert (SQL.sum (total_visits_of (λ x, x.1.2) grp)
          = annual_total st (Park.park_code x.1.1) year) as Htot.
  { rewrite Hgroup, <- Hkey. by apply (above_average_group st year r c q x). }
  injection Hkey as <- <- <- <- <-.
  rewrite Htot in Hgt |- *. repeat split; try done.
  - intros Hnil. assert (x.1.2 ∈ visits_in st (Park.park_code x.1.1) year) as Hin
      by (by apply list_elem_of_filter).
    rewrite Hnil in Hin. by apply not_elem_of_nil in Hin.
  - exists x.1.1. rewrite <- Hreg. done.
Qed.

(** Pass 2, the other way round: such a park has a row. *)
Lemma above_average_stmt_complete (st : Store) (year avg : Z) (r c q : option string)
    (p : Park.t) :
  park_pk st → region_pk st →
  p ∈ parks st → visits_in st (Park.park_code p) year ≠ [] →
  region_is r (region_of st p) → park_filter c q p →
  SQL.gt (annual_total st (Park.park_code p) year) avg →
  (Park.park_code p, Park.park_name p, Region.region_id <$> region_of st p,
   Region.region_name <$> region_of st p, year, annual_total st (Park.park_code p) year)
  ∈ above_average_stmt year avg r c q st.
Proof.
  intros Hpk Hrk Hp Hne Hr Hc Hgt.
  destruct (visits_in st (Park.park_code p) year) as [|m ms] eqn:E; [done|].
  assert (m ∈ visits_in st (Park.park_code p) year)
    as ((Hcm & Hy) & Hm)%list_elem_of_filter by (rewrite E; left).
  rewrite <- E in *. clear E ms. subst year.
  set (x := (p, m, region_of st p)).
  assert (x ∈ park_visits_region st) as Hx.
  { rewrite park_visits_region_fmap by done.
    apply list_elem_of_fmap. exists (p, m). split; [done|].
    apply elem_of_join. done. }
  unfold above_average_stmt.
  apply elem_of_order_by_desc, list_elem_of_filter. split; [done|].
  set (k := (Park.park_code p, Park.park_name p, Region.region_id <$> region_of st p,
             Region.region_name <$> region_of st p, MonthlyVisit.year m)).
  set (selected := filter (λ x, MonthlyVisit.year x.1.2 = MonthlyVisit.year m
                                ∧ region_is r x.2 ∧ park_filter c q x.1.1)
                     (park_visits_region st)).
  apply list_elem_of_fmap.
  exists (k, filter (λ a, (Park.park_code a.1.1, Park.park_name a.1.1,
                           Region.region_id <$> a.2, Region.region_name <$> a.2,
                           MonthlyVisit.year a.1.2) = k) selected).
  split; [|apply elem_of_group_by; split; [|reflexivity]].
  - simpl. f_equal. symmetry.
    apply (above_average_group st (MonthlyVisit.year m) r c q x); done.
  - exists x. split; [|done].
    apply list_elem_of_filter. done.
Qed.

Lemma region_is_scope (st : Store) (r : option string) (p : Park.t) :
  park_region_fk st → p ∈ parks st →
  (region_is r (region_of st p) ↔ when r (λ rid, Park.region_id p = Some rid)).
Proof.
  intros Hfk Hp. unfold region_is. destruct r as [rid|]; simpl; [|done].
  pose proof (region_of_spec st p) as Hspec.
  destruct (region_of st p) as [rg|]; simpl.
  - destruct Hspec as (_ & Hid). split.
    + intros [= <-]. done.
    + intros Heq. congruence.
  - split; [done|]. intros Heq.
    pose proof (Hfk p rid Hp Heq) as (rg & -> & Hrg)%list_elem_of_fmap.
    by destruct (Hspec rg Hrg).
Qed.
Lemma percent_above_nonpositive t avg : avg ≤ 0 → percent_above t avg = Return 0.
Proof. intros H. unfold percent_above. by replace (avg >? 0) with false by lia. Qed.

(** The computation of [percent_above] for a positive average. *)
Lemma percent_above_steps (t avg pct : Z) :
  avg > 0 →
  (percent_above t avg = Return pct ↔
   ∃ f : float, Py.int_truediv (t - avg) avg = Return f
                ∧ Py.round (f * 100)%float = Return pct).
Proof.
  intros Havg. unfold percent_above. replace (avg >? 0) with true by lia. split.
  - destruct (Py.int_truediv _ _) as [f|] eqn:E; simpl; [|done].
    intros Hr. exists f. done.
  - intros (f & -> & Hr). done.
Qed.

(** The computation of [rounded_mean]. *)
Lemma rounded_mean_steps (totals : list (option Z)) (avg : Z) :
  rounded_mean totals = Return avg ↔
  ∃ (s : Z) (f : float),
    Py.sum totals = Return s
    ∧ Py.int_truediv s (Z.of_nat (length totals)) = Return f
    ∧ Py.round f = Return avg.
Proof.
  unfold rounded_mean. split.
  - destruct (Py.sum totals) as [s|] eqn:E1; simpl; [|done].
    destruct (Py.int_truediv _ _) as [f|] eqn:E2; simpl; [|done].
    intros Hr. exists s, f. done.
  - intros (s & f & -> & H2 & H3). simpl. rewrite H2. done.
Qed.

(** C3, as the code has it: the average the parks are compared with is the
    unweighted mean of the per-park annual totals of the scope, rounded to
    an integer by [round] (ties to even).  The parks returned are exactly
    the parks of the scope that pass the park filters and whose annual total
    strictly exceeds that integer; each record carries the integer average,
    the difference, and
    [round((annual_total - average) / average * 100)], which is 0 when the
    average is not positive.  For the annual totals 100, 200, 300 the average
    is 200, only the park with 300 is returned, and its percentage is 50. *)
Theorem above_average_is_above_rounded_mean :
  (∀ (st : Store) (year : Z) (region_id park_code query : option string) out,
     park_pk st → region_pk st → park_region_fk st →
     response (parks_above_system_average year region_id park_code query) st
     = Return out →
     ∃ codes overall_avg,
       (* the scope and its average *)
       NoDup codes
       ∧ (∀ c, c ∈ codes ↔ in_scope st year (Py.upper <$> region_id) c)
       ∧ (∃ (s : Z) (f : float),
            Py.sum ((λ c, annual_total st c year) <$> codes) = Return s
            ∧ Py.int_truediv s (Z.of_nat (length codes)) = Return f
            ∧ Py.round f = Return overall_avg)
       (* who is returned *)
       ∧ (∀ p, p ∈ parks st →
            ((∃ r, r ∈ out ∧ ParkAboveAverageOut.park_code r = Park.park_code p)
             ↔ in_scope st year (Py.upper <$> region_id) (Park.park_code p)
               ∧ SQL.gt (annual_total st (Park.park_code p) year) overall_avg
               ∧ park_filter (Py.upper <$> park_code) query p))
       (* what a record carries *)
       ∧ (∀ r, r ∈ out →
            (∃ p, p ∈ parks st ∧ Park.park_code p = ParkAboveAverageOut.park_code r)
            ∧ ParkAboveAverageOut.system_average_visits r = overall_avg
            ∧ ParkAboveAverageOut.annual_total_visits r
              = Py.or_0 (annual_total st (ParkAboveAverageOut.park_code r) year)
            ∧ ParkAboveAverageOut.annual_total_visits r > overall_avg
            ∧ ParkAboveAverageOut.difference_from_average r
              = ParkAboveAverageOut.annual_total_visits r - overall_avg
            ∧ (overall_avg > 0 →
               ∃ f : float,
                 Py.int_truediv (ParkAboveAverageOut.annual_total_visits r - overall_avg)
                   overall_avg = Return f
                 ∧ Py.round (f * 100)%float
                   = Return (ParkAboveAverageOut.percent_above_average r))
            ∧ (overall_avg ≤ 0 → ParkAboveAverageOut.percent_above_average r = 0)))
  ∧ (∀ t avg, avg ≤ 0 → percent_above t avg = Return 0)
  ∧ rounded_mean [Some 100; Some 200; Some 300] = Return 200
  ∧ percent_above 300 200 = Return 50
  ∧ response (parks_above_system_average 2020 None None None) three_parks_store
    = Return [ParkAboveAverageOut.mk "CANY" "Canyonlands National Park" (Some "IMR")
                (Some "Intermountain") 2020 300 200 100 50].
Proof.
  split; [|split; [apply percent_above_nonpositive|repeat split; vm_compute; reflexivity]].
  intros st year rid c q out Hpk Hrk Hfk.
  unfold parks_above_system_average. run_handler.
  destruct (annual_totals_stmt_scope st year (Py.upper <$> rid) Hpk)
    as (codes & Hnd & Hcodes & Htotals).
  destruct (annual_totals_stmt _ _ _) as [|t ts] eqn:E; run_handler; [discriminate|].
  destruct (rounded_mean _) as [avg|] eqn:Eavg; run_handler; [|discriminate].
  destruct (mapM _ _) as [out'|] eqn:Em; run_handler; [|discriminate].
  intros [= <-].
  exists codes, avg. split; [done|]. split; [done|]. split.
  { apply rounded_mean_steps in Eavg as (s & f & Hs & Hf & Hr).
    exists s, f. rewrite <- Htotals.
    replace (length codes) with (length (t :: ts)); [done|].
    by rewrite Htotals, length_fmap. }
  assert (∀ r, r ∈ out' →
            ∃ p, p ∈ parks st
                 ∧ Park.park_code p = ParkAboveAverageOut.park_code r
                 ∧ region_is (Py.upper <$> rid) (region_of st p)
                 ∧ park_filter (Py.upper <$> c) q p
                 ∧ visits_in st (Park.park_code p) year ≠ []
                 ∧ SQL.gt (annual_total st (Park.park_code p) year) avg
                 ∧ ParkAboveAverageOut.system_average_visits r = avg
                 ∧ ParkAboveAverageOut.annual_total_visits r
                   = Py.or_0 (annual_total st (Park.park_code p) year)
                 ∧ ParkAboveAverageOut.difference_from_average r
                   = ParkAboveAverageOut.annual_total_visits r - avg
                 ∧ percent_above (ParkAboveAverageOut.annual_total_visits r) avg
                   = Return (ParkAboveAverageOut.percent_above_average r)) as Hsound.
  { intros r Hr.
    pose proof (mapM_Return_elem_of _ _ _ _ Em Hr) as (row & Hrow & Hf).
    apply above_average_stmt_row in Hrow; [|done..].
    destruct row as [[[[[code name] reg] rname] y] tot].
    destruct Hrow as (-> & -> & Hgt & Hne & p & Hp & <- & Hreg & Hfil).
    simpl in Hf.
    destruct (percent_above _ _) as [pct|] eqn:Ep; simpl in Hf; [|done].
    injection Hf as <-. simpl. exists p. repeat split; done. }
  split.
  - intros p Hp. split.
    + intros (r & Hr & Hcode).
      destruct (Hsound r Hr) as (p' & Hp' & Hc' & Hreg & Hfil & Hne & Hgt & _).
      assert (p' = p) as -> by (eapply NoDup_fmap_elem_inj; eauto; congruence).
      split; [|done].
      exists p. split; [done|]. split; [done|]. split; [|done].
      exact (proj1 (region_is_scope st (Py.upper <$> rid) p Hfk Hp) Hreg).
    + intros ((p' & Hp' & Hc' & Hreg & Hne) & Hgt & Hfil).
      assert (p' = p) as -> by (eapply NoDup_fmap_elem_inj; eauto).
      pose proof (proj2 (region_is_scope st (Py.upper <$> rid) p Hfk Hp) Hreg) as Hreg'.
      pose proof (above_average_stmt_complete st year avg _ _ q p Hpk Hrk Hp Hne Hreg'
                    Hfil Hgt) as Hrow.
      destruct (mapM_Return_elem_of_l _ _ _ _ Em Hrow) as (r & Hr & Hf).
      exists r. split; [done|]. simpl in Hf.
      destruct (percent_above _ _); simpl in Hf; [|done]. by injection Hf as <-.
  - intros r Hr.
    destruct (Hsound r Hr) as (p & Hp & Hc & _ & _ & _ & Hgt & Havg & Htot & Hdiff & Hpct).
    rewrite <- Hc. repeat split; try done.
    + exists p. done.
    + rewrite Htot. destruct (annual_total st (Park.park_code p) year); simpl in *; [lia|done].
    + intros Hpos. by apply percent_above_steps.
    + intros Hneg. rewrite percent_above_nonpositive in Hpct by done. by injection Hpct.
Qed.

Lemma above_average_witness :
  park_pk three_parks_store ∧ region_pk three_parks_store
  ∧ park_region_fk three_parks_store
  ∧ ∃ codes overall_avg,
      NoDup codes
      ∧ ∃ (s : Z) (f : float),
          Py.sum ((λ c, annual_total three_parks_store c 2020) <$> codes) = Return s
          ∧ Py.int_truediv s (Z.of_nat (length codes)) = Return f
          ∧ Py.round f = Return overall_avg.
Proof.
  assert (park_pk three_parks_store) as Hpk.
  { unfold park_pk. apply (bool_decide_unpack _). vm_compute. exact I. }
  assert (region_pk three_parks_store) as Hrk.
  { unfold region_pk. apply (bool_decide_unpack _). vm_compute. exact I. }
  assert (park_region_fk three_parks_store) as Hfk.
  { intros p rid Hp Hrid. apply list_elem_of_In in Hp. simpl in Hp.
    repeat (destruct Hp as [<-|Hp]; [injection Hrid as <-; left|]). destruct Hp. }
  split; [exact Hpk|]. split; [exact Hrk|]. split; [exact Hfk|].
  destruct (proj1 above_average_is_above_rounded_mean three_parks_store 2020 None None None
              _ Hpk Hrk Hfk ltac:(vm_compute; reflexivity))
    as (codes & avg & Hnd & _ & Havg & _).
  exists codes, avg. split; assumption.
Defined.

(** C3 fails as stated: with the annual totals 1 and 2 the mean is 1.5; the
    park with 2 visits exceeds it, yet no park is returned, because the totals
    are compared with the rounded mean, 2. *)
Lemma above_unrounded_mean_not_returned :
  annual_totals_stmt 2020 None two_parks_store = [Some 1; Some 2]
  ∧ annual_total two_parks_store "BRCA" 2020 = Some 2
  ∧ 2 * 2 > 1 + 2
  ∧ rounded_mean [Some 1; Some 2] = Return 2
  ∧ response (parks_above_system_average 2020 None None None) two_parks_store = Return [].
Proof. repeat split; vm_compute; reflexivity. Qed.

(** * Further properties of the handlers

    What the handlers outside the claims do, and how the handlers relate to
    one another. *)

(** ** The metadata and listing handlers *)

Lemma agg_min_spec (l : list Z) :
  match agg_min l with
  | None => l = []
  | Some v => v ∈ l ∧ ∀ x, x ∈ l → v ≤ x
  end.
Proof.
  induction l as [|a l IH]; [done|]. simpl.
  destruct (agg_min l) as [v|]; simpl.
  - destruct IH as (Hv & Hmin). split.
    + destruct (Z.min_spec a v) as [(_ & ->)|(_ & ->)]; [left|by right].
    + intros x [->|Hx]%elem_of_cons; [lia|]. specialize (Hmin x Hx). lia.
  - subst l. split; [left|]. by intros x ->%list_elem_of_singleton.
Qed.

Lemma agg_max_spec (l : list Z) :
  match agg_max l with
  | None => l = []
  | Some v => v ∈ l ∧ ∀ x, x ∈ l → x ≤ v
  end.
Proof.
  induction l as [|a l IH]; [done|]. simpl.
  destruct (agg_max l) as [v|]; simpl.
  - destruct IH as (Hv & Hmax). split.
    + destruct (Z.max_spec a v) as [(_ & ->)|(_ & ->)]; [by right|left].
    + intros x [->|Hx]%elem_of_cons; [lia|]. specialize (Hmax x Hx). lia.
  - subst l. split; [left|]. by intros x ->%list_elem_of_singleton.
Qed.

(** X1: [get_available_years] answers 404 "No year data available" exactly
    when the monthly table is empty.  Otherwise it returns the two keys
    [min_year] and [max_year], both years of stored rows, and every stored
    row has its year between them.  It runs one statement either way. *)
Theorem available_years_are_the_stored_bounds (st : Store) :
  (monthly_visits st = [] ↔
   response get_available_years st = Raise (HTTPException 404 "No year data available"))
  ∧ (monthly_visits st ≠ [] ↔
     ∃ min_year max_year,
       response get_available_years st
       = Return (<["max_year" := max_year]> (<["min_year" := min_year]> ∅))
       ∧ (∃ m, m ∈ monthly_visits st ∧ MonthlyVisit.year m = min_year)
       ∧ (∃ m, m ∈ monthly_visits st ∧ MonthlyVisit.year m = max_year)
       ∧ ∀ m, m ∈ monthly_visits st →
           min_year ≤ MonthlyVisit.year m ∧ MonthlyVisit.year m ≤ max_year)
  ∧ statements_executed get_available_years st = 1%nat.
Proof.
  unfold get_available_years. run_handler. unfold years_stmt.
  pose proof (agg_min_spec (MonthlyVisit.year <$> monthly_visits st)) as Hmin.
  pose proof (agg_max_spec (MonthlyVisit.year <$> monthly_visits st)) as Hmax.
  destruct (agg_min _) as [mn|]; destruct (agg_max _) as [mx|]; run_handler.
  - destruct Hmin as ((m1 & -> & Hm1)%list_elem_of_fmap & Hmin).
    destruct Hmax as ((m2 & -> & Hm2)%list_elem_of_fmap & Hmax).
    split; [|split; [|done]].
    + split; [|discriminate]. intros E. rewrite E in Hm1. by apply not_elem_of_nil in Hm1.
    + split; [|intros _ E; rewrite E in Hm1; by apply not_elem_of_nil in Hm1].
      intros _. eexists _, _. split; [reflexivity|]. split; [eauto|]. split; [eauto|].
      intros m Hm. split; [apply Hmin|apply Hmax]; by apply list_elem_of_fmap_2.
  - apply fmap_nil_inv in Hmax. destruct Hmin as ((m1 & _ & Hm1)%list_elem_of_fmap & _).
    rewrite Hmax in Hm1. by apply not_elem_of_nil in Hm1.
  - apply fmap_nil_inv in Hmin. destruct Hmax as ((m1 & _ & Hm1)%list_elem_of_fmap & _).
    rewrite Hmin in Hm1. by apply not_elem_of_nil in Hm1.
  - apply fmap_nil_inv in Hmin. split; [done|]. split; [|done].
    split; [done|]. intros (? & ? & ? & _). discriminate.
Qed.

Lemma string_compare_trans_le (a b c : string) :
  String.compare a b ≠ Gt → String.compare b c ≠ Gt → String.compare a c ≠ Gt.
Proof.
  revert b c. induction a as [|x a IH]; intros [|y b] [|z c]; simpl; try done.
  unfold Ascii.compare.
  destruct (N.compare_spec (N_of_ascii x) (N_of_ascii y)) as [Exy|Hxy|Hxy]; [| |done].
  - rewrite Exy. destruct (N_of_ascii y ?= N_of_ascii z)%N; [apply IH|done..].
  - destruct (N.compare_spec (N_of_ascii y) (N_of_ascii z)) as [Eyz|Hyz|Hyz]; [| |done].
    + rewrite <- Eyz. intros _ _. by rewrite (proj2 (N.compare_lt_iff _ _) Hxy).
    + intros _ _. by rewrite (proj2 (N.compare_lt_iff _ _) (N.lt_trans _ _ _ Hxy Hyz)).
Qed.

Lemma string_leb_trans (a b c : string) :
  String.leb a b = true → String.leb b c = true → String.leb a c = true.
Proof.
  unfold String.leb. intros Hab Hbc.
  pose proof (string_compare_trans_le a b c) as H.
  destruct (String.compare a b), (String.compare b c), (String.compare a c);
    try done; exfalso; by apply H.
Qed.

Lemma order_by_string_sorted {A} (key : A → string) l :
  StronglySorted (λ a b, String.leb (key a) (key b) = true) (order_by String.leb key l).
Proof.
  apply (sort_by_sorted (λ a b, String.leb (key a) (key b))).
  - intros a b. apply String.leb_total.
  - intros a b c. apply string_leb_trans.
Qed.

(** X2: [list_regions] always returns: the rows of the region table, each
    as often as stored, in ascending order of [region_id]; under the primary
    key of [region] the order is strict, so no identifier comes twice. *)
Theorem list_regions_is_the_sorted_table (st : Store) :
  ∃ out,
    response list_regions st = Return out
    ∧ out ≡ₚ regions st
    ∧ StronglySorted (λ a b, String.leb (Region.region_id a) (Region.region_id b) = true) out
    ∧ (region_pk st →
       StronglySorted (λ a b, String.ltb (Region.region_id a) (Region.region_id b) = true) out).
Proof.
  exists (regions_stmt st). split; [reflexivity|].
  assert (regions_stmt st ≡ₚ regions st) as Hperm by apply sort_by_Permutation.
  split; [done|]. split; [apply order_by_string_sorted|].
  intros Hpk.
  assert (NoDup (Region.region_id <$> regions_stmt st)) as Hnd.
  { unfold region_pk in Hpk. by rewrite Hperm. }
  pose proof (order_by_string_sorted Region.region_id (regions st)) as Hs.
  fold (regions_stmt st) in Hs. clear Hperm.
  induction Hs as [|a l Hs IH Ha]; [constructor|].
  rewrite fmap_cons in Hnd. apply NoDup_cons in Hnd as (Hnotin & Hnd).
  constructor; [by apply IH|].
  apply Forall_forall. intros b Hb.
  assert (String.leb (Region.region_id a) (Region.region_id b) = true) as Hle
    by (eapply Forall_forall in Ha; eauto).
  unfold String.leb in Hle. unfold String.ltb.
  destruct (String.compare _ _) eqn:E; [|done..].
  apply String.compare_eq_iff in E. exfalso. apply Hnotin. rewrite E.
  by apply list_elem_of_fmap_2.
Qed.

Lemma filter_bind {A B} (P : B → Prop) `{∀ b, Decision (P b)} (G : A → list B) (l : list A) :
  filter P (l ≫= G) = l ≫= (λ a, filter P (G a)).
Proof.
  induction l as [|a l IH]; [done|]. by rewrite !bind_cons, filter_app, IH.
Qed.


Lemma details_stmt_found (st : Store) (p : Park.t) :
  park_pk st → p ∈ parks st →
  details_stmt (Park.park_code p) st = Some (p, region_of st p).
Proof.
  intros Hpk Hp. unfold details_stmt, SQL.outer_join.
  rewrite filter_bind.
  rewrite (bind_unique_key Park.park_code _ (parks st) p Hpk Hp).
  - unfold region_of. simpl.
    destruct (filter _ (regions st)) as [|b bs].
    + rewrite filter_all; [done|]. by intros x ->%list_elem_of_singleton.
    + rewrite filter_all; [done|].
      intros x [->|(b' & -> & _)%list_elem_of_fmap]%elem_of_cons; done.
  - intros a Ha Hne. apply filter_nil_iff. intros x Hx Hc. apply Hne. rewrite <- Hc.
    destruct (filter _ (regions st)) as [|b bs].
    + by apply list_elem_of_singleton in Hx as ->.
    + by apply list_elem_of_fmap in Hx as (b' & -> & _).
Qed.

Lemma details_stmt_none (st : Store) (c : string) :
  (∀ p, p ∈ parks st → Park.park_code p ≠ c) → details_stmt c st = None.
Proof.
  intros Hnone. unfold details_stmt. rewrite filter_nil_iff; [done|].
  intros x (Hx & _)%elem_of_outer_join Hc. by apply (Hnone x.1).
Qed.

(** X3: under the primary key of [park], [get_park_details] finds the park
    whose code is the upper-cased path parameter and returns its columns with
    the identifier and name of the region its [region_id] refers to; a region
    identifier in the response is the park's own, and with the foreign key in
    force the response always carries the park's [region_id].  When no park
    has that code the response is 404 "Park <CODE> not found", with the code
    in upper case.  One statement is run either way. *)
Theorem park_details_found_or_404 (st : Store) (park_code : string) :
  park_pk st →
  (∀ p, p ∈ parks st → Park.park_code p = Py.upper park_code →
     response (get_park_details park_code) st = Return (park_detail st p)
     ∧ (ParkDetailOut.region_id (park_detail st p) ≠ None →
        ParkDetailOut.region_id (park_detail st p) = Park.region_id p)
     ∧ (park_region_fk st →
        ParkDetailOut.region_id (park_detail st p) = Park.region_id p))
  ∧ ((∀ p, p ∈ parks st → Park.park_code p ≠ Py.upper park_code) →
     response (get_park_details park_code) st
     = Raise (HTTPException 404 ("Park " +:+ Py.upper park_code +:+ " not found")))
  ∧ statements_executed (get_park_details park_code) st = 1%nat.
Proof.
  intros Hpk. split; [|split].
  - intros p Hp Hc. split; [|split].
    + unfold get_park_details. run_handler.
      rewrite <- Hc, details_stmt_found by done. reflexivity.
    + simpl. pose proof (region_of_spec st p) as Hspec.
      destruct (region_of st p) as [r|]; [|done]. intros _. simpl. by destruct Hspec.
    + intros Hfk. simpl. pose proof (region_of_spec st p) as Hspec.
      destruct (region_of st p) as [r|]; simpl; [by destruct Hspec|].
      destruct (Park.region_id p) as [rid|] eqn:E; [|done].
      pose proof (Hfk p rid Hp E) as (r & -> & Hr)%list_elem_of_fmap.
      by destruct (Hspec r Hr).
  - intros Hnone. unfold get_park_details. run_handler.
    by rewrite details_stmt_none.
  - unfold get_park_details. run_handler.
    by destruct (details_stmt _ _) as [[? ?]|].
Qed.

Lemma park_details_witness :
  park_pk sample_store
  ∧ response (get_park_details "zion") sample_store
    = Return (ParkDetailOut.mk "ZION" "Zion National Park" "AZ" "National Park"
                (Some "IMR") (Some "Intermountain") None None None None None)
  ∧ response (get_park_details "none") sample_store
    = Raise (HTTPException 404 "Park NONE not found").
Proof.
  assert (park_pk sample_store) as Hpk.
  { unfold park_pk. apply (bool_decide_unpack _). vm_compute. exact I. }
  split; [exact Hpk|].
  destruct (park_details_found_or_404 sample_store "zion" Hpk) as (Hfound & _).
  destruct (park_details_found_or_404 sample_store "none" Hpk) as (_ & Hnone & _).
  split.
  - apply (Hfound (sample_park "ZION" "Zion National Park" (Some "IMR"))); [|reflexivity].
    apply list_elem_of_In. simpl. tauto.
  - apply Hnone. intros p Hp. apply list_elem_of_In in Hp. simpl in Hp.
    repeat (destruct Hp as [<-|Hp]; [discriminate|]). destruct Hp.
Defined.

(** ** Groups of park rows, in general

    The statements Q2, Q3, Q4 and Q11 group the selected rows of
    [park JOIN monthly_visit LEFT OUTER JOIN region] by columns of the park
    and of its region.  Under the primary keys a group is one park's monthly
    rows that pass the row condition [V]. *)

Section park_groups.
Context (st : Store) (Hpk : park_pk st) (Hrk : region_pk st).
Context {K : Type} `{EqDecision K}.
Context (key : Park.t * MonthlyVisit.t * option Region.t → K).
Context (Sel : Park.t * MonthlyVisit.t * option Region.t → Prop) `{∀ x, Decision (Sel x)}.
Context (V : MonthlyVisit.t → Prop) `{∀ m, Decision (V m)}.
Hypothesis key_code : ∀ a b, key a = key b → Park.park_code a.1.1 = Park.park_code b.1.1.
Hypothesis key_park : ∀ p r m m', Sel (p, m, r) → Sel (p, m', r) → key (p, m', r) = key (p, m, r).
Hypothesis sel_visit : ∀ p r m m', Sel (p, m, r) → (Sel (p, m', r) ↔ V m').

Lemma group_of_row x :
  x ∈ park_visits_region st → Sel x →
  filter (λ a, key a = key x) (filter Sel (park_visits_region st))
  = (λ m, (x.1.1, m, x.2))
      <$> filter (λ m, MonthlyVisit.park_code m = Park.park_code x.1.1 ∧ V m)
            (monthly_visits st).
Proof.
  intros Hx Hsel.
  pose proof Hx as (Hp & Hm & Hon & _)%park_visits_region_elem.
  pose proof (park_visits_region_region st x Hrk Hx) as Hreg.
  destruct x as [[p mx] r]. simpl in *. subst r.
  rewrite list_filter_filter.
  rewrite (region_rows_of_park st p); [|done..|].
  - f_equal. apply list_filter_iff. intros m. simpl. split.
    + intros ((_ & Hs) & Hc). split; [done|]. by apply (sel_visit p (region_of st p) mx m).
    + intros (Hc & Hv). split; [|done].
      assert (Sel (p, m, region_of st p))
        by (by apply (sel_visit p (region_of st p) mx m)).
      split; [by apply key_park|done].
  - intros a (Hk & _). by apply key_code in Hk.
Qed.

(** A group, read back. *)
Lemma park_group_sound g :
  g ∈ SQL.group_by key (filter Sel (park_visits_region st)) →
  ∃ p m, p ∈ parks st ∧ m ∈ monthly_visits st
         ∧ MonthlyVisit.park_code m = Park.park_code p
         ∧ Sel (p, m, region_of st p)
         ∧ g.1 = key (p, m, region_of st p)
         ∧ g.2 = (λ m, (p, m, region_of st p))
                   <$> filter (λ m, MonthlyVisit.park_code m = Park.park_code p ∧ V m)
                         (monthly_visits st).
Proof.
  intros ((x & (Hsel & Hx)%list_elem_of_filter & Hk) & Hg)%elem_of_group_by.
  pose proof Hx as (Hp & Hm & Hon & _)%park_visits_region_elem.
  pose proof (park_visits_region_region st x Hrk Hx) as Hreg.
  exists x.1.1, x.1.2. rewrite <- Hreg.
  destruct x as [[p mx] r]. simpl in *.
  repeat split; try done.
  rewrite Hg, <- Hk. by apply (group_of_row (p, mx, r)).
Qed.

(** The group of a park that has a selected row. *)
Lemma park_group_complete p m :
  p ∈ parks st → m ∈ monthly_visits st →
  MonthlyVisit.park_code m = Park.park_code p →
  Sel (p, m, region_of st p) →
  (key (p, m, region_of st p),
   (λ m, (p, m, region_of st p))
     <$> filter (λ m, MonthlyVisit.park_code m = Park.park_code p ∧ V m) (monthly_visits st))
  ∈ SQL.group_by key (filter Sel (park_visits_region st)).
Proof.
  intros Hp Hm Hc Hsel.
  assert ((p, m, region_of st p) ∈ park_visits_region st) as Hx.
  { rewrite park_visits_region_fmap by done.
    apply list_elem_of_fmap. exists (p, m). split; [done|].
    apply elem_of_join. done. }
  apply elem_of_group_by. simpl. split.
  - exists (p, m, region_of st p). split; [|done]. by apply list_elem_of_filter.
  - symmetry. by apply (group_of_row (p, m, region_of st p)).
Qed.

(** One group per park. *)
Lemma park_groups_NoDup {B} (F : K * list (Park.t * MonthlyVisit.t * option Region.t) → B)
    (code : B → string) :
  (∀ g, g ∈ SQL.group_by key (filter Sel (park_visits_region st)) →
        ∀ p m, g.1 = key (p, m, region_of st p) → code (F g) = Park.park_code p) →
  NoDup (code <$> (F <$> SQL.group_by key (filter Sel (park_visits_region st)))).
Proof.
  intros Hcode. rewrite <- list_fmap_compose. apply NoDup_fmap_2_strong.
  - intros g g' Hg Hg' E. simpl in E.
    pose proof Hg as (p & m & Hp & Hm & Hc & Hs & Hk & Hrows)%park_group_sound.
    pose proof Hg' as (p' & m' & Hp' & Hm' & Hc' & Hs' & Hk' & Hrows')%park_group_sound.
    rewrite (Hcode g Hg p m Hk), (Hcode g' Hg' p' m' Hk') in E.
    assert (p = p') as <- by (eapply NoDup_fmap_elem_inj; eauto).
    destruct g as [k rows], g' as [k' rows']. simpl in *. subst.
    f_equal. by apply key_park.
  - eapply NoDup_fmap_1. apply group_by_keys_NoDup.
Qed.

End park_groups.

(** ** Q2: annual totals by park *)

Lemma StronglySorted_take {A} (R : relation A) n (l : list A) :
  StronglySorted R l → StronglySorted R (take n l).
Proof.
  intros Hs. rewrite <- (take_drop n l) in Hs. by apply StronglySorted_app_1_l in Hs.
Qed.

Lemma StronglySorted_limit {A} (R : relation A) n (l : list A) :
  StronglySorted R l → StronglySorted R (SQL.limit n l).
Proof. unfold SQL.limit. destruct (n <? 0); [done|apply StronglySorted_take]. Qed.

Lemma StronglySorted_slice_to {A} (R : relation A) n (l : list A) :
  StronglySorted R l → StronglySorted R (Py.slice_to n l).
Proof. unfold Py.slice_to. destruct (n <? 0); apply StronglySorted_take. Qed.

Lemma StronglySorted_fmap_elem_of {A B} (f : A → B) (R : relation A) (S : relation B)
    (l : list A) :
  (∀ a b, a ∈ l → b ∈ l → R a b → S (f a) (f b)) →
  StronglySorted R l → StronglySorted S (f <$> l).
Proof.
  intros HRS Hs. induction Hs as [|a l Hs IH Ha]; [constructor|].
  rewrite fmap_cons. constructor.
  - apply IH. intros x y Hx Hy. apply HRS; by right.
  - apply Forall_fmap, Forall_forall. intros b Hb. simpl.
    apply HRS; [left|by right|]. eapply Forall_forall in Ha; eauto.
Qed.

Lemma NoDup_limit {A} n (l : list A) : NoDup l → NoDup (SQL.limit n l).
Proof.
  unfold SQL.limit. destruct (n <? 0); [done|].
  intros Hnd. rewrite <- (take_drop (Z.to_nat n) l) in Hnd. by apply NoDup_app in Hnd as (? & _).
Qed.

Lemma length_limit {A} n (l : list A) : 0 ≤ n → Z.of_nat (length (SQL.limit n l)) ≤ n.
Proof.
  intros Hn. unfold SQL.limit. replace (n <? 0) with false by lia.
  rewrite length_take. lia.
Qed.

Lemma limit_all {A} n (l : list A) :
  n < 0 ∨ Z.of_nat (length l) ≤ n → SQL.limit n l = l.
Proof.
  intros Hn. unfold SQL.limit. destruct (n <? 0) eqn:E; [done|].
  apply take_ge. lia.
Qed.

Section annual_visits.
Context (st : Store) (Hpk : park_pk st) (Hrk : region_pk st).
Context (year : Z) (r c q : option string).

Let Sel (x : Park.t * MonthlyVisit.t * option Region.t) : Prop :=
  MonthlyVisit.year x.1.2 = year ∧ region_is r x.2 ∧ park_filter c q x.1.1.

Let key (x : Park.t * MonthlyVisit.t * option Region.t) :=
  (Park.park_code x.1.1, Park.park_name x.1.1, Park.state x.1.1,
   Park.latitude x.1.1, Park.longitude x.1.1,
   Region.region_id <$> x.2, Region.region_name <$> x.2, MonthlyVisit.year x.1.2).

Let totals :=
  (λ g : _ * list (Park.t * MonthlyVisit.t * option Region.t),
     (g.1, SQL.sum (total_visits_of (λ x, x.1.2) g.2)))
    <$> SQL.group_by key (filter Sel (park_visits_region st)).

Lemma annual_key_code a b : key a = key b → Park.park_code a.1.1 = Park.park_code b.1.1.
Proof. by intros [= ? _]. Qed.

Lemma annual_key_park p r' m m' : Sel (p, m, r') → Sel (p, m', r') → key (p, m', r') = key (p, m, r').
Proof. intros (Hy & _) (Hy' & _). unfold key. simpl in *. congruence. Qed.

Lemma annual_sel_visit p r' m m' :
  Sel (p, m, r') → (Sel (p, m', r') ↔ MonthlyVisit.year m' = year).
Proof. intros (Hy & Hr & Hf). unfold Sel. simpl in *. tauto. Qed.

Lemma annual_totals_elem row :
  row ∈ totals ↔
  ∃ p, annual_scope st year r c q None p
       ∧ row = (Park.park_code p, Park.park_name p, Park.state p, Park.latitude p,
                Park.longitude p,
                Region.region_id <$> region_of st p, Region.region_name <$> region_of st p,
                year, annual_total st (Park.park_code p) year).
Proof.
  unfold totals. rewrite list_elem_of_fmap. split.
  - intros (g & -> & Hg).
    apply (park_group_sound st Hpk Hrk key Sel (λ m, MonthlyVisit.year m = year)
             annual_key_code annual_key_park annual_sel_visit) in Hg
      as (p & m & Hp & Hm & Hc & (Hy & Hr & Hf) & Hk & Hrows).
    cbn [fst snd] in Hy, Hr, Hf. exists p. split.
    + split; [done|]. split; [|done].
      intros Hnil. assert (m ∈ visits_in st (Park.park_code p) year) as Hin
        by (by apply list_elem_of_filter).
      rewrite Hnil in Hin. by apply not_elem_of_nil in Hin.
    + rewrite Hk, Hrows. unfold key. simpl. rewrite Hy. f_equal.
      unfold total_visits_of, annual_total, visits_in. by rewrite <- list_fmap_compose.
  - intros (p & (Hp & Hne & Hr & Hf & _) & ->).
    destruct (visits_in st (Park.park_code p) year) as [|m ms] eqn:E; [done|].
    assert (m ∈ visits_in st (Park.park_code p) year)
      as ((Hcm & Hy) & Hm)%list_elem_of_filter by (rewrite E; left).
    clear E ms Hne.
    eexists. split;
      [|apply (park_group_complete st Hpk Hrk key Sel (λ m, MonthlyVisit.year m = year)
                 annual_key_code annual_key_park annual_sel_visit p m Hp Hm Hcm)].
    + unfold key. simpl. rewrite Hy. f_equal.
      unfold total_visits_of, annual_total, visits_in. by rewrite <- list_fmap_compose.
    + done.
Qed.

Lemma annual_totals_NoDup : NoDup ((λ row, row.1.1.1.1.1.1.1.1) <$> totals).
Proof.
  unfold totals.
  apply (park_groups_NoDup st Hpk Hrk key Sel (λ m, MonthlyVisit.year m = year)
           annual_key_code annual_key_park annual_sel_visit).
  intros g Hg p m Hk. simpl. by rewrite Hk.
Qed.

End annual_visits.

Lemma sublist_limit {A} n (l : list A) : SQL.limit n l `sublist_of` l.
Proof. unfold SQL.limit. destruct (n <? 0); [done|apply sublist_take]. Qed.


(** The response of Q2, read on the tables. *)
Lemma annual_visits_by_park_response (st : Store) (year : Z)
    (region_id park_code query : option string) (min_total : option Z) (limit : Z) :
  park_pk st → region_pk st →
  let scope :=
    annual_scope st year (Py.upper <$> region_id) (Py.upper <$> park_code) query min_total in
  ∃ out,
    response (annual_visits_by_park year region_id park_code query min_total limit) st
    = Return out
    ∧ (∀ rec, rec ∈ out → ∃ p, scope p ∧ rec = annual_record st year p)
    ∧ NoDup (AnnualParkVisitsOut.park_code <$> out)
    ∧ StronglySorted
        (λ a b, SQL.le_int (annual_total st (AnnualParkVisitsOut.park_code b) year)
                           (annual_total st (AnnualParkVisitsOut.park_code a) year) = true)
        out
    ∧ (0 ≤ limit → Z.of_nat (length out) ≤ limit)
    ∧ (limit < 0 ∨ Z.of_nat (length (parks st)) ≤ limit →
       ∀ p, scope p → annual_record st year p ∈ out).
Proof.
  intros Hpk Hrk scope.
  unfold annual_visits_by_park. run_handler.
  eexists. split; [reflexivity|].
  unfold annual_visits_stmt. cbv zeta.
  set (r := Py.upper <$> region_id) in *. set (c := Py.upper <$> park_code) in *.
  set (T := _ <$> SQL.group_by _ (filter _ (park_visits_region st))).
  pose proof (annual_totals_elem st Hpk Hrk year r c query) as HT.
  pose proof (annual_totals_NoDup st Hpk Hrk year r c query) as HTnd.
  cbv zeta in HT, HTnd. fold T in HT, HTnd.
  set (kept := filter (λ row, when min_total (SQL.ge row.2)) T).
  assert (∀ row, row ∈ kept ↔
            ∃ p, scope p
                 ∧ row = (Park.park_code p, Park.park_name p, Park.state p, Park.latitude p,
                          Park.longitude p, Region.region_id <$> region_of st p,
                          Region.region_name <$> region_of st p, year,
                          annual_total st (Park.park_code p) year)) as Hkept.
  { intros row. unfold kept. rewrite list_elem_of_filter, HT. split.
    - intros (Hmt & p & (Hp & Hne & Hr & Hf & _) & ->). exists p. repeat split; done.
    - intros (p & (Hp & Hne & Hr & Hf & Hmt) & ->). split; [done|].
      exists p. repeat split; done. }
  assert (NoDup ((λ row, row.1.1.1.1.1.1.1.1) <$> kept)) as Hkeptnd.
  { eapply sublist_NoDup; [exact HTnd|]. apply fmap_sublist, sublist_filter. }
  set (F := λ '(park_code, park_name, state, latitude, longitude, reg_id, reg_name, y,
                annual_total),
              AnnualParkVisitsOut.mk park_code park_name reg_id reg_name y
                (Py.or_0 annual_total) (Some state) latitude longitude).
  set (sorted := order_by_desc SQL.le_int snd kept).
  assert (∀ row, row ∈ sorted ↔ row ∈ kept) as Hsorted by (intros row; apply elem_of_sort_by).
  assert (∀ row, row ∈ kept → AnnualParkVisitsOut.park_code (F row) = row.1.1.1.1.1.1.1.1
                              ∧ annual_total st row.1.1.1.1.1.1.1.1 year = row.2) as HF.
  { intros row (p & _ & ->)%Hkept. done. }
  split; [|split; [|split; [|split]]].
  - intros rec (row & -> & Hrow%elem_of_limit%Hsorted%Hkept)%list_elem_of_fmap.
    destruct Hrow as (p & Hscope & ->). exists p. done.
  - rewrite <- list_fmap_compose.
    rewrite (fmap_ext_elem_of _ (λ row, row.1.1.1.1.1.1.1.1)).
    + eapply sublist_NoDup; [|apply fmap_sublist, sublist_limit].
      unfold sorted, order_by_desc. by rewrite sort_by_Permutation.
    + intros row Hrow%elem_of_limit%Hsorted. by apply HF.
  - eapply StronglySorted_fmap_elem_of;
      [|apply StronglySorted_limit, order_by_desc_int_sorted].
    intros a b Ha%elem_of_limit%Hsorted Hb%elem_of_limit%Hsorted Hle.
    destruct (HF a Ha) as (-> & ->), (HF b Hb) as (-> & ->). done.
  - intros Hlim. rewrite length_fmap. by apply length_limit.
  - intros Hlim p Hp. apply list_elem_of_fmap. eexists. split; [|rewrite limit_all].
    + shelve.
    + apply Hsorted, Hkept. exists p. split; [done|reflexivity].
    + destruct Hlim as [Hneg|Hbig]; [by left|right].
      etrans; [|exact Hbig]. apply inj_le.
      unfold sorted, order_by_desc. rewrite length_sort_by.
      apply (NoDup_fmap_length_le (λ row, row.1.1.1.1.1.1.1.1) Park.park_code);
        [done|].
      intros row (p' & (Hp' & _) & ->)%Hkept. exists p'. done.
    Unshelve. reflexivity.
Qed.

Lemma annual_visits_by_park_limit (st : Store) (year : Z)
    (region_id park_code query : option string) (min_total : option Z) (limit : Z) :
  ∃ full,
    response (annual_visits_by_park year region_id park_code query min_total (-1)) st
    = Return full
    ∧ response (annual_visits_by_park year region_id park_code query min_total limit) st
      = Return (if limit <? 0 then full else take (Z.to_nat limit) full).
Proof.
  unfold annual_visits_by_park. run_handler. eexists. split; [reflexivity|].
  unfold annual_visits_stmt, SQL.limit. cbv zeta. f_equal.
  replace (-1 <? 0) with true by done.
  destruct (limit <? 0); [done|]. by rewrite fmap_take.
Qed.

(** X4: Q2 lists, for the year, the stored parks that have a row in the year
    and pass the filters, one record per park, each with the park's columns,
    the columns of its region and the sum of its monthly totals of the year, in
    descending order of that sum, cut to [limit] records: the response is the
    first [limit] records of the response without a limit, which holds every
    such park.  A negative limit, or one that reaches the number of parks, cuts
    nothing. *)
Theorem annual_visits_by_park_lists_the_scope (st : Store) (year : Z)
    (region_id park_code query : option string) (min_total : option Z) (limit : Z) :
  park_pk st → region_pk st →
  let scope :=
    annual_scope st year (Py.upper <$> region_id) (Py.upper <$> park_code) query min_total in
  ∃ out,
    response (annual_visits_by_park year region_id park_code query min_total limit) st
    = Return out
    ∧ (∀ rec, rec ∈ out → ∃ p, scope p ∧ rec = annual_record st year p)
    ∧ NoDup (AnnualParkVisitsOut.park_code <$> out)
    ∧ StronglySorted
        (λ a b, SQL.le_int (annual_total st (AnnualParkVisitsOut.park_code b) year)
                           (annual_total st (AnnualParkVisitsOut.park_code a) year) = true)
        out
    ∧ (0 ≤ limit → Z.of_nat (length out) ≤ limit)
    ∧ (limit < 0 ∨ Z.of_nat (length (parks st)) ≤ limit →
       ∀ p, scope p → annual_record st year p ∈ out)
    ∧ ∃ full,
        response (annual_visits_by_park year region_id park_code query min_total (-1)) st
        = Return full
        ∧ (∀ p, scope p → annual_record st year p ∈ full)
        ∧ out = if limit <? 0 then full else take (Z.to_nat limit) full.
Proof.
  intros Hpk Hrk scope.
  destruct (annual_visits_by_park_response st year region_id park_code query min_total limit
              Hpk Hrk) as (out & Hout & Hin & Hnd & Hsorted & Hlen & Hall).
  destruct (annual_visits_by_park_response st year region_id park_code query min_total (-1)
              Hpk Hrk) as (full & Hfull & _ & _ & _ & _ & Hcomplete).
  destruct (annual_visits_by_park_limit st year region_id park_code query min_total limit)
    as (full' & Hfull' & Hcut).
  exists out. repeat (split; [assumption|]).
  exists full. split; [done|]. split.
  - apply Hcomplete. left. lia.
  - rewrite Hfull in Hfull'. injection Hfull' as <-.
    rewrite Hout in Hcut. by injection Hcut.
Qed.

Lemma annual_visits_by_park_witness :
  park_pk sample_store ∧ region_pk sample_store
  ∧ ∃ out,
      response (annual_visits_by_park 2020 (Some "imr") None None (Some 50) 1) sample_store
      = Return out
      ∧ out = [AnnualParkVisitsOut.mk "GRCA" "Grand Canyon National Park" (Some "IMR")
                 (Some "Intermountain") 2020 600 (Some "AZ") None None]
      ∧ NoDup (AnnualParkVisitsOut.park_code <$> out)
      ∧ ∃ full,
          response (annual_visits_by_park 2020 (Some "imr") None None (Some 50) (-1))
                   sample_store = Return full
          ∧ length full = 2%nat
          ∧ out = take 1 full.
Proof.
  assert (park_pk sample_store) as Hpk.
  { unfold park_pk. apply (bool_decide_unpack _). vm_compute. exact I. }
  assert (region_pk sample_store) as Hrk.
  { unfold region_pk. apply (bool_decide_unpack _). vm_compute. exact I. }
  split; [exact Hpk|]. split; [exact Hrk|].
  destruct (annual_visits_by_park_lists_the_scope sample_store 2020 (Some "imr") None None
              (Some 50) 1 Hpk Hrk) as (out & Hout & _ & Hnd & _ & _ & _ & full & Hfull & _ & Hcut).
  exists out. split; [exact Hout|]. split; [|split; [exact Hnd|]].
  - vm_compute in Hout. by injection Hout as <-.
  - exists full. split; [exact Hfull|]. split; [|exact Hcut].
    vm_compute in Hfull. by injection Hfull as <-.
Defined.

(** ** Q3 and Q4: averages *)

Lemma mapM_Return_fmap {A B C} (f : A → outcome B) (g : B → C) (h : A → C) l k :
  mapM f l = Return k →
  (∀ a b, a ∈ l → f a = Return b → g b = h a) →
  g <$> k = h <$> l.
Proof.
  intros H%mapM_Return Hgh.
  induction H as [|a b l k Hab H IH]; [done|].
  rewrite !fmap_cons. f_equal; [apply Hgh; [left|done]|].
  apply IH. intros a' b' Ha'. apply Hgh. by right.
Qed.

Section average_monthly.
Context (st : Store) (Hpk : park_pk st) (Hrk : region_pk st).
Context (sy ey : Z) (r c q : option string).

Let Sel (x : Park.t * MonthlyVisit.t * option Region.t) : Prop :=
  (sy ≤ MonthlyVisit.year x.1.2 ∧ MonthlyVisit.year x.1.2 ≤ ey)
  ∧ region_is r x.2 ∧ park_filter c q x.1.1.

Let key (x : Park.t * MonthlyVisit.t * option Region.t) :=
  (Park.park_code x.1.1, Park.park_name x.1.1,
   Region.region_id <$> x.2, Region.region_name <$> x.2).

Let averages :=
  (λ g : _ * list (Park.t * MonthlyVisit.t * option Region.t),
     (g.1, SQL.avg (total_visits_of (λ x, x.1.2) g.2)))
    <$> SQL.group_by key (filter Sel (park_visits_region st)).

Lemma average_key_code a b : key a = key b → Park.park_code a.1.1 = Park.park_code b.1.1.
Proof. by intros [= ? _]. Qed.

Lemma average_key_park p r' m m' :
  Sel (p, m, r') → Sel (p, m', r') → key (p, m', r') = key (p, m, r').
Proof. done. Qed.

Lemma average_sel_visit p r' m m' :
  Sel (p, m, r') →
  (Sel (p, m', r') ↔ sy ≤ MonthlyVisit.year m' ∧ MonthlyVisit.year m' ≤ ey).
Proof. intros (Hy & Hr & Hf). unfold Sel. simpl in *. tauto. Qed.

Lemma average_rows_elem row :
  row ∈ averages ↔
  ∃ p, p ∈ parks st
       ∧ visits_between st (Park.park_code p) sy ey ≠ []
       ∧ region_is r (region_of st p) ∧ park_filter c q p
       ∧ row = (Park.park_code p, Park.park_name p,
                Region.region_id <$> region_of st p, Region.region_name <$> region_of st p,
                SQL.avg (MonthlyVisit.total_visits
                           <$> visits_between st (Park.park_code p) sy ey)).
Proof.
  unfold averages. rewrite list_elem_of_fmap. split.
  - intros (g & -> & Hg).
    apply (park_group_sound st Hpk Hrk key Sel
             (λ m, sy ≤ MonthlyVisit.year m ∧ MonthlyVisit.year m ≤ ey)
             average_key_code average_key_park average_sel_visit) in Hg
      as (p & m & Hp & Hm & Hc & (Hy & Hr & Hf) & Hk & Hrows).
    cbn [fst snd] in Hy, Hr, Hf. exists p. repeat split; try done.
    + intros Hnil. assert (m ∈ visits_between st (Park.park_code p) sy ey) as Hin
        by (by apply list_elem_of_filter).
      rewrite Hnil in Hin. by apply not_elem_of_nil in Hin.
    + rewrite Hk, Hrows. unfold key. simpl. f_equal.
      unfold total_visits_of, visits_between. by rewrite <- list_fmap_compose.
  - intros (p & Hp & Hne & Hr & Hf & ->).
    destruct (visits_between st (Park.park_code p) sy ey) as [|m ms] eqn:E; [done|].
    assert (m ∈ visits_between st (Park.park_code p) sy ey)
      as ((Hcm & Hy) & Hm)%list_elem_of_filter by (rewrite E; left).
    rewrite <- E. clear E ms Hne.
    eexists. split;
      [|apply (park_group_complete st Hpk Hrk key Sel
                 (λ m, sy ≤ MonthlyVisit.year m ∧ MonthlyVisit.year m ≤ ey)
                 average_key_code average_key_park average_sel_visit p m Hp Hm Hcm)].
    + unfold key. simpl. f_equal.
      unfold total_visits_of, visits_between. by rewrite <- list_fmap_compose.
    + done.
Qed.

Lemma average_rows_NoDup : NoDup ((λ row, row.1.1.1.1) <$> averages).
Proof.
  unfold averages.
  apply (park_groups_NoDup st Hpk Hrk key Sel
           (λ m, sy ≤ MonthlyVisit.year m ∧ MonthlyVisit.year m ≤ ey)
           average_key_code average_key_park average_sel_visit).
  intros g Hg p m Hk. simpl. by rewrite Hk.
Qed.

End average_monthly.

(** X5: every record of Q3 is a stored park that passes the filters and has a
    row in the range of years, both ends included; its average is the SQL
    average of the park's monthly totals over the range, rounded by [round], 0
    when that average is NULL or zero.  One record per park, at most [limit]
    records; every such park has a record when the limit cuts nothing. *)
Theorem average_monthly_visits_are_range_averages (st : Store) (start_year end_year : Z)
    (region_id park_code query : option string) (limit : Z) out :
  park_pk st → region_pk st →
  response (average_monthly_visits_by_park start_year end_year region_id park_code query
              limit) st = Return out →
  let scope p :=
    p ∈ parks st
    ∧ visits_between st (Park.park_code p) start_year end_year ≠ []
    ∧ region_is (Py.upper <$> region_id) (region_of st p)
    ∧ park_filter (Py.upper <$> park_code) query p in
  let average_of rec p :=
    rec = AvgMonthlyVisitsOut.mk (Park.park_code p) (Park.park_name p)
            (Region.region_id <$> region_of st p) (Region.region_name <$> region_of st p)
            start_year end_year (AvgMonthlyVisitsOut.avg_monthly_visits rec)
    ∧ round_or_0 (SQL.avg (MonthlyVisit.total_visits
                             <$> visits_between st (Park.park_code p) start_year end_year))
      = Return (AvgMonthlyVisitsOut.avg_monthly_visits rec) in
  start_year ≤ end_year
  ∧ (∀ rec, rec ∈ out → ∃ p, scope p ∧ average_of rec p)
  ∧ NoDup (AvgMonthlyVisitsOut.park_code <$> out)
  ∧ (0 ≤ limit → Z.of_nat (length out) ≤ limit)
  ∧ (limit < 0 ∨ Z.of_nat (length (parks st)) ≤ limit →
     ∀ p, scope p → ∃ rec, rec ∈ out ∧ average_of rec p).
Proof.
  intros Hpk Hrk Hout scope average_of. revert Hout.
  unfold average_monthly_visits_by_park.
  destruct (start_year >? end_year) eqn:Ey; run_handler; [discriminate|].
  intros Hout. split; [lia|].
  unfold average_monthly_stmt in Hout. cbv zeta in Hout.
  set (r := Py.upper <$> region_id) in *. set (c := Py.upper <$> park_code) in *.
  set (T := _ <$> SQL.group_by _ (filter _ (park_visits_region st))) in Hout.
  pose proof (average_rows_elem st Hpk Hrk start_year end_year r c query) as HT.
  pose proof (average_rows_NoDup st Hpk Hrk start_year end_year r c query) as HTnd.
  cbv zeta in HT, HTnd. fold T in HT, HTnd.
  set (sorted := order_by_desc SQL.le_real snd T) in Hout.
  assert (∀ row, row ∈ sorted ↔ row ∈ T) as Hsorted by (intros row; apply elem_of_sort_by).
  set (f := λ '(park_code, park_name, reg_id, reg_name, avg_monthly), _) in Hout.
  assert (∀ row rec, row ∈ T → f row = Return rec →
            ∃ p, scope p ∧ average_of rec p
                 ∧ AvgMonthlyVisitsOut.park_code rec = row.1.1.1.1
                 ∧ row.1.1.1.1 = Park.park_code p) as Hf.
  { intros row rec (p & Hp & Hne & Hr & Hfil & ->)%HT Hrec. unfold f in Hrec.
    destruct (round_or_0 _) as [avg|] eqn:Eavg; simpl in Hrec; [|done].
    injection Hrec as <-. exists p. repeat split; done. }
  split; [|split; [|split]].
  - intros rec Hrec.
    destruct (mapM_Return_elem_of _ _ _ _ Hout Hrec) as (row & Hrow%elem_of_limit%Hsorted & Hfr).
    destruct (Hf row rec Hrow Hfr) as (p & ? & ? & _). by exists p.
  - rewrite (mapM_Return_fmap f AvgMonthlyVisitsOut.park_code (λ row, row.1.1.1.1) _ _ Hout).
    + eapply sublist_NoDup; [|apply fmap_sublist, sublist_limit].
      unfold sorted, order_by_desc. by rewrite sort_by_Permutation.
    + intros row rec Hrow%elem_of_limit%Hsorted Hfr.
      by destruct (Hf row rec Hrow Hfr) as (p & _ & _ & ? & _).
  - intros Hlim. rewrite (mapM_Return_length _ _ _ Hout). by apply length_limit.
  - intros Hlim p (Hp & Hne & Hr & Hfil).
    rewrite limit_all in Hout.
    + edestruct (mapM_Return_elem_of_l f sorted out) as (rec & Hrec & Hfr); [done| |].
      * apply Hsorted, HT. exists p. repeat split; done.
      * exists rec. split; [done|].
        unfold f in Hfr.
        destruct (round_or_0 _) as [avg|] eqn:Eavg; simpl in Hfr; [|done].
        injection Hfr as <-. done.
    + destruct Hlim as [Hneg|Hbig]; [by left|right].
      etrans; [|exact Hbig]. apply inj_le.
      unfold sorted, order_by_desc. rewrite length_sort_by.
      apply (NoDup_fmap_length_le (λ row, row.1.1.1.1) Park.park_code); [done|].
      intros row (p' & Hp' & _ & _ & _ & ->)%HT. exists p'. done.
Qed.

Lemma average_monthly_visits_witness :
  park_pk sample_store ∧ region_pk sample_store
  ∧ response (average_monthly_visits_by_park 2020 2022 None (Some "zion") None 100)
      sample_store
    = Return [AvgMonthlyVisitsOut.mk "ZION" "Zion National Park" (Some "IMR")
                (Some "Intermountain") 2020 2022 200]
  ∧ 2020 ≤ 2022.
Proof.
  assert (park_pk sample_store) as Hpk.
  { unfold park_pk. apply (bool_decide_unpack _). vm_compute. exact I. }
  assert (region_pk sample_store) as Hrk.
  { unfold region_pk. apply (bool_decide_unpack _). vm_compute. exact I. }
  split; [exact Hpk|]. split; [exact Hrk|].
  assert (response (average_monthly_visits_by_park 2020 2022 None (Some "zion") None 100)
            sample_store
          = Return [AvgMonthlyVisitsOut.mk "ZION" "Zion National Park" (Some "IMR")
                      (Some "Intermountain") 2020 2022 200]) as Hout
    by (vm_compute; reflexivity).
  split; [exact Hout|].
  exact (proj1 (average_monthly_visits_are_range_averages sample_store 2020 2022 None
                  (Some "zion") None 100 _ Hpk Hrk Hout)).
Defined.

Section peak_season.
Context (st : Store) (Hpk : park_pk st) (Hrk : region_pk st).
Context (year : Z) (r : option string).

Let Sel (x : Park.t * MonthlyVisit.t * option Region.t) : Prop :=
  MonthlyVisit.year x.1.2 = year ∧ MonthlyVisit.month x.1.2 ∈ [6; 7; 8] ∧ region_is r x.2.

Let key (x : Park.t * MonthlyVisit.t * option Region.t) :=
  (Park.park_code x.1.1, Park.park_name x.1.1,
   Region.region_id <$> x.2, Region.region_name <$> x.2).

Let averages :=
  (λ g : _ * list (Park.t * MonthlyVisit.t * option Region.t),
     (g.1, SQL.avg (total_visits_of (λ x, x.1.2) g.2)))
    <$> SQL.group_by key (filter Sel (park_visits_region st)).

Lemma peak_key_code a b : key a = key b → Park.park_code a.1.1 = Park.park_code b.1.1.
Proof. by intros [= ? _]. Qed.

Lemma peak_key_park p r' m m' :
  Sel (p, m, r') → Sel (p, m', r') → key (p, m', r') = key (p, m, r').
Proof. done. Qed.

Lemma peak_sel_visit p r' m m' :
  Sel (p, m, r') →
  (Sel (p, m', r') ↔ MonthlyVisit.year m' = year ∧ MonthlyVisit.month m' ∈ [6; 7; 8]).
Proof. intros (Hy & Hmo & Hr). unfold Sel. simpl in *. tauto. Qed.

Lemma peak_rows_elem row :
  row ∈ averages ↔
  ∃ p, p ∈ parks st
       ∧ summer_visits st (Park.park_code p) year ≠ []
       ∧ region_is r (region_of st p)
       ∧ row = (Park.park_code p, Park.park_name p,
                Region.region_id <$> region_of st p, Region.region_name <$> region_of st p,
                SQL.avg (MonthlyVisit.total_visits
                           <$> summer_visits st (Park.park_code p) year)).
Proof.
  unfold averages. rewrite list_elem_of_fmap. split.
  - intros (g & -> & Hg).
    apply (park_group_sound st Hpk Hrk key Sel
             (λ m, MonthlyVisit.year m = year ∧ MonthlyVisit.month m ∈ [6; 7; 8])
             peak_key_code peak_key_park peak_sel_visit) in Hg
      as (p & m & Hp & Hm & Hc & (Hy & Hmo & Hr) & Hk & Hrows).
    cbn [fst snd] in Hy, Hmo, Hr. exists p. repeat split; try done.
    + intros Hnil. assert (m ∈ summer_visits st (Park.park_code p) year) as Hin
        by (by apply list_elem_of_filter).
      rewrite Hnil in Hin. by apply not_elem_of_nil in Hin.
    + rewrite Hk, Hrows. unfold key. simpl. f_equal.
      unfold total_visits_of, summer_visits. by rewrite <- list_fmap_compose.
  - intros (p & Hp & Hne & Hr & ->).
    destruct (summer_visits st (Park.park_code p) year) as [|m ms] eqn:E; [done|].
    assert (m ∈ summer_visits st (Park.park_code p) year)
      as ((Hcm & Hy) & Hm)%list_elem_of_filter by (rewrite E; left).
    rewrite <- E. clear E ms Hne.
    eexists. split;
      [|apply (park_group_complete st Hpk Hrk key Sel
                 (λ m, MonthlyVisit.year m = year ∧ MonthlyVisit.month m ∈ [6; 7; 8])
                 peak_key_code peak_key_park peak_sel_visit p m Hp Hm Hcm)].
    + unfold key. simpl. f_equal.
      unfold total_visits_of, summer_visits. by rewrite <- list_fmap_compose.
    + unfold Sel. simpl. tauto.
Qed.

Lemma peak_rows_NoDup : NoDup ((λ row, row.1.1.1.1) <$> averages).
Proof.
  unfold averages.
  apply (park_groups_NoDup st Hpk Hrk key Sel
           (λ m, MonthlyVisit.year m = year ∧ MonthlyVisit.month m ∈ [6; 7; 8])
           peak_key_code peak_key_park peak_sel_visit).
  intros g Hg p m Hk. simpl. by rewrite Hk.
Qed.

End peak_season.

(** An average that reaches an integer threshold still reaches it after
    rounding. *)
Lemma round_or_0_ge (avg : option float) (threshold z : Z) :
  SQL.real_ge avg threshold = true → round_or_0 avg = Return z → threshold ≤ z.
Proof.
  destruct avg as [f|]; [|done]. unfold SQL.real_ge, round_or_0, Py.round, is_zero.
  rewrite FloatAxioms.eqb_spec.
  replace (Prim2SF PrimFloat.zero) with (S754_zero false) by (vm_compute; reflexivity).
  destruct (Prim2SF f) as [s|s| |s m e] eqn:E; simpl.
  - intros Ht [= <-]. lia.
  - by destruct s.
  - done.
  - assert (SFeqb (S754_finite s m e) (S754_zero false) = false) as -> by (by destruct s).
    destruct (0 <=? e) eqn:Ee; intros Ht [= <-].
    + destruct s; [change (Z.neg m) with (- Z.pos m) in Ht|]; lia.
    + assert (0 < 2 ^ (- e)) as Hd by (apply Z.pow_pos_nonneg; lia).
      pose proof (round_half_even_nearest (Z.pos m) (2 ^ (- e)) Hd) as Hn.
      destruct s; [change (Z.neg m) with (- Z.pos m) in Ht|]; nia.
Qed.

(** X6: every record of Q4 is a stored park of the region filter with a row
    in June, July or August of the year; the average is taken over those
    summer rows only; the park is kept when the SQL average, before rounding,
    reaches the threshold, so the rounded average of a record reaches it too.
    One record per park; every such park has a record. *)
Theorem peak_season_is_the_summer_average (st : Store) (year threshold : Z)
    (region_id : option string) out :
  park_pk st → region_pk st →
  response (peak_season_above_threshold year threshold region_id) st = Return out →
  let summer_avg p :=
    SQL.avg (MonthlyVisit.total_visits <$> summer_visits st (Park.park_code p) year) in
  let scope p :=
    p ∈ parks st
    ∧ summer_visits st (Park.park_code p) year ≠ []
    ∧ region_is (Py.upper <$> region_id) (region_of st p)
    ∧ SQL.real_ge (summer_avg p) threshold = true in
  let average_of rec p :=
    rec = AvgMonthlyVisitsOut.mk (Park.park_code p) (Park.park_name p)
            (Region.region_id <$> region_of st p) (Region.region_name <$> region_of st p)
            year year (AvgMonthlyVisitsOut.avg_monthly_visits rec)
    ∧ round_or_0 (summer_avg p) = Return (AvgMonthlyVisitsOut.avg_monthly_visits rec) in
  (∀ rec, rec ∈ out →
     threshold ≤ AvgMonthlyVisitsOut.avg_monthly_visits rec
     ∧ ∃ p, scope p ∧ average_of rec p)
  ∧ NoDup (AvgMonthlyVisitsOut.park_code <$> out)
  ∧ (∀ p, scope p → ∃ rec, rec ∈ out ∧ average_of rec p).
Proof.
  intros Hpk Hrk Hout summer_avg scope average_of. revert Hout.
  unfold peak_season_above_threshold. run_handler. intros Hout.
  unfold peak_season_stmt in Hout. cbv zeta in Hout.
  set (r := Py.upper <$> region_id) in *.
  set (T := _ <$> SQL.group_by _ (filter _ (park_visits_region st))) in Hout.
  pose proof (peak_rows_elem st Hpk Hrk year r) as HT.
  pose proof (peak_rows_NoDup st Hpk Hrk year r) as HTnd.
  cbv zeta in HT, HTnd. fold T in HT, HTnd.
  set (kept := filter (λ row, SQL.real_ge row.2 threshold) T) in Hout.
  set (sorted := order_by_desc SQL.le_real snd kept) in Hout.
  assert (∀ row, row ∈ sorted ↔ SQL.real_ge row.2 threshold = true ∧ row ∈ T) as Hsorted.
  { intros row. unfold sorted, order_by_desc. rewrite elem_of_sort_by.
    unfold kept. rewrite list_elem_of_filter. by rewrite Is_true_true. }
  set (f := λ '(park_code, park_name, reg_id, reg_name, avg_monthly), _) in Hout.
  assert (∀ row rec, row ∈ sorted → f row = Return rec →
            threshold ≤ AvgMonthlyVisitsOut.avg_monthly_visits rec
            ∧ AvgMonthlyVisitsOut.park_code rec = row.1.1.1.1
            ∧ ∃ p, scope p ∧ average_of rec p) as Hf.
  { intros row rec (Hge & (p & Hp & Hne & Hr & ->)%HT)%Hsorted Hrec. unfold f in Hrec.
    destruct (round_or_0 _) as [avg|] eqn:Eavg; simpl in Hrec; [|done].
    injection Hrec as <-. simpl. split; [by eapply round_or_0_ge|]. split; [done|].
    exists p. repeat split; done. }
  split; [|split].
  - intros rec Hrec.
    destruct (mapM_Return_elem_of _ _ _ _ Hout Hrec) as (row & Hrow & Hfr).
    destruct (Hf row rec Hrow Hfr) as (? & _ & ?). done.
  - rewrite (mapM_Return_fmap f AvgMonthlyVisitsOut.park_code (λ row, row.1.1.1.1) _ _ Hout).
    + unfold sorted, order_by_desc. rewrite sort_by_Permutation.
      eapply sublist_NoDup; [exact HTnd|]. apply fmap_sublist, sublist_filter.
    + intros row rec Hrow Hfr. by destruct (Hf row rec Hrow Hfr) as (_ & ? & _).
  - intros p (Hp & Hne & Hr & Hge).
    set (row := (Park.park_code p, Park.park_name p, Region.region_id <$> region_of st p,
                 Region.region_name <$> region_of st p, summer_avg p)).
    assert (row ∈ sorted) as Hrow.
    { apply Hsorted. split; [exact Hge|]. apply HT. exists p. repeat split; done. }
    destruct (mapM_Return_elem_of_l f sorted out row Hout Hrow) as (rec & Hrec & Hfr).
    exists rec. split; [done|].
    unfold f, row in Hfr.
    destruct (round_or_0 _) as [avg|] eqn:Eavg; simpl in Hfr; [|done].
    injection Hfr as <-. done.
Qed.

Lemma peak_season_witness :
  park_pk sample_store ∧ region_pk sample_store
  ∧ response (peak_season_above_threshold 2020 75 None) sample_store
    = Return [AvgMonthlyVisitsOut.mk "ZION" "Zion National Park" (Some "IMR")
                (Some "Intermountain") 2020 2020 100]
  ∧ NoDup ["ZION"].
Proof.
  assert (park_pk sample_store) as Hpk.
  { unfold park_pk. apply (bool_decide_unpack _). vm_compute. exact I. }
  assert (region_pk sample_store) as Hrk.
  { unfold region_pk. apply (bool_decide_unpack _). vm_compute. exact I. }
  split; [exact Hpk|]. split; [exact Hrk|].
  assert (response (peak_season_above_threshold 2020 75 None) sample_store
          = Return [AvgMonthlyVisitsOut.mk "ZION" "Zion National Park" (Some "IMR")
                      (Some "Intermountain") 2020 2020 100]) as Hout
    by (vm_compute; reflexivity).
  split; [exact Hout|].
  exact (proj1 (proj2 (peak_season_is_the_summer_average sample_store 2020 75 None _
                         Hpk Hrk Hout))).
Defined.

(** ** Q11: the sum of a chosen column *)

Section metric.
Context (st : Store) (Hpk : park_pk st) (Hrk : region_pk st).
Context (metric_col : MonthlyVisit.t → option Z) (year : Z) (r : option string).

Let Sel (x : Park.t * MonthlyVisit.t * option Region.t) : Prop :=
  MonthlyVisit.year x.1.2 = year ∧ region_is r x.2.

Let key (x : Park.t * MonthlyVisit.t * option Region.t) :=
  (Park.park_code x.1.1, Park.park_name x.1.1,
   Region.region_id <$> x.2, Region.region_name <$> x.2, MonthlyVisit.year x.1.2).

Let totals :=
  (λ g : _ * list (Park.t * MonthlyVisit.t * option Region.t),
     (g.1, SQL.sum ((λ x, metric_col x.1.2) <$> g.2)))
    <$> SQL.group_by key (filter Sel (park_visits_region st)).

Lemma metric_key_code a b : key a = key b → Park.park_code a.1.1 = Park.park_code b.1.1.
Proof. by intros [= ? _]. Qed.

Lemma metric_key_park p r' m m' :
  Sel (p, m, r') → Sel (p, m', r') → key (p, m', r') = key (p, m, r').
Proof. intros (Hy & _) (Hy' & _). unfold key. simpl in *. congruence. Qed.

Lemma metric_sel_visit p r' m m' :
  Sel (p, m, r') → (Sel (p, m', r') ↔ MonthlyVisit.year m' = year).
Proof. intros (Hy & Hr). unfold Sel. simpl in *. tauto. Qed.

Lemma metric_rows_elem row :
  row ∈ totals ↔
  ∃ p, p ∈ parks st
       ∧ visits_in st (Park.park_code p) year ≠ []
       ∧ region_is r (region_of st p)
       ∧ row = (Park.park_code p, Park.park_name p,
                Region.region_id <$> region_of st p, Region.region_name <$> region_of st p,
                year, metric_total st metric_col (Park.park_code p) year).
Proof.
  unfold totals. rewrite list_elem_of_fmap. split.
  - intros (g & -> & Hg).
    apply (park_group_sound st Hpk Hrk key Sel (λ m, MonthlyVisit.year m = year)
             metric_key_code metric_key_park metric_sel_visit) in Hg
      as (p & m & Hp & Hm & Hc & (Hy & Hr) & Hk & Hrows).
    cbn [fst snd] in Hy, Hr. exists p. repeat split; try done.
    + intros Hnil. assert (m ∈ visits_in st (Park.park_code p) year) as Hin
        by (by apply list_elem_of_filter).
      rewrite Hnil in Hin. by apply not_elem_of_nil in Hin.
    + rewrite Hk, Hrows. unfold key. simpl. rewrite Hy. f_equal.
      unfold metric_total, visits_in. by rewrite <- list_fmap_compose.
  - intros (p & Hp & Hne & Hr & ->).
    destruct (visits_in st (Park.park_code p) year) as [|m ms] eqn:E; [done|].
    assert (m ∈ visits_in st (Park.park_code p) year)
      as ((Hcm & Hy) & Hm)%list_elem_of_filter by (rewrite E; left).
    clear E ms Hne.
    eexists. split;
      [|apply (park_group_complete st Hpk Hrk key Sel (λ m, MonthlyVisit.year m = year)
                 metric_key_code metric_key_park metric_sel_visit p m Hp Hm Hcm)].
    + unfold key. simpl. rewrite Hy. f_equal.
      unfold metric_total, visits_in. by rewrite <- list_fmap_compose.
    + done.
Qed.

Lemma metric_rows_NoDup : NoDup ((λ row, row.1.1.1.1.1) <$> totals).
Proof.
  unfold totals.
  apply (park_groups_NoDup st Hpk Hrk key Sel (λ m, MonthlyVisit.year m = year)
           metric_key_code metric_key_park metric_sel_visit).
  intros g Hg p m Hk. simpl. by rewrite Hk.
Qed.

End metric.

(** The seven columns a client may ask for. *)
Lemma allowed_metrics (metric : string) :
  is_Some (allowed !! metric) ↔
  metric ∈ ["concessioner_lodging"; "concessioner_camping"; "tent_campers"; "rv_campers";
            "backcountry"; "nonrecreation_overnight_stays";
            "miscellaneous_overnight_stays"].
Proof.
  unfold allowed. split.
  - intros (col & Hcol). apply elem_of_list_to_map_2 in Hcol.
    apply list_elem_of_In in Hcol. simpl in Hcol.
    repeat (destruct Hcol as [[= <- _]|Hcol];
            [apply list_elem_of_In; simpl; tauto|]).
    destruct Hcol.
  - intros Hm. apply list_elem_of_In in Hm. simpl in Hm.
    repeat (destruct Hm as [<-|Hm]; [by eexists|]). destruct Hm.
Qed.

(** The response of Q11, read on the tables. *)
Lemma parks_by_metric_response (st : Store) (year : Z) (metric : string)
    (region_id : option string) (limit : Z) :
  park_pk st → region_pk st →
  (metric ∉ ["concessioner_lodging"; "concessioner_camping"; "tent_campers"; "rv_campers";
             "backcountry"; "nonrecreation_overnight_stays";
             "miscellaneous_overnight_stays"] →
   response (parks_by_metric year metric region_id limit) st
   = Raise (HTTPException 400 ("Unsupported metric: " +:+ metric))
   ∧ statements_executed (parks_by_metric year metric region_id limit) st = 0%nat)
  ∧ (∀ metric_col, allowed !! metric = Some metric_col →
     let scope p :=
       p ∈ parks st ∧ visits_in st (Park.park_code p) year ≠ []
       ∧ region_is (Py.upper <$> region_id) (region_of st p) in
     let record p :=
       MetricParkOut.mk (Park.park_code p) (Park.park_name p)
         (Region.region_id <$> region_of st p) (Region.region_name <$> region_of st p)
         year (Py.or_0 (metric_total st metric_col (Park.park_code p) year)) in
     ∃ out,
       response (parks_by_metric year metric region_id limit) st = Return out
       ∧ (∀ rec, rec ∈ out → ∃ p, scope p ∧ rec = record p)
       ∧ NoDup (MetricParkOut.park_code <$> out)
       ∧ StronglySorted
           (λ a b, SQL.le_int (metric_total st metric_col (MetricParkOut.park_code b) year)
                              (metric_total st metric_col (MetricParkOut.park_code a) year)
                   = true) out
       ∧ (0 ≤ limit → Z.of_nat (length out) ≤ limit)
       ∧ (limit < 0 ∨ Z.of_nat (length (parks st)) ≤ limit →
          ∀ p, scope p → record p ∈ out)).
Proof.
  intros Hpk Hrk. split.
  - intros Hnot. unfold parks_by_metric.
    destruct (allowed !! metric) as [col|] eqn:E.
    + exfalso. apply Hnot, allowed_metrics. by eexists.
    + done.
  - intros col Hcol scope record. revert scope record.
    unfold parks_by_metric. rewrite Hcol. run_handler.
    eexists. split; [reflexivity|].
    unfold metric_stmt. cbv zeta.
    set (r := Py.upper <$> region_id) in *.
    set (T := _ <$> SQL.group_by _ (filter _ (park_visits_region st))).
    pose proof (metric_rows_elem st Hpk Hrk col year r) as HT.
    pose proof (metric_rows_NoDup st Hpk Hrk col year r) as HTnd.
    cbv zeta in HT, HTnd. fold T in HT, HTnd.
    set (F := λ '(park_code, park_name, reg_id, reg_name, y, metric_total), _).
    set (sorted := order_by_desc SQL.le_int snd T).
    assert (∀ row, row ∈ sorted ↔ row ∈ T) as Hsorted by (intros row; apply elem_of_sort_by).
    assert (∀ row, row ∈ T → MetricParkOut.park_code (F row) = row.1.1.1.1.1
                               ∧ metric_total st col row.1.1.1.1.1 year = row.2) as HF.
    { intros row (p & _ & _ & _ & ->)%HT. done. }
    split; [|split; [|split; [|split]]].
    + intros rec (row & -> & Hrow%elem_of_limit%Hsorted%HT)%list_elem_of_fmap.
      destruct Hrow as (p & Hp & Hne & Hr & ->). exists p. done.
    + rewrite <- list_fmap_compose.
      rewrite (fmap_ext_elem_of _ (λ row, row.1.1.1.1.1)).
      * eapply sublist_NoDup; [|apply fmap_sublist, sublist_limit].
        unfold sorted, order_by_desc. by rewrite sort_by_Permutation.
      * intros row Hrow%elem_of_limit%Hsorted. by apply HF.
    + eapply StronglySorted_fmap_elem_of;
        [|apply StronglySorted_limit, order_by_desc_int_sorted].
      intros a b Ha%elem_of_limit%Hsorted Hb%elem_of_limit%Hsorted Hle.
      destruct (HF a Ha) as (-> & ->), (HF b Hb) as (-> & ->). done.
    + intros Hlim. rewrite length_fmap. by apply length_limit.
    + intros Hlim p (Hp & Hne & Hr). apply list_elem_of_fmap.
      exists (Park.park_code p, Park.park_name p, Region.region_id <$> region_of st p,
              Region.region_name <$> region_of st p, year,
              metric_total st col (Park.park_code p) year).
      split; [done|]. rewrite limit_all.
      * apply Hsorted, HT. exists p. done.
      * destruct Hlim as [Hneg|Hbig]; [by left|right].
        etrans; [|exact Hbig]. apply inj_le.
        unfold sorted, order_by_desc. rewrite length_sort_by.
        apply (NoDup_fmap_length_le (λ row, row.1.1.1.1.1) Park.park_code); [done|].
        intros row (p' & Hp' & _ & _ & ->)%HT. exists p'. done.
Qed.


Lemma parks_by_metric_limit (st : Store) (year : Z) (metric : string)
    (region_id : option string) (limit : Z) metric_col :
  allowed !! metric = Some metric_col →
  ∃ full,
    response (parks_by_metric year metric region_id (-1)) st = Return full
    ∧ response (parks_by_metric year metric region_id limit) st
      = Return (if limit <? 0 then full else take (Z.to_nat limit) full).
Proof.
  intros Hcol. unfold parks_by_metric. rewrite Hcol. run_handler.
  eexists. split; [reflexivity|].
  unfold metric_stmt, SQL.limit. cbv zeta. f_equal.
  replace (-1 <? 0) with true by done.
  destruct (limit <? 0); [done|]. by rewrite fmap_take.
Qed.

(** X7: Q11 answers for the seven overnight-stay columns only: any other
    metric name, [total_visits] included, is a 400 that names the metric and
    runs no statement.  For a supported metric a record is a stored park of the
    region filter with a row in the year, with the sum of the column over the
    park's rows of the year (0 when the column is NULL throughout); one record
    per park, in descending order of the sum, cut to [limit] records: the
    response is the first [limit] records of the response without a limit,
    which holds every such park.  A negative limit, or one that reaches the
    number of parks, cuts nothing. *)
Theorem parks_by_metric_sums_the_column (st : Store) (year : Z) (metric : string)
    (region_id : option string) (limit : Z) :
  park_pk st → region_pk st →
  (metric ∉ ["concessioner_lodging"; "concessioner_camping"; "tent_campers"; "rv_campers";
             "backcountry"; "nonrecreation_overnight_stays";
             "miscellaneous_overnight_stays"] →
   response (parks_by_metric year metric region_id limit) st
   = Raise (HTTPException 400 ("Unsupported metric: " +:+ metric))
   ∧ statements_executed (parks_by_metric year metric region_id limit) st = 0%nat)
  ∧ (∀ metric_col, allowed !! metric = Some metric_col →
     let scope p :=
       p ∈ parks st ∧ visits_in st (Park.park_code p) year ≠ []
       ∧ region_is (Py.upper <$> region_id) (region_of st p) in
     let record p :=
       MetricParkOut.mk (Park.park_code p) (Park.park_name p)
         (Region.region_id <$> region_of st p) (Region.region_name <$> region_of st p)
         year (Py.or_0 (metric_total st metric_col (Park.park_code p) year)) in
     ∃ out,
       response (parks_by_metric year metric region_id limit) st = Return out
       ∧ (∀ rec, rec ∈ out → ∃ p, scope p ∧ rec = record p)
       ∧ NoDup (MetricParkOut.park_code <$> out)
       ∧ StronglySorted
           (λ a b, SQL.le_int (metric_total st metric_col (MetricParkOut.park_code b) year)
                              (metric_total st metric_col (MetricParkOut.park_code a) year)
                   = true) out
       ∧ (0 ≤ limit → Z.of_nat (length out) ≤ limit)
       ∧ (limit < 0 ∨ Z.of_nat (length (parks st)) ≤ limit →
          ∀ p, scope p → record p ∈ out)
       ∧ ∃ full,
           response (parks_by_metric year metric region_id (-1)) st = Return full
           ∧ (∀ p, scope p → record p ∈ full)
           ∧ out = if limit <? 0 then full else take (Z.to_nat limit) full).
Proof.
  intros Hpk Hrk.
  destruct (parks_by_metric_response st year metric region_id limit Hpk Hrk)
    as (Hbad & Hgood).
  destruct (parks_by_metric_response st year metric region_id (-1) Hpk Hrk)
    as (_ & Hgood').
  split; [exact Hbad|].
  intros col Hcol scope record.
  destruct (Hgood col Hcol) as (out & Hout & Hin & Hnd & Hsorted & Hlen & Hall).
  destruct (Hgood' col Hcol) as (full & Hfull & _ & _ & _ & _ & Hcomplete).
  destruct (parks_by_metric_limit st year metric region_id limit col Hcol)
    as (full' & Hfull' & Hcut).
  exists out. repeat (split; [assumption|]).
  exists full. split; [done|]. split.
  - apply Hcomplete. left. lia.
  - rewrite Hfull in Hfull'. injection Hfull' as <-.
    rewrite Hout in Hcut. by injection Hcut.
Qed.

Lemma parks_by_metric_witness :
  park_pk campers_store ∧ region_pk campers_store
  ∧ response (parks_by_metric 2020 "total_visits" None 50) campers_store
    = Raise (HTTPException 400 "Unsupported metric: total_visits")
  ∧ statements_executed (parks_by_metric 2020 "total_visits" None 50) campers_store = 0%nat
  ∧ ∃ out full,
      response (parks_by_metric 2020 "tent_campers" None 2) campers_store = Return out
      ∧ out = [MetricParkOut.mk "BRCA" "Bryce Canyon National Park" (Some "IMR")
                 (Some "Intermountain") 2020 50;
               MetricParkOut.mk "ARCH" "Arches National Park" (Some "IMR")
                 (Some "Intermountain") 2020 30]
      ∧ response (parks_by_metric 2020 "tent_campers" None (-1)) campers_store = Return full
      ∧ length full = 3%nat
      ∧ out = take 2 full.
Proof.
  assert (park_pk campers_store) as Hpk.
  { unfold park_pk. apply (bool_decide_unpack _). vm_compute. exact I. }
  assert (region_pk campers_store) as Hrk.
  { unfold region_pk. apply (bool_decide_unpack _). vm_compute. exact I. }
  split; [exact Hpk|]. split; [exact Hrk|].
  destruct (parks_by_metric_sums_the_column campers_store 2020 "total_visits" None 50
              Hpk Hrk) as (Hbad & _).
  destruct (parks_by_metric_sums_the_column campers_store 2020 "tent_campers" None 2
              Hpk Hrk) as (_ & Hgood).
  destruct (Hgood MonthlyVisit.tent_campers eq_refl)
    as (out & Hout & _ & _ & _ & _ & _ & full & Hfull & _ & Hcut).
  destruct Hbad as (H400 & H0).
  { intros Hin. apply list_elem_of_In in Hin. simpl in Hin.
    repeat (destruct Hin as [Hin|Hin]; [discriminate|]). destruct Hin. }
  split; [exact H400|]. split; [exact H0|].
  exists out, full. split; [exact Hout|]. split; [|split; [exact Hfull|split; [|exact Hcut]]].
  - vm_compute in Hout. by injection Hout as <-.
  - vm_compute in Hfull. by injection Hfull as <-.
Defined.

(** ** Q7: totals by region *)

Lemma join_bind {A B} (on : A * B → Prop) `{∀ x, Decision (on x)} (l : list A) (r : list B) :
  SQL.join on l r = l ≫= (λ a, (λ b, (a, b)) <$> filter (λ b, on (a, b)) r).
Proof.
  induction l as [|a l IH]; [done|]. by rewrite join_cons, bind_cons, IH.
Qed.

Lemma bind_bind {A B C} (f : A → list B) (g : B → list C) (l : list A) :
  (l ≫= f) ≫= g = l ≫= (λ a, f a ≫= g).
Proof.
  induction l as [|a l IH]; [done|]. by rewrite !bind_cons, bind_app, IH.
Qed.

Lemma bind_ext_elem_of {A B} (f g : A → list B) (l : list A) :
  (∀ a, a ∈ l → f a = g a) → l ≫= f = l ≫= g.
Proof.
  intros Hfg. induction l as [|a l IH]; [done|].
  rewrite !bind_cons, Hfg by left. f_equal. apply IH. intros b Hb. apply Hfg. by right.
Qed.

Lemma fmap_bind_pair {A B C} (c : A → C) (f : A → list B) (l : list A) :
  snd <$> (l ≫= (λ a, (λ b, (c a, b)) <$> f a)) = l ≫= f.
Proof.
  induction l as [|a l IH]; [done|].
  rewrite !bind_cons, fmap_app, IH. f_equal.
  rewrite <- list_fmap_compose. apply list_fmap_id.
Qed.


Section region_totals.
Context (st : Store) (Hrk : region_pk st) (year : Z) (r : option string).

Let joined :=
  SQL.join (λ x : Region.t * Park.t * MonthlyVisit.t,
              MonthlyVisit.park_code x.2 = Park.park_code x.1.2)
    (SQL.join (λ x : Region.t * Park.t, Park.region_id x.2 = Some (Region.region_id x.1))
              (regions st) (parks st))
    (monthly_visits st).

Let Sel (x : Region.t * Park.t * MonthlyVisit.t) : Prop :=
  MonthlyVisit.year x.2 = year ∧ when r (λ rid, Region.region_id x.1.1 = rid).

Let key (x : Region.t * Park.t * MonthlyVisit.t) :=
  (Region.region_id x.1.1, Region.region_name x.1.1, MonthlyVisit.year x.2).

(** The rows grouped under one region. *)
Lemma region_group (rg : Region.t) :
  rg ∈ regions st → when r (λ rid, Region.region_id rg = rid) →
  snd <$> filter (λ a, key a = (Region.region_id rg, Region.region_name rg, year))
            (filter Sel joined)
  = region_visits st (Region.region_id rg) year.
Proof.
  intros Hrg Hr. rewrite list_filter_filter. unfold joined.
  rewrite filter_join, join_bind, bind_bind.
  rewrite (bind_unique_key Region.region_id _ (regions st) rg Hrk Hrg).
  - rewrite list_fmap_bind. unfold region_visits, region_parks.
    rewrite <- (fmap_bind_pair (λ p, (rg, p)) (λ p, visits_in st (Park.park_code p) year)).
    f_equal. apply bind_ext_elem_of. intros p _. simpl. f_equal.
    unfold visits_in. apply list_filter_iff. intros m. unfold key, Sel. simpl. split.
    + intros (([= ?] & ? & _) & ?). done.
    + intros (? & ->). done.
  - intros rg' Hrg' Hne. rewrite list_fmap_bind.
    induction (filter _ (parks st)) as [|p ps IH]; [done|].
    rewrite bind_cons, IH, app_nil_r. simpl.
    rewrite filter_nil_iff; [done|]. intros m _ (([= ? _] & _) & _). done.
Qed.

Lemma region_rows_elem row :
  row ∈ region_totals_stmt year r st ↔
  ∃ rg, rg ∈ regions st
        ∧ when r (λ rid, Region.region_id rg = rid)
        ∧ region_visits st (Region.region_id rg) year ≠ []
        ∧ row = (Region.region_id rg, Region.region_name rg, year,
                 region_total st (Region.region_id rg) year).
Proof.
  unfold region_totals_stmt. cbv zeta. fold joined.
  rewrite elem_of_order_by_desc_iff, list_elem_of_fmap. split.
  - intros (g & -> & ((x & (Hsel & Hx)%list_elem_of_filter & Hk) & Hg)%elem_of_group_by).
    destruct Hsel as (Hy & Hr).
    pose proof Hx as (Hrp & Hm & Hon2)%elem_of_join.
    pose proof Hrp as (Hrg & Hp & Hon1)%elem_of_join.
    destruct x as [[rg p] m]. simpl in *.
    pose proof (region_group rg Hrg Hr) as Hgroup.
    exists rg. split; [done|]. split; [done|]. split.
    + intros Hnil.
      assert (m ∈ region_visits st (Region.region_id rg) year) as Hin.
      { unfold region_visits, region_parks. apply list_elem_of_bind. exists p. split.
        - by apply list_elem_of_filter.
        - by apply list_elem_of_filter. }
      rewrite Hnil in Hin. by apply not_elem_of_nil in Hin.
    + rewrite <- Hk, Hy. f_equal. unfold region_total. rewrite <- Hgroup.
      unfold total_visits_of. rewrite Hg, <- Hk, Hy, <- list_fmap_compose. done.
  - intros (rg & Hrg & Hr & Hne & ->).
    destruct (region_visits st (Region.region_id rg) year) as [|m ms] eqn:E; [done|].
    assert (m ∈ region_visits st (Region.region_id rg) year) as Hin by (rewrite E; left).
    clear E ms Hne. unfold region_visits, region_parks in Hin.
    apply list_elem_of_bind in Hin as (p & Hm & Hp).
    apply list_elem_of_filter in Hm as ((Hc & Hy) & Hm).
    apply list_elem_of_filter in Hp as (Hreg & Hp).
    exists ((Region.region_id rg, Region.region_name rg, year),
            filter (λ a, key a = (Region.region_id rg, Region.region_name rg, year))
              (filter Sel joined)).
    split.
    + simpl. f_equal. unfold region_total. rewrite <- (region_group rg Hrg Hr).
      unfold total_visits_of. by rewrite <- list_fmap_compose.
    + apply elem_of_group_by. simpl. split; [|done].
      exists (rg, p, m). split; [|unfold key; simpl; by rewrite Hy].
      apply list_elem_of_filter. split; [done|].
      apply elem_of_join. simpl. split; [|done].
      apply elem_of_join. done.
Qed.

Lemma region_rows_NoDup : NoDup ((λ row, row.1.1.1) <$> region_totals_stmt year r st).
Proof.
  apply NoDup_fmap_2_strong.
  - intros row row' (rg & Hrg & _ & _ & ->)%region_rows_elem
      (rg' & Hrg' & _ & _ & ->)%region_rows_elem Hid. simpl in Hid.
    assert (rg = rg') as <- by (eapply NoDup_fmap_elem_inj; eauto). done.
  - unfold region_totals_stmt. cbv zeta. unfold order_by_desc.
    rewrite sort_by_Permutation.
    apply NoDup_fmap_2_strong.
    + intros g g' Hg Hg' E. injection E as E _.
      apply elem_of_group_by in Hg as (_ & Hg), Hg' as (_ & Hg').
      destruct g, g'. simpl in *. by subst.
    + eapply NoDup_fmap_1. apply group_by_keys_NoDup.
Qed.

End region_totals.

Lemma or_0_sum (l : list (option Z)) : Py.or_0 (SQL.sum l) = foldr Z.add 0 (omap id l).
Proof. unfold SQL.sum. by destruct (omap id l). Qed.

Lemma foldr_add_app (l k : list Z) :
  foldr Z.add 0 (l ++ k) = foldr Z.add 0 l + foldr Z.add 0 k.
Proof. induction l as [|a l IH]; simpl; [done|]. rewrite IH. lia. Qed.

(** A region's total is the sum of the annual totals of its parks. *)
Lemma region_total_parks (st : Store) (region_id : string) (year : Z) :
  Py.or_0 (region_total st region_id year)
  = foldr Z.add 0 ((λ p, Py.or_0 (annual_total st (Park.park_code p) year))
                     <$> region_parks st region_id).
Proof.
  unfold region_total, region_visits. rewrite or_0_sum.
  induction (region_parks st region_id) as [|p ps IH]; [done|].
  rewrite bind_cons, fmap_app, omap_app, foldr_add_app, IH, fmap_cons. simpl.
  f_equal. unfold annual_total. by rewrite or_0_sum.
Qed.

Lemma fmap_imap_const {A B C} (f : nat → A → B) (g : B → C) (h : A → C) (l : list A) :
  (∀ i x, g (f i x) = h x) → g <$> imap f l = h <$> l.
Proof.
  revert f. induction l as [|x l IH]; intros f Hgh; [done|].
  rewrite imap_cons, !fmap_cons, Hgh. f_equal. apply IH. intros i y. apply Hgh.
Qed.

Lemma StronglySorted_fmap_inv {A B} (g : A → B) (R : relation B) (l : list A) :
  StronglySorted R (g <$> l) → StronglySorted (λ a b, R (g a) (g b)) l.
Proof.
  induction l as [|a l IH]; [constructor|].
  rewrite fmap_cons. intros (Ha & Hs)%StronglySorted_cons.
  constructor; [by apply IH|].
  apply Forall_forall. intros b Hb.
  eapply Forall_forall in Ha; [exact Ha|]. by apply list_elem_of_fmap_2.
Qed.

(** X8: Q7 lists the regions (the one asked for, or all) that have a park
    with a row in the year, one record per region, ranked 1, 2, ... in the
    order of the response, which is the descending order of the region's sum.
    The sum is taken over the monthly totals of all parks of the region, and
    is the sum of the annual totals of those parks; a park without a region
    counts nowhere. *)
Theorem annual_visits_by_region_sums_its_parks (st : Store) (year : Z)
    (region_id : option string) :
  region_pk st →
  let asked rg := when (Py.upper <$> region_id) (λ rid, Region.region_id rg = rid) in
  ∃ out,
    response (annual_visits_by_region year region_id) st = Return out
    ∧ (∀ i rec, out !! i = Some rec →
         ∃ rg, rg ∈ regions st ∧ asked rg
               ∧ region_visits st (Region.region_id rg) year ≠ []
               ∧ rec = RegionAnnualVisitsOut.mk (Region.region_id rg) (Region.region_name rg)
                         year
                         (foldr Z.add 0
                            ((λ p, Py.or_0 (annual_total st (Park.park_code p) year))
                               <$> region_parks st (Region.region_id rg)))
                         (Z.of_nat i + 1))
    ∧ NoDup (RegionAnnualVisitsOut.region_id <$> out)
    ∧ StronglySorted
        (λ a b, SQL.le_int (region_total st (RegionAnnualVisitsOut.region_id b) year)
                           (region_total st (RegionAnnualVisitsOut.region_id a) year) = true)
        out
    ∧ (∀ rg, rg ∈ regions st → asked rg →
         region_visits st (Region.region_id rg) year ≠ [] →
         ∃ rec, rec ∈ out ∧ RegionAnnualVisitsOut.region_id rec = Region.region_id rg).
Proof.
  intros Hrk asked. unfold annual_visits_by_region. run_handler.
  eexists. split; [reflexivity|].
  set (r := Py.upper <$> region_id) in *.
  pose proof (region_rows_elem st Hrk year r) as HT.
  pose proof (region_rows_NoDup st Hrk year r) as HTnd.
  set (rows := region_totals_stmt year r st) in *.
  set (f := λ (i : nat) '(reg_id, reg_name, y, annual_total), _).
  assert (RegionAnnualVisitsOut.region_id <$> imap f rows = (λ row, row.1.1.1) <$> rows)
    as Hids.
  { apply fmap_imap_const. by intros i [[[? ?] ?] ?]. }
  split; [|split; [|split]].
  - intros i rec Hi. rewrite list_lookup_imap in Hi.
    destruct (rows !! i) as [row|] eqn:Erow; [|done]. injection Hi as <-.
    apply list_elem_of_lookup_2, HT in Erow as (rg & Hrg & Hr & Hne & ->).
    exists rg. repeat split; try done. simpl. by rewrite <- region_total_parks.
  - by rewrite Hids.
  - apply (StronglySorted_fmap_inv RegionAnnualVisitsOut.region_id
             (λ a b, SQL.le_int (region_total st b year) (region_total st a year) = true)).
    rewrite Hids.
    eapply (StronglySorted_fmap_elem_of _ (λ a b, SQL.le_int b.2 a.2 = true)).
    + intros a b (rg & _ & _ & _ & ->)%HT (rg' & _ & _ & _ & ->)%HT. done.
    + unfold rows, region_totals_stmt. cbv zeta. apply order_by_desc_int_sorted.
  - intros rg Hrg Hr Hne.
    assert ((Region.region_id rg, Region.region_name rg, year,
             region_total st (Region.region_id rg) year) ∈ rows) as Hrow.
    { apply HT. exists rg. done. }
    apply list_elem_of_lookup in Hrow as (i & Hi).
    eexists. split.
    + eapply list_elem_of_lookup_2. rewrite list_lookup_imap, Hi. reflexivity.
    + done.
Qed.

Lemma annual_visits_by_region_witness :
  region_pk sample_store
  ∧ response (annual_visits_by_region 2020 None) sample_store
    = Return [RegionAnnualVisitsOut.mk "IMR" "Intermountain" 2020 700 1;
              RegionAnnualVisitsOut.mk "PWR" "Pacific West" 2020 200 2].
Proof.
  assert (region_pk sample_store) as Hrk.
  { unfold region_pk. apply (bool_decide_unpack _). vm_compute. exact I. }
  split; [exact Hrk|].
  destruct (annual_visits_by_region_sums_its_parks sample_store 2020 None Hrk)
    as (out & Hout & _).
  rewrite Hout. vm_compute in Hout. by injection Hout as <-.
Defined.

(** ** Q8 and Q1: the same months *)

Lemma insert_by_fmap {A B} (le : B → B → bool) (f : A → B) a l :
  insert_by le (f a) (f <$> l) = f <$> insert_by (λ a b, le (f a) (f b)) a l.
Proof.
  induction l as [|b l IH]; [done|]. rewrite fmap_cons. simpl.
  destruct (le (f a) (f b)); [done|]. by rewrite IH.
Qed.

Lemma sort_by_fmap {A B} (le : B → B → bool) (f : A → B) l :
  sort_by le (f <$> l) = f <$> sort_by (λ a b, le (f a) (f b)) l.
Proof.
  induction l as [|a l IH]; [done|]. rewrite fmap_cons. simpl.
  by rewrite IH, insert_by_fmap.
Qed.

(** Under the primary key a month has at most one predecessor row. *)
Lemma month_self_join (st : Store) :
  monthly_visit_pk st →
  SQL.outer_join (λ x, MonthlyVisit.park_code x.1 = MonthlyVisit.park_code x.2
                       ∧ MonthlyVisit.year x.1 = MonthlyVisit.year x.2
                       ∧ MonthlyVisit.month x.1 = MonthlyVisit.month x.2 + 1)
                 (monthly_visits st) (monthly_visits st)
  = (λ m, (m, previous_month st m)) <$> monthly_visits st.
Proof.
  intros Hpk. unfold SQL.outer_join.
  apply bind_singleton_fmap. intros m _. unfold previous_month. simpl.
  destruct (filter _ (monthly_visits st)) as [|b [|b' bs]] eqn:E; [done..|].
  exfalso.
  assert (NoDup (b :: b' :: bs)) as Hnd.
  { rewrite <- E. apply NoDup_filter. by eapply NoDup_fmap_1. }
  assert (b ∈ b :: b' :: bs) as Hb by left.
  assert (b' ∈ b :: b' :: bs) as Hb' by (right; left).
  rewrite <- E in Hb, Hb'.
  apply list_elem_of_filter in Hb as ((Hc & Hy & Hm) & Hbin).
  apply list_elem_of_filter in Hb' as ((Hc' & Hy' & Hm') & Hbin').
  assert (b = b') as ->.
  { eapply NoDup_fmap_elem_inj; [exact Hpk|done..|]. simpl. f_equal; [f_equal|]; [congruence..|lia]. }
  apply NoDup_cons in Hnd as (Hnotin & _). apply Hnotin. left.
Qed.

Lemma month_change_stmt_rows (st : Store) (park_code : string) (year : Z) :
  monthly_visit_pk st →
  month_change_stmt park_code year st
  = (λ m, (MonthlyVisit.month m, MonthlyVisit.total_visits m,
           (λ t, t - SQL.coalesce (previous_month st m ≫= MonthlyVisit.total_visits) 0)
             <$> MonthlyVisit.total_visits m))
      <$> order_by Z.leb MonthlyVisit.month (visits_in st park_code year).
Proof.
  intros Hpk. unfold month_change_stmt. cbv zeta.
  rewrite month_self_join, filter_fmap by done.
  unfold order_by. rewrite sort_by_fmap, <- list_fmap_compose. done.
Qed.

Lemma monthly_visits_stmt_rows (st : Store) (park_code : string) (year : Z) :
  monthly_visits_stmt park_code year st
  = (λ m, (MonthlyVisit.month m, MonthlyVisit.total_visits m))
      <$> order_by Z.leb MonthlyVisit.month (visits_in st park_code year).
Proof. reflexivity. Qed.

Lemma previous_month_spec (st : Store) (m : MonthlyVisit.t) :
  match previous_month st m with
  | Some m2 => m2 ∈ monthly_visits st
               ∧ MonthlyVisit.park_code m2 = MonthlyVisit.park_code m
               ∧ MonthlyVisit.year m2 = MonthlyVisit.year m
               ∧ MonthlyVisit.month m2 = MonthlyVisit.month m - 1
  | None => ∀ m2, m2 ∈ monthly_visits st →
              ¬ (MonthlyVisit.park_code m2 = MonthlyVisit.park_code m
                 ∧ MonthlyVisit.year m2 = MonthlyVisit.year m
                 ∧ MonthlyVisit.month m2 = MonthlyVisit.month m - 1)
  end.
Proof.
  unfold previous_month.
  destruct (filter _ (monthly_visits st)) as [|b bs] eqn:E; simpl.
  - intros m2 Hm2 (Hc & Hy & Hm).
    assert (m2 ∈ filter (λ m2, MonthlyVisit.park_code m = MonthlyVisit.park_code m2
                               ∧ MonthlyVisit.year m = MonthlyVisit.year m2
                               ∧ MonthlyVisit.month m = MonthlyVisit.month m2 + 1)
                   (monthly_visits st)) as Hin.
    { apply list_elem_of_filter. repeat split; [done..|lia|done]. }
    rewrite E in Hin. by apply not_elem_of_nil in Hin.
  - assert (b ∈ b :: bs) as Hb by left. rewrite <- E in Hb.
    apply list_elem_of_filter in Hb as ((Hc & Hy & Hm) & Hbin).
    repeat split; [done..|lia].
Qed.

(** X9: under the primary key of [monthly_visit], Q8 returns one record per
    stored month of the park and year, in ascending order of month, with the
    month's total and the total minus the total of the stored row of the month
    before, or minus 0 when no such row is stored (so the first stored month
    carries its own total, not null; the change is null only when the month's
    own total is NULL).  Q8 and Q1 fail with the same 404 and list the same
    months with the same totals in the same order. *)
Theorem month_to_month_change_by_stored_rows (st : Store) (park_code : string) (year : Z) :
  monthly_visit_pk st →
  let rows := order_by Z.leb MonthlyVisit.month (visits_in st (Py.upper park_code) year) in
  response (month_to_month_change park_code year) st
  = match rows with
    | [] => Raise (HTTPException 404 "No visits for that park/year")
    | _ => Return (change_record st <$> rows)
    end
  ∧ StronglySorted Z.lt (MonthlyVisit.month <$> rows)
  ∧ (∀ m, m ∈ rows →
       match previous_month st m with
       | Some m2 =>
           m2 ∈ visits_in st (Py.upper park_code) year
           ∧ MonthlyVisit.month m2 = MonthlyVisit.month m - 1
           ∧ MonthToMonthChangeOut.change_from_previous (change_record st m)
             = (λ t, t - Py.or_0 (MonthlyVisit.total_visits m2))
                 <$> MonthlyVisit.total_visits m
       | None =>
           (∀ m2, m2 ∈ visits_in st (Py.upper park_code) year →
                  MonthlyVisit.month m2 ≠ MonthlyVisit.month m - 1)
           ∧ MonthToMonthChangeOut.change_from_previous (change_record st m)
             = MonthlyVisit.total_visits m
       end)
  ∧ (∀ threshold,
       match response (park_monthly_visits_with_threshold park_code year threshold) st,
             response (month_to_month_change park_code year) st with
       | Return out1, Return out8 =>
           (λ r, (MonthToMonthChangeOut.month r, MonthToMonthChangeOut.total_visits r))
             <$> out8
           = (λ r, (MonthlyThresholdOut.month r, MonthlyThresholdOut.total_visits r))
               <$> out1
       | Raise e1, Raise e8 => e1 = e8
       | _, _ => False
       end).
Proof.
  intros Hpk rows.
  assert (response (month_to_month_change park_code year) st
          = match rows with
            | [] => Raise (HTTPException 404 "No visits for that park/year")
            | _ => Return (change_record st <$> rows)
            end) as Hresp.
  { unfold month_to_month_change. run_handler.
    rewrite month_change_stmt_rows by done. fold rows.
    destruct rows as [|m ms]; [done|]. rewrite <- list_fmap_compose. done. }
  split; [exact Hresp|]. split; [|split].
  - apply StronglySorted_le_lt.
    + unfold rows, order_by. rewrite sort_by_Permutation. unfold visits_in.
      eapply (NoDup_fmap_filter _ MonthlyVisit.month); [exact Hpk|].
      intros x y (-> & ->) (-> & ->) ->. reflexivity.
    + eapply StronglySorted_fmap; [|apply order_by_Z_sorted]. done.
  - intros m ((Hc & Hy) & Hm)%elem_of_order_by%list_elem_of_filter.
    pose proof (previous_month_spec st m) as Hspec. unfold change_record. simpl.
    destruct (previous_month st m) as [m2|]; simpl.
    + destruct Hspec as (Hm2 & Hc2 & Hy2 & Hmo). split; [|done].
      apply list_elem_of_filter. split; [|done]. split; congruence.
    + split.
      * intros m2 ((Hc2 & Hy2) & Hm2)%list_elem_of_filter Hmo.
        apply (Hspec m2 Hm2). repeat split; congruence.
      * destruct (MonthlyVisit.total_visits m); simpl; [f_equal; lia|done].
  - intros threshold. rewrite Hresp.
    assert (response (park_monthly_visits_with_threshold park_code year threshold) st
            = match rows with
              | [] => Raise (HTTPException 404 "No visits for that park/year")
              | _ => Return ((λ m, MonthlyThresholdOut.mk (MonthlyVisit.month m)
                                     (Py.or_0 (MonthlyVisit.total_visits m))
                                     (bool_decide
                                        (threshold ≤ Py.or_0 (MonthlyVisit.total_visits m))))
                               <$> rows)
              end) as ->.
    { unfold park_monthly_visits_with_threshold. run_handler.
      rewrite monthly_visits_stmt_rows. fold rows.
      destruct rows as [|m ms]; [done|]. rewrite <- list_fmap_compose. done. }
    clear Hresp. destruct rows as [|m ms]; [done|].
    rewrite <- !list_fmap_compose. done.
Qed.

Lemma month_to_month_change_witness :
  monthly_visit_pk sample_store
  ∧ response (month_to_month_change "grca" 2020) sample_store
    = Return [MonthToMonthChangeOut.mk 1 100 (Some 100);
              MonthToMonthChangeOut.mk 2 200 (Some 100);
              MonthToMonthChangeOut.mk 3 300 (Some 100)].
Proof.
  assert (monthly_visit_pk sample_store) as Hpk.
  { unfold monthly_visit_pk. apply (bool_decide_unpack _). vm_compute. exact I. }
  split; [exact Hpk|].
  rewrite (proj1 (month_to_month_change_by_stored_rows sample_store "grca" 2020 Hpk)).
  vm_compute. reflexivity.
Defined.

(** ** The name search: [ILIKE] in SQL, [in] in Python *)

Lemma like_any_true (s : string) : SQL.like "%" s = true.
Proof. induction s as [|c s IH]; [done|]. simpl in *. by rewrite IH. Qed.

Lemma like_prefix (q s : string) :
  has_wildcard q = false → SQL.like (q +:+ "%") s = String.prefix q s.
Proof.
  revert s. induction q as [|c q IH]; intros s Hq.
  - rewrite like_any_true. by destruct s.
  - simpl in Hq. apply orb_false_iff in Hq as (Hc & Hq).
    apply orb_false_iff in Hc as (Hpc & Hus).
    change (String c q +:+ "%") with (String c (q +:+ "%")).
    cbn [SQL.like]. rewrite Hpc. destruct s as [|d s]; [done|].
    rewrite Hus, IH by done. simpl.
    destruct (Ascii.eqb_spec c d) as [->|Hne].
    + by destruct (ascii_dec d d).
    + by destruct (ascii_dec c d).
Qed.

Lemma like_contains (q s : string) :
  has_wildcard q = false → SQL.like ("%" +:+ q +:+ "%") s = Py.contains q s.
Proof.
  intros Hq. change ("%" +:+ q +:+ "%") with (String "%" (q +:+ "%")).
  induction s as [|d s IH].
  - cbn [SQL.like]. simpl. rewrite like_prefix by done. by destruct q.
  - cbn [SQL.like] in *. simpl in *. rewrite like_prefix by done. cbn [Py.contains].
    f_equal. exact IH.
Qed.

Lemma lower_app (s t : string) : Py.lower (s +:+ t) = Py.lower s +:+ Py.lower t.
Proof. induction s as [|c s IH]; [done|]. simpl. by rewrite IH. Qed.

Lemma ascii_lower_wildcard (c : Ascii.ascii) :
  Ascii.eqb (Py.ascii_lower c) "%"%char = Ascii.eqb c "%"%char
  ∧ Ascii.eqb (Py.ascii_lower c) "_"%char = Ascii.eqb c "_"%char.
Proof. destruct c as [[] [] [] [] [] [] [] []]; by vm_compute. Qed.

Lemma has_wildcard_lower (q : string) : has_wildcard (Py.lower q) = has_wildcard q.
Proof.
  induction q as [|c q IH]; [done|]. simpl.
  destruct (ascii_lower_wildcard c) as (-> & ->). by rewrite IH.
Qed.

(** X10: the name search of Q2, Q3, Q5 and Q10 is an SQL [ILIKE] on
    [%query%]; that of Q6 is Python's [query.lower() in name.lower()].  On
    ASCII text, for a query without [%] and [_], the two agree: a park whose
    name is ASCII passes the one exactly when it passes the other.  (Beyond
    ASCII the two fold different letters, and nothing is stated.)  In the SQL
    search a [%] or [_] of the query is a wildcard, not a character to find:
    the query [%] selects every park and the query [_] every park with a
    non-empty name. *)
Theorem name_search_is_substring_unless_wildcard (query : string) (p : Park.t) :
  (has_wildcard query = false →
   isascii query = true → isascii (Park.park_name p) = true →
   (park_filter None (Some query) p
    ↔ Py.contains (Py.lower query) (Py.lower (Park.park_name p)) = true))
  ∧ park_filter None (Some "%") p
  ∧ (park_filter None (Some "_") p ↔ Park.park_name p ≠ "").
Proof.
  split; [|split].
  - intros Hq _ _. unfold park_filter, SQL.ilike.
    rewrite !lower_app. change (Py.lower "%") with "%".
    rewrite like_contains by (by rewrite has_wildcard_lower).
    by rewrite Is_true_true.
  - unfold park_filter, SQL.ilike. apply Is_true_true.
    change (Py.lower ("%" +:+ "%" +:+ "%")) with (String "%" (String "%" "%")).
    generalize (Py.lower (Park.park_name p)). intros s.
    induction s as [|c s IH]; [done|]. simpl in *. by rewrite like_any_true.
  - unfold park_filter, SQL.ilike. rewrite Is_true_true.
    change (Py.lower ("%" +:+ "_" +:+ "%")) with (String "%" (String "_" "%")).
    destruct (Park.park_name p) as [|c s]; [done|]. split; [done|]. intros _.
    simpl. by rewrite like_any_true.
Qed.

(** ** Q6: the full ranking, and what the limit takes from it *)


(** X11: Q6 is a view of one full ranking.  Under the primary key of [park]
    the ranking of a year (and region) holds every park of the scope that has a
    row in the year, once, with the ranks 1, 2, ... in order; the response for
    any limit and name filter is that ranking, filtered by name with the ranks
    kept, then cut by Python's slice: the first [limit] records, none for 0,
    and for a negative limit all but the last [-limit]. *)
Theorem top_parks_is_a_slice_of_the_full_ranking (st : Store) (year : Z)
    (region_id : option string) :
  park_pk st →
  ∃ full,
    response (top_parks_by_year year (Z.of_nat (length (parks st))) region_id None) st
    = Return full
    ∧ (∀ p, p ∈ parks st →
         ((∃ rec, rec ∈ full ∧ TopParkOut.park_code rec = Park.park_code p)
          ↔ visits_in st (Park.park_code p) year ≠ []
            ∧ when (Py.upper <$> region_id) (λ rid, Park.region_id p = Some rid)))
    ∧ NoDup (TopParkOut.park_code <$> full)
    ∧ (∀ i rec, full !! i = Some rec → TopParkOut.rank rec = Z.of_nat i + 1)
    ∧ (∀ limit query,
         response (top_parks_by_year year limit region_id query) st
         = Return (Py.slice_to limit
                     (filter (λ rec, when query
                                       (λ q, Py.contains (Py.lower q)
                                               (Py.lower (TopParkOut.park_name rec))))
                             full))).
Proof.
  intros Hpk.
  set (r := Py.upper <$> region_id).
  set (rows := rank_stmt year r st).
  set (F := λ '(park_code, park_name, y, annual_total),
              TopParkOut.mk (rank_in rows park_code) park_code park_name y
                (Py.or_0 annual_total)).
  assert (∀ limit query,
            response (top_parks_by_year year limit region_id query) st
            = Return (Py.slice_to limit
                        (filter (λ rec, when query
                                          (λ q, Py.contains (Py.lower q)
                                                  (Py.lower (TopParkOut.park_name rec))))
                                (F <$> rows)))) as Hresp.
  { intros limit query. unfold top_parks_by_year. run_handler. fold r rows. f_equal.
    rewrite filter_fmap, slice_to_fmap. f_equal. f_equal.
    destruct query as [q|]; simpl.
    - apply list_filter_iff. intros [[[code name] y] total]. simpl.
      by rewrite Is_true_true.
    - symmetry. by apply filter_all. }
  assert (Z.of_nat (length rows) ≤ Z.of_nat (length (parks st))) as Hlen.
  { apply inj_le.
    apply (NoDup_fmap_length_le (λ row, row.1.1.1) Park.park_code);
      [by apply rank_stmt_codes_NoDup|].
    intros row (p & Hp & Hk & _)%rank_stmt_row. exists p. split; [done|]. by rewrite Hk. }
  exists (F <$> rows). split; [|split; [|split; [|split]]].
  - rewrite Hresp. simpl. rewrite filter_all by done.
    rewrite slice_to_all; [done|]. by rewrite length_fmap.
  - intros p Hp. split.
    + intros (rec & (row & -> & Hrow)%list_elem_of_fmap & Hc).
      pose proof (rank_stmt_row _ _ _ _ Hrow) as (p' & Hp' & Hk & Hr).
      pose proof (rank_stmt_total _ _ _ _ Hpk Hrow) as (_ & Hne).
      destruct row as [[[code name] y] total]. simpl in *.
      injection Hk as -> -> ->.
      assert (p' = p) as -> by (eapply NoDup_fmap_elem_inj; eauto). done.
    + intros (Hne & Hr).
      exists (F (Park.park_code p, Park.park_name p, year,
                 annual_total st (Park.park_code p) year)).
      split; [|done]. apply list_elem_of_fmap_2. by apply rank_stmt_complete.
  - rewrite <- list_fmap_compose.
    rewrite (fmap_ext_elem_of _ (λ row, row.1.1.1)); [by apply rank_stmt_codes_NoDup|].
    by intros [[[code name] y] total] _.
  - intros i rec Hi. rewrite list_lookup_fmap in Hi.
    destruct (rows !! i) as [row|] eqn:Erow; [|done]. injection Hi as <-.
    pose proof (rank_in_lookup st year r i row Hpk Erow) as Hrank.
    by destruct row as [[[code name] y] total].
  - exact Hresp.
Qed.

Lemma top_parks_witness :
  park_pk sample_store
  ∧ response (top_parks_by_year 2020 (-1) None None) sample_store
    = Return [TopParkOut.mk 1 "GRCA" "Grand Canyon National Park" 2020 600;
              TopParkOut.mk 2 "YOSE" "Yosemite National Park" 2020 200]
  ∧ response (top_parks_by_year 2020 3 None None) sample_store
    = Return [TopParkOut.mk 1 "GRCA" "Grand Canyon National Park" 2020 600;
              TopParkOut.mk 2 "YOSE" "Yosemite National Park" 2020 200;
              TopParkOut.mk 3 "ZION" "Zion National Park" 2020 100].
Proof.
  assert (park_pk sample_store) as Hpk.
  { unfold park_pk. apply (bool_decide_unpack _). vm_compute. exact I. }
  split; [exact Hpk|].
  destruct (top_parks_is_a_slice_of_the_full_ranking sample_store 2020 None Hpk)
    as (full & Hfull & _ & _ & _ & Hresp).
  rewrite (Hresp (-1) None). vm_compute in Hfull. injection Hfull as <-.
  split; vm_compute; reflexivity.
Defined.

(** ** Q10: order, limit and coverage *)

Section variability.
Context (st : Store) (Hpk : park_pk st) (Hrk : region_pk st).
Context (year : Z) (r c q : option string).

Let Sel (x : Park.t * MonthlyVisit.t * option Region.t) : Prop :=
  MonthlyVisit.year x.1.2 = year ∧ region_is r x.2 ∧ park_filter c q x.1.1.

Let key (x : Park.t * MonthlyVisit.t * option Region.t) :=
  (Park.park_code x.1.1, Park.park_name x.1.1,
   Region.region_id <$> x.2, Region.region_name <$> x.2, MonthlyVisit.year x.1.2).

Lemma variability_key_code a b : key a = key b → Park.park_code a.1.1 = Park.park_code b.1.1.
Proof. by intros [= ? _]. Qed.

Lemma variability_key_park p r' m m' :
  Sel (p, m, r') → Sel (p, m', r') → key (p, m', r') = key (p, m, r').
Proof. intros (Hy & _) (Hy' & _). unfold key. simpl in *. congruence. Qed.

Lemma variability_sel_visit p r' m m' :
  Sel (p, m, r') → (Sel (p, m', r') ↔ MonthlyVisit.year m' = year).
Proof. intros (Hy & Hr & Hf). unfold Sel. simpl in *. tauto. Qed.

Lemma variability_rows_elem row :
  row ∈ variability_stmt year r c q st ↔
  ∃ p, p ∈ parks st
       ∧ visits_in st (Park.park_code p) year ≠ []
       ∧ region_is r (region_of st p) ∧ park_filter c q p
       ∧ row = (Park.park_code p, Park.park_name p,
                Region.region_id <$> region_of st p, Region.region_name <$> region_of st p,
                year,
                Z.of_nat (length (visits_in st (Park.park_code p) year)),
                SQL.sum (MonthlyVisit.total_visits <$> visits_in st (Park.park_code p) year),
                SQL.sum ((λ m, v ← MonthlyVisit.total_visits m; Some (v * v))
                           <$> visits_in st (Park.park_code p) year)).
Proof.
  unfold variability_stmt. cbv zeta. rewrite list_elem_of_fmap. split.
  - intros (g & -> & Hg).
    apply (park_group_sound st Hpk Hrk key Sel (λ m, MonthlyVisit.year m = year)
             variability_key_code variability_key_park variability_sel_visit) in Hg
      as (p & m & Hp & Hm & Hc & (Hy & Hr & Hf) & Hk & Hrows).
    cbn [fst snd] in Hy, Hr, Hf. exists p. repeat split; try done.
    + intros Hnil. assert (m ∈ visits_in st (Park.park_code p) year) as Hin
        by (by apply list_elem_of_filter).
      rewrite Hnil in Hin. by apply not_elem_of_nil in Hin.
    + rewrite Hk, Hrows. unfold key. simpl. rewrite Hy.
      unfold total_visits_of. rewrite <- !list_fmap_compose.
      fold (visits_in st (Park.park_code p) year).
      rewrite <- (count_Some MonthlyVisit.month). done.
  - intros (p & Hp & Hne & Hr & Hf & ->).
    destruct (visits_in st (Park.park_code p) year) as [|m ms] eqn:E; [done|].
    assert (m ∈ visits_in st (Park.park_code p) year)
      as ((Hcm & Hy) & Hm)%list_elem_of_filter by (rewrite E; left).
    rewrite <- E. clear E ms Hne.
    eexists. split;
      [|apply (park_group_complete st Hpk Hrk key Sel (λ m, MonthlyVisit.year m = year)
                 variability_key_code variability_key_park variability_sel_visit
                 p m Hp Hm Hcm)].
    + unfold key. simpl. rewrite Hy.
      unfold total_visits_of. rewrite <- !list_fmap_compose.
      fold (visits_in st (Park.park_code p) year).
      rewrite <- (count_Some MonthlyVisit.month). done.
    + done.
Qed.

Lemma variability_rows_NoDup :
  NoDup ((λ row, row.1.1.1.1.1.1.1) <$> variability_stmt year r c q st).
Proof.
  unfold variability_stmt. cbv zeta.
  apply (park_groups_NoDup st Hpk Hrk key Sel (λ m, MonthlyVisit.year m = year)
           variability_key_code variability_key_park variability_sel_visit).
  intros g Hg p m Hk. simpl. by rewrite Hk.
Qed.

End variability.

(** X12: the records of Q10 come in descending order of standard deviation,
    one per stored park that passes the filters and has a row in the year, each
    with the number of the park's rows of the year as [months_with_data].  A
    positive limit keeps the first [limit] records; a limit of 0 or below keeps
    all of them. *)
Theorem park_visit_variability_order_and_limit (st : Store) (year : Z)
    (region_id park_code query : option string) (limit : Z) out :
  park_pk st → region_pk st →
  response (park_visit_variability year region_id park_code query limit) st = Return out →
  let scope p :=
    p ∈ parks st
    ∧ visits_in st (Park.park_code p) year ≠ []
    ∧ region_is (Py.upper <$> region_id) (region_of st p)
    ∧ park_filter (Py.upper <$> park_code) query p in
  let record_of rec p :=
    rec = VariabilityOut.mk (Park.park_code p) (Park.park_name p)
            (Region.region_id <$> region_of st p) (Region.region_name <$> region_of st p)
            year (VariabilityOut.avg_monthly_visits rec)
            (VariabilityOut.std_dev_monthly_visits rec)
            (Z.of_nat (length (visits_in st (Park.park_code p) year))) in
  out ≠ []
  ∧ StronglySorted (λ a b, VariabilityOut.std_dev_monthly_visits b
                           ≤ VariabilityOut.std_dev_monthly_visits a) out
  ∧ NoDup (VariabilityOut.park_code <$> out)
  ∧ (∀ rec, rec ∈ out → ∃ p, scope p ∧ record_of rec p)
  ∧ (0 < limit → Z.of_nat (length out) ≤ limit)
  ∧ (limit ≤ 0 ∨ Z.of_nat (length (parks st)) ≤ limit →
     ∀ p, scope p → ∃ rec, rec ∈ out ∧ record_of rec p).
Proof.
  intros Hpk Hrk Hout scope record_of. revert Hout.
  unfold park_visit_variability. run_handler.
  set (r := Py.upper <$> region_id) in *. set (c := Py.upper <$> park_code) in *.
  pose proof (variability_rows_elem st Hpk Hrk year r c query) as HT.
  pose proof (variability_rows_NoDup st Hpk Hrk year r c query) as HTnd.
  set (rows := variability_stmt year r c query st) in *.
  destruct rows as [|t ts] eqn:E; run_handler; [discriminate|]. rewrite <- E in *.
  set (f := λ '(park_code, park_name, reg_id, reg_name, y, n_months, sum_v, sum_v2), _).
  destruct (mapM f rows) as [results|] eqn:Em; run_handler; [|discriminate].
  set (sorted := order_by_desc Z.leb VariabilityOut.std_dev_monthly_visits results).
  intros [= <-].
  assert (∀ row rec, row ∈ rows → f row = Return rec →
            VariabilityOut.park_code rec = row.1.1.1.1.1.1.1
            ∧ ∃ p, scope p ∧ record_of rec p ∧ row.1.1.1.1.1.1.1 = Park.park_code p) as Hf.
  { intros row rec (p & Hp & Hne & Hr & Hfil & ->)%HT Hrec. unfold f in Hrec.
    destruct (variability_stats _ _ _) as [stats|] eqn:Es; simpl in Hrec; [|done].
    injection Hrec as <-. simpl. split; [done|]. exists p. repeat split; done. }
  assert (sorted ≡ₚ results) as Hperm by apply sort_by_Permutation.
  assert (NoDup (VariabilityOut.park_code <$> sorted)) as Hnd.
  { rewrite Hperm.
    rewrite (mapM_Return_fmap f VariabilityOut.park_code (λ row, row.1.1.1.1.1.1.1) _ _ Em);
      [done|].
    intros row rec Hrow Hfr. by destruct (Hf row rec Hrow Hfr). }
  assert (∀ rec, rec ∈ sorted → ∃ p, scope p ∧ record_of rec p) as Hsound.
  { intros rec Hrec. rewrite Hperm in Hrec.
    destruct (mapM_Return_elem_of _ _ _ _ Em Hrec) as (row & Hrow & Hfr).
    destruct (Hf row rec Hrow Hfr) as (_ & p & ? & ? & _). by exists p. }
  assert (length sorted = length rows) as Hlen.
  { rewrite Hperm. by apply mapM_Return_length in Em. }
  assert (∀ p, scope p → ∃ rec, rec ∈ sorted ∧ record_of rec p) as Hcomplete.
  { intros p (Hp & Hne & Hr & Hfil).
    set (row := (Park.park_code p, Park.park_name p, Region.region_id <$> region_of st p,
                 Region.region_name <$> region_of st p, year,
                 Z.of_nat (length (visits_in st (Park.park_code p) year)),
                 SQL.sum (MonthlyVisit.total_visits <$> visits_in st (Park.park_code p) year),
                 SQL.sum ((λ m, v ← MonthlyVisit.total_visits m; Some (v * v))
                            <$> visits_in st (Park.park_code p) year))).
    assert (row ∈ rows) as Hrow by (apply HT; exists p; done).
    destruct (mapM_Return_elem_of_l f rows results row Em Hrow) as (rec & Hrec & Hfr).
    exists rec. split; [by rewrite Hperm|].
    unfold f, row in Hfr.
    destruct (variability_stats _ _ _) as [stats|] eqn:Es; simpl in Hfr; [|done].
    injection Hfr as <-. done. }
  assert (StronglySorted (λ a b, VariabilityOut.std_dev_monthly_visits b
                                 ≤ VariabilityOut.std_dev_monthly_visits a) sorted) as Hs
    by apply order_by_desc_Z_sorted.
  assert (Z.of_nat (length rows) ≤ Z.of_nat (length (parks st))) as Hle.
  { apply inj_le.
    apply (NoDup_fmap_length_le (λ row, row.1.1.1.1.1.1.1) Park.park_code); [done|].
    intros row (p' & Hp' & _ & _ & _ & ->)%HT. exists p'. done. }
  destruct (limit >? 0) eqn:El.
  - split; [|split; [|split; [|split; [|split]]]].
    + intros Hnil. apply (f_equal length) in Hnil. unfold Py.slice_to in Hnil.
      replace (limit <? 0) with false in Hnil by lia.
      rewrite length_take, Hlen, E in Hnil. simpl in Hnil. lia.
    + by apply StronglySorted_slice_to.
    + eapply sublist_NoDup; [exact Hnd|]. apply fmap_sublist.
      unfold Py.slice_to. destruct (limit <? 0); apply sublist_take.
    + intros rec Hrec%elem_of_slice_to. by apply Hsound.
    + intros _. unfold Py.slice_to. replace (limit <? 0) with false by lia.
      rewrite length_take. lia.
    + intros [Hneg|Hbig]; [lia|]. rewrite slice_to_all by lia. exact Hcomplete.
  - split; [|split; [|split; [|split; [|split]]]]; try done.
    + intros Hnil. apply (f_equal length) in Hnil. rewrite Hlen, E in Hnil. done.
    + lia.
Qed.

Lemma park_visit_variability_witness :
  park_pk sample_store ∧ region_pk sample_store
  ∧ ∃ out,
      response (park_visit_variability 2020 None None None 0) sample_store = Return out
      ∧ VariabilityOut.park_code <$> out = ["GRCA"; "YOSE"; "ZION"]
      ∧ VariabilityOut.std_dev_monthly_visits <$> out = [82; 50; 0]
      ∧ NoDup (VariabilityOut.park_code <$> out).
Proof.
  assert (park_pk sample_store) as Hpk.
  { unfold park_pk. apply (bool_decide_unpack _). vm_compute. exact I. }
  assert (region_pk sample_store) as Hrk.
  { unfold region_pk. apply (bool_decide_unpack _). vm_compute. exact I. }
  split; [exact Hpk|]. split; [exact Hrk|].
  eexists. split; [vm_compute; reflexivity|].
  split; [reflexivity|]. split; [reflexivity|].
  eapply (proj1 (proj2 (proj2 (park_visit_variability_order_and_limit sample_store 2020
                                 None None None 0 _ Hpk Hrk _)))).
  Unshelve. vm_compute. reflexivity.
Defined.

(** ** Q5 and NULL totals *)

Section py_sum.
Let step (acc : outcome Z) (x : option Z) : outcome Z :=
  a ← acc; match x with Some v => Return (a + v) | None => Raise TypeError end.

Lemma py_sum_raised e l : foldl step (Raise e) l = Raise e.
Proof. induction l as [|x l IH]; [done|]. exact IH. Qed.

Lemma py_sum_null a l : None ∈ l → foldl step (Return a) l = Raise TypeError.
Proof.
  revert a. induction l as [|x l IH]; intros a Hin; [by apply not_elem_of_nil in Hin|].
  destruct x as [v|].
  - apply elem_of_cons in Hin as [|Hin]; [done|]. exact (IH (a + v) Hin).
  - apply py_sum_raised.
Qed.

Lemma py_sum_values a l :
  None ∉ l → foldl step (Return a) l = Return (a + foldr Z.add 0 (omap id l)).
Proof.
  revert a. induction l as [|x l IH]; intros a Hnotin.
  - simpl. f_equal. lia.
  - destruct x as [v|]; [|by destruct Hnotin; left].
    change (foldl step (Return a) (Some v :: l)) with (foldl step (Return (a + v)) l).
    rewrite IH by (intros ?; apply Hnotin; by right).
    csimpl. f_equal. rewrite <- Z.add_assoc. reflexivity.
Qed.

Lemma py_sum_spec (l : list (option Z)) :
  Py.sum l = if bool_decide (None ∈ l) then Raise TypeError
             else Return (foldr Z.add 0 (omap id l)).
Proof.
  unfold Py.sum. fold step. destruct (bool_decide (None ∈ l)) eqn:E.
  - apply py_sum_null. by apply bool_decide_eq_true in E.
  - rewrite py_sum_values; [done|]. by apply bool_decide_eq_false in E.
Qed.

End py_sum.

Lemma int_truediv_raises a b e :
  Py.int_truediv a b = Raise e → e = ZeroDivisionError ∨ e = OverflowError.
Proof.
  unfold Py.int_truediv. destruct (b =? 0); [intros [= <-]; by left|].
  cbv zeta. destruct (is_infinity _); [intros [= <-]; by right|done].
Qed.

Lemma omap_id_nil {A} (l : list (option A)) : omap id l = [] ↔ ∀ x, x ∈ l → x = None.
Proof.
  induction l as [|x l IH].
  - split; [|done]. by intros _ x ?%not_elem_of_nil.
  - destruct x as [v|]; csimpl.
    + split; [done|]. intros H. by specialize (H (Some v) ltac:(left)).
    + rewrite IH. split.
      * intros H x [->|Hx]%elem_of_cons; [done|]. by apply H.
      * intros H x Hx. apply H. by right.
Qed.

Lemma sum_None_iff (l : list (option Z)) : SQL.sum l = None ↔ ∀ x, x ∈ l → x = None.
Proof.
  rewrite <- omap_id_nil. unfold SQL.sum. by destruct (omap id l).
Qed.

(** X13: Q5 adds the annual totals of its scope with Python's [sum], which
    does not accept a NULL: when some park of the scope has a row in the year
    and only NULL totals in it, the operation fails with a TypeError (a 500),
    whatever the filters; when no stored total is NULL it never does. *)
Theorem above_average_does_not_accept_null_totals (st : Store) (year : Z)
    (region_id park_code query : option string) :
  park_pk st →
  (∀ c, in_scope st year (Py.upper <$> region_id) c →
        (∀ m, m ∈ visits_in st c year → MonthlyVisit.total_visits m = None) →
        response (parks_above_system_average year region_id park_code query) st
        = Raise TypeError)
  ∧ ((∀ m, m ∈ monthly_visits st → MonthlyVisit.total_visits m ≠ None) →
     response (parks_above_system_average year region_id park_code query) st
     ≠ Raise TypeError).
Proof.
  intros Hpk.
  destruct (annual_totals_stmt_scope st year (Py.upper <$> region_id) Hpk)
    as (codes & Hnd & Hcodes & Htotals).
  split.
  - intros c Hc%Hcodes Hnull.
    assert (None ∈ annual_totals_stmt year (Py.upper <$> region_id) st) as Hin.
    { rewrite Htotals. apply list_elem_of_fmap. exists c. split; [|done].
      symmetry. unfold annual_total. apply sum_None_iff.
      intros x (m & -> & Hm)%list_elem_of_fmap. by apply Hnull. }
    unfold parks_above_system_average. run_handler.
    destruct (annual_totals_stmt _ _ _) as [|t ts] eqn:E;
      [by apply not_elem_of_nil in Hin|].
    unfold rounded_mean. rewrite py_sum_spec, bool_decide_eq_true_2 by done. done.
  - intros Hnonnull.
    assert (None ∉ annual_totals_stmt year (Py.upper <$> region_id) st) as Hnotin.
    { rewrite Htotals. intros (c & Hc & (p & Hp & <- & _ & Hne)%Hcodes)%list_elem_of_fmap.
      symmetry in Hc. unfold annual_total in Hc.
      destruct (visits_in st (Park.park_code p) year) as [|m ms] eqn:E; [done|].
      assert (m ∈ visits_in st (Park.park_code p) year) as Hm by (rewrite E; left).
      rewrite <- E in Hc.
      pose proof (proj1 (sum_None_iff _) Hc (MonthlyVisit.total_visits m)
                    (list_elem_of_fmap_2 _ _ _ Hm)) as Hnone.
      apply list_elem_of_filter in Hm as (_ & Hm). by apply (Hnonnull m). }
    unfold parks_above_system_average. run_handler.
    destruct (annual_totals_stmt _ _ _) as [|t ts] eqn:E; run_handler; [discriminate|].
    unfold rounded_mean. rewrite py_sum_spec, bool_decide_eq_false_2 by done. simpl.
    destruct (Py.int_truediv _ _) as [f|e] eqn:Ediv; simpl.
    + destruct (Py.round f) as [avg|e] eqn:Er; run_handler.
      * intros (row & _ & Hraise)%mapM_Raise.
        destruct row as [[[[[? ?] ?] ?] ?] tot]. simpl in Hraise.
        destruct (percent_above _ _) as [pct|e] eqn:Ep; simpl in Hraise; [done|].
        injection Hraise as ->. unfold percent_above in Ep.
        destruct (avg >? 0); [|done].
        destruct (Py.int_truediv (Py.or_0 tot - avg) avg) as [g|e] eqn:Ediv'; simpl in Ep.
        -- by apply round_raises in Ep as [|].
        -- injection Ep as ->. by apply int_truediv_raises in Ediv' as [|].
      * intros [= ->]. by apply round_raises in Er as [|].
    + run_handler. intros [= ->]. by apply int_truediv_raises in Ediv as [|].
Qed.

Lemma above_average_null_witness :
  park_pk null_total_store
  ∧ response (parks_above_system_average 2020 None (Some "brca") None) null_total_store
    = Raise TypeError
  ∧ response (parks_above_system_average 2020 None None None) sample_store
    ≠ Raise TypeError.
Proof.
  assert (park_pk null_total_store) as Hpk.
  { unfold park_pk. apply (bool_decide_unpack _). vm_compute. exact I. }
  assert (park_pk sample_store) as Hpk'.
  { unfold park_pk. apply (bool_decide_unpack _). vm_compute. exact I. }
  split; [exact Hpk|]. split.
  - apply (proj1 (above_average_does_not_accept_null_totals null_total_store 2020 None
                    (Some "brca") None Hpk) "ARCH").
    + eexists. split; [left|]. split; [reflexivity|]. split; [exact I|]. discriminate.
    + intros m Hm. apply list_elem_of_In in Hm. vm_compute in Hm.
      destruct Hm as [<-|[]]. reflexivity.
  - apply (proj2 (above_average_does_not_accept_null_totals sample_store 2020 None None None
                    Hpk')).
    intros m Hm. apply list_elem_of_In in Hm. simpl in Hm.
    repeat (destruct Hm as [<-|Hm]; [discriminate|]). destruct Hm.
Defined.

Example clean_examples :
  load_csv.clean_region_name (Some (Str "  Pacific 	 West ")) = "Pacific West"
  ∧ load_csv.clean_region_name (Some NaN) = "nan"
  ∧ load_csv.clean_region_name None = ""
  ∧ PyStr.split " a  b c " = ["a"; "b"; "c"]
  ∧ PyStr.split "" = [] ∧ PyStr.split "   " = []
  ∧ drop_duplicates [1; 2; 1; 3; 2] = [1; 2; 3].
Proof. repeat split; vm_compute; reflexivity. Qed.

(** ** The loader: region names *)

Lemma string_app_cons c (s t : string) : String c s +:+ t = String c (s +:+ t).
Proof. reflexivity. Qed.

Lemma string_app_nil_r (s : string) : s +:+ "" = s.
Proof. induction s as [|c s IH]; [done|]. by rewrite string_app_cons, IH. Qed.

Lemma string_app_assoc (s t u : string) : (s +:+ t) +:+ u = s +:+ (t +:+ u).
Proof. induction s as [|c s IH]; [done|]. by rewrite !string_app_cons, IH. Qed.

Lemma string_app_nil_inv (s t : string) : s +:+ t = "" → s = "" ∧ t = "".
Proof. by destruct s. Qed.

Lemma no_space_app (s t : string) : no_space (s +:+ t) = no_space s && no_space t.
Proof.
  induction s as [|c s IH]; [done|].
  rewrite string_app_cons. simpl. rewrite IH. by rewrite andb_assoc.
Qed.

Lemma split_from_word (w word rest : string) :
  no_space w = true →
  PyStr.split_from word (w +:+ rest) = PyStr.split_from (word +:+ w) rest.
Proof.
  revert word. induction w as [|c w IH]; intros word Hw.
  - by rewrite string_app_nil_r.
  - simpl in Hw. apply andb_true_iff in Hw as (Hc%negb_true_iff & Hw).
    rewrite string_app_cons. cbn [PyStr.split_from]. rewrite Hc, IH by done.
    by rewrite string_app_assoc.
Qed.

Lemma split_join (ws : list string) :
  Forall is_word ws → PyStr.split (PyStr.join " " ws) = ws.
Proof.
  unfold PyStr.split. induction 1 as [|w ws (Hne & Hw) Hws IH]; [done|].
  destruct ws as [|w2 ws].
  - simpl. rewrite <- (string_app_nil_r w) at 1. rewrite split_from_word by done.
    simpl. by destruct w.
  - change (PyStr.join " " (w :: w2 :: ws)) with (w +:+ " " +:+ PyStr.join " " (w2 :: ws)).
    rewrite split_from_word by done.
    change ("" +:+ w) with w.
    change (" " +:+ PyStr.join " " (w2 :: ws))
      with (String " " (PyStr.join " " (w2 :: ws))).
    cbn [PyStr.split_from]. change (PyStr.isspace " ") with true. cbn iota.
    rewrite IH. by destruct w.
Qed.

Lemma split_from_words (word s : string) :
  no_space word = true → Forall is_word (PyStr.split_from word s).
Proof.
  revert word. induction s as [|c s IH]; intros word Hword; simpl.
  - destruct word; [constructor|]. by repeat constructor.
  - destruct (PyStr.isspace c) eqn:Ec.
    + apply Forall_app. split; [|by apply IH].
      destruct word; [constructor|]. by repeat constructor.
    + apply IH. rewrite no_space_app, Hword. simpl. by rewrite Ec.
Qed.

Lemma split_words (s : string) : Forall is_word (PyStr.split s).
Proof. by apply split_from_words. Qed.

(** The keys of the dict are clean names. *)
Lemma region_names_clean :
  Forall (λ item, load_csv.clean_region_name (Some (Str item.1)) = item.1)
         load_csv.REGION_ID_MAP.
Proof. repeat constructor. Qed.

(** X14: [clean_region_name] keeps the words of a region name and puts one
    space between them: the result has the same words as the input, it is
    those words (non-empty, free of whitespace) joined by single spaces, and
    cleaning it again changes nothing.  Two names with the same words get the
    same region id, and the seven names of [REGION_ID_MAP] are clean, so each
    of them, however it is padded, maps to its id. *)
Theorem clean_region_name_normalises (raw : cell) :
  let cleaned := load_csv.clean_region_name (Some raw) in
  PyStr.split cleaned = PyStr.split (str raw)
  ∧ cleaned = PyStr.join " " (PyStr.split (str raw))
  ∧ Forall is_word (PyStr.split (str raw))
  ∧ load_csv.clean_region_name (Some (Str cleaned)) = cleaned
  ∧ fix_park_regions.clean_region_name (Some raw) = cleaned
  ∧ (∀ raw', PyStr.split (str raw') = PyStr.split (str raw) →
       load_csv.clean_region_name (Some raw') = cleaned)
  ∧ (∀ name rid, (name, rid) ∈ load_csv.REGION_ID_MAP →
       PyStr.split (str raw) = PyStr.split name →
       (list_to_map load_csv.REGION_ID_MAP : gmap string string) !! cleaned = Some rid).
Proof.
  intros cleaned. unfold cleaned, load_csv.clean_region_name.
  pose proof (split_words (str raw)) as Hwords.
  split; [by apply split_join|]. split; [done|]. split; [done|].
  split; [|split; [done|split]].
  - simpl. by rewrite split_join.
  - intros raw' Heq. by rewrite Heq.
  - intros name rid Hin Heq. rewrite Heq.
    pose proof region_names_clean as Hclean.
    eapply Forall_forall in Hclean; [|exact Hin]. simpl in Hclean.
    unfold load_csv.clean_region_name in Hclean. simpl in Hclean. rewrite Hclean.
    apply elem_of_list_to_map_1; [|done].
    apply (bool_decide_unpack _). vm_compute. exact I.
Qed.

(** ** The loader: the monthly table *)

Lemma filter_app_singleton {A} (P : A → Prop) `{∀ a, Decision (P a)} (l : list A) x :
  filter P (l ++ [x]) = filter P l ++ (if decide (P x) then [x] else []).
Proof. rewrite filter_app, filter_cons, filter_nil. by destruct (decide (P x)). Qed.

Section insert_or_replace.
Implicit Types (rows table : list MonthlyVisit.t) (k : string * Z * Z).

Lemma insert_or_replace_lookup table row k :
  filter (λ m, monthly_visit_key m = k) (insert_or_replace table row)
  = if decide (monthly_visit_key row = k) then [row]
    else filter (λ m, monthly_visit_key m = k) table.
Proof.
  unfold insert_or_replace. rewrite filter_app_singleton, list_filter_filter.
  destruct (decide (monthly_visit_key row = k)) as [<-|Hne].
  - rewrite filter_nil_iff; [done|]. intros m _ (? & ?). done.
  - rewrite app_nil_r. apply list_filter_iff. intros m. split; [tauto|].
    intros <-. split; [done|]. congruence.
Qed.

(** Insert, then look up: a key holds the last row written under it. *)
Lemma stored_rows rows k :
  filter (λ m, monthly_visit_key m = k) (foldl insert_or_replace [] rows)
  = option_list (last (filter (λ m, monthly_visit_key m = k) rows)).
Proof.
  induction rows as [|row rows IH] using rev_ind; [done|].
  rewrite foldl_app. simpl. rewrite insert_or_replace_lookup, filter_app_singleton.
  destruct (decide (monthly_visit_key row = k)).
  - by rewrite last_snoc.
  - by rewrite app_nil_r.
Qed.

Lemma stored_keys_NoDup rows :
  NoDup (monthly_visit_key <$> foldl insert_or_replace [] rows).
Proof.
  induction rows as [|row rows IH] using rev_ind; [constructor|].
  rewrite foldl_app. simpl. unfold insert_or_replace.
  rewrite fmap_app. apply NoDup_app. split; [|split].
  - eapply sublist_NoDup; [exact IH|]. apply fmap_sublist, sublist_filter.
  - intros k (m & Hk & (Hne & _)%list_elem_of_filter)%list_elem_of_fmap Hrow.
    rewrite fmap_cons in Hrow. apply list_elem_of_singleton in Hrow. congruence.
  - apply NoDup_singleton.
Qed.

Lemma stored_rows_elem rows m :
  m ∈ foldl insert_or_replace [] rows → m ∈ rows.
Proof.
  induction rows as [|row rows IH] using rev_ind; [done|].
  rewrite foldl_app. simpl. unfold insert_or_replace.
  rewrite !elem_of_app. intros [(_ & Hm)%list_elem_of_filter|Hm]; [left; by apply IH|by right].
Qed.

End insert_or_replace.

(** X15: after [load_csv] the monthly table holds rows of the frame only,
    one per primary key (park code, year, month), and under each key the last
    row the frame has for it; nothing of the previous table is left.  Every
    stored row has an upper-case park code, no NULL counter, and as total the
    sum of its recreation and non-recreation visits, an empty field counting as
    0. *)
Theorem load_csv_monthly_table (df : list CsvRow.t) (st : Store) :
  let table := monthly_visits (load_csv.load_csv df st) in
  monthly_visit_pk (load_csv.load_csv df st)
  ∧ (∀ m, m ∈ table → ∃ r, r ∈ df ∧ m = load_csv.monthly_row r)
  ∧ (∀ k, filter (λ m, monthly_visit_key m = k) table
          = option_list (last (filter (λ m, monthly_visit_key m = k)
                                      (load_csv.monthly_row <$> df))))
  ∧ (∀ r, r ∈ df →
       ∃ m, m ∈ table ∧ monthly_visit_key m = monthly_visit_key (load_csv.monthly_row r))
  ∧ (∀ m, m ∈ table →
       Py.upper (MonthlyVisit.park_code m) = MonthlyVisit.park_code m
       ∧ (∃ recreation non_recreation,
            MonthlyVisit.recreation_visits m = Some recreation
            ∧ MonthlyVisit.non_recreation_visits m = Some non_recreation
            ∧ MonthlyVisit.total_visits m = Some (recreation + non_recreation))
       ∧ is_Some (MonthlyVisit.concessioner_lodging m)
       ∧ is_Some (MonthlyVisit.concessioner_camping m)
       ∧ is_Some (MonthlyVisit.tent_campers m)
       ∧ is_Some (MonthlyVisit.rv_campers m)
       ∧ is_Some (MonthlyVisit.backcountry m)
       ∧ is_Some (MonthlyVisit.nonrecreation_overnight_stays m)
       ∧ is_Some (MonthlyVisit.miscellaneous_overnight_stays m)).
Proof.
  intros table. unfold table. simpl.
  assert (∀ m, m ∈ foldl insert_or_replace [] (load_csv.monthly_row <$> df) →
            ∃ r, r ∈ df ∧ m = load_csv.monthly_row r) as Hfrom.
  { intros m (r & -> & Hr)%stored_rows_elem%list_elem_of_fmap. by exists r. }
  split; [apply stored_keys_NoDup|]. split; [exact Hfrom|].
  split; [intros k; apply stored_rows|]. split.
  - intros r Hr.
    pose proof (stored_rows (load_csv.monthly_row <$> df)
                  (monthly_visit_key (load_csv.monthly_row r))) as Hk.
    destruct (last _) as [m|] eqn:El.
    + exists m.
      assert (m ∈ filter (λ m0, monthly_visit_key m0
                                = monthly_visit_key (load_csv.monthly_row r))
                    (foldl insert_or_replace [] (load_csv.monthly_row <$> df))) as Hm
        by (rewrite Hk; left).
      apply list_elem_of_filter in Hm as (? & ?). done.
    + apply last_None in El.
      assert (load_csv.monthly_row r
              ∈ filter (λ m0, monthly_visit_key m0
                              = monthly_visit_key (load_csv.monthly_row r))
                  (load_csv.monthly_row <$> df)) as Hin.
      { apply list_elem_of_filter. split; [done|]. by apply list_elem_of_fmap_2. }
      rewrite El in Hin. by apply not_elem_of_nil in Hin.
  - intros m (r & Hr & ->)%Hfrom. simpl. split; [apply upper_idemp|].
    split; [by eexists _, _|]. repeat split; by eexists.
Qed.

(** ** The loader: parks and regions *)

Lemma update_park_regions (table : list Park.t) (pairs : list (string * string)) :
  foldl update_park_region table pairs = with_assigned_region pairs <$> table.
Proof.
  induction pairs as [|row pairs IH] using rev_ind.
  - simpl. symmetry. apply list_fmap_id.
  - rewrite foldl_app. simpl. rewrite IH. unfold update_park_region.
    rewrite <- list_fmap_compose. apply list_fmap_ext. intros _ p _. simpl.
    unfold with_assigned_region, assigned_region.
    rewrite filter_app_singleton.
    assert (Park.park_code
              match snd <$> last (filter (λ row0, row0.1 = Park.park_code p) pairs) with
              | Some rid => set_region_id rid p
              | None => p
              end = Park.park_code p) as -> by (by destruct (snd <$> last _)).
    destruct (decide (Park.park_code p = row.1)) as [Hc|Hc].
    + rewrite decide_True by done. rewrite last_snoc. simpl.
      by destruct (snd <$> last _).
    + rewrite decide_False by done. by rewrite app_nil_r.
Qed.

Lemma drop_duplicates_from {A} `{EqDecision A} (acc l : list A) x :
  x ∈ foldl (λ acc x, if decide (x ∈ acc) then acc else acc ++ [x]) acc l ↔ x ∈ acc ∨ x ∈ l.
Proof.
  revert acc. induction l as [|y l IH]; intros acc; simpl.
  - rewrite elem_of_nil. tauto.
  - rewrite IH, elem_of_cons. destruct (decide (y ∈ acc)) as [Hy|Hy].
    + split; [tauto|]. intros [?|[->|?]]; tauto.
    + rewrite elem_of_app, list_elem_of_singleton. tauto.
Qed.

Lemma elem_of_drop_duplicates {A} `{EqDecision A} (l : list A) x :
  x ∈ drop_duplicates l ↔ x ∈ l.
Proof. unfold drop_duplicates. rewrite drop_duplicates_from, elem_of_nil. tauto. Qed.

Lemma elem_of_park_region_df (df : list CsvRow.t) (c rid : string) :
  (c, rid) ∈ load_csv.park_region_df df
  ↔ ∃ r, r ∈ df ∧ load_csv.unit_code r = c ∧ load_csv.region_id r = Some rid.
Proof.
  unfold load_csv.park_region_df. rewrite elem_of_drop_duplicates, list_elem_of_omap.
  split.
  - intros (r & Hr & Heq). exists r. split; [done|].
    destruct (load_csv.region_id r) as [rid'|]; simpl in Heq; [|done].
    by injection Heq as <- <-.
  - intros (r & Hr & <- & Hrid). exists r. split; [done|]. by rewrite Hrid.
Qed.

Lemma region_id_known (r : CsvRow.t) (rid : string) :
  load_csv.region_id r = Some rid → rid ∈ Region.region_id <$> load_csv.region_rows.
Proof.
  unfold load_csv.region_id. intros Hrid%elem_of_list_to_map_2.
  unfold load_csv.region_rows. rewrite <- list_fmap_compose.
  apply list_elem_of_fmap. eexists. split; [|exact Hrid]. done.
Qed.

Lemma assigned_region_Some pairs c rid :
  assigned_region pairs c = Some rid → (c, rid) ∈ pairs.
Proof.
  unfold assigned_region. destruct (last _) as [[c' rid']|] eqn:El; [|done].
  intros [= <-]. apply last_Some_elem_of, list_elem_of_filter in El as (Hc & Hin).
  simpl in Hc. by subst.
Qed.

Lemma assigned_region_None pairs c :
  assigned_region pairs c = None ↔ ∀ rid, (c, rid) ∉ pairs.
Proof.
  unfold assigned_region. split.
  - destruct (last _) eqn:El; [done|]. intros _ rid Hin. apply last_None in El.
    assert ((c, rid) ∈ filter (λ row, row.1 = c) pairs) as Hf
      by (by apply list_elem_of_filter).
    rewrite El in Hf. by apply not_elem_of_nil in Hf.
  - intros Hnone. destruct (last _) as [[c' rid']|] eqn:El; [|done].
    apply last_Some_elem_of, list_elem_of_filter in El as (Hc & Hin).
    simpl in Hc. subst. by destruct (Hnone rid').
Qed.

(** X16: [load_csv] changes nothing of a park but its region: the same
    parks in the same order with the same codes.  A park no row of the frame
    names with a known region name keeps the region it had; any other park
    gets the id of a known region that a row of the frame gives it, the one
    of the last distinct (park, region) pair in order of first appearance, so
    the one region when the rows agree. *)
Theorem load_csv_assigns_regions (df : list CsvRow.t) (st : Store) :
  let named c rid :=
    ∃ r, r ∈ df ∧ load_csv.unit_code r = c ∧ load_csv.region_id r = Some rid in
  parks (load_csv.load_csv df st)
  = with_assigned_region (load_csv.park_region_df df) <$> parks st
  ∧ Park.park_code <$> parks (load_csv.load_csv df st) = Park.park_code <$> parks st
  ∧ (∀ p, let p' := with_assigned_region (load_csv.park_region_df df) p in
          Park.park_code p' = Park.park_code p ∧ Park.park_name p' = Park.park_name p
          ∧ Park.state p' = Park.state p ∧ Park.designation p' = Park.designation p
          ∧ Park.latitude p' = Park.latitude p ∧ Park.longitude p' = Park.longitude p
          ∧ Park.description p' = Park.description p ∧ Park.website p' = Park.website p
          ∧ Park.boundary p' = Park.boundary p)
  ∧ (∀ p, (∀ rid, ¬ named (Park.park_code p) rid) →
          with_assigned_region (load_csv.park_region_df df) p = p)
  ∧ (∀ p rid, named (Park.park_code p) rid →
       ∃ rid', named (Park.park_code p) rid'
               ∧ rid' ∈ Region.region_id <$> regions (load_csv.load_csv df st)
               ∧ with_assigned_region (load_csv.park_region_df df) p = set_region_id rid' p)
  ∧ (∀ p rid, named (Park.park_code p) rid →
       (∀ rid', named (Park.park_code p) rid' → rid' = rid) →
       with_assigned_region (load_csv.park_region_df df) p = set_region_id rid p).
Proof.
  intros named.
  assert (∀ c rid, named c rid ↔ (c, rid) ∈ load_csv.park_region_df df) as Hnamed.
  { intros c rid. symmetry. apply elem_of_park_region_df. }
  split; [apply update_park_regions|]. split; [|split; [|split; [|split]]].
  - simpl. rewrite update_park_regions, <- list_fmap_compose.
    apply list_fmap_ext. intros _ p _. simpl. unfold with_assigned_region.
    by destruct (assigned_region _ _).
  - intros p. unfold with_assigned_region. by destruct (assigned_region _ _).
  - intros p Hnone. unfold with_assigned_region.
    rewrite (proj2 (assigned_region_None _ _)); [done|].
    intros rid Hin%Hnamed. by apply (Hnone rid).
  - intros p rid Hp. unfold with_assigned_region.
    destruct (assigned_region _ _) as [rid'|] eqn:Ea.
    + apply assigned_region_Some, Hnamed in Ea. exists rid'. split; [done|]. split; [|done].
      destruct Ea as (r & _ & _ & Hr). by eapply region_id_known.
    + apply Hnamed in Hp. by apply (proj1 (assigned_region_None _ _) Ea) in Hp.
  - intros p rid Hp Hagree. unfold with_assigned_region.
    destruct (assigned_region _ _) as [rid'|] eqn:Ea.
    + apply assigned_region_Some, Hnamed in Ea. by rewrite (Hagree rid' Ea).
    + apply Hnamed in Hp. by apply (proj1 (assigned_region_None _ _) Ea) in Hp.
Qed.

Lemma loaded_regions_NoDup : NoDup (Region.region_id <$> load_csv.region_rows).
Proof. apply (bool_decide_unpack _). vm_compute. exact I. Qed.

(** X17: whatever the frame, [load_csv] leaves a database that satisfies
    the primary keys of [region] and [monthly_visit], and that of [park] when
    the park table satisfied it before; the reference from [park] to [region]
    holds for every park the frame names with a known region, and for all parks
    when the regions the others had are among the seven. *)
Theorem load_csv_establishes_the_keys (df : list CsvRow.t) (st : Store) :
  park_pk st →
  park_pk (load_csv.load_csv df st)
  ∧ region_pk (load_csv.load_csv df st)
  ∧ monthly_visit_pk (load_csv.load_csv df st)
  ∧ Region.region_id <$> regions (load_csv.load_csv df st)
    = ["AKR"; "IMR"; "MWR"; "NCR"; "NER"; "PWR"; "SER"]
  ∧ ((∀ p rid, p ∈ parks st → Park.region_id p = Some rid →
        rid ∈ ["AKR"; "IMR"; "MWR"; "NCR"; "NER"; "PWR"; "SER"]
        ∨ ∃ r, r ∈ df ∧ load_csv.unit_code r = Park.park_code p
               ∧ is_Some (load_csv.region_id r)) →
     park_region_fk (load_csv.load_csv df st)).
Proof.
  intros Hpk. split; [|split; [|split; [|split]]].
  - unfold park_pk. simpl. rewrite update_park_regions, <- list_fmap_compose.
    rewrite (fmap_ext_elem_of _ Park.park_code); [done|].
    intros p _. simpl. unfold with_assigned_region. by destruct (assigned_region _ _).
  - apply loaded_regions_NoDup.
  - apply stored_keys_NoDup.
  - reflexivity.
  - intros Hold p' rid. simpl. rewrite update_park_regions.
    intros (p & -> & Hp)%list_elem_of_fmap. unfold with_assigned_region.
    destruct (assigned_region _ _) as [rid'|] eqn:Ea.
    + simpl. intros [= <-].
      apply assigned_region_Some, elem_of_park_region_df in Ea as (r & _ & _ & Hr).
      by eapply region_id_known.
    + intros Hrid. destruct (Hold p rid Hp Hrid) as [Hin|(r & Hr & Hc & (rid' & Hrid'))].
      * exact Hin.
      * exfalso. apply (proj1 (assigned_region_None _ _) Ea rid').
        apply elem_of_park_region_df. by exists r.
Qed.

Lemma load_csv_keys_witness :
  park_pk sample_store
  ∧ park_pk (load_csv.load_csv sample_frame sample_store)
  ∧ region_pk (load_csv.load_csv sample_frame sample_store)
  ∧ monthly_visit_pk (load_csv.load_csv sample_frame sample_store)
  ∧ Park.region_id <$> parks (load_csv.load_csv sample_frame sample_store)
    = [Some "IMR"; Some "PWR"; Some "PWR"].
Proof.
  assert (park_pk sample_store) as Hpk.
  { unfold park_pk. apply (bool_decide_unpack _). vm_compute. exact I. }
  split; [exact Hpk|].
  destruct (load_csv_establishes_the_keys sample_frame sample_store Hpk)
    as (? & ? & ? & _).
  repeat split; try done.
Defined.

(** X18: running [load_csv] a second time on the same frame changes
    nothing. *)
Theorem load_csv_is_idempotent (df : list CsvRow.t) (st : Store) :
  load_csv.load_csv df (load_csv.load_csv df st) = load_csv.load_csv df st.
Proof.
  unfold load_csv.load_csv. simpl. f_equal.
  rewrite !update_park_regions, <- list_fmap_compose.
  apply list_fmap_ext. intros _ p _. simpl. unfold with_assigned_region.
  destruct (assigned_region _ (Park.park_code p)) as [rid|] eqn:Ea; simpl.
  - by rewrite Ea.
  - by rewrite Ea.
Qed.

(** ** The repair script *)

Lemma insert_or_ignore_fold (table rows : list Region.t) :
  table `prefix_of` foldl insert_or_ignore table rows
  ∧ (∀ rg, rg ∈ foldl insert_or_ignore table rows →
       rg ∈ table ∨ (rg ∈ rows ∧ Region.region_id rg ∉ Region.region_id <$> table))
  ∧ (∀ rg, rg ∈ rows →
       Region.region_id rg ∈ Region.region_id <$> foldl insert_or_ignore table rows)
  ∧ (NoDup (Region.region_id <$> table) →
     NoDup (Region.region_id <$> foldl insert_or_ignore table rows))
  ∧ ((∀ rg, rg ∈ rows → Region.region_id rg ∈ Region.region_id <$> table) →
     foldl insert_or_ignore table rows = table).
Proof.
  revert table. induction rows as [|row rows IH]; intros table.
  - simpl. repeat split; try done.
    + by left.
    + by intros rg ?%not_elem_of_nil.
  - simpl. destruct (IH (insert_or_ignore table row)) as (Hpre & Hfrom & Hids & Hnd & Hsame).
    unfold insert_or_ignore in *.
    destruct (decide (Region.region_id row ∈ Region.region_id <$> table)) as [Hin|Hnotin].
    + split; [done|]. split; [|split; [|split]].
      * intros rg [?|(? & ?)]%Hfrom; [by left|right]. split; [by right|done].
      * intros rg [->|Hrg]%elem_of_cons; [|by apply Hids].
        destruct Hpre as (k & ->). rewrite fmap_app. apply elem_of_app. by left.
      * done.
      * intros Hall. apply Hsame. intros rg Hrg. apply Hall. by right.
    + split; [|split; [|split; [|split]]].
      * etrans; [|exact Hpre]. by apply prefix_app_r.
      * intros rg [Hrg|(? & Hn)]%Hfrom.
        -- apply elem_of_app in Hrg as [?|Hrg]; [by left|].
           apply list_elem_of_singleton in Hrg as ->. right. split; [left|done].
        -- right. split; [by right|]. intros Hc. apply Hn.
           rewrite fmap_app. apply elem_of_app. by left.
      * intros rg [->|Hrg]%elem_of_cons; [|by apply Hids].
        destruct Hpre as (k & ->). rewrite !fmap_app, !elem_of_app. left. right. left.
      * intros Hnd'. apply Hnd. rewrite fmap_app. apply NoDup_app. split; [done|].
        split; [|apply NoDup_singleton].
        intros id Hid ->%list_elem_of_singleton. done.
      * intros Hall. destruct Hnotin. apply Hall. left.
Qed.

Lemma fix_park_regions_regions (df : list CsvRow.t) (st : Store) :
  regions (fix_park_regions.main df st)
  = foldl insert_or_ignore (regions st) load_csv.region_rows.
Proof. reflexivity. Qed.

Lemma fix_park_regions_parks (df : list CsvRow.t) (st : Store) :
  parks (fix_park_regions.main df st)
  = with_assigned_region (load_csv.park_region_df df) <$> parks st.
Proof. apply update_park_regions. Qed.

Lemma load_csv_parks (df : list CsvRow.t) (st : Store) :
  parks (load_csv.load_csv df st)
  = with_assigned_region (load_csv.park_region_df df) <$> parks st.
Proof. apply update_park_regions. Qed.

Lemma with_assigned_region_idemp pairs (table : list Park.t) :
  with_assigned_region pairs <$> (with_assigned_region pairs <$> table)
  = with_assigned_region pairs <$> table.
Proof.
  rewrite <- list_fmap_compose. apply list_fmap_ext. intros _ p _. simpl.
  unfold with_assigned_region.
  destruct (assigned_region pairs (Park.park_code p)) as [rid|] eqn:Ea; simpl; by rewrite Ea.
Qed.

Lemma Store_eq (st st' : Store) :
  regions st = regions st' → parks st = parks st' →
  monthly_visits st = monthly_visits st' → st = st'.
Proof. destruct st, st'. simpl. by intros -> -> ->. Qed.

(** X19: [fix_park_regions.main] leaves the monthly table alone, keeps every
    stored region row in place and adds, of the seven regions, those whose id
    is not stored; it gives the parks the regions [load_csv] would give them.
    It keeps the primary key of [region], changes nothing when run again, and
    changes nothing after [load_csv]. *)
Theorem fix_park_regions_repairs_like_the_loader (df : list CsvRow.t) (st : Store) :
  let st' := fix_park_regions.main df st in
  monthly_visits st' = monthly_visits st
  ∧ parks st' = parks (load_csv.load_csv df st)
  ∧ regions st `prefix_of` regions st'
  ∧ (∀ rg, rg ∈ regions st' →
       rg ∈ regions st
       ∨ (rg ∈ load_csv.region_rows ∧ Region.region_id rg ∉ Region.region_id <$> regions st))
  ∧ (∀ rid, rid ∈ ["AKR"; "IMR"; "MWR"; "NCR"; "NER"; "PWR"; "SER"] →
       rid ∈ Region.region_id <$> regions st')
  ∧ (region_pk st → region_pk st')
  ∧ fix_park_regions.main df st' = st'
  ∧ fix_park_regions.main df (load_csv.load_csv df st) = load_csv.load_csv df st.
Proof.
  intros st'.
  destruct (insert_or_ignore_fold (regions st) load_csv.region_rows)
    as (Hpre & Hfrom & Hids & Hnd & Hsame).
  assert (regions st' = foldl insert_or_ignore (regions st) load_csv.region_rows) as Hreg
    by apply fix_park_regions_regions.
  split; [reflexivity|]. split; [reflexivity|].
  unfold region_pk. rewrite Hreg.
  split; [exact Hpre|]. split; [exact Hfrom|].
  split; [|split; [exact Hnd|split]].
  - intros rid Hrid.
    assert (rid ∈ Region.region_id <$> load_csv.region_rows) as (rg & -> & Hrg)%list_elem_of_fmap
      by exact Hrid.
    by apply Hids.
  - apply Store_eq.
    + rewrite fix_park_regions_regions, Hreg.
      destruct (insert_or_ignore_fold
                  (foldl insert_or_ignore (regions st) load_csv.region_rows)
                  load_csv.region_rows) as (_ & _ & _ & _ & Hsame').
      exact (Hsame' Hids).
    + rewrite fix_park_regions_parks. unfold st'. rewrite fix_park_regions_parks.
      apply with_assigned_region_idemp.
    + reflexivity.
  - apply Store_eq.
    + rewrite fix_park_regions_regions.
      change (regions (load_csv.load_csv df st)) with load_csv.region_rows.
      destruct (insert_or_ignore_fold load_csv.region_rows load_csv.region_rows)
        as (_ & _ & _ & _ & Hsame').
      apply Hsame'. intros rg Hrg. by apply list_elem_of_fmap_2.
    + rewrite fix_park_regions_parks, load_csv_parks.
      apply with_assigned_region_idemp.
    + reflexivity.
Qed.

(** ** From the CSV to the API *)

Lemma monthly_record_returned (st : Store) (park_code : string) (year threshold : Z)
    (m : MonthlyVisit.t) :
  m ∈ monthly_visits st →
  MonthlyVisit.park_code m = Py.upper park_code → MonthlyVisit.year m = year →
  ∃ out,
    response (park_monthly_visits_with_threshold park_code year threshold) st = Return out
    ∧ MonthlyThresholdOut.mk (MonthlyVisit.month m) (Py.or_0 (MonthlyVisit.total_visits m))
        (bool_decide (threshold ≤ Py.or_0 (MonthlyVisit.total_visits m))) ∈ out.
Proof.
  intros Hm Hc Hy. unfold park_monthly_visits_with_threshold. run_handler.
  rewrite monthly_visits_stmt_rows.
  set (rows := order_by Z.leb MonthlyVisit.month (visits_in st (Py.upper park_code) year)).
  assert (m ∈ rows) as Hin.
  { apply elem_of_order_by, list_elem_of_filter. done. }
  destruct rows as [|m0 ms] eqn:E; [by apply not_elem_of_nil in Hin|].
  rewrite <- E in *. clear E.
  destruct (_ <$> rows) as [|x xs] eqn:E'.
  { apply fmap_nil_inv in E'. rewrite E' in Hin. by apply not_elem_of_nil in Hin. }
  rewrite <- E'. eexists. split; [reflexivity|].
  rewrite <- list_fmap_compose. apply list_elem_of_fmap. by exists m.
Qed.

(** X20: what the loader writes, the API reads.  For a row of the frame
    that is the one row, or the last, for its park, year and month, the monthly
    series of that park and year, asked for under the code as the CSV spells
    it, holds the month with the sum of the row's recreation and non-recreation
    visits as total. *)
Theorem loaded_row_is_served (df : list CsvRow.t) (st : Store) (r : CsvRow.t)
    (threshold : Z) :
  r ∈ df →
  last (filter (λ m, monthly_visit_key m = monthly_visit_key (load_csv.monthly_row r))
               (load_csv.monthly_row <$> df)) = Some (load_csv.monthly_row r) →
  let total :=
    fillna_0 (CsvRow.RecreationVisits r) + fillna_0 (CsvRow.NonRecreationVisits r) in
  ∃ out,
    response (park_monthly_visits_with_threshold (str (CsvRow.UnitCode r))
                (fillna_0 (CsvRow.Year r)) threshold)
             (load_csv.load_csv df st) = Return out
    ∧ MonthlyThresholdOut.mk (fillna_0 (CsvRow.Month r)) total
        (bool_decide (threshold ≤ total)) ∈ out
    ∧ StronglySorted Z.lt (MonthlyThresholdOut.month <$> out).
Proof.
  intros Hr Hlast total.
  assert (load_csv.monthly_row r ∈ monthly_visits (load_csv.load_csv df st)) as Hm.
  { simpl.
    pose proof (stored_rows (load_csv.monthly_row <$> df)
                  (monthly_visit_key (load_csv.monthly_row r))) as Hk.
    rewrite Hlast in Hk. simpl in Hk.
    assert (load_csv.monthly_row r
            ∈ filter (λ m, monthly_visit_key m = monthly_visit_key (load_csv.monthly_row r))
                (foldl insert_or_replace [] (load_csv.monthly_row <$> df))) as Hin
      by (rewrite Hk; left).
    by apply list_elem_of_filter in Hin as (_ & ?). }
  destruct (monthly_record_returned (load_csv.load_csv df st) (str (CsvRow.UnitCode r))
              (fillna_0 (CsvRow.Year r)) threshold _ Hm) as (out & Hout & Hrec); [done..|].
  exists out. split; [exact Hout|]. split; [exact Hrec|].
  revert Hout. unfold park_monthly_visits_with_threshold. run_handler.
  rewrite monthly_visits_stmt_rows.
  set (rows := order_by Z.leb MonthlyVisit.month _).
  destruct (_ <$> rows) as [|x xs] eqn:E'; run_handler; [discriminate|].
  rewrite <- E'. intros [= <-]. rewrite <- !list_fmap_compose.
  change (StronglySorted Z.lt (MonthlyVisit.month <$> rows)).
  apply StronglySorted_le_lt.
  - unfold rows, order_by. rewrite sort_by_Permutation. unfold visits_in.
    eapply (NoDup_fmap_filter _ MonthlyVisit.month); [apply stored_keys_NoDup|].
    intros x' y' (Hc1 & Hy1) (Hc2 & Hy2) Hmo. unfold monthly_visit_key. congruence.
  - eapply StronglySorted_fmap; [|apply order_by_Z_sorted]. done.
Qed.

Lemma loaded_row_witness :
  sample_row "Intermountain" "GRCA" 2023 1 (Some 20) None ∈ sample_frame
  ∧ response (park_monthly_visits_with_threshold "grca" 2023 21)
      (load_csv.load_csv sample_frame sample_store)
    = Return [MonthlyThresholdOut.mk 1 20 false]
  ∧ ∃ out,
      response (park_monthly_visits_with_threshold "GRCA" 2023 21)
        (load_csv.load_csv sample_frame sample_store) = Return out
      ∧ MonthlyThresholdOut.mk 1 20 false ∈ out.
Proof.
  assert (sample_row "Intermountain" "GRCA" 2023 1 (Some 20) None ∈ sample_frame) as Hr
    by (right; left).
  split; [exact Hr|]. split; [vm_compute; reflexivity|].
  destruct (loaded_row_is_served sample_frame sample_store _ 21 Hr)
    as (out & Hout & Hrec & _); [vm_compute; reflexivity|].
  exists out. split; [exact Hout|exact Hrec].
Defined.

(** ** The dashboard's fetchers *)

(** X21: the year slider of the dashboard spans the years that are stored:
    its bounds are the least and the greatest year of the monthly table, and
    2015 and 2024 when the table is empty (the API answers 404 and the fetcher
    falls back); the lower bound never exceeds the upper one. *)
Theorem year_slider_spans_the_stored_years (st : Store) :
  (monthly_visits st = [] → year_slider st = (2015, 2024))
  ∧ (monthly_visits st ≠ [] →
     (∃ m, m ∈ monthly_visits st ∧ MonthlyVisit.year m = (year_slider st).1)
     ∧ (∃ m, m ∈ monthly_visits st ∧ MonthlyVisit.year m = (year_slider st).2)
     ∧ ∀ m, m ∈ monthly_visits st →
         (year_slider st).1 ≤ MonthlyVisit.year m ∧ MonthlyVisit.year m ≤ (year_slider st).2)
  ∧ (year_slider st).1 ≤ (year_slider st).2.
Proof.
  unfold year_slider, fetch_years, get_available_years. run_handler. unfold years_stmt.
  pose proof (agg_min_spec (MonthlyVisit.year <$> monthly_visits st)) as Hmin.
  pose proof (agg_max_spec (MonthlyVisit.year <$> monthly_visits st)) as Hmax.
  destruct (agg_min _) as [mn|]; destruct (agg_max _) as [mx|]; run_handler.
  - destruct Hmin as ((m1 & -> & Hm1)%list_elem_of_fmap & Hmin).
    destruct Hmax as ((m2 & -> & Hm2)%list_elem_of_fmap & Hmax).
    cbn [fst snd].
    rewrite lookup_insert_ne by done. rewrite !lookup_insert. simpl.
    split; [|split].
    + intros E. rewrite E in Hm1. by apply not_elem_of_nil in Hm1.
    + intros _. split; [eauto|]. split; [eauto|].
      intros m Hm. split; [apply Hmin|apply Hmax]; by apply list_elem_of_fmap_2.
    + apply Hmax. by apply list_elem_of_fmap_2.
  - apply fmap_nil_inv in Hmax. destruct Hmin as ((m1 & _ & Hm1)%list_elem_of_fmap & _).
    rewrite Hmax in Hm1. by apply not_elem_of_nil in Hm1.
  - apply fmap_nil_inv in Hmin. destruct Hmax as ((m1 & _ & Hm1)%list_elem_of_fmap & _).
    rewrite Hmin in Hm1. by apply not_elem_of_nil in Hm1.
  - apply fmap_nil_inv in Hmin. cbn [fst snd].
    rewrite lookup_insert_ne by done. rewrite !lookup_insert. simpl.
    split; [done|]. split; [done|lia].
Qed.

Lemma dict_of_distinct {A K V} `{EqDecision K} (k : A → K) (v : A → V) (l : list A)
    (acc : list (K * V)) :
  NoDup (k <$> l) → (∀ a, a ∈ l → k a ∉ acc.*1) →
  foldl (λ d a, dict_set d (k a) (v a)) acc l = acc ++ ((λ a, (k a, v a)) <$> l).
Proof.
  revert acc. induction l as [|a l IH]; intros acc Hnd Hnew.
  - simpl. by rewrite app_nil_r.
  - rewrite fmap_cons in Hnd. apply NoDup_cons in Hnd as (Hnotin & Hnd).
    simpl. unfold dict_set at 2. rewrite decide_False by (apply Hnew; left).
    rewrite IH; [by rewrite <- app_assoc|done|].
    intros b Hb. rewrite fmap_app, elem_of_app. intros [Hin|Hin].
    + apply (Hnew b); [by right|done].
    + apply list_elem_of_singleton in Hin. apply Hnotin. simpl in Hin. rewrite <- Hin.
      by apply list_elem_of_fmap_2.
Qed.

(** X22: the park pickers of the dashboard.  A search with an empty text
    lists nothing.  Otherwise the search lists (code, name) pairs of stored
    parks that have a row in the year and whose name matches the text by
    [ILIKE], at most [limit] of them and each code once; the region picker lists
    the parks with a row in the year whose region row has the id asked for, in
    upper case, each once.  Neither misses such a park while the number of
    stored parks stays within the limit (500 for the region picker). *)
Theorem park_pickers_list_stored_parks (st : Store) (year : Z) :
  park_pk st → region_pk st →
  (∀ limit, fetch_parks_by_query "" year limit st = [])
  ∧ (∀ query limit, query ≠ "" →
       let found := fetch_parks_by_query query year limit st in
       let matches p :=
         p ∈ parks st ∧ visits_in st (Park.park_code p) year ≠ []
         ∧ park_filter None (Some query) p in
       NoDup found.*1
       ∧ (0 ≤ limit → Z.of_nat (length found) ≤ limit)
       ∧ (∀ item, item ∈ found →
            ∃ p, matches p ∧ item = (Park.park_code p, Park.park_name p))
       ∧ (limit < 0 ∨ Z.of_nat (length (parks st)) ≤ limit →
          ∀ p, matches p → (Park.park_code p, Park.park_name p) ∈ found))
  ∧ (∀ region_id,
       let listed := fetch_parks_by_region region_id year st in
       let member p :=
         p ∈ parks st ∧ visits_in st (Park.park_code p) year ≠ []
         ∧ Region.region_id <$> region_of st p = Some (Py.upper region_id) in
       NoDup listed.*1
       ∧ (∀ item, item ∈ listed →
            ∃ p, member p ∧ item = (Park.park_code p, Park.park_name p))
       ∧ (Z.of_nat (length (parks st)) ≤ 500 →
          ∀ p, member p → (Park.park_code p, Park.park_name p) ∈ listed)).
Proof.
  intros Hpk Hrk. split; [done|]. split.
  - intros query limit Hq found matches. unfold found, fetch_parks_by_query.
    rewrite decide_False by done.
    destruct (annual_visits_by_park_response st year None None (Some query) None limit
                Hpk Hrk) as (out & -> & Hsound & Hnd & _ & Hlen & Hcomplete).
    split; [|split; [|split]].
    + rewrite <- list_fmap_compose. exact Hnd.
    + intros Hlim. rewrite length_fmap. by apply Hlen.
    + intros item (rec & -> & Hrec)%list_elem_of_fmap.
      destruct (Hsound rec Hrec) as (p & (Hp & Hne & _ & Hf & _) & ->).
      exists p. done.
    + intros Hlim p (Hp & Hne & Hf).
      apply (list_elem_of_fmap_2
               (λ p, (AnnualParkVisitsOut.park_code p, AnnualParkVisitsOut.park_name p))
               out (annual_record st year p)).
      apply Hcomplete; [done|]. repeat split; done.
  - intros region_id listed member. unfold listed, fetch_parks_by_region.
    destruct (annual_visits_by_park_response st year (Some region_id) None None None 500
                Hpk Hrk) as (out & -> & Hsound & Hnd & _ & _ & Hcomplete).
    rewrite (dict_of_distinct AnnualParkVisitsOut.park_code AnnualParkVisitsOut.park_name);
      [|done|by intros a _ ?%not_elem_of_nil].
    rewrite app_nil_l. split; [|split].
    + rewrite <- list_fmap_compose. exact Hnd.
    + intros item (rec & -> & Hrec)%list_elem_of_fmap.
      destruct (Hsound rec Hrec) as (p & (Hp & Hne & Hr & _) & ->).
      exists p. done.
    + intros Hlim p (Hp & Hne & Hr).
      apply (list_elem_of_fmap_2
               (λ p, (AnnualParkVisitsOut.park_code p, AnnualParkVisitsOut.park_name p))
               out (annual_record st year p)).
      apply Hcomplete; [by right|]. repeat split; done.
Qed.

Lemma park_pickers_witness :
  park_pk sample_store ∧ region_pk sample_store
  ∧ fetch_parks_by_query "canyon" 2020 50 sample_store
    = [("GRCA", "Grand Canyon National Park")]
  ∧ fetch_parks_by_region "imr" 2020 sample_store
    = [("GRCA", "Grand Canyon National Park"); ("ZION", "Zion National Park")]
  ∧ fetch_parks_by_query "" 2020 50 sample_store = [].
Proof.
  assert (park_pk sample_store) as Hpk.
  { unfold park_pk. apply (bool_decide_unpack _). vm_compute. exact I. }
  assert (region_pk sample_store) as Hrk.
  { unfold region_pk. apply (bool_decide_unpack _). vm_compute. exact I. }
  split; [exact Hpk|]. split; [exact Hrk|].
  split; [vm_compute; reflexivity|]. split; [vm_compute; reflexivity|].
  apply (proj1 (park_pickers_list_stored_parks sample_store 2020 Hpk Hrk)).
Defined.

(** ** What a request reads

    A statement with a condition on the monthly row reads no other monthly
    row: it gives the same rows on the store restricted to that condition. *)

Lemma join_filter_r {A B} (on : A * B → Prop) `{∀ x, Decision (on x)}
    (V : B → Prop) `{∀ b, Decision (V b)} (l : list A) (r : list B) :
  SQL.join on l (filter V r) = filter (λ x, V x.2) (SQL.join on l r).
Proof.
  rewrite filter_join, join_bind. apply bind_ext_elem_of. intros a _. f_equal.
  rewrite list_filter_filter. apply list_filter_iff. intros b. simpl. tauto.
Qed.

Lemma join_filter_l {A B} (on : A * B → Prop) `{∀ x, Decision (on x)}
    (V : A → Prop) `{∀ a, Decision (V a)} (l : list A) (r : list B) :
  SQL.join on (filter V l) r = filter (λ x, V x.1) (SQL.join on l r).
Proof.
  rewrite filter_join, join_bind.
  induction l as [|a l IH]; [done|].
  rewrite filter_cons, bind_cons. destruct (decide (V a)) as [Hv|Hv].
  - rewrite bind_cons, IH. f_equal. f_equal. apply list_filter_iff. intros b. simpl. tauto.
  - rewrite IH. rewrite (filter_nil_iff (λ b, V (a, b).1 ∧ on (a, b))); [done|].
    intros b _ (? & _). done.
Qed.

Lemma outer_join_filter_l {A B} (on : A * B → Prop) `{∀ x, Decision (on x)}
    (V : A → Prop) `{∀ a, Decision (V a)} (l : list A) (r : list B) :
  SQL.outer_join on (filter V l) r = filter (λ x, V x.1) (SQL.outer_join on l r).
Proof.
  unfold SQL.outer_join. rewrite filter_bind.
  induction l as [|a l IH]; [done|].
  rewrite filter_cons, bind_cons. destruct (decide (V a)) as [Hv|Hv].
  - rewrite bind_cons, IH. f_equal. symmetry. apply filter_all.
    intros x Hx. destruct (filter _ r).
    + by apply list_elem_of_singleton in Hx as ->.
    + by apply list_elem_of_fmap in Hx as (b' & -> & _).
  - rewrite IH. rewrite (filter_nil_iff (λ x, V x.1)); [done|].
    intros x Hx. destruct (filter _ r).
    + by apply list_elem_of_singleton in Hx as ->.
    + by apply list_elem_of_fmap in Hx as (b' & -> & _).
Qed.

Section restricted_store.
Context (st : Store) (V : MonthlyVisit.t → Prop) `{∀ m, Decision (V m)}.

Lemma park_visits_restrict :
  park_visits (restrict st V) = filter (λ x, V x.2) (park_visits st).
Proof. apply join_filter_r. Qed.

Lemma visits_park_restrict :
  visits_park (restrict st V) = filter (λ x, V x.1) (visits_park st).
Proof. apply join_filter_l. Qed.

Lemma park_visits_region_restrict :
  park_visits_region (restrict st V) = filter (λ x, V x.1.2) (park_visits_region st).
Proof.
  unfold park_visits_region. rewrite park_visits_restrict.
  change (regions (restrict st V)) with (regions st).
  exact (outer_join_filter_l
           (λ x : Park.t * MonthlyVisit.t * Region.t,
              Some (Region.region_id x.2) = Park.region_id x.1.1)
           (λ x : Park.t * MonthlyVisit.t, V x.2) (park_visits st) (regions st)).
Qed.

(** A selection that implies [V] selects the same rows on the restricted
    store. *)
Lemma selected_restrict (Sel : Park.t * MonthlyVisit.t * option Region.t → Prop)
    `{∀ x, Decision (Sel x)} :
  (∀ x, Sel x → V x.1.2) →
  filter Sel (park_visits_region (restrict st V)) = filter Sel (park_visits_region st).
Proof.
  intros HV. rewrite park_visits_region_restrict, list_filter_filter.
  apply list_filter_iff. intros x. split; [tauto|]. intros Hs. split; [done|by apply HV].
Qed.

Lemma selected_park_visits_restrict (Sel : Park.t * MonthlyVisit.t → Prop)
    `{∀ x, Decision (Sel x)} :
  (∀ x, Sel x → V x.2) →
  filter Sel (park_visits (restrict st V)) = filter Sel (park_visits st).
Proof.
  intros HV. rewrite park_visits_restrict, list_filter_filter.
  apply list_filter_iff. intros x. split; [tauto|]. intros Hs. split; [done|by apply HV].
Qed.

Lemma selected_visits_park_restrict (Sel : MonthlyVisit.t * Park.t → Prop)
    `{∀ x, Decision (Sel x)} :
  (∀ x, Sel x → V x.1) →
  filter Sel (visits_park (restrict st V)) = filter Sel (visits_park st).
Proof.
  intros HV. rewrite visits_park_restrict, list_filter_filter.
  apply list_filter_iff. intros x. split; [tauto|]. intros Hs. split; [done|by apply HV].
Qed.

End restricted_store.

Section year_frame.
Context (st : Store) (year : Z).
Let V (m : MonthlyVisit.t) : Prop := MonthlyVisit.year m = year.
Let st' := restrict st V.

Lemma monthly_visits_stmt_frame c : monthly_visits_stmt c year st' = monthly_visits_stmt c year st.
Proof.
  unfold monthly_visits_stmt, st'. simpl. rewrite list_filter_filter.
  f_equal. f_equal. apply list_filter_iff. intros m. unfold V. tauto.
Qed.

Lemma annual_visits_stmt_frame r c q mt lim :
  annual_visits_stmt year r c q mt lim st' = annual_visits_stmt year r c q mt lim st.
Proof.
  unfold annual_visits_stmt, st'. cbv zeta.
  rewrite (selected_restrict st V); [done|]. by intros x (? & _).
Qed.

Lemma annual_totals_stmt_frame r : annual_totals_stmt year r st' = annual_totals_stmt year r st.
Proof.
  unfold annual_totals_stmt, st'. cbv zeta.
  rewrite (selected_visits_park_restrict st V); [done|]. by intros x (? & _).
Qed.

Lemma above_average_stmt_frame avg r c q :
  above_average_stmt year avg r c q st' = above_average_stmt year avg r c q st.
Proof.
  unfold above_average_stmt, st'. cbv zeta.
  rewrite (selected_restrict st V); [done|]. by intros x (? & _).
Qed.

Lemma rank_stmt_frame r : rank_stmt year r st' = rank_stmt year r st.
Proof.
  unfold rank_stmt, st'. cbv zeta.
  rewrite (selected_park_visits_restrict st V); [done|]. by intros x (? & _).
Qed.

Lemma metric_stmt_frame col r lim : metric_stmt col year r lim st' = metric_stmt col year r lim st.
Proof.
  unfold metric_stmt, st'. cbv zeta.
  rewrite (selected_restrict st V); [done|]. by intros x (? & _).
Qed.

Lemma variability_stmt_frame r c q :
  variability_stmt year r c q st' = variability_stmt year r c q st.
Proof.
  unfold variability_stmt, st'. cbv zeta.
  rewrite (selected_restrict st V); [done|]. by intros x (? & _).
Qed.

Lemma region_totals_stmt_frame r :
  region_totals_stmt year r st' = region_totals_stmt year r st.
Proof.
  unfold region_totals_stmt, st'. cbv zeta. simpl.
  rewrite join_filter_r, list_filter_filter.
  rewrite (list_filter_iff _ (λ x : Region.t * Park.t * MonthlyVisit.t,
                                MonthlyVisit.year x.2 = year
                                ∧ when r (λ rid, Region.region_id x.1.1 = rid))); [done|].
  intros x. unfold V. tauto.
Qed.

Lemma month_change_stmt_frame c : month_change_stmt c year st' = month_change_stmt c year st.
Proof.
  unfold month_change_stmt, st'. cbv zeta. simpl.
  rewrite outer_join_filter_l, list_filter_filter.
  rewrite (list_filter_iff _ (λ x : MonthlyVisit.t * option MonthlyVisit.t,
                                MonthlyVisit.park_code x.1 = c
                                ∧ MonthlyVisit.year x.1 = year)
             (SQL.outer_join _ (monthly_visits st) (filter V (monthly_visits st))));
    [|intros x; unfold V; tauto].
  f_equal. f_equal.
  unfold SQL.outer_join. rewrite !filter_bind. apply bind_ext_elem_of. intros m1 _.
  destruct (decide (MonthlyVisit.year m1 = year)) as [Hy|Hy].
  - rewrite list_filter_filter.
    rewrite (list_filter_iff _ (λ b, MonthlyVisit.park_code (m1, b).1
                                     = MonthlyVisit.park_code (m1, b).2
                                     ∧ MonthlyVisit.year (m1, b).1 = MonthlyVisit.year (m1, b).2
                                     ∧ MonthlyVisit.month (m1, b).1
                                       = MonthlyVisit.month (m1, b).2 + 1)); [done|].
    intros m2. unfold V. simpl. split; [tauto|]. intros (? & ? & ?). split; [done|congruence].
  - rewrite !filter_nil_iff; [done| |].
    + intros x Hx (_ & Hyx). apply Hy. rewrite <- Hyx.
      destruct (filter _ (monthly_visits st)).
      * by apply list_elem_of_singleton in Hx as ->.
      * by apply list_elem_of_fmap in Hx as (b' & -> & _).
    + intros x Hx (_ & Hyx). apply Hy. rewrite <- Hyx.
      destruct (filter _ (filter V (monthly_visits st))).
      * by apply list_elem_of_singleton in Hx as ->.
      * by apply list_elem_of_fmap in Hx as (b' & -> & _).
Qed.

End year_frame.

Section range_frames.
Context (st : Store).

Lemma average_monthly_stmt_frame sy ey r c q lim :
  average_monthly_stmt sy ey r c q lim
    (restrict st (λ m, sy ≤ MonthlyVisit.year m ∧ MonthlyVisit.year m ≤ ey))
  = average_monthly_stmt sy ey r c q lim st.
Proof.
  unfold average_monthly_stmt. cbv zeta.
  rewrite (selected_restrict st (λ m, sy ≤ MonthlyVisit.year m ∧ MonthlyVisit.year m ≤ ey));
    [done|]. by intros x (? & _).
Qed.

Lemma peak_season_stmt_frame year thr r :
  peak_season_stmt year thr r
    (restrict st (λ m, MonthlyVisit.year m = year ∧ MonthlyVisit.month m ∈ [6; 7; 8]))
  = peak_season_stmt year thr r st.
Proof.
  unfold peak_season_stmt. cbv zeta.
  rewrite (selected_restrict st
             (λ m, MonthlyVisit.year m = year ∧ MonthlyVisit.month m ∈ [6; 7; 8]));
    [done|]. intros x (? & ? & _). done.
Qed.

Lemma annual_stmt_frame rid sy ey :
  annual_stmt rid sy ey (restrict st (λ m, MonthlyVisit.year m ∈ [sy; ey]))
  = annual_stmt rid sy ey st.
Proof.
  unfold annual_stmt.
  rewrite (selected_visits_park_restrict st (λ m, MonthlyVisit.year m ∈ [sy; ey]));
    [done|]. by intros x (_ & ?).
Qed.

Lemma growth_stmt_frame rid sy ey :
  growth_stmt rid sy ey (restrict st (λ m, MonthlyVisit.year m ∈ [sy; ey]))
  = growth_stmt rid sy ey st.
Proof. unfold growth_stmt. cbv zeta. by rewrite annual_stmt_frame. Qed.

End range_frames.

Lemma restrict_eq (st st' : Store) (V : MonthlyVisit.t → Prop) `{∀ m, Decision (V m)} :
  regions st = regions st' → parks st = parks st' →
  filter V (monthly_visits st) = filter V (monthly_visits st') →
  restrict st V = restrict st' V.
Proof. intros Hr Hp Hm. unfold restrict. by rewrite Hr, Hp, Hm. Qed.

Ltac unfold_handler :=
  unfold mbind, mret, handler_bind, handler_ret, exec, raise, pure;
  cbn [fst snd outcome_bind outcome_ret].

(** X23: a request reads the monthly rows of its own years only.  Two
    databases with the same parks and regions give the same response, and run
    the same number of statements, to every request for a year when they hold
    the same monthly rows for that year; for the peak season it is enough that
    they agree on June, July and August of the year, for the average over a
    range on the years of the range, and for the growth on its two boundary
    years: the years in between are not read. *)
Theorem requests_read_their_own_years (st st' : Store) :
  regions st = regions st' → parks st = parks st' →
  (∀ year,
     filter (λ m, MonthlyVisit.year m = year) (monthly_visits st)
     = filter (λ m, MonthlyVisit.year m = year) (monthly_visits st') →
     (∀ c threshold,
        park_monthly_visits_with_threshold c year threshold st
        = park_monthly_visits_with_threshold c year threshold st')
     ∧ (∀ r c q min_total limit,
          annual_visits_by_park year r c q min_total limit st
          = annual_visits_by_park year r c q min_total limit st')
     ∧ (∀ r c q,
          parks_above_system_average year r c q st
          = parks_above_system_average year r c q st')
     ∧ (∀ limit r q, top_parks_by_year year limit r q st = top_parks_by_year year limit r q st')
     ∧ (∀ r, annual_visits_by_region year r st = annual_visits_by_region year r st')
     ∧ (∀ c, month_to_month_change c year st = month_to_month_change c year st')
     ∧ (∀ r c q limit,
          park_visit_variability year r c q limit st
          = park_visit_variability year r c q limit st')
     ∧ (∀ metric r limit,
          parks_by_metric year metric r limit st = parks_by_metric year metric r limit st'))
  ∧ (∀ year threshold r,
       filter (λ m, MonthlyVisit.year m = year ∧ MonthlyVisit.month m ∈ [6; 7; 8])
              (monthly_visits st)
       = filter (λ m, MonthlyVisit.year m = year ∧ MonthlyVisit.month m ∈ [6; 7; 8])
                (monthly_visits st') →
       peak_season_above_threshold year threshold r st
       = peak_season_above_threshold year threshold r st')
  ∧ (∀ start_year end_year r c q limit,
       filter (λ m, start_year ≤ MonthlyVisit.year m ∧ MonthlyVisit.year m ≤ end_year)
              (monthly_visits st)
       = filter (λ m, start_year ≤ MonthlyVisit.year m ∧ MonthlyVisit.year m ≤ end_year)
                (monthly_visits st') →
       average_monthly_visits_by_park start_year end_year r c q limit st
       = average_monthly_visits_by_park start_year end_year r c q limit st')
  ∧ (∀ region_id start_year end_year,
       filter (λ m, MonthlyVisit.year m ∈ [start_year; end_year]) (monthly_visits st)
       = filter (λ m, MonthlyVisit.year m ∈ [start_year; end_year]) (monthly_visits st') →
       growth_by_region_over_time region_id start_year end_year st
       = growth_by_region_over_time region_id start_year end_year st').
Proof.
  intros Hr Hp. split; [|split; [|split]].
  - intros year Hm.
    pose proof (restrict_eq st st' (λ m, MonthlyVisit.year m = year) Hr Hp Hm) as Heq.
    assert (∀ c, monthly_visits_stmt c year st = monthly_visits_stmt c year st') as H1.
    { intros. rewrite <- (monthly_visits_stmt_frame st), <- (monthly_visits_stmt_frame st').
      by rewrite Heq. }
    assert (∀ r c q mt lim, annual_visits_stmt year r c q mt lim st
                            = annual_visits_stmt year r c q mt lim st') as H2.
    { intros. rewrite <- (annual_visits_stmt_frame st), <- (annual_visits_stmt_frame st').
      by rewrite Heq. }
    assert (∀ r, annual_totals_stmt year r st = annual_totals_stmt year r st') as H5a.
    { intros. rewrite <- (annual_totals_stmt_frame st), <- (annual_totals_stmt_frame st').
      by rewrite Heq. }
    assert (∀ avg r c q, above_average_stmt year avg r c q st
                         = above_average_stmt year avg r c q st') as H5b.
    { intros. rewrite <- (above_average_stmt_frame st), <- (above_average_stmt_frame st').
      by rewrite Heq. }
    assert (∀ r, rank_stmt year r st = rank_stmt year r st') as H6.
    { intros. rewrite <- (rank_stmt_frame st), <- (rank_stmt_frame st'). by rewrite Heq. }
    assert (∀ r, region_totals_stmt year r st = region_totals_stmt year r st') as H7.
    { intros. rewrite <- (region_totals_stmt_frame st), <- (region_totals_stmt_frame st').
      by rewrite Heq. }
    assert (∀ c, month_change_stmt c year st = month_change_stmt c year st') as H8.
    { intros. rewrite <- (month_change_stmt_frame st), <- (month_change_stmt_frame st').
      by rewrite Heq. }
    assert (∀ r c q, variability_stmt year r c q st = variability_stmt year r c q st') as H10.
    { intros. rewrite <- (variability_stmt_frame st), <- (variability_stmt_frame st').
      by rewrite Heq. }
    assert (∀ col r lim, metric_stmt col year r lim st = metric_stmt col year r lim st')
      as H11.
    { intros. rewrite <- (metric_stmt_frame st), <- (metric_stmt_frame st').
      by rewrite Heq. }
    repeat split; intros.
    + unfold park_monthly_visits_with_threshold. unfold_handler. rewrite H1.
      by destruct (monthly_visits_stmt _ _ _).
    + unfold annual_visits_by_park. unfold_handler. by rewrite H2.
    + unfold parks_above_system_average. unfold_handler. rewrite H5a.
      destruct (annual_totals_stmt _ _ _); [done|]. unfold_handler.
      destruct (rounded_mean _); [|done]. unfold_handler. by rewrite H5b.
    + unfold top_parks_by_year. unfold_handler. by rewrite H6.
    + unfold annual_visits_by_region. unfold_handler. by rewrite H7.
    + unfold month_to_month_change. unfold_handler. rewrite H8.
      by destruct (month_change_stmt _ _ _).
    + unfold park_visit_variability. unfold_handler. rewrite H10.
      destruct (variability_stmt _ _ _ _ _); [done|]. unfold_handler.
      by destruct (mapM _ _).
    + unfold parks_by_metric. destruct (allowed !! metric); [|done].
      unfold_handler. by rewrite H11.
  - intros year threshold r Hm.
    pose proof (restrict_eq st st' _ Hr Hp Hm) as Heq.
    unfold peak_season_above_threshold. unfold_handler.
    rewrite <- (peak_season_stmt_frame st), <- (peak_season_stmt_frame st'). by rewrite Heq.
  - intros sy ey r c q limit Hm.
    pose proof (restrict_eq st st' _ Hr Hp Hm) as Heq.
    unfold average_monthly_visits_by_park. destruct (sy >? ey); [done|]. unfold_handler.
    rewrite <- (average_monthly_stmt_frame st), <- (average_monthly_stmt_frame st').
    by rewrite Heq.
  - intros rid sy ey Hm.
    pose proof (restrict_eq st st' _ Hr Hp Hm) as Heq.
    unfold growth_by_region_over_time. destruct (sy >=? ey); [done|]. unfold_handler.
    rewrite <- (growth_stmt_frame st), <- (growth_stmt_frame st'). rewrite Heq.
    destruct (growth_stmt _ _ _ _); [done|]. unfold_handler. by destruct (mapM _ _).
Qed.

Lemma requests_read_their_own_years_witness :
  let st' := restrict sample_store (λ m, MonthlyVisit.year m = 2020) in
  regions sample_store = regions st'
  ∧ parks sample_store = parks st'
  ∧ monthly_visits sample_store ≠ monthly_visits st'
  ∧ top_parks_by_year 2020 2 None None sample_store
    = top_parks_by_year 2020 2 None None st'
  ∧ month_to_month_change "GRCA" 2020 sample_store
    = month_to_month_change "GRCA" 2020 st'.
Proof.
  cbv zeta.
  destruct (requests_read_their_own_years sample_store
              (restrict sample_store (λ m, MonthlyVisit.year m = 2020))
              eq_refl eq_refl) as [Hyear _].
  destruct (Hyear 2020 eq_refl) as (_ & _ & _ & Htop & _ & Hchange & _).
  split; [reflexivity|]. split; [reflexivity|]. split; [discriminate|].
  split; [apply Htop | apply Hchange].
Defined.

(** * The empty result, operation by operation

    What each operation answers when no stored row matches its filters, read
    on the tables with the descriptions of the statements given above. *)

Lemma nil_iff_no_elem {A} (l : list A) : l = [] ↔ ∀ x, x ∉ l.
Proof.
  split; [intros -> x; apply not_elem_of_nil|apply elem_of_nil_inv].
Qed.

Lemma order_by_nil_iff {A B} (le : B → B → bool) (key : A → B) (l : list A) :
  order_by le key l = [] ↔ l = [].
Proof.
  rewrite !nil_iff_no_elem. split; intros H x Hx; apply (H x);
    by apply (elem_of_order_by le key).
Qed.

Lemma order_by_desc_nil_iff {A B} (le : B → B → bool) (key : A → B) (l : list A) :
  order_by_desc le key l = [] ↔ l = [].
Proof.
  rewrite !nil_iff_no_elem. split; intros H x Hx; apply (H x);
    by apply (elem_of_order_by_desc_iff le key).
Qed.

Lemma fmap_nil_iff {A B} (f : A → B) (l : list A) : f <$> l = [] ↔ l = [].
Proof. split; [apply fmap_nil_inv|by intros ->]. Qed.

Lemma outer_join_left {A B} (on : A * B → Prop) `{∀ x, Decision (on x)}
    (l : list A) (r : list B) a :
  a ∈ l → ∃ b, (a, b) ∈ SQL.outer_join on l r.
Proof.
  intros Ha. destruct (filter (λ b, on (a, b)) r) as [|b bs] eqn:E.
  - exists None. apply elem_of_outer_join. split; [done|]. simpl.
    intros b Hb Hon. assert (b ∈ filter (λ b, on (a, b)) r) as Hin
      by (by apply list_elem_of_filter).
    rewrite E in Hin. by apply not_elem_of_nil in Hin.
  - exists (Some b). apply elem_of_outer_join. split; [done|]. simpl.
    assert (b ∈ filter (λ b, on (a, b)) r) as (? & ?)%list_elem_of_filter
      by (rewrite E; left). done.
Qed.

Lemma monthly_visits_stmt_nil (st : Store) (c : string) (year : Z) :
  monthly_visits_stmt c year st = [] ↔ visits_in st c year = [].
Proof. unfold monthly_visits_stmt. by rewrite fmap_nil_iff, order_by_nil_iff. Qed.

Lemma month_change_stmt_nil (st : Store) (c : string) (year : Z) :
  month_change_stmt c year st = [] ↔ visits_in st c year = [].
Proof.
  unfold month_change_stmt. cbv zeta. rewrite fmap_nil_iff, order_by_nil_iff.
  rewrite !nil_iff_no_elem. split.
  - intros Hno m ((Hc & Hy) & Hm)%list_elem_of_filter.
    destruct (outer_join_left
                (λ x : MonthlyVisit.t * MonthlyVisit.t,
                   MonthlyVisit.park_code x.1 = MonthlyVisit.park_code x.2
                   ∧ MonthlyVisit.year x.1 = MonthlyVisit.year x.2
                   ∧ MonthlyVisit.month x.1 = MonthlyVisit.month x.2 + 1)
                (monthly_visits st) (monthly_visits st) m Hm) as (b & Hb).
    apply (Hno (m, b)). apply list_elem_of_filter. done.
  - intros Hno x ((Hc & Hy) & (Hx & _)%elem_of_outer_join)%list_elem_of_filter.
    apply (Hno x.1). apply list_elem_of_filter. done.
Qed.

Lemma variability_stmt_nil (st : Store) (year : Z) (r c q : option string) :
  park_pk st → region_pk st →
  variability_stmt year r c q st = [] ↔
  ∀ p, ¬ (p ∈ parks st ∧ visits_in st (Park.park_code p) year ≠ []
          ∧ region_is r (region_of st p) ∧ park_filter c q p).
Proof.
  intros Hpk Hrk. rewrite nil_iff_no_elem. split.
  - intros Hno p (Hp & Hne & Hr & Hf). eapply Hno.
    apply (variability_rows_elem st Hpk Hrk year r c q). exists p. eauto.
  - intros Hno row (p & Hp & Hne & Hr & Hf & _)%(variability_rows_elem st Hpk Hrk).
    apply (Hno p). done.
Qed.

Lemma annual_totals_stmt_nil (st : Store) (year : Z) (r : option string) :
  park_pk st →
  annual_totals_stmt year r st = [] ↔ ∀ c, ¬ in_scope st year r c.
Proof.
  intros Hpk.
  destruct (annual_totals_stmt_scope st year r Hpk) as (codes & _ & Hcodes & ->).
  rewrite fmap_nil_iff, nil_iff_no_elem. split.
  - intros Hno c Hc. apply (Hno c). by apply Hcodes.
  - intros Hno c Hc. apply (Hno c). by apply Hcodes.
Qed.

(** The parks the growth operation compares: those of the region, the region
    being stored, with a row in the start year and one in the end year. *)
Lemma growth_stmt_nil (st : Store) (rid : string) (sy ey : Z) :
  park_pk st →
  growth_stmt rid sy ey st = [] ↔
  ∀ p rg, ¬ (p ∈ parks st ∧ rg ∈ regions st
             ∧ Park.region_id p = Some rid ∧ Region.region_id rg = rid
             ∧ visits_in st (Park.park_code p) sy ≠ []
             ∧ visits_in st (Park.park_code p) ey ≠ []).
Proof.
  intros Hpk. rewrite nil_iff_no_elem. split.
  - intros Hno p rg (Hp & Hrg & Hr & Hid & Hs & He).
    eapply Hno. apply (growth_stmt_complete st rid sy ey p rg); try done.
    by rewrite Hid.
  - intros Hno row Hrow.
    pose proof (growth_stmt_row st rid sy ey row Hpk Hrow) as Hspec.
    unfold growth_stmt in Hrow. cbv zeta in Hrow.
    apply list_elem_of_fmap in Hrow as (x & -> & Hx).
    apply list_elem_of_filter in Hx as (Hid & Hx).
    apply elem_of_join in Hx as (Hx & _ & _).
    apply elem_of_join in Hx as (Hx & _ & _).
    apply elem_of_join in Hx as (Hp & Hrg & Hon).
    simpl in Hspec. destruct Hspec as ((p & Hp' & Hc & _ & Hr) & _ & _ & _ & Hs & He).
    apply (Hno p x.1.1.2). rewrite Hc. done.
Qed.

(** What the interpreter raises while a response is computed is never an
    [HTTPException]. *)
Lemma float_of_int_raises z e : Py.float_of_int z = Raise e → e = OverflowError.
Proof. unfold Py.float_of_int. destruct (is_infinity _); by intros [= <-]. Qed.

Lemma float_truediv_raises x y e : Py.float_truediv x y = Raise e → e = ZeroDivisionError.
Proof. unfold Py.float_truediv. destruct (y =? 0)%float; by intros [= <-]. Qed.

Lemma sqrt_raises x e : Py.sqrt x = Raise e → e = ValueError.
Proof. unfold Py.sqrt. destruct (x <? 0)%float; by intros [= <-]. Qed.

Lemma float_or_0_raises x e : float_or_0 x = Raise e → e = OverflowError.
Proof.
  unfold float_or_0. destruct x as [v|]; [|done].
  destruct (v =? 0); [done|]. apply float_of_int_raises.
Qed.

Lemma variability_stats_raises n sum_v sum_v2 e status detail :
  variability_stats n sum_v sum_v2 = Raise e → e ≠ HTTPException status detail.
Proof.
  unfold variability_stats.
  destruct (float_or_0 sum_v) as [fsv|] eqn:E1; simpl;
    [|intros [= <-]; by apply float_or_0_raises in E1 as ->].
  destruct (float_or_0 sum_v2) as [fsv2|] eqn:E2; simpl;
    [|intros [= <-]; by apply float_or_0_raises in E2 as ->].
  destruct (Py.float_of_int n) as [fn|] eqn:E3; simpl;
    [|intros [= <-]; by apply float_of_int_raises in E3 as ->].
  destruct (Py.float_truediv fsv fn) as [mean|] eqn:E4; simpl;
    [|intros [= <-]; by apply float_truediv_raises in E4 as ->].
  destruct (Py.float_truediv fsv2 fn) as [msq|] eqn:E5; simpl;
    [|intros [= <-]; by apply float_truediv_raises in E5 as ->].
  destruct (Py.sqrt _) as [sd|] eqn:E6; simpl;
    [|intros [= <-]; by apply sqrt_raises in E6 as ->].
  destruct (Py.round mean) as [a|] eqn:E7; simpl;
    [|intros [= <-]; by apply round_raises in E7 as [->| ->]].
  destruct (Py.round sd) as [s|] eqn:E8; simpl;
    [done|intros [= <-]; by apply round_raises in E8 as [->| ->]].
Qed.

Lemma growth_pct_raises s t e status detail :
  growth_pct s t = Raise e → e ≠ HTTPException status detail.
Proof.
  unfold growth_pct. destruct (s =? 0); [done|].
  destruct (Py.float_of_int (t - s)) as [d|] eqn:E1; simpl;
    [|intros [= <-]; by apply float_of_int_raises in E1 as ->].
  destruct (Py.float_of_int s) as [fs|] eqn:E2; simpl;
    [|intros [= <-]; by apply float_of_int_raises in E2 as ->].
  destruct (Py.float_truediv _ fs) as [q|] eqn:E3; simpl;
    [|intros [= <-]; by apply float_truediv_raises in E3 as ->].
  intros [->| ->]%round_raises; done.
Qed.

Lemma percent_above_raises t avg e status detail :
  percent_above t avg = Raise e → e ≠ HTTPException status detail.
Proof.
  unfold percent_above. destruct (avg >? 0); [|done].
  destruct (Py.int_truediv _ _) as [f|] eqn:E1; simpl;
    [|intros [= <-]; by apply int_truediv_raises in E1 as [->| ->]].
  intros [->| ->]%round_raises; done.
Qed.

Lemma rounded_mean_raises totals e status detail :
  rounded_mean totals = Raise e → e ≠ HTTPException status detail.
Proof.
  unfold rounded_mean. rewrite py_sum_spec.
  destruct (bool_decide _); simpl; [by intros [= <-]|].
  destruct (Py.int_truediv _ _) as [f|] eqn:E1; simpl;
    [|intros [= <-]; by apply int_truediv_raises in E1 as [->| ->]].
  intros [->| ->]%round_raises; done.
Qed.

Lemma mapM_nil_inv {A B} (f : A → outcome B) l : mapM f l = Return [] → l = [].
Proof. intros H%mapM_Return_length. by destruct l. Qed.

Lemma monthly_series_not_found (st : Store) (c : string) (year threshold : Z) :
  response (park_monthly_visits_with_threshold c year threshold) st
  = Raise (HTTPException 404 "No visits for that park/year")
  ↔ visits_in st (Py.upper c) year = [].
Proof.
  rewrite <- monthly_visits_stmt_nil.
  unfold park_monthly_visits_with_threshold. run_handler.
  destruct (monthly_visits_stmt _ _ _); run_handler; split; done.
Qed.

Lemma month_change_not_found (st : Store) (c : string) (year : Z) :
  response (month_to_month_change c year) st
  = Raise (HTTPException 404 "No visits for that park/year")
  ↔ visits_in st (Py.upper c) year = [].
Proof.
  rewrite <- month_change_stmt_nil.
  unfold month_to_month_change. run_handler.
  destruct (month_change_stmt _ _ _); run_handler; split; done.
Qed.

Lemma growth_not_found (st : Store) (r : string) (sy ey : Z) :
  park_pk st → sy < ey →
  response (growth_by_region_over_time r sy ey) st
  = Raise (HTTPException 404 "No data for that region/years")
  ↔ ∀ p rg, ¬ (p ∈ parks st ∧ rg ∈ regions st
               ∧ Park.region_id p = Some (Py.upper r)
               ∧ Region.region_id rg = Py.upper r
               ∧ visits_in st (Park.park_code p) sy ≠ []
               ∧ visits_in st (Park.park_code p) ey ≠ []).
Proof.
  intros Hpk Hlt. rewrite <- (growth_stmt_nil st (Py.upper r) sy ey Hpk).
  unfold growth_by_region_over_time. replace (sy >=? ey) with false by lia.
  run_handler.
  destruct (growth_stmt _ _ _ _) as [|t ts] eqn:E; run_handler; [done|].
  split; [|done].
  destruct (mapM _ _) as [out|e] eqn:Em; run_handler; [done|].
  intros [= ->]. apply mapM_Raise in Em as (row & _ & Hraise).
  destruct row as [[[[[? ?] ?] ?] s0] e0]. simpl in Hraise.
  destruct (growth_pct _ _) eqn:Eg; simpl in Hraise; [done|].
  injection Hraise as ->. by eapply growth_pct_raises in Eg.
Qed.

Lemma variability_not_found (st : Store) (year : Z) (r c q : option string) (limit : Z) :
  park_pk st → region_pk st →
  response (park_visit_variability year r c q limit) st
  = Raise (HTTPException 404 "No data for that year/filters")
  ↔ ∀ p, ¬ (p ∈ parks st ∧ visits_in st (Park.park_code p) year ≠ []
            ∧ region_is (Py.upper <$> r) (region_of st p)
            ∧ park_filter (Py.upper <$> c) q p).
Proof.
  intros Hpk Hrk. rewrite <- (variability_stmt_nil st year _ _ q Hpk Hrk).
  unfold park_visit_variability. run_handler.
  destruct (variability_stmt _ _ _ _ _) as [|t ts] eqn:E; run_handler; [done|].
  split; [|done].
  destruct (mapM _ _) as [out|e] eqn:Em; run_handler; [done|].
  intros [= ->]. apply mapM_Raise in Em as (row & _ & Hraise).
  destruct row as [[[[[[[? ?] ?] ?] ?] n] sv] sv2]. simpl in Hraise.
  destruct (variability_stats _ _ _) eqn:Es; simpl in Hraise; [done|].
  injection Hraise as ->. by eapply variability_stats_raises in Es.
Qed.

Lemma above_average_not_found (st : Store) (year : Z) (r c q : option string) :
  park_pk st → region_pk st →
  (response (parks_above_system_average year r c q) st
   = Raise (HTTPException 404 "No data for that year/filters")
   ↔ ∀ code, ¬ in_scope st year (Py.upper <$> r) code)
  ∧ ((∀ p, p ∈ parks st → ¬ park_filter (Py.upper <$> c) q p) →
     ∀ out, response (parks_above_system_average year r c q) st = Return out → out = []).
Proof.
  intros Hpk Hrk. rewrite <- (annual_totals_stmt_nil st year _ Hpk).
  unfold parks_above_system_average. run_handler.
  destruct (annual_totals_stmt _ _ _) as [|t ts] eqn:E; run_handler; [done|].
  destruct (rounded_mean _) as [avg|e] eqn:Ea; run_handler.
  - split.
    + split; [|done].
      destruct (mapM _ _) as [out|e] eqn:Em; [done|].
      intros [= ->]. apply mapM_Raise in Em as (row & _ & Hraise).
      destruct row as [[[[[? ?] ?] ?] ?] total]. simpl in Hraise.
      destruct (percent_above _ _) eqn:Ep; simpl in Hraise; [done|].
      injection Hraise as ->. by eapply percent_above_raises in Ep.
    + intros Hnone out Hout.
      destruct (above_average_stmt _ _ _ _ _ _) as [|row rows] eqn:Er.
      * simpl in Hout. by injection Hout.
      * exfalso.
        assert (row ∈ above_average_stmt year avg (Py.upper <$> r) (Py.upper <$> c) q st)
          as Hrow by (rewrite Er; left).
        apply above_average_stmt_row in Hrow; [|done..].
        destruct row as [[[[[code ?] ?] ?] ?] ?].
        destruct Hrow as (_ & _ & _ & _ & p & Hp & _ & _ & Hf). by apply (Hnone p).
  - split; [|done]. split; [|done].
    intros [= ->]. by eapply rounded_mean_raises in Ea.
Qed.

(** The operations without a guard answer an empty scope with an empty
    array. *)
Lemma annual_visits_empty (st : Store) (year : Z) (r c q : option string)
    (min_total : option Z) (limit : Z) :
  park_pk st → region_pk st →
  (∀ p, ¬ annual_scope st year (Py.upper <$> r) (Py.upper <$> c) q min_total p) →
  response (annual_visits_by_park year r c q min_total limit) st = Return [].
Proof.
  intros Hpk Hrk Hnone.
  destruct (annual_visits_by_park_response st year r c q min_total limit Hpk Hrk)
    as (out & -> & Hin & _).
  f_equal. apply nil_iff_no_elem. intros rec (p & Hp & _)%Hin. by apply (Hnone p).
Qed.

Lemma average_monthly_empty (st : Store) (sy ey : Z) (r c q : option string) (limit : Z) :
  park_pk st → region_pk st → sy ≤ ey →
  (∀ p, ¬ (p ∈ parks st ∧ visits_between st (Park.park_code p) sy ey ≠ []
           ∧ region_is (Py.upper <$> r) (region_of st p)
           ∧ park_filter (Py.upper <$> c) q p)) →
  response (average_monthly_visits_by_park sy ey r c q limit) st = Return [].
Proof.
  intros Hpk Hrk Hle Hnone.
  unfold average_monthly_visits_by_park. replace (sy >? ey) with false by lia.
  run_handler.
  assert (average_monthly_stmt sy ey (Py.upper <$> r) (Py.upper <$> c) q limit st = [])
    as ->; [|done].
  apply nil_iff_no_elem. intros row Hrow.
  unfold average_monthly_stmt in Hrow. cbv zeta in Hrow.
  apply elem_of_limit, elem_of_order_by_desc in Hrow.
  apply (average_rows_elem st Hpk Hrk) in Hrow as (p & Hp & Hne & Hr & Hf & _).
  by apply (Hnone p).
Qed.

Lemma peak_season_empty (st : Store) (year threshold : Z) (r : option string) :
  park_pk st → region_pk st →
  (∀ p, ¬ (p ∈ parks st ∧ summer_visits st (Park.park_code p) year ≠ []
           ∧ region_is (Py.upper <$> r) (region_of st p)
           ∧ SQL.real_ge (SQL.avg (MonthlyVisit.total_visits
                                     <$> summer_visits st (Park.park_code p) year))
                         threshold = true)) →
  response (peak_season_above_threshold year threshold r) st = Return [].
Proof.
  intros Hpk Hrk Hnone.
  unfold peak_season_above_threshold. run_handler.
  assert (peak_season_stmt year threshold (Py.upper <$> r) st = []) as ->; [|done].
  apply nil_iff_no_elem. intros row Hrow.
  unfold peak_season_stmt in Hrow. cbv zeta in Hrow.
  apply elem_of_order_by_desc, list_elem_of_filter in Hrow as (Hge & Hrow).
  apply (peak_rows_elem st Hpk Hrk) in Hrow as (p & Hp & Hne & Hr & ->).
  apply (Hnone p). repeat split; try done. simpl in Hge. by apply Is_true_true.
Qed.

Lemma top_parks_empty (st : Store) (year limit : Z) (r q : option string) :
  park_pk st →
  (∀ p, ¬ (p ∈ parks st ∧ visits_in st (Park.park_code p) year ≠ []
           ∧ when (Py.upper <$> r) (λ rid, Park.region_id p = Some rid)
           ∧ when q (λ q, Py.contains (Py.lower q) (Py.lower (Park.park_name p)) = true))) →
  response (top_parks_by_year year limit r q) st = Return [].
Proof.
  intros Hpk Hnone. unfold top_parks_by_year. run_handler. f_equal.
  apply fmap_nil_iff, nil_iff_no_elem. intros row Hrow%elem_of_slice_to.
  assert (row ∈ rank_stmt year (Py.upper <$> r) st
          ∧ when q (λ q, Py.contains (Py.lower q) (Py.lower row.1.1.2) = true))
    as (Hin & Hq).
  { destruct q as [q|]; simpl; [|done].
    apply list_elem_of_filter in Hrow as (Hc & Hin). split; [done|].
    by apply Is_true_eq_true. }
  pose proof (rank_stmt_row _ _ _ _ Hin) as (p & Hp & Hk & Hr).
  pose proof (rank_stmt_total _ _ _ _ Hpk Hin) as (_ & Hne).
  destruct row as [[[code name] y] total]. simpl in *. injection Hk as -> -> ->.
  by apply (Hnone p).
Qed.

Lemma region_totals_empty (st : Store) (year : Z) (r : option string) :
  region_pk st →
  (∀ rg, ¬ (rg ∈ regions st
            ∧ when (Py.upper <$> r) (λ rid, Region.region_id rg = rid)
            ∧ region_visits st (Region.region_id rg) year ≠ [])) →
  response (annual_visits_by_region year r) st = Return [].
Proof.
  intros Hrk Hnone. unfold annual_visits_by_region. run_handler.
  assert (region_totals_stmt year (Py.upper <$> r) st = []) as ->; [|done].
  apply nil_iff_no_elem.
  intros row (rg & Hrg & Hr & Hne & _)%(region_rows_elem st Hrk). by apply (Hnone rg).
Qed.

Lemma metric_empty (st : Store) (year : Z) (metric : string) (r : option string)
    (limit : Z) :
  park_pk st → region_pk st → is_Some (allowed !! metric) →
  (∀ p, ¬ (p ∈ parks st ∧ visits_in st (Park.park_code p) year ≠ []
           ∧ region_is (Py.upper <$> r) (region_of st p))) →
  response (parks_by_metric year metric r limit) st = Return [].
Proof.
  intros Hpk Hrk (col & Hcol) Hnone.
  destruct (parks_by_metric_response st year metric r limit Hpk Hrk) as (_ & Hgood).
  destruct (Hgood col Hcol) as (out & -> & Hin & _).
  f_equal. apply nil_iff_no_elem. intros rec (p & Hp & _)%Hin. by apply (Hnone p).
Qed.

(** C6, as the code has it: the operations split in two conventions, told
    apart by what they do when no stored row matches the filters.  The
    monthly series, the month-to-month change, the growth (over a well-ordered
    window) and the variability fail with a 404 exactly then; the
    above-average operation fails with a 404 exactly when no park of the year
    and region has a row, and a park or name filter that matches no park leaves
    it with an empty array.  The annual totals by park, the average over a
    range, the peak season, the top-N, the region totals and the metric sum
    return an empty array.  Whatever the store and the parameters, the first
    four never return an empty array and the last six never fail with a 404.
    The years, the limits, the minimum total and the threshold that a
    statement takes are integers the database accepts. *)
Theorem empty_result_is_not_found_or_empty_array (st : Store) :
  park_pk st → region_pk st →
  (* NotFound, exactly when no row matches *)
  ((∀ c year threshold, sqlite_integer year →
      (response (park_monthly_visits_with_threshold c year threshold) st
       = Raise (HTTPException 404 "No visits for that park/year")
       ↔ visits_in st (Py.upper c) year = []))
   ∧ (∀ c year, sqlite_integer year →
        (response (month_to_month_change c year) st
         = Raise (HTTPException 404 "No visits for that park/year")
         ↔ visits_in st (Py.upper c) year = []))
   ∧ (∀ r start_year end_year,
        sqlite_integer start_year → sqlite_integer end_year → start_year < end_year →
        (response (growth_by_region_over_time r start_year end_year) st
         = Raise (HTTPException 404 "No data for that region/years")
         ↔ ∀ p rg, ¬ (p ∈ parks st ∧ rg ∈ regions st
                      ∧ Park.region_id p = Some (Py.upper r)
                      ∧ Region.region_id rg = Py.upper r
                      ∧ visits_in st (Park.park_code p) start_year ≠ []
                      ∧ visits_in st (Park.park_code p) end_year ≠ [])))
   ∧ (∀ year r c q limit, sqlite_integer year →
        (response (park_visit_variability year r c q limit) st
         = Raise (HTTPException 404 "No data for that year/filters")
         ↔ ∀ p, ¬ (p ∈ parks st ∧ visits_in st (Park.park_code p) year ≠ []
                   ∧ region_is (Py.upper <$> r) (region_of st p)
                   ∧ park_filter (Py.upper <$> c) q p)))
   ∧ (∀ year r c q, sqlite_integer year →
        (response (parks_above_system_average year r c q) st
         = Raise (HTTPException 404 "No data for that year/filters")
         ↔ ∀ code, ¬ in_scope st year (Py.upper <$> r) code)
        ∧ ((∀ p, p ∈ parks st → ¬ park_filter (Py.upper <$> c) q p) →
           ∀ out, response (parks_above_system_average year r c q) st = Return out →
                  out = [])))
  (* an empty array when no row matches *)
  ∧ ((∀ year r c q min_total limit,
        sqlite_integer year → sqlite_integer limit → when min_total sqlite_integer →
        (∀ p, ¬ annual_scope st year (Py.upper <$> r) (Py.upper <$> c) q min_total p) →
        response (annual_visits_by_park year r c q min_total limit) st = Return [])
     ∧ (∀ start_year end_year r c q limit,
          sqlite_integer start_year → sqlite_integer end_year → sqlite_integer limit →
          start_year ≤ end_year →
          (∀ p, ¬ (p ∈ parks st
                   ∧ visits_between st (Park.park_code p) start_year end_year ≠ []
                   ∧ region_is (Py.upper <$> r) (region_of st p)
                   ∧ park_filter (Py.upper <$> c) q p)) →
          response (average_monthly_visits_by_park start_year end_year r c q limit) st
          = Return [])
     ∧ (∀ year threshold r, sqlite_integer year → sqlite_integer threshold →
          (∀ p, ¬ (p ∈ parks st ∧ summer_visits st (Park.park_code p) year ≠ []
                   ∧ region_is (Py.upper <$> r) (region_of st p)
                   ∧ SQL.real_ge (SQL.avg (MonthlyVisit.total_visits
                                             <$> summer_visits st (Park.park_code p) year))
                                 threshold = true)) →
          response (peak_season_above_threshold year threshold r) st = Return [])
     ∧ (∀ year limit r q, sqlite_integer year →
          (∀ p, ¬ (p ∈ parks st ∧ visits_in st (Park.park_code p) year ≠ []
                   ∧ when (Py.upper <$> r) (λ rid, Park.region_id p = Some rid)
                   ∧ when q (λ q, Py.contains (Py.lower q) (Py.lower (Park.park_name p))
                                  = true))) →
          response (top_parks_by_year year limit r q) st = Return [])
     ∧ (∀ year r, sqlite_integer year →
          (∀ rg, ¬ (rg ∈ regions st
                    ∧ when (Py.upper <$> r) (λ rid, Region.region_id rg = rid)
                    ∧ region_visits st (Region.region_id rg) year ≠ [])) →
          response (annual_visits_by_region year r) st = Return [])
     ∧ (∀ year metric r limit, sqlite_integer year → sqlite_integer limit →
          is_Some (allowed !! metric) →
          (∀ p, ¬ (p ∈ parks st ∧ visits_in st (Park.park_code p) year ≠ []
                   ∧ region_is (Py.upper <$> r) (region_of st p))) →
          response (parks_by_metric year metric r limit) st = Return []))
  (* never an empty array *)
  ∧ ((∀ c y threshold,
        response (park_monthly_visits_with_threshold c y threshold) st ≠ Return [])
     ∧ (∀ c y, response (month_to_month_change c y) st ≠ Return [])
     ∧ (∀ r sy ey, response (growth_by_region_over_time r sy ey) st ≠ Return [])
     ∧ (∀ y r c q limit, response (park_visit_variability y r c q limit) st ≠ Return []))
  (* never a 404 *)
  ∧ ((∀ y r c q min_total limit detail,
        response (annual_visits_by_park y r c q min_total limit) st
        ≠ Raise (HTTPException 404 detail))
     ∧ (∀ sy ey r c q limit detail,
          response (average_monthly_visits_by_park sy ey r c q limit) st
          ≠ Raise (HTTPException 404 detail))
     ∧ (∀ y threshold r detail,
          response (peak_season_above_threshold y threshold r) st
          ≠ Raise (HTTPException 404 detail))
     ∧ (∀ y limit r q detail,
          response (top_parks_by_year y limit r q) st ≠ Raise (HTTPException 404 detail))
     ∧ (∀ y r detail,
          response (annual_visits_by_region y r) st ≠ Raise (HTTPException 404 detail))
     ∧ (∀ y metric r limit detail,
          response (parks_by_metric y metric r limit) st
          ≠ Raise (HTTPException 404 detail))).
Proof.
  intros Hpk Hrk. split; [|split; [|split]].
  - split; [|split; [|split; [|split]]].
    + intros c year threshold _. apply monthly_series_not_found.
    + intros c year _. apply month_change_not_found.
    + intros r sy ey _ _ Hlt. by apply growth_not_found.
    + intros year r c q limit _. by apply variability_not_found.
    + intros year r c q _. by apply above_average_not_found.
  - split; [|split; [|split; [|split; [|split]]]].
    + intros year r c q min_total limit _ _ _. by apply annual_visits_empty.
    + intros sy ey r c q limit _ _ _ Hle. by apply average_monthly_empty.
    + intros year threshold r _ _. by apply peak_season_empty.
    + intros year limit r q _. by apply top_parks_empty.
    + intros year r _. by apply region_totals_empty.
    + intros year metric r limit _ _. by apply metric_empty.
  - repeat split; intros.
    + unfold park_monthly_visits_with_threshold. run_handler.
      destruct (monthly_visits_stmt _ _ _); run_handler; discriminate.
    + unfold month_to_month_change. run_handler.
      destruct (month_change_stmt _ _ _); run_handler; discriminate.
    + unfold growth_by_region_over_time.
      destruct (sy >=? ey); run_handler; [discriminate|].
      destruct (growth_stmt _ _ _ _) as [|t ts] eqn:E; run_handler; [discriminate|].
      destruct (mapM _ _) as [out|] eqn:Em; run_handler; [|discriminate].
      intros [= Hout%sort_by_nil_inv]. apply mapM_Return_length in Em.
      by rewrite Hout in Em.
    + unfold park_visit_variability. run_handler.
      destruct (variability_stmt _ _ _ _ _) as [|t ts] eqn:E; run_handler; [discriminate|].
      destruct (mapM _ _) as [out|] eqn:Em; run_handler; [|discriminate].
      apply mapM_Return_length in Em.
      intros [= Hout].
      assert (order_by_desc Z.leb VariabilityOut.std_dev_monthly_visits out = []) as Hs.
      { destruct (limit >? 0) eqn:El; [|done].
        unfold Py.slice_to in Hout. replace (limit <? 0) with false in Hout by lia.
        destruct (order_by_desc _ _ out); [done|].
        destruct (Z.to_nat limit) eqn:En; [lia|]. done. }
      apply sort_by_nil_inv in Hs. by rewrite Hs in Em.
  - repeat split; intros.
    + unfold annual_visits_by_park. run_handler. discriminate.
    + unfold average_monthly_visits_by_park.
      destruct (sy >? ey); run_handler; [discriminate|].
      intros (row & _ & Hraise)%mapM_Raise.
      destruct row as [[[[? ?] ?] ?] avg]. simpl in Hraise.
      destruct (round_or_0 avg) eqn:Er; [done|].
      simpl in Hraise. injection Hraise as ->.
      by apply round_or_0_raises in Er as [|].
    + unfold peak_season_above_threshold. run_handler.
      intros (row & _ & Hraise)%mapM_Raise.
      destruct row as [[[[? ?] ?] ?] avg]. simpl in Hraise.
      destruct (round_or_0 avg) eqn:Er; [done|].
      simpl in Hraise. injection Hraise as ->.
      by apply round_or_0_raises in Er as [|].
    + unfold top_parks_by_year. run_handler. discriminate.
    + unfold annual_visits_by_region. run_handler. discriminate.
    + unfold parks_by_metric. destruct (allowed !! metric); run_handler; discriminate.
Qed.

Lemma empty_result_witness :
  park_pk sample_store ∧ region_pk sample_store
  ∧ sqlite_integer 2020 ∧ sqlite_integer 100
  (* no park has the code NONE, in a year that has rows *)
  ∧ visits_in sample_store "NONE" 2020 = []
  ∧ response (park_monthly_visits_with_threshold "none" 2020 0) sample_store
    = Raise (HTTPException 404 "No visits for that park/year")
  ∧ response (park_visit_variability 2020 None (Some "none") None 10) sample_store
    = Raise (HTTPException 404 "No data for that year/filters")
  ∧ response (annual_visits_by_park 2020 None (Some "none") None None 100) sample_store
    = Return []
  (* no row is stored for 2019 *)
  ∧ response (annual_visits_by_park 2019 None None None None 100) sample_store = Return [].
Proof.
  assert (park_pk sample_store) as Hpk.
  { unfold park_pk. apply (bool_decide_unpack _). vm_compute. exact I. }
  assert (region_pk sample_store) as Hrk.
  { unfold region_pk. apply (bool_decide_unpack _). vm_compute. exact I. }
  assert (sqlite_integer 2020) as H2020 by (unfold sqlite_integer; lia).
  assert (sqlite_integer 2019) as H2019 by (unfold sqlite_integer; lia).
  assert (sqlite_integer 100) as H100 by (unfold sqlite_integer; lia).
  assert (∀ p, p ∈ parks sample_store → Park.park_code p ≠ "NONE") as Hcode.
  { intros p Hp. apply list_elem_of_In in Hp. simpl in Hp.
    repeat (destruct Hp as [<-|Hp]; [discriminate|]). destruct Hp. }
  split; [exact Hpk|]. split; [exact Hrk|]. split; [exact H2020|]. split; [exact H100|].
  split; [reflexivity|].
  destruct (empty_result_is_not_found_or_empty_array sample_store Hpk Hrk)
    as ((Hseries & _ & _ & Hvar & _) & (Hannual & _) & _).
  split; [by apply (Hseries "none" 2020 0 H2020)|].
  split.
  { apply (Hvar 2020 None (Some "none") None 10 H2020).
    intros p (Hp & _ & _ & Hf). by apply (Hcode p). }
  split.
  - apply (Hannual 2020 None (Some "none") None None 100 H2020 H100 I).
    intros p (Hp & _ & _ & Hf & _). by apply (Hcode p).
  - apply (Hannual 2019 None None None None 100 H2019 H100 I).
    intros p (_ & Hne & _). apply Hne. apply nil_iff_no_elem.
    intros m ((_ & Hy) & Hm)%list_elem_of_filter.
    apply list_elem_of_In in Hm. simpl in Hm.
    repeat (destruct Hm as [<-|Hm]; [discriminate|]). destruct Hm.
Defined.
